(** * NebulaBayes: the model grids of [NB1_Process_grids.py]

    A shallow embedding of [RegularGridResampler] (its constructor,
    [_find_weights], [_cartesian_prod] and [__call__]) and of its caller
    [interpolate_flux_arrays], together with the properties the specification
    states about them.  The development then goes on to the code around
    them: the grid description of [Grid_description] and [NB_Grid], the raw
    grids of [construct_raw_grids], and the input checks and normalisation
    of [_process_observed_data] in [NB0_Main.py], each with properties read
    off the code.

    Numbers.  The Python code computes in IEEE binary64.  Here every real
    quantity is an exact rational ([Qc], canonical fractions with Leibniz
    equality), so the theorems are the exact-arithmetic statements of the
    specification; rounding is not modelled.  Index arrays are arrays of
    integers ([Z]): the code forms [searchsorted(...) - 1], which is [-1]
    before clipping, and Python indexing accepts negative indices.  Where
    the code tests for values that are not finite, or fills an array with
    NaN, a value is a [float]: a rational, an infinity or NaN.  The flux
    arrays of the raw grid are such arrays, so [__call__] is read a second
    time, in the arithmetic of [float], for [interpolate_flux_arrays]; the
    two readings are shown to agree on arrays of numbers.

    Library code.  numpy, pandas and itertools are not part of the
    repository; the few functions used ([diff], [linspace], [searchsorted],
    [clip], [repeat], [prod], [unique], [sort], fancy indexing, broadcasting
    of 1-D operands, [itertools.product], selection of columns and lookup by
    label in a DataFrame) are modelled after their documented behaviour,
    each next to its use. *)

From Stdlib Require Import String.
From Stdlib Require Import List ZArith QArith Qcanon Lia Lqa Psatz Bool Arith Sorted
  Permutation.
Import ListNotations.
Local Open Scope string_scope.
Local Open Scope list_scope.
Local Open Scope nat_scope.

Set Implicit Arguments.

(** ** Exceptions and the result monad *)

Inductive exn : Type :=
| ValueError (msg : string)
| IndexError
| KeyError
| AttributeError
| AssertionError.

Inductive result (A : Type) : Type :=
| Ok (a : A)
| Raise (e : exn).

Arguments Ok {A} a.
Arguments Raise {A} e.

Definition bind {A B : Type} (r : result A) (f : A -> result B) : result B :=
  match r with
  | Ok a => f a
  | Raise e => Raise e
  end.

Notation "x <- c1 ;; c2" := (bind c1 (fun x => c2))
  (at level 61, c1 at next level, right associativity).

Fixpoint mapM {A B : Type} (f : A -> result B) (l : list A) : result (list B) :=
  match l with
  | [] => Ok []
  | x :: l' => y <- f x ;; ys <- mapM f l' ;; Ok (y :: ys)
  end.

Fixpoint foldM {A S : Type} (f : S -> A -> result S) (l : list A) (s : S)
  : result S :=
  match l with
  | [] => Ok s
  | x :: l' => s' <- f s x ;; foldM f l' s'
  end.

Definition is_ValueError {A : Type} (r : result A) : Prop :=
  exists msg, r = Raise (ValueError msg).

Definition succeeds {A : Type} (r : result A) : Prop :=
  exists a, r = Ok a.

(** ** Comparisons on exact rationals *)

Definition Qcltb (x y : Qc) : bool :=
  match (x ?= y)%Qc with Lt => true | _ => false end.

Definition Qcleb (x y : Qc) : bool :=
  match (x ?= y)%Qc with Gt => false | _ => true end.

Definition Qcabs' (x : Qc) : Qc := if Qcltb x 0%Qc then (- x)%Qc else x.

Definition Qc_of_Z (z : Z) : Qc := Q2Qc (inject_Z z).
Definition Qc_of_nat (n : nat) : Qc := Qc_of_Z (Z.of_nat n).

(** ** Python sequences *)

Section Sequences.
Context {A : Type}.

(** [a[i]] for a Python integer [i]: negative indices count from the end,
    anything outside [-len, len) raises IndexError. *)
Definition getitem (a : list A) (i : Z) : result A :=
  let len := Z.of_nat (length a) in
  let i' := if (i <? 0)%Z then (i + len)%Z else i in
  if ((0 <=? i')%Z && (i' <? len)%Z)%bool
  then match nth_error a (Z.to_nat i') with
       | Some x => Ok x
       | None => Raise IndexError
       end
  else Raise IndexError.

(** [a[idx]] for an integer index array [idx] (1-D fancy indexing). *)
Definition take (a : list A) (idx : list Z) : result (list A) :=
  mapM (getitem a) idx.

(** [np.repeat(a, m)]: every element repeated [m] times in a row. *)
Definition np_repeat (a : list A) (m : nat) : list A :=
  flat_map (fun x => repeat x m) a.

(** [enumerate(l)]. *)
Definition enumerate (l : list A) : list (nat * A) :=
  combine (seq 0 (length l)) l.

(** [itertools.product] of the pools: tuples in lexicographic order, the last
    pool advancing fastest; one empty tuple for no pools. *)
Fixpoint itertools_product (pools : list (list A)) : list (list A) :=
  match pools with
  | [] => [[]]
  | p :: rest =>
      flat_map (fun x => map (cons x) (itertools_product rest)) p
  end.

(** Assignment [dst[...] = v] of a 1-D value [v] to a 1-D slice of [n]
    cells: shapes must agree, or [v] has one element, which is broadcast. *)
Definition assign_1d (n : nat) (v : list A) : result (list A) :=
  if length v =? n then Ok v
  else match v with
       | [x] => Ok (repeat x n)
       | _ => Raise (ValueError "could not broadcast input array")
       end.
End Sequences.

(** [np.prod] of a list of sizes. *)
Definition np_prod (l : list nat) : nat := fold_right Nat.mul 1 l.

(** ** numpy on 1-D float arrays *)

Definition np_diff (p : list Qc) : list Qc :=
  match p with
  | [] => []
  | _ :: tl => map (fun ab => (snd ab - fst ab)%Qc) (combine p tl)
  end.

(** [np.any(arr <= 0.)]. *)
Definition any_nonpos (d : list Qc) : bool :=
  existsb (fun x => Qcleb x 0%Qc) d.

(** [np.linspace(start, stop, num)] (endpoint included): [num] samples
    [start + i * step] with [step = (stop - start) / (num - 1)], and the last
    sample stored as [stop] itself when [num > 1]. *)
Definition np_linspace (start stop : Qc) (num : nat) : list Qc :=
  let div := (num - 1)%nat in
  let step := ((stop - start) / Qc_of_nat div)%Qc in
  let y := map (fun i => (Qc_of_nat i * step + start)%Qc) (seq 0 num) in
  if (1 <? num)%nat then removelast y ++ [stop] else y.

(** [np.searchsorted(a, v)] with the default [side='left'] on an ascending
    array [a]: the insertion index [i] with [a[i-1] < v <= a[i]], that is the
    number of elements of [a] strictly below [v]. *)
Fixpoint searchsorted1 (a : list Qc) (v : Qc) : nat :=
  match a with
  | [] => 0
  | x :: a' => if Qcltb x v then S (searchsorted1 a' v) else 0
  end.

Definition np_searchsorted (a v : list Qc) : list Z :=
  map (fun x => Z.of_nat (searchsorted1 a x)) v.

(** [np.clip(a, lo, hi)] is [minimum(maximum(a, lo), hi)]. *)
Definition np_clip (a : list Z) (lo hi : Z) : list Z :=
  map (fun x => Z.min (Z.max x lo) hi) a.

(** Elementwise binary operation on 1-D arrays with numpy broadcasting: equal
    lengths, or one operand of length one. *)
Definition broadcast2 {A B C : Type} (f : A -> B -> C)
    (a : list A) (b : list B) : result (list C) :=
  if length a =? length b then Ok (map (fun xy => f (fst xy) (snd xy)) (combine a b))
  else match a, b with
       | [x], _ => Ok (map (f x) b)
       | _, [y] => Ok (map (fun x => f x y) a)
       | _, _ => Raise (ValueError "operands could not be broadcast together")
       end.

(** In-place [dst op= src]: [src] is broadcast to the shape of [dst], which
    does not change. *)
Definition inplace2 {A B : Type} (f : A -> B -> A)
    (dst : list A) (src : list B) : result (list A) :=
  if length src =? length dst
  then Ok (map (fun xy => f (fst xy) (snd xy)) (combine dst src))
  else match src with
       | [y] => Ok (map (fun x => f x y) dst)
       | _ => Raise (ValueError "non-broadcastable output operand")
       end.

(** [np.linspace] refuses a negative number of samples. *)
Definition linspace (start stop : Qc) (num : Z) : result (list Qc) :=
  if (num <? 0)%Z
  then Raise (ValueError "Number of samples must be non-negative")
  else Ok (np_linspace start stop (Z.to_nat num)).

(** ** N-dimensional arrays

    A numpy array in C order: its shape and its elements, flattened so that
    the last index advances fastest. *)

Record ndarray : Type := mk_ndarray { shape : list nat; data : list Qc }.

Definition ndarray_wf (a : ndarray) : Prop :=
  length (data a) = np_prod (shape a).

(** ** Values that are not finite

    A Python float is a finite number (exact, as everywhere in this file)
    or one of the three values that are not finite.  They matter in two
    places: in the checks of the observed data, and in the flux arrays of
    the raw grid, which start out filled with NaN.  An array that has
    passed [np.isfinite] is an array of numbers. *)

Inductive float : Type :=
| Finite (q : Qc)
| PosInf
| NegInf
| NaN.

(** The array as numbers when [np.all(np.isfinite(a))], and nothing when
    [np.any(~np.isfinite(a))]. *)
Fixpoint finite_values (a : list float) : option (list Qc) :=
  match a with
  | [] => Some []
  | Finite q :: a' =>
      match finite_values a' with
      | Some qs => Some (q :: qs)
      | None => None
      end
  | _ :: _ => None
  end.

(** An array of floats, in C order. *)
Record farray : Type := mk_farray {
  fshape : list nat;
  fdata : list float
}.

(** An array of numbers, as an array of floats. *)
Definition of_ndarray (a : ndarray) : farray :=
  {| fshape := shape a; fdata := map Finite (data a) |}.

(** [x * w] and [x + y] in IEEE arithmetic, [w] a finite number: exact on
    finite numbers; NaN from NaN, from zero times an infinity and from the
    sum of the two infinities; an infinity otherwise. *)
Definition fmul (x : float) (w : Qc) : float :=
  match x with
  | Finite q => Finite (q * w)
  | PosInf => if Qcltb 0 w then PosInf else if Qcltb w 0 then NegInf else NaN
  | NegInf => if Qcltb 0 w then NegInf else if Qcltb w 0 then PosInf else NaN
  | NaN => NaN
  end.

Definition fadd (x y : float) : float :=
  match x, y with
  | Finite a, Finite b => Finite (a + b)
  | NaN, _ | _, NaN => NaN
  | PosInf, NegInf | NegInf, PosInf => NaN
  | PosInf, _ | _, PosInf => PosInf
  | NegInf, _ | _, NegInf => NegInf
  end.

(** One index against an axis of length [d], Python style. *)
Definition norm_index (d : nat) (i : Z) : result nat :=
  let i' := if (i <? 0)%Z then (i + Z.of_nat d)%Z else i in
  if ((0 <=? i')%Z && (i' <? Z.of_nat d)%Z)%bool
  then Ok (Z.to_nat i')
  else Raise IndexError.

(** Flat offsets selected by a tuple of integer index arrays, one array per
    axis ([arr[(idx_0, ..., idx_{n-1})]]): the index arrays are checked
    against their axes, broadcast against each other, and point [t] reads
    offset [sum_k idx_k[t] * stride_k].  A tuple longer than the shape is an
    IndexError; a shorter one would select sub-arrays, which [__call__]
    never asks for (it has checked the shape) and which is refused here. *)
Fixpoint flat_offsets (shp : list nat) (inds : list (list Z))
  : result (list nat) :=
  match shp, inds with
  | [], [] => Ok [0]
  | d :: shp', a :: inds' =>
      ia <- mapM (norm_index d) a ;;
      rest <- flat_offsets shp' inds' ;;
      broadcast2 (fun i r => i * np_prod shp' + r) ia rest
  | _, _ => Raise IndexError
  end.

Definition item (a : ndarray) (off : nat) : result Qc :=
  match nth_error (data a) off with
  | Some x => Ok x
  | None => Raise IndexError
  end.

Definition fancy_index (a : ndarray) (inds : list (list Z))
  : result (list Qc) :=
  offs <- flat_offsets (shape a) inds ;;
  mapM (item a) offs.

(** [v.reshape(new_shape)] of a 1-D array: the element count must match.
    (numpy also accepts one entry [-1]; the constructor has checked every
    entry of [out_shape] to be at least 2.) *)
Definition reshape (v : list Qc) (new_shape : list Z) : result ndarray :=
  if (forallb (fun d => (0 <=? d)%Z) new_shape
      && (fold_right Z.mul 1%Z new_shape =? Z.of_nat (length v))%Z)%bool
  then Ok {| shape := map Z.to_nat new_shape; data := v |}
  else Raise (ValueError "cannot reshape array").

(** [rows[:, k]] of a 2-D array held as a list of rows. *)
Definition column {A : Type} (k : nat) (rows : list (list A))
  : result (list A) :=
  mapM (fun r => match nth_error r k with
                 | Some x => Ok x
                 | None => Raise IndexError
                 end) rows.

(** Python dictionaries keyed by tuples of integers, in insertion order.
    The keys inserted below are pairwise distinct. *)
Definition dict (V : Type) : Type := list (list Z * V).

Definition dict_get {V : Type} (d : dict V) (key : list Z) : result V :=
  match find (fun kv => if list_eq_dec Z.eq_dec (fst kv) key
                        then true else false) d with
  | Some kv => Ok (snd kv)
  | None => Raise KeyError
  end.

(** ** [RegularGridResampler._cartesian_prod]

    The method fills a buffer [out] in place.  [_cartesian_prod_into nrows]
    is one activation with a buffer of [nrows] rows and returns the rows it
    leaves in it.  The buffer has [n] rows at the outer call and [m] rows (a
    leading slice [out[0:m, 1:]]) at a recursive one.
    - [n = np.prod(sizes)], [m = n // arrays[0].size]; for an empty first
      array numpy's integer division yields 0, as [Nat.div] does;
    - [out[:,0] = np.repeat(arrays[0], m)] is the assignment [assign_1d];
    - the recursion fills the first [m] rows of the remaining columns, and
      the loop copies that block to rows [j*m .. (j+1)*m) for every further
      element [j] of [arrays[0]]. *)

Section CartesianProd.
Context {A : Type}.

Fixpoint _cartesian_prod_into (nrows : nat) (arrays : list (list A))
  : result (list (list A)) :=
  match arrays with
  | [] => Raise IndexError
  | a0 :: rest =>
      let n := np_prod (map (@length A) (a0 :: rest)) in
      let m := n / length a0 in
      col0 <- assign_1d nrows (np_repeat a0 m) ;;
      match rest with
      | [] => Ok (map (fun x => [x]) col0)
      | _ :: _ =>
          sub <- _cartesian_prod_into (Nat.min m nrows) rest ;;
          Ok (map (fun xr => fst xr :: snd xr)
                  (combine col0 (concat (repeat sub (length a0)))))
      end
  end.

(** The call with [out=None]: [arrays[0].dtype] is read first, then the
    buffer is allocated with [n] rows. *)
Definition _cartesian_prod (arrays : list (list A))
  : result (list (list A)) :=
  match arrays with
  | [] => Raise IndexError
  | _ :: _ => _cartesian_prod_into (np_prod (map (@length A) arrays)) arrays
  end.
End CartesianProd.

(** ** [RegularGridResampler] *)

Record RegularGridResampler : Type := mk_resampler {
  in_points : list (list Qc);
  in_shape : list nat;
  ndim : nat;
  out_shape : list Z;
  out_points : list (list Qc);
  lower_edge_inds : list (list Z);
  norm_distances : list (list Qc);
  weights : dict (list Qc);
  fancy_inds_all : dict (list (list Z))
}.

(** The edge keys: [itertools.product] of [ndim] copies of [[0, 1]]. *)
Definition edge_keys (nd : nat) : list (list Z) :=
  itertools_product (repeat [0%Z; 1%Z] nd).

(** [_find_weights]. *)
Definition _find_weights (nd : nat) (norm_dists : list (list Qc))
  : result (dict (list Qc)) :=
  let weights_upper := norm_dists in
  upper_all <- _cartesian_prod weights_upper ;;
  let lower_all := map (map (fun x => (1 - x)%Qc)) upper_all in
  let weights_all_l_u := [lower_all; upper_all] in
  mapM (fun all_j =>
          combined_weights <-
            foldM (fun combined kj =>
                     w <- getitem weights_all_l_u (snd kj) ;;
                     c <- column (fst kj) w ;;
                     inplace2 Qcmult combined c)
                  (enumerate all_j)
                  (repeat 1%Qc (length upper_all)) ;;
          Ok (all_j, combined_weights))
       (edge_keys nd).

(** The body of the loop over the dimensions in [__init__]: lower edge
    indices and normalised distances of one axis. *)
Definition axis_edges (p_out p_in : list Qc) : result (list Z * list Qc) :=
  let i_vec := map (fun i => (i - 1)%Z) (np_searchsorted p_in p_out) in
  let i_vec := np_clip i_vec 0 (Z.of_nat (length p_in) - 2) in
  let p_in_diff := np_diff p_in in
  lo <- take p_in i_vec ;;
  num <- broadcast2 Qcminus p_out lo ;;
  den <- take p_in_diff i_vec ;;
  nd <- broadcast2 Qcdiv num den ;;
  Ok (i_vec, nd).

(** The tests at the head of [__init__] and the construction of one output
    axis.  Arrays are 1-D by their type, so the [p.ndim != 1] test cannot
    fire. *)
Definition check_axis (p : list Qc) : result unit :=
  if any_nonpos (np_diff p)
  then Raise (ValueError "Points arrays must be strictly ascending")
  else Ok tt.

Definition check_len (n_p : Z) : result unit :=
  if (n_p <? 2)%Z
  then Raise (ValueError "Each output dimension needs at least 2 points")
  else Ok tt.

Definition make_axis (pn : list Qc * Z) : result (list Qc) :=
  p0 <- getitem (fst pn) 0%Z ;;
  pl <- getitem (fst pn) (-1)%Z ;;
  linspace p0 pl (snd pn).

(** [__init__]. *)
Definition __init__ (in_pts : list (list Qc)) (out_shp : list Z)
  : result RegularGridResampler :=
  let in_shp := map (@length Qc) in_pts in
  let nd := length in_pts in
  _ <- mapM check_axis in_pts ;;
  if negb (length out_shp =? nd)
  then Raise (ValueError "The output array must have the same number of dimensions as the input array")
  else
  _ <- mapM check_len out_shp ;;
  out_pts <- mapM make_axis (combine in_pts out_shp) ;;
  edges <- mapM (fun oi => axis_edges (fst oi) (snd oi))
                (combine out_pts in_pts) ;;
  let lower := map fst edges in
  let dists := map snd edges in
  wts <- _find_weights nd dists ;;
  prod_arr <- _cartesian_prod lower ;;
  fancy_inds_lower <- mapM (fun i => column i prod_arr) (seq 0 nd) ;;
  let fancy :=
    map (fun all_j =>
           (all_j, map (fun ja => map (fun x => (x + fst ja)%Z) (snd ja))
                       (combine all_j fancy_inds_lower)))
        (edge_keys nd) in
  Ok {| in_points := in_pts; in_shape := in_shp; ndim := nd;
        out_shape := out_shp; out_points := out_pts;
        lower_edge_inds := lower; norm_distances := dists;
        weights := wts; fancy_inds_all := fancy |}.

(** [__call__]. *)
Definition __call__ (self : RegularGridResampler) (in_grid_values : ndarray)
  : result (list (list Qc) * ndarray) :=
  if list_eq_dec Nat.eq_dec (shape in_grid_values) (in_shape self)
  then
    let total := fold_right Z.mul 1%Z (out_shape self) in
    if (total <? 0)%Z
    then Raise (ValueError "negative dimensions are not allowed")
    else
      out_values <-
        foldM (fun out_values kv =>
                 edge_fancy_inds <- dict_get (fancy_inds_all self) (fst kv) ;;
                 g <- fancy_index in_grid_values edge_fancy_inds ;;
                 t <- broadcast2 Qcmult g (snd kv) ;;
                 inplace2 Qcplus out_values t)
              (weights self)
              (repeat 0%Qc (Z.to_nat total)) ;;
      out_grid_values <- reshape out_values (out_shape self) ;;
      Ok (out_points self, out_grid_values)
  else Raise (ValueError "Shape of grid array doesn't match shape of this RegularGridResampler").

(** [__call__] on an array of floats.  The method is the same; the flux
    arrays of the raw grid that [interpolate_flux_arrays] hands to it can
    hold NaN, so there the cells are [float]s, the weights are numbers, and
    the sum is accumulated in the arithmetic of [float]. *)
Definition fitem (a : farray) (off : nat) : result float :=
  match nth_error (fdata a) off with
  | Some x => Ok x
  | None => Raise IndexError
  end.

Definition ffancy_index (a : farray) (inds : list (list Z))
  : result (list float) :=
  offs <- flat_offsets (fshape a) inds ;;
  mapM (fitem a) offs.

Definition freshape (v : list float) (new_shape : list Z) : result farray :=
  if (forallb (fun d => (0 <=? d)%Z) new_shape
      && (fold_right Z.mul 1%Z new_shape =? Z.of_nat (length v))%Z)%bool
  then Ok {| fshape := map Z.to_nat new_shape; fdata := v |}
  else Raise (ValueError "cannot reshape array").

Definition __call___float (self : RegularGridResampler) (in_grid_values : farray)
  : result (list (list Qc) * farray) :=
  if list_eq_dec Nat.eq_dec (fshape in_grid_values) (in_shape self)
  then
    let total := fold_right Z.mul 1%Z (out_shape self) in
    if (total <? 0)%Z
    then Raise (ValueError "negative dimensions are not allowed")
    else
      out_values <-
        foldM (fun out_values kv =>
                 edge_fancy_inds <- dict_get (fancy_inds_all self) (fst kv) ;;
                 g <- ffancy_index in_grid_values edge_fancy_inds ;;
                 t <- broadcast2 fmul g (snd kv) ;;
                 inplace2 fadd out_values t)
              (weights self)
              (repeat (Finite 0%Qc) (Z.to_nat total)) ;;
      out_grid_values <- freshape out_values (out_shape self) ;;
      Ok (out_points self, out_grid_values)
  else Raise (ValueError "Shape of grid array doesn't match shape of this RegularGridResampler").

(** ** Grid descriptions and [interpolate_flux_arrays] *)

(** [collections.OrderedDict]: keys in insertion order; assigning to a key
    already present replaces its value where it stands. *)
Section OrderedDict.
Context {K V : Type} (K_eq_dec : forall x y : K, {x = y} + {x <> y}).

Definition od : Type := list (K * V).

Fixpoint od_set (d : od) (k : K) (v : V) : od :=
  match d with
  | [] => [(k, v)]
  | (k', v') :: d' =>
      if K_eq_dec k' k then (k, v) :: d' else (k', v') :: od_set d' k v
  end.

Fixpoint od_get (d : od) (k : K) : result V :=
  match d with
  | [] => Raise KeyError
  | (k', v') :: d' => if K_eq_dec k' k then Ok v' else od_get d' k
  end.

(** [OD(pairs)]. *)
Definition od_of_list (l : list (K * V)) : od :=
  fold_left (fun d kv => od_set d (fst kv) (snd kv)) l [].
End OrderedDict.

Arguments od : clear implicits.

(** What [NB_Grid.grids] holds under a name: a flux array (raw grids),
    whose cells can be NaN, or a dictionary of flux arrays (interpolated
    grids, one per normalisation), which have passed [np.isfinite]. *)
Inductive grid_entry : Type :=
| Arr (a : farray)
| Sub (d : od string ndarray).

Record NB_Grid : Type := mk_grid {
  param_names : list string;
  param_values_arrs : list (list Qc);
  grid_ndim : nat;
  grid_shape : list nat;
  n_gridpoints : nat;
  paramName2ind : od string nat;
  paramName2paramValueArr : od string (list Qc);
  paramNameAndValue2arrayInd : od (string * Qc) nat;
  paramName2paramMinMax : od string (Qc * Qc);
  grids : od string grid_entry
}.

Definition name_value_dec (x y : string * Qc) : {x = y} + {x <> y}.
Proof. decide equality; [apply Qc_eq_dec | apply string_dec]. Defined.

Definition Qcmin (x y : Qc) : Qc := if Qcleb x y then x else y.
Definition Qcmax (x y : Qc) : Qc := if Qcleb x y then y else x.

(** [a.min()] and [a.max()]: no value for an empty array. *)
Definition arr_min (a : list Qc) : result Qc :=
  match a with
  | [] => Raise (ValueError "zero-size array to reduction operation minimum")
  | x :: a' => Ok (fold_left Qcmin a' x)
  end.

Definition arr_max (a : list Qc) : result Qc :=
  match a with
  | [] => Raise (ValueError "zero-size array to reduction operation maximum")
  | x :: a' => Ok (fold_left Qcmax a' x)
  end.

(** [Grid_description.__init__], as run by [NB_Grid.__init__], which adds the
    empty [grids] dictionary. *)
Definition NB_Grid_init (names : list string) (value_arrs : list (list Qc))
  : result NB_Grid :=
  if negb (length names =? length value_arrs) then Raise AssertionError else
  let nd := length names in
  let shp := map (@length Qc) value_arrs in
  let name2arr := od_of_list string_dec (combine names value_arrs) in
  let name_value2ind :=
    fold_left (fun d pa =>
                 fold_left (fun d iv => od_set name_value_dec d
                                               (fst pa, snd iv) (fst iv))
                           (enumerate (snd pa)) d)
              name2arr [] in
  min_max <- mapM (fun pa => lo <- arr_min (snd pa) ;;
                             hi <- arr_max (snd pa) ;;
                             Ok (fst pa, (lo, hi))) name2arr ;;
  Ok {| param_names := names; param_values_arrs := value_arrs;
        grid_ndim := nd; grid_shape := shp; n_gridpoints := np_prod shp;
        paramName2ind := od_of_list string_dec (combine names (seq 0 nd));
        paramName2paramValueArr := name2arr;
        paramNameAndValue2arrayInd := name_value2ind;
        paramName2paramMinMax := od_of_list string_dec min_max;
        grids := [] |}.

(** The grid [G] once its [grids] dictionary holds [g]: the state that
    [construct_raw_grids] leaves behind, which builds the description with
    [NB_Grid(grid_params, param_val_arrs_raw)] and then stores one flux array
    per emission line under [Raw_grids.grids]. *)
Definition with_grids (G : NB_Grid) (g : od string grid_entry) : NB_Grid :=
  {| param_names := param_names G;
     param_values_arrs := param_values_arrs G;
     grid_ndim := grid_ndim G; grid_shape := grid_shape G;
     n_gridpoints := n_gridpoints G; paramName2ind := paramName2ind G;
     paramName2paramValueArr := paramName2paramValueArr G;
     paramNameAndValue2arrayInd := paramNameAndValue2arrayInd G;
     paramName2paramMinMax := paramName2paramMinMax G;
     grids := g |}.

(** [np.allclose(a, b)] against a scalar [b], default tolerances:
    [|a - b| <= atol + rtol * |b|] with [rtol = 1e-05], [atol = 1e-08]. *)
Definition np_allclose (a : list Qc) (b : Qc) : bool :=
  forallb (fun x => Qcleb (Qcabs' (x - b))
                          (Q2Qc (1 # 100000000) + Q2Qc (1 # 100000) * Qcabs' b)%Qc)
          a.

(** [np.array_equal] of two 1-D arrays. *)
Definition np_array_equal (a b : list Qc) : bool :=
  if list_eq_dec Qc_eq_dec a b then true else false.

(** [np.clip(a, 0., None, out=a)]: the array is overwritten with its values
    clipped from below at zero. *)
Definition clip_nonneg (a : ndarray) : ndarray :=
  {| shape := shape a; data := map (Qcmax 0%Qc) (data a) |}.

Definition assertM (b : bool) : result unit :=
  if b then Ok tt else Raise AssertionError.

(** [assert np.all(np.isfinite(a))]: the array that passes is an array of
    numbers. *)
Definition assert_finite (a : farray) : result ndarray :=
  match finite_values (fdata a) with
  | Some d => Ok {| shape := fshape a; data := d |}
  | None => Raise AssertionError
  end.

(** [interpolate_flux_arrays].  The [print] calls are left out.  [grids] of
    the raw grid holds arrays; an entry of another kind has no [shape]
    attribute. *)
Definition interpolate_flux_arrays (Raw_grids : NB_Grid) (interpd_shape : list Z)
  : result NB_Grid :=
  val_arrs_interp <-
    mapM (fun pn => mm <- od_get string_dec (paramName2paramMinMax Raw_grids) (fst pn) ;;
                    linspace (fst mm) (snd mm) (snd pn))
         (combine (param_names Raw_grids) interpd_shape) ;;
  Interpd_grids <- NB_Grid_init (param_names Raw_grids) val_arrs_interp ;;
  _ <- mapM (fun arr => let arr_diff := np_diff arr in
                        d0 <- getitem arr_diff 0%Z ;;
                        assertM (np_allclose arr_diff d0))
            (param_values_arrs Interpd_grids) ;;
  Interpolator <- __init__ (param_values_arrs Raw_grids)
                       (map Z.of_nat (grid_shape Interpd_grids)) ;;
  no_norm <-
    foldM (fun (no_norm : od string ndarray) kv =>
             match snd kv with
             | Arr raw_flux_arr =>
                 r <- __call___float Interpolator raw_flux_arr ;;
                 interp_arr <- assert_finite (snd r) ;;
                 let no_norm := od_set string_dec no_norm (fst kv) interp_arr in
                 _ <- mapM (fun aa => assertM (np_array_equal (fst aa) (snd aa)))
                           (combine (fst r) (param_values_arrs Interpd_grids)) ;;
                 Ok no_norm
             | Sub _ => Raise AttributeError
             end)
          (grids Raw_grids) [] ;;
  _ <- getitem no_norm 0%Z ;;
  let no_norm := map (fun kv => (fst kv, clip_nonneg (snd kv))) no_norm in
  Ok {| param_names := param_names Interpd_grids;
        param_values_arrs := param_values_arrs Interpd_grids;
        grid_ndim := grid_ndim Interpd_grids;
        grid_shape := grid_shape Interpd_grids;
        n_gridpoints := n_gridpoints Interpd_grids;
        paramName2ind := paramName2ind Interpd_grids;
        paramName2paramValueArr := paramName2paramValueArr Interpd_grids;
        paramNameAndValue2arrayInd := paramNameAndValue2arrayInd Interpd_grids;
        paramName2paramMinMax := paramName2paramMinMax Interpd_grids;
        grids := od_set string_dec (grids Interpd_grids) "No_norm" (Sub no_norm) |}.

(** ** Vocabulary of the statements *)

(** A valid axis: strictly ascending (hence without duplicates), at least
    two points. *)
Definition valid_axis (p : list Qc) : Prop :=
  Sorted Qclt p /\ 2 <= length p.

Definition valid_config (in_pts : list (list Qc)) (out_shp : list Z) : Prop :=
  length out_shp = length in_pts
  /\ Forall (fun n_p => (2 <= n_p)%Z) out_shp
  /\ Forall valid_axis in_pts.

(** The three tests at the head of the constructor. *)
Definition checks_pass (in_pts : list (list Qc)) (out_shp : list Z) : Prop :=
  Forall (Sorted Qclt) in_pts
  /\ length out_shp = length in_pts
  /\ Forall (fun n_p => (2 <= n_p)%Z) out_shp.

(** [j] is the largest index of [a] whose element satisfies [P], and [-1]
    when no element does. *)
Definition largest_index (P : Qc -> Prop) (a : list Qc) (j : Z) : Prop :=
  (-1 <= j < Z.of_nat (length a))%Z
  /\ (j <> (-1)%Z -> P (nth (Z.to_nat j) a 0%Qc))
  /\ (forall i, Z.to_nat (j + 1) <= i < length a -> ~ P (nth i a 0%Qc)).

(** The rule for the lower edge index and the normalised distance along one
    axis, with the comparison [below] left open: the index stored for an
    output coordinate [v] is the largest index [j0] of the input axis with
    [below axis_in[j0] v], clipped into [[0, len - 2]], and the distance is
    [(v - axis_in[j]) / (axis_in[j+1] - axis_in[j])]. *)
Definition edges_rule (below : Qc -> Qc -> Prop)
    (p_in p_out : list Qc) (lo : list Z) (dist : list Qc) : Prop :=
  length lo = length p_out /\ length dist = length p_out
  /\ forall i v,
       nth_error p_out i = Some v ->
       exists j0,
         largest_index (fun x => below x v) p_in j0
         /\ nth i lo 0%Z = Z.min (Z.max j0 0) (Z.of_nat (length p_in) - 2)
         /\ nth i dist 0%Qc
            = let j := Z.to_nat (nth i lo 0%Z) in
              ((v - nth j p_in 0) / (nth (S j) p_in 0 - nth j p_in 0))%Qc.

Definition unit_interval (u : Qc) : Prop := (0 <= u)%Qc /\ (u <= 1)%Qc.

Definition is_bit (j : Z) : Prop := j = 0%Z \/ j = 1%Z.

(** Row-major (C order) offset of a multi-index. *)
Fixpoint ravel (shp idx : list nat) : nat :=
  match shp, idx with
  | _ :: shp', i :: idx' => i * np_prod shp' + ravel shp' idx'
  | _, _ => 0
  end.

(** [field[idx]] for a multi-index [idx]. *)
Definition at_index (field : ndarray) (idx : list nat) : Qc :=
  nth (ravel (shape field) idx) (data field) 0%Qc.

(** [idx] is a multi-index into the product of [pools], and [row] is the
    combination it picks: element [idx_k] of pool [k], for every [k]. *)
Definition multi_index {A : Type} (idx : list nat) (pools : list (list A)) : Prop :=
  Forall2 (fun i a => i < length a) idx pools.

Definition picks {A : Type} (idx : list nat) (pools : list (list A))
    (row : list A) : Prop :=
  Forall2 (fun x ia => nth_error (snd ia) (fst ia) = Some x) row (combine idx pools).

(** ** Closed forms

    What the constructor and the call compute, written without the error
    monad; the properties below first show the code equal to these. *)

(** Sample [i] of [np.linspace(start, stop, num)]. *)
Definition linspace_point (start stop : Qc) (num i : nat) : Qc :=
  (Qc_of_nat i * ((stop - start) / Qc_of_nat (num - 1)) + start)%Qc.

(** The output coordinates of one axis. *)
Definition out_axis (p : list Qc) (n_p : Z) : list Qc :=
  np_linspace (nth 0 p 0%Qc) (nth (length p - 1) p 0%Qc) (Z.to_nat n_p).

(** The lower edge index and the normalised distance that [axis_edges]
    computes for one output coordinate [v], in closed form. *)
Definition lower_edge (p_in : list Qc) (v : Qc) : Z :=
  Z.min (Z.max (Z.of_nat (searchsorted1 p_in v) - 1) 0)
        (Z.of_nat (length p_in) - 2).

Definition norm_distance (p_in : list Qc) (v : Qc) : Qc :=
  let j := Z.to_nat (lower_edge p_in v) in
  ((v - nth j p_in 0) / (nth (S j) p_in 0 - nth j p_in 0))%Qc.

(** The weight of one corner ("edge") at one output point, in closed form:
    along each axis the normalised distance [u] for the upper side ([j = 1])
    and [1 - u] for the lower side ([j = 0]), multiplied over the axes in
    the order of the loop in [_find_weights]. *)
Definition axis_weight (j : Z) (u : Qc) : Qc :=
  if (j =? 0)%Z then (1 - u)%Qc else u.

Definition edge_weight (all_j : list Z) (u : list Qc) : Qc :=
  fold_left (fun acc ju => (acc * axis_weight (fst ju) (snd ju))%Qc)
            (combine all_j u) 1%Qc.

(** The corner [all_j] of the input cell whose lowest corner is [cell]. *)
Definition corner_index (cell all_j : list Z) : list nat :=
  map (fun cj => Z.to_nat (fst cj + snd cj)) (combine cell all_j).

Definition corner_value (field : ndarray) (cell all_j : list Z) : Qc :=
  at_index field (corner_index cell all_j).

(** Every corner of the cell is a valid index into an array of shape [shp]. *)
Fixpoint corner_in_range (shp : list nat) (cell all_j : list Z) : Prop :=
  match shp, cell, all_j with
  | [], [], [] => True
  | d :: shp', c :: cell', j :: all_j' =>
      (0 <= c + j < Z.of_nat d)%Z /\ corner_in_range shp' cell' all_j'
  | _, _, _ => False
  end.

(** The multilinear interpolant of [field] at a point of cell [cell] with
    normalised distances [u]: the sum that [__call__] accumulates, edge by
    edge, for one output point. *)
Definition interp (nd : nat) (field : ndarray) (cell : list Z) (u : list Qc)
  : Qc :=
  fold_left (fun acc e =>
               (acc + corner_value field cell e * edge_weight e u)%Qc)
            (edge_keys nd) 0%Qc.

Definition Qcsum (l : list Qc) : Qc := fold_right Qcplus 0%Qc l.

(** Multilinear interpolation as iterated linear interpolation, one axis
    after the other, of a function [F] of the corner. *)
Fixpoint multilin (F : list Z -> Qc) (us : list Qc) : Qc :=
  match us with
  | [] => F []
  | u :: us' =>
      ((1 - u) * multilin (fun e => F (0%Z :: e)) us'
       + u * multilin (fun e => F (1%Z :: e)) us')%Qc
  end.

Definition fancy_inds (nd : nat) (lower : list (list Z)) (all_j : list Z)
  : list (list Z) :=
  map (fun ja => map (fun x => (x + fst ja)%Z) (snd ja))
      (combine all_j
               (map (fun k => map (fun row => nth k row 0%Z)
                                  (itertools_product lower))
                    (seq 0 nd))).

(** The resampler that the constructor builds. *)
Definition resampler_of (in_pts : list (list Qc)) (out_shp : list Z)
  : RegularGridResampler :=
  let axes := combine in_pts out_shp in
  let nd := length in_pts in
  let lower :=
    map (fun pn => map (lower_edge (fst pn)) (out_axis (fst pn) (snd pn))) axes in
  let dists :=
    map (fun pn => map (norm_distance (fst pn)) (out_axis (fst pn) (snd pn))) axes in
  {| in_points := in_pts;
     in_shape := map (@length Qc) in_pts;
     ndim := nd;
     out_shape := out_shp;
     out_points := map (fun pn => out_axis (fst pn) (snd pn)) axes;
     lower_edge_inds := lower;
     norm_distances := dists;
     weights :=
       map (fun e => (e, map (edge_weight e) (itertools_product dists)))
           (edge_keys nd);
     fancy_inds_all := map (fun e => (e, fancy_inds nd lower e)) (edge_keys nd) |}.

(** An output point, axis by axis: the input axis together with the output
    coordinate on it.  [sample_points] lists the output points in the order
    of the flat output vector. *)
Definition sample : Type := (list Qc * Qc)%type.

Definition axis_samples (pn : list Qc * Z) : list sample :=
  map (pair (fst pn)) (out_axis (fst pn) (snd pn)).

Definition sample_points (in_pts : list (list Qc)) (out_shp : list Z)
  : list (list sample) :=
  itertools_product (map axis_samples (combine in_pts out_shp)).

Definition cell_of (pt : list sample) : list Z :=
  map (fun s => lower_edge (fst s) (snd s)) pt.

Definition dists_of (pt : list sample) : list Qc :=
  map (fun s => norm_distance (fst s) (snd s)) pt.

(** The array that [__call__] returns. *)
Definition resample (in_pts : list (list Qc)) (out_shp : list Z)
    (field : ndarray) : ndarray :=
  {| shape := map Z.to_nat out_shp;
     data := map (fun pt => interp (length in_pts) field (cell_of pt) (dists_of pt))
                 (sample_points in_pts out_shp) |}.

(** ** Worked configurations

    The 1-D and the 2-D example of the specification, a configuration whose
    output grid is its input grid, a raw grid with one parameter and one
    emission line whose flux array holds a negative value, with the grid
    interpolated from it, and a raw grid whose parameter has a single
    value. *)

Definition ex_axis : list Qc := [Qc_of_Z 0; Qc_of_Z 10; Qc_of_Z 20].

Definition ex_field : ndarray :=
  {| shape := [3]; data := [Qc_of_Z 0; Qc_of_Z 100; Qc_of_Z 0] |}.

Definition ex_resampler : RegularGridResampler :=
  match __init__ [ex_axis] [5%Z] with
  | Ok r => r
  | Raise _ => resampler_of [] []
  end.

Definition ex2_axes : list (list Qc) :=
  [[Qc_of_Z 0; Qc_of_Z 1]; [Qc_of_Z 0; Qc_of_Z 2]].

Definition ex2_field : ndarray :=
  {| shape := [2; 2]; data := [Qc_of_Z 0; Qc_of_Z 0; Qc_of_Z 0; Qc_of_Z 4] |}.

Definition ex2_resampler : RegularGridResampler :=
  match __init__ ex2_axes [3%Z; 3%Z] with
  | Ok r => r
  | Raise _ => resampler_of [] []
  end.

Definition same_axes : list (list Qc) :=
  [[Qc_of_Z 0; Qc_of_Z 1; Qc_of_Z 2]; [Qc_of_Z 0; Qc_of_Z 5]].

Definition same_field : ndarray :=
  {| shape := [3; 2];
     data := [Qc_of_Z 1; Qc_of_Z (-2); Qc_of_Z 3; Qc_of_Z 4; Qc_of_Z 0; Qc_of_Z 7] |}.

Definition same_resampler : RegularGridResampler :=
  match __init__ same_axes [3%Z; 2%Z] with
  | Ok r => r
  | Raise _ => resampler_of [] []
  end.

Definition empty_grid : NB_Grid :=
  {| param_names := []; param_values_arrs := []; grid_ndim := 0;
     grid_shape := []; n_gridpoints := 1; paramName2ind := [];
     paramName2paramValueArr := []; paramNameAndValue2arrayInd := [];
     paramName2paramMinMax := []; grids := [] |}.

Definition ex_raw_grids : NB_Grid :=
  match NB_Grid_init ["p"] [ex_axis] with
  | Ok g =>
      with_grids g [("Hbeta",
                     Arr {| fshape := [3];
                            fdata := [Finite (Qc_of_Z (-4)); Finite (Qc_of_Z 100);
                                      Finite (Qc_of_Z 0)] |})]
  | Raise _ => empty_grid
  end.

(** A raw grid whose one parameter has a single value. *)
Definition single_value_grid : NB_Grid :=
  match NB_Grid_init ["p"] [[Qc_of_Z 5]] with
  | Ok g =>
      with_grids g [("Hbeta",
                     Arr {| fshape := [1]; fdata := [Finite (Qc_of_Z 7)] |})]
  | Raise _ => empty_grid
  end.

Definition ex_interpd_grids : NB_Grid :=
  match interpolate_flux_arrays ex_raw_grids [5%Z] with
  | Ok g => g
  | Raise _ => empty_grid
  end.

(** ** Observed data: [_process_observed_data] of [NB0_Main.py]

    The measured fluxes arrive as Python floats, so an input value is a
    [float]: the checks of the input are there to refuse the values that
    are not finite. *)

(** [np.isclose(a, b)] of two scalars, default tolerances. *)
Definition np_isclose (a b : Qc) : bool :=
  Qcleb (Qcabs' (a - b))
        (Q2Qc (1 # 100000000) + Q2Qc (1 # 100000) * Qcabs' b)%Qc.

(** The table of the observations: the line names index the rows; the
    column of wavelengths is left out when none were given. *)
Record DataFrame_obs : Type := mk_obs {
  Line : list string;
  Wavelength : option (list Qc);
  Flux : list Qc;
  Flux_err : list Qc;
  norm_line : string
}.

(** [DF.loc[label, column]] on a table with unique row labels. *)
Fixpoint loc {A : Type} (index : list string) (column : list A) (label : string)
  : result A :=
  match index, column with
  | l :: index', x :: column' =>
      if string_dec l label then Ok x else loc index' column' label
  | _, _ => Raise KeyError
  end.

Definition check_wavelengths (n_measured : nat) (obs_wavelengths : list float)
  : result (list Qc) :=
  if negb (length obs_wavelengths =? n_measured)
  then Raise (ValueError "obs_wavelengths must have same length as obs_fluxes")
  else match finite_values obs_wavelengths with
       | None => Raise (ValueError "The wavelength for an emission line isn't finite.")
       | Some w =>
           if existsb (fun x => Qcleb x 0%Qc) w
           then Raise (ValueError "The wavelength for an emission line not positive.")
           else Ok w
       end.

(** [_process_observed_data]. *)
Definition _process_observed_data (obs_fluxes obs_flux_errors : list float)
    (obs_emission_lines : list string) (obs_wavelengths : option (list float))
    (norm_line : string) : result DataFrame_obs :=
  let n_measured := length obs_emission_lines in
  if (negb (length obs_fluxes =? n_measured)
      || negb (length obs_flux_errors =? n_measured))%bool
  then Raise (ValueError "Inputs obs_fluxes, obs_flux_errors and obs_emission_lines don't all have the same length.")
  else if negb (length (nodup string_dec obs_emission_lines) =? n_measured)
  then Raise (ValueError "obs_emission_lines line names are not all unique")
  else if n_measured <? 2
  then Raise (ValueError "At least two observed lines are required (one is for normalising)")
  else
  wavelengths <- match obs_wavelengths with
                 | Some w => w' <- check_wavelengths n_measured w ;; Ok (Some w')
                 | None => Ok None
                 end ;;
  fluxes <- match finite_values obs_fluxes with
            | None => Raise (ValueError "The measured flux for an emission line isn't finite.")
            | Some f =>
                if existsb (fun x => Qcltb x 0%Qc) f
                then Raise (ValueError "The measured flux for an emission line is negative.")
                else Ok f
            end ;;
  errors <- match finite_values obs_flux_errors with
            | None => Raise (ValueError "The flux error for an emission line isn't finite.")
            | Some e =>
                if existsb (fun x => Qcleb x 0%Qc) e
                then Raise (ValueError "The flux error for an emission line is not positive.")
                else Ok e
            end ;;
  if negb (existsb (fun l => if string_dec l norm_line then true else false)
                   obs_emission_lines)
  then Raise (ValueError ("norm_line '" ++ norm_line
                          ++ "' not found in input line names"))
  else
  norm_flux <- loc obs_emission_lines fluxes norm_line ;;
  if Qc_eq_bool norm_flux 0%Qc
  then Raise (ValueError ("The obs flux for norm_line (" ++ norm_line ++ ") is 0"))
  else
  let Flux' := map (fun x => (x / norm_flux)%Qc) fluxes in
  let Flux_err' := map (fun x => (x / norm_flux)%Qc) errors in
  normed <- loc obs_emission_lines Flux' norm_line ;;
  _ <- assertM (np_isclose normed 1%Qc) ;;
  Ok {| Line := obs_emission_lines; Wavelength := wavelengths;
        Flux := Flux'; Flux_err := Flux_err'; norm_line := norm_line |}.

(** Every value of the input array is a finite number that satisfies [P]. *)
Definition finite_all (P : Qc -> Prop) (a : list float) : Prop :=
  Forall (fun x => exists q, x = Finite q /\ P q) a.

(** The observations that [_process_observed_data] accepts: one flux and
    one error per line name, the names unique and at least two of them;
    wavelengths, when given, one per line, finite and positive; the fluxes
    finite and not negative, the errors finite and positive; and the flux
    measured for [norm_line] not zero. *)
Definition valid_observed (obs_fluxes obs_flux_errors : list float)
    (obs_emission_lines : list string) (obs_wavelengths : option (list float))
    (norm_line : string) : Prop :=
  length obs_fluxes = length obs_emission_lines
  /\ length obs_flux_errors = length obs_emission_lines
  /\ NoDup obs_emission_lines
  /\ 2 <= length obs_emission_lines
  /\ (forall w, obs_wavelengths = Some w ->
                length w = length obs_emission_lines
                /\ finite_all (fun q => (0 < q)%Qc) w)
  /\ finite_all (fun q => (0 <= q)%Qc) obs_fluxes
  /\ finite_all (fun q => (0 < q)%Qc) obs_flux_errors
  /\ exists q, loc obs_emission_lines obs_fluxes norm_line = Ok (Finite q)
               /\ q <> 0%Qc.

(** Three observed lines. *)
Definition ex_obs_lines : list string := ["Hbeta"; "OIII5007"; "Halpha"].

Definition ex_obs_fluxes : list Qc := [Qc_of_Z 2; Qc_of_Z 6; Qc_of_Z 5].

Definition ex_obs_errors : list Qc := [Qc_of_Z 1; Qc_of_Z 1; Qc_of_Z 2].

Definition ex_obs_table : DataFrame_obs :=
  match _process_observed_data (map Finite ex_obs_fluxes) (map Finite ex_obs_errors)
                               ex_obs_lines None "Hbeta" with
  | Ok d => d
  | Raise _ => {| Line := []; Wavelength := None; Flux := []; Flux_err := [];
                  norm_line := "Hbeta" |}
  end.

(** ** Raw grids: [construct_raw_grids]

    The table of the model grid is a pandas DataFrame: column labels and
    rows.  Its cells are numbers: [read_gridfile] leaves every line column
    finite, and the parameter columns are taken to be finite as well.  A
    flux array starts out filled with NaN, so its cells are [float]s. *)

Record DataFrame : Type := mk_df {
  df_columns : list string;
  df_rows : list (list Qc)
}.

(** The position of the column labelled [c]; a label that is not there is
    a KeyError. *)
Fixpoint col_index (cols : list string) (c : string) : result nat :=
  match cols with
  | [] => Raise KeyError
  | c' :: cols' =>
      if string_dec c' c then Ok 0 else i <- col_index cols' c ;; Ok (S i)
  end.

Definition cell (row : list Qc) (j : nat) : result Qc :=
  match nth_error row j with
  | Some x => Ok x
  | None => Raise IndexError
  end.

(** [DF[c].values]. *)
Definition df_column (DF : DataFrame) (c : string) : result (list Qc) :=
  j <- col_index (df_columns DF) c ;;
  mapM (fun row => cell row j) (df_rows DF).

(** [DF[cols]] for a list of labels. *)
Definition df_select (DF : DataFrame) (cols : list string) : result DataFrame :=
  js <- mapM (col_index (df_columns DF)) cols ;;
  rows <- mapM (fun row => mapM (cell row) js) (df_rows DF) ;;
  Ok {| df_columns := cols; df_rows := rows |}.

(** [np.unique]: the distinct values, ascending. *)
Fixpoint insert_unique (x : Qc) (l : list Qc) : list Qc :=
  match l with
  | [] => [x]
  | y :: l' =>
      if Qcltb x y then x :: y :: l'
      else if Qc_eq_bool x y then y :: l'
      else y :: insert_unique x l'
  end.

Definition np_unique (l : list Qc) : list Qc := fold_right insert_unique [] l.

(** [np.sort]. *)
Fixpoint insert_sorted (x : Qc) (l : list Qc) : list Qc :=
  match l with
  | [] => [x]
  | y :: l' => if Qcleb x y then x :: y :: l' else y :: insert_sorted x l'
  end.

Definition np_sort (l : list Qc) : list Qc := fold_right insert_sorted [] l.

(** [np.zeros(shape) + np.nan]. *)
Definition nan_array (shp : list nat) : farray :=
  {| fshape := shp; fdata := repeat NaN (np_prod shp) |}.

Fixpoint list_update {A : Type} (l : list A) (k : nat) (v : A) : list A :=
  match l, k with
  | [], _ => []
  | _ :: l', 0 => v :: l'
  | x :: l', S k' => x :: list_update l' k' v
  end.

(** [a[tuple(inds)] = v] for one index per axis: an index out of its axis
    is an IndexError. *)
Definition setitem (a : farray) (inds : list nat) (v : float) : result farray :=
  if (length inds =? length (fshape a))
     && forallb (fun id => fst id <? snd id) (combine inds (fshape a))
  then Ok {| fshape := fshape a;
             fdata := list_update (fdata a) (ravel (fshape a) inds) v |}
  else Raise IndexError.

(** [construct_raw_grids].  The description of the raw grid and the
    [grids] dictionary that the function has filled are returned side by
    side: the object [Raw_grids] of the source is the description [G] with
    [grids] set to the arrays, [with_grids G] of the arrays as [Arr]
    entries. *)
Definition construct_raw_grids (DF_grid : DataFrame)
    (grid_params lines_list : list string)
  : result (NB_Grid * od string farray) :=
  param_val_arrs_raw <-
    mapM (fun p => col <- df_column DF_grid p ;; Ok (np_sort (np_unique col)))
         grid_params ;;
  Raw_grids <- NB_Grid_init grid_params param_val_arrs_raw ;;
  if negb (n_gridpoints Raw_grids =? length (df_rows DF_grid))
  then Raise (ValueError "The input model grid table does not have a consistent length.")
  else
  let columns := grid_params ++ lines_list in
  DF_grid <- df_select DF_grid columns ;;
  let grids0 :=
    fold_left (fun g emission_line =>
                 od_set string_dec g emission_line
                        (nan_array (grid_shape Raw_grids)))
              lines_list [] in
  grids <-
    foldM (fun g row_tuple =>
             let row_vals := od_of_list string_dec (combine columns row_tuple) in
             row_p_inds <-
               mapM (fun p => v <- od_get string_dec row_vals p ;;
                              od_get name_value_dec
                                     (paramNameAndValue2arrayInd Raw_grids) (p, v))
                    grid_params ;;
             foldM (fun g line =>
                      v <- od_get string_dec row_vals line ;;
                      a <- od_get string_dec g line ;;
                      a' <- setitem a row_p_inds (Finite v) ;;
                      Ok (od_set string_dec g line a'))
                   lines_list g)
          (df_rows DF_grid) grids0 ;;
  line0 <- getitem lines_list 0%Z ;;
  _ <- od_get string_dec grids line0 ;;
  Ok (Raw_grids, grids).

(** A table of a 2 x 2 grid with one emission line, the rows out of order. *)
Definition ex_table : DataFrame :=
  {| df_columns := ["q"; "Hbeta"; "p"];
     df_rows := [[Qc_of_Z 7; Qc_of_Z 40; Qc_of_Z 1];
                 [Qc_of_Z 5; Qc_of_Z 10; Qc_of_Z 0];
                 [Qc_of_Z 5; Qc_of_Z 30; Qc_of_Z 1];
                 [Qc_of_Z 7; Qc_of_Z 20; Qc_of_Z 0]] |}.

(** A well-formed table: distinct column labels, every row with one cell
    per column. *)
Definition df_wf (DF : DataFrame) : Prop :=
  NoDup (df_columns DF)
  /\ Forall (fun row => length row = length (df_columns DF)) (df_rows DF).

(** The cell of [row] in the column labelled [c]. *)
Definition row_value (cols : list string) (row : list Qc) (c : string) : Qc :=
  match col_index cols c with
  | Ok j => nth j row 0%Qc
  | Raise _ => 0%Qc
  end.

Definition column_values (DF : DataFrame) (c : string) : list Qc :=
  map (fun row => row_value (df_columns DF) row c) (df_rows DF).

(** The axes of the raw grid: for each parameter the distinct values of its
    column, ascending. *)
Definition raw_axes (DF : DataFrame) (grid_params : list string)
  : list (list Qc) :=
  map (fun p => np_unique (column_values DF p)) grid_params.

Definition raw_shape (DF : DataFrame) (grid_params : list string) : list nat :=
  map (@length Qc) (raw_axes DF grid_params).

(** The position of [v] in [a]. *)
Fixpoint index_of (v : Qc) (a : list Qc) : nat :=
  match a with
  | [] => 0
  | x :: a' => if Qc_eq_bool x v then 0 else S (index_of v a')
  end.

(** The grid point of a row: its parameter values, and their indices along
    the axes. *)
Definition row_point (DF : DataFrame) (grid_params : list string)
    (row : list Qc) : list Qc :=
  map (row_value (df_columns DF) row) grid_params.

Definition row_index (DF : DataFrame) (grid_params : list string)
    (row : list Qc) : list nat :=
  map (fun p => index_of (row_value (df_columns DF) row p)
                         (np_unique (column_values DF p)))
      grid_params.

(** The flux array of one line: every row written, in the order of the
    table, into an array of NaN. *)
Definition raw_array (DF : DataFrame) (grid_params : list string)
    (line : string) : farray :=
  {| fshape := raw_shape DF grid_params;
     fdata :=
       fold_left (fun d row =>
                    list_update d
                      (ravel (raw_shape DF grid_params)
                             (row_index DF grid_params row))
                      (Finite (row_value (df_columns DF) row line)))
                 (df_rows DF)
                 (repeat NaN (np_prod (raw_shape DF grid_params))) |}.

(** [a[idx]] for a multi-index [idx]. *)
Definition fat_index (a : farray) (idx : list nat) : float :=
  nth (ravel (fshape a) idx) (fdata a) NaN.


(** The numbers of a flux array, a cell that is not finite read as zero. *)
Definition finite_part (a : farray) : ndarray :=
  {| shape := fshape a;
     data := map (fun x => match x with Finite q => q | _ => 0%Qc end)
                 (fdata a) |}.
(** ** Vocabulary of the further properties *)

(** [a * f + b * g], element by element, for two arrays of one shape. *)
Definition lincomb (a : Qc) (f : ndarray) (b : Qc) (g : ndarray) : ndarray :=
  {| shape := shape f;
     data := map (fun xy => (a * fst xy + b * snd xy)%Qc)
                 (combine (data f) (data g)) |}.

(** The coordinates of the grid point with multi-index [idx]. *)
Definition grid_coords (in_pts : list (list Qc)) (idx : list nat) : list Qc :=
  map (fun pi => nth (snd pi) (fst pi) 0%Qc) (combine in_pts idx).

(** The affine function [c0 + sum_k cs_k * xs_k] of the coordinates [xs]. *)
Definition affine (c0 : Qc) (cs xs : list Qc) : Qc :=
  (c0 + Qcsum (map (fun cx => (fst cx * snd cx)%Qc) (combine cs xs)))%Qc.

(** A second field on [ex_axis], and the field [1 + 2 x + 3 y] on
    [ex2_axes]. *)
Definition ex_field_b : ndarray :=
  {| shape := [3]; data := [Qc_of_Z 1; Qc_of_Z 2; Qc_of_Z 300] |}.

Definition ex2_affine_field : ndarray :=
  {| shape := [2; 2];
     data := [Qc_of_Z 1; Qc_of_Z 7; Qc_of_Z 3; Qc_of_Z 9] |}.

(** The [grids] dictionary of a raw grid that holds the flux arrays [flux],
    one per emission line. *)
Definition raw_lines (flux : list (string * ndarray)) : od string grid_entry :=
  map (fun la => (fst la, Arr (of_ndarray (snd la)))) flux.

(** A grid description as [construct_raw_grids] builds it for the
    interpolation: unique parameter names, one valid axis per parameter. *)
Definition raw_description (names : list string) (arrs : list (list Qc))
    (G : NB_Grid) : Prop :=
  NoDup names /\ NB_Grid_init names arrs = Ok G
  /\ Forall valid_axis arrs /\ arrs <> [].

(** Flux arrays of a raw grid: one name per line, every array of the shape
    of the grid. *)
Definition raw_flux_arrays (arrs : list (list Qc))
    (flux : list (string * ndarray)) : Prop :=
  NoDup (map fst flux)
  /\ Forall (fun la => ndarray_wf (snd la)
                       /\ shape (snd la) = map (@length Qc) arrs) flux.

(** The description of the worked raw grid, and its flux arrays. *)
Definition ex_description : NB_Grid :=
  match NB_Grid_init ["p"] [ex_axis] with
  | Ok g => g
  | Raise _ => empty_grid
  end.

Definition ex_flux : list (string * ndarray) :=
  [("Hbeta", {| shape := [3];
                data := [Qc_of_Z (-4); Qc_of_Z 100; Qc_of_Z 0] |})].

Definition ex_flux_nonneg : list (string * ndarray) :=
  [("Hbeta", ex_field); ("OIII5007", ex_field_b)].

(** The value written last under key [k] by a sequence of dictionary
    assignments [d[k'] = v], if any. *)
Fixpoint assoc_last {K V : Type} (K_eq_dec : forall x y : K, {x = y} + {x <> y})
    (ws : list (K * V)) (k : K) : option V :=
  match ws with
  | [] => None
  | (k', v) :: ws' =>
      match assoc_last K_eq_dec ws' k with
      | Some x => Some x
      | None => if K_eq_dec k' k then Some v else None
      end
  end.

(** [i] is the last position of [v] in [a]. *)
Definition last_position (a : list Qc) (v : Qc) (i : nat) : Prop :=
  nth_error a i = Some v /\ forall i', i < i' -> nth_error a i' <> Some v.


(** A value that is not finite: NaN or an infinity. *)
Definition nonfinite (x : float) : Prop := forall q, x <> Finite q.

(** The cells of the input grid that the interpolation onto [out_shp] reads:
    the corners of the cells of the output points. *)
Definition cell_is_read (in_pts : list (list Qc)) (out_shp : list Z)
    (idx : list nat) : Prop :=
  exists pt e,
    In pt (sample_points in_pts out_shp)
    /\ In e (edge_keys (length in_pts))
    /\ idx = corner_index (cell_of pt) e.

(** A flux array on [ex_axis] whose middle cell was never filled. *)
Definition ex_flux_gap : farray :=
  {| fshape := [3]; fdata := [Finite (Qc_of_Z 1); NaN; Finite (Qc_of_Z 3)] |}.
(** * Properties *)

Unset Implicit Arguments.

(** ** The result monad *)

Lemma mapM_Forall2 {A B : Type} (f : A -> result B) (l : list A) (ys : list B) :
  mapM f l = Ok ys <-> Forall2 (fun x y => f x = Ok y) l ys.
Proof.
  revert ys; induction l as [|x l IH]; intros ys; simpl.
  - split; intros H.
    + injection H as <-. constructor.
    + inversion H. reflexivity.
  - split; intros H.
    + destruct (f x) as [y|e] eqn:Hx; simpl in H; [|discriminate].
      destruct (mapM f l) as [ys'|e] eqn:Hl; simpl in H; [|discriminate].
      injection H as <-. constructor; [assumption|]. apply IH. reflexivity.
    + inversion H as [|? y ? ys' Hx Hl]; subst.
      rewrite Hx; simpl. apply IH in Hl. rewrite Hl. reflexivity.
Qed.

Lemma mapM_pure {A B : Type} (f : A -> result B) (g : A -> B) (l : list A) :
  (forall x, In x l -> f x = Ok (g x)) -> mapM f l = Ok (map g l).
Proof.
  induction l as [|x l IH]; intros H; simpl; [reflexivity|].
  rewrite (H x) by (left; reflexivity). simpl.
  rewrite IH by (intros; apply H; right; assumption). reflexivity.
Qed.

Lemma mapM_In {A B : Type} (f : A -> result B) (l : list A) (ys : list B) :
  mapM f l = Ok ys -> forall x, In x l -> exists y, f x = Ok y /\ In y ys.
Proof.
  intros H. apply mapM_Forall2 in H.
  induction H as [|x y l ys Hxy _ IH]; intros z Hz; [destruct Hz|].
  destruct Hz as [<-|Hz].
  - exists y; split; [assumption|left; reflexivity].
  - destruct (IH z Hz) as [y' [? ?]]. exists y'; split; [assumption|right; assumption].
Qed.

Lemma mapM_raise {A B : Type} (f : A -> result B) (l : list A) (e : exn) :
  mapM f l = Raise e -> exists x, In x l /\ f x = Raise e.
Proof.
  induction l as [|x l IH]; simpl; [discriminate|].
  destruct (f x) as [y|e'] eqn:Hx; simpl.
  - destruct (mapM f l) as [ys|e'] eqn:Hl; simpl; [discriminate|].
    intros H; injection H as ->. destruct (IH eq_refl) as [z [? ?]].
    exists z; split; [right; assumption|assumption].
  - intros H; injection H as ->. exists x; split; [left; reflexivity|assumption].
Qed.

(** ** Cartesian products *)

Section ProductFacts.
Context {A : Type}.
Implicit Types (pools : list (list A)) (a : list A).

Lemma np_repeat_length a m : length (np_repeat a m) = length a * m.
Proof.
  unfold np_repeat. induction a as [|x a IH]; simpl; [reflexivity|].
  rewrite length_app, repeat_length, IH. reflexivity.
Qed.

Lemma itertools_product_length pools :
  length (itertools_product pools) = np_prod (map (@length A) pools).
Proof.
  induction pools as [|p pools IH]; simpl; [reflexivity|].
  rewrite <- IH. generalize (itertools_product pools) as sub. intros sub.
  induction p as [|x p IHp]; simpl; [reflexivity|].
  rewrite length_app, length_map, IHp. reflexivity.
Qed.

Lemma itertools_product_row_length pools row :
  In row (itertools_product pools) -> length row = length pools.
Proof.
  revert row; induction pools as [|p pools IH]; simpl; intros row H.
  - destruct H as [<-|[]]. reflexivity.
  - apply in_flat_map in H. destruct H as [x [_ H]].
    apply in_map_iff in H. destruct H as [r [<- Hr]].
    simpl. f_equal. apply IH. assumption.
Qed.

Lemma combine_app_same {B : Type} (l1 l2 : list A) (r1 r2 : list B) :
  length l1 = length r1 ->
  combine (l1 ++ l2) (r1 ++ r2) = combine l1 r1 ++ combine l2 r2.
Proof.
  revert r1; induction l1 as [|x l1 IH]; intros [|y r1] H; simpl in *;
    try discriminate; [reflexivity|].
  f_equal. apply IH. lia.
Qed.

Lemma combine_repeat_cons (x : A) (sub : list (list A)) :
  map (fun xr => fst xr :: snd xr) (combine (repeat x (length sub)) sub)
  = map (cons x) sub.
Proof. induction sub as [|r sub IH]; simpl; [reflexivity|]. f_equal. apply IH. Qed.

(** Column 0 repeated and the sub-block copied: the rows of the buffer are
    those of the lexicographic product. *)
Lemma tiled_rows a (sub : list (list A)) :
  map (fun xr => fst xr :: snd xr)
      (combine (np_repeat a (length sub)) (concat (repeat sub (length a))))
  = flat_map (fun x => map (cons x) sub) a.
Proof.
  unfold np_repeat. induction a as [|x a IH]; simpl; [reflexivity|].
  rewrite combine_app_same by apply repeat_length.
  rewrite map_app, combine_repeat_cons, IH. reflexivity.
Qed.

Lemma assign_1d_same n (v : list A) : length v = n -> assign_1d n v = Ok v.
Proof. intros H. unfold assign_1d. rewrite H, Nat.eqb_refl. reflexivity. Qed.

Lemma cartesian_prod_into_product pools :
  pools <> [] -> Forall (fun a => a <> []) pools ->
  _cartesian_prod_into (np_prod (map (@length A) pools)) pools
  = Ok (itertools_product pools).
Proof.
  induction pools as [|a0 rest IH]; intros Hne Hall; [congruence|].
  inversion Hall as [|? ? Ha0 Hrest]; subst.
  assert (Hlen : 0 < length a0) by (destruct a0; [congruence|simpl; lia]).
  cbn [_cartesian_prod_into].
  change (np_prod (map (@length A) (a0 :: rest)))
    with (length a0 * np_prod (map (@length A) rest)).
  set (P := np_prod (map (@length A) rest)).
  replace (length a0 * P / length a0) with P
    by (rewrite Nat.mul_comm, Nat.div_mul; lia).
  rewrite assign_1d_same by apply np_repeat_length. cbn [bind].
  destruct rest as [|a1 rest'].
  - subst P. simpl. unfold np_repeat. f_equal.
    clear. induction a0 as [|x a0 IHa]; simpl; [reflexivity|]. f_equal. apply IHa.
  - replace (Nat.min P (length a0 * P)) with P by nia.
    subst P. rewrite IH by (assumption || congruence). cbn [bind].
    f_equal. rewrite <- itertools_product_length. apply tiled_rows.
Qed.

Lemma cartesian_prod_product pools :
  pools <> [] -> Forall (fun a => a <> []) pools ->
  _cartesian_prod pools = Ok (itertools_product pools).
Proof.
  intros Hne Hall. destruct pools as [|a0 rest]; [congruence|].
  unfold _cartesian_prod. apply cartesian_prod_into_product; assumption.
Qed.
End ProductFacts.

(** ** Exact rationals *)

Lemma this_plus (x y : Qc) : (this (x + y)%Qc == this x + this y)%Q.
Proof. unfold Qcplus, Q2Qc. cbn [this]. apply Qred_correct. Qed.

Lemma this_mult (x y : Qc) : (this (x * y)%Qc == this x * this y)%Q.
Proof. unfold Qcmult, Q2Qc. cbn [this]. apply Qred_correct. Qed.

Lemma this_opp (x : Qc) : (this (- x)%Qc == - this x)%Q.
Proof. unfold Qcopp, Q2Qc. cbn [this]. apply Qred_correct. Qed.

Lemma this_minus (x y : Qc) : (this (x - y)%Qc == this x - this y)%Q.
Proof. unfold Qcminus. rewrite this_plus, this_opp. reflexivity. Qed.

(** Order goals on [Qc] restated on [Q], where [lra] and [nra] apply. *)
Ltac qc_to_q :=
  unfold Qcle, Qclt in *;
  repeat match goal with
         | H : @eq Qc ?a ?b |- _ =>
             assert (this a == this b)%Q by (rewrite H; reflexivity); clear H
         | |- @eq Qc _ _ => apply Qc_is_canon
         end;
  repeat (rewrite ?this_plus, ?this_mult, ?this_opp, ?this_minus in * );
  change (this 0%Qc) with 0%Q in *; change (this 1%Qc) with 1%Q in *.

Lemma Qcltb_lt (x y : Qc) : Qcltb x y = true <-> (x < y)%Qc.
Proof.
  unfold Qcltb. rewrite Qclt_alt. destruct (x ?= y)%Qc; split; congruence.
Qed.

Lemma Qcltb_ge (x y : Qc) : Qcltb x y = false <-> (y <= x)%Qc.
Proof.
  split; intros H.
  - apply Qcnot_lt_le. intros Hlt. apply Qcltb_lt in Hlt. congruence.
  - destruct (Qcltb x y) eqn:E; [|reflexivity].
    apply Qcltb_lt in E. exfalso. eapply Qcle_not_lt; eauto.
Qed.

Lemma Qcleb_le (x y : Qc) : Qcleb x y = true <-> (x <= y)%Qc.
Proof.
  unfold Qcleb. rewrite Qcle_alt. destruct (x ?= y)%Qc; split; congruence.
Qed.

Lemma Qcleb_gt (x y : Qc) : Qcleb x y = false <-> (y < x)%Qc.
Proof.
  split; intros H.
  - apply Qcnot_le_lt. intros Hle. apply Qcleb_le in Hle. congruence.
  - destruct (Qcleb x y) eqn:E; [|reflexivity].
    apply Qcleb_le in E. exfalso. eapply Qclt_not_le; eauto.
Qed.

(** ** One axis: validation, search, lower edges *)

Lemma np_diff_cons2 (x y : Qc) (r : list Qc) :
  np_diff (x :: y :: r) = (y - x)%Qc :: np_diff (y :: r).
Proof. reflexivity. Qed.

Lemma np_diff_length (p : list Qc) : length (np_diff p) = length p - 1.
Proof.
  destruct p as [|x p]; [reflexivity|]. revert x.
  induction p as [|y p IH]; intros x; [reflexivity|].
  rewrite np_diff_cons2. cbn [length]. rewrite IH. cbn [length]. lia.
Qed.

Lemma np_diff_nth (p : list Qc) (j : nat) :
  S j < length p ->
  nth j (np_diff p) 0%Qc = (nth (S j) p 0 - nth j p 0)%Qc.
Proof.
  revert j. destruct p as [|x p]; [simpl; lia|]. revert x.
  induction p as [|y p IH]; intros x j H; [simpl in H; lia|].
  rewrite np_diff_cons2. destruct j as [|j]; [reflexivity|].
  change (nth (S j) (_ :: np_diff (y :: p)) 0%Qc) with (nth j (np_diff (y :: p)) 0%Qc).
  rewrite IH by (simpl in *; lia). reflexivity.
Qed.

Lemma pos_diff (x y : Qc) : Qcleb (y - x) 0 = false <-> (x < y)%Qc.
Proof.
  rewrite Qcleb_gt. split; intros H; qc_to_q; lra.
Qed.

(** The constructor's test [np.any(np.diff(p) <= 0.)] fails exactly on the
    strictly ascending arrays. *)
Lemma ascending_check (p : list Qc) :
  any_nonpos (np_diff p) = false <-> Sorted Qclt p.
Proof.
  destruct p as [|x p]; [split; [constructor|reflexivity]|]. revert x.
  induction p as [|y p IH]; intros x.
  - split; [repeat constructor|reflexivity].
  - rewrite np_diff_cons2. unfold any_nonpos in *. cbn [existsb].
    rewrite orb_false_iff, pos_diff, IH. split.
    + intros [Hxy Hs]. constructor; [assumption|constructor; assumption].
    + intros Hs. inversion Hs as [|? ? Hs' Hd]; subst.
      inversion Hd; subst. split; assumption.
Qed.

Lemma sorted_nth_lt (p : list Qc) :
  Sorted Qclt p ->
  forall i j, i < j < length p -> (nth i p 0 < nth j p 0)%Qc.
Proof.
  intros Hs. apply Sorted_StronglySorted in Hs;
    [|intros x y z; apply Qclt_trans].
  induction Hs as [|x p Hs IH Hall]; intros i j Hij; [simpl in Hij; lia|].
  destruct j as [|j]; [lia|]. destruct i as [|i].
  - simpl. rewrite Forall_forall in Hall. apply Hall. apply nth_In. simpl in Hij; lia.
  - simpl. apply IH. simpl in Hij; lia.
Qed.

Lemma sorted_nth_le (p : list Qc) :
  Sorted Qclt p ->
  forall i j, i <= j < length p -> (nth i p 0 <= nth j p 0)%Qc.
Proof.
  intros Hs i j Hij. destruct (Nat.eq_dec i j) as [->|Hne].
  - apply Qcle_refl.
  - apply Qclt_le_weak, sorted_nth_lt; [assumption|lia].
Qed.

Lemma searchsorted1_le (a : list Qc) (v : Qc) : searchsorted1 a v <= length a.
Proof.
  induction a as [|x a IH]; simpl; [lia|]. destruct (Qcltb x v); simpl; lia.
Qed.

Lemma searchsorted1_below (a : list Qc) (v : Qc) :
  forall i, i < searchsorted1 a v -> (nth i a 0 < v)%Qc.
Proof.
  induction a as [|x a IH]; simpl; intros i Hi; [lia|].
  destruct (Qcltb x v) eqn:E; [|lia].
  destruct i as [|i]; [apply Qcltb_lt; assumption|]. apply IH. lia.
Qed.

Lemma searchsorted1_at (a : list Qc) (v : Qc) :
  searchsorted1 a v < length a -> (v <= nth (searchsorted1 a v) a 0)%Qc.
Proof.
  induction a as [|x a IH]; simpl; intros Hi; [lia|].
  destruct (Qcltb x v) eqn:E.
  - apply IH. lia.
  - apply Qcltb_ge. assumption.
Qed.

(** On an ascending array the insertion index splits it: strictly smaller
    elements before, the others from there on. *)
Lemma searchsorted1_above (a : list Qc) (v : Qc) :
  Sorted Qclt a ->
  forall i, searchsorted1 a v <= i < length a -> (v <= nth i a 0)%Qc.
Proof.
  intros Hs i Hi.
  apply Qcle_trans with (nth (searchsorted1 a v) a 0%Qc).
  - apply searchsorted1_at. lia.
  - apply sorted_nth_le; [assumption|lia].
Qed.

Lemma searchsorted1_largest (a : list Qc) (v : Qc) :
  Sorted Qclt a ->
  largest_index (fun x => (x < v)%Qc) a (Z.of_nat (searchsorted1 a v) - 1).
Proof.
  intros Hs. pose proof (searchsorted1_le a v) as Hle.
  repeat split; try lia.
  - intros Hne. apply searchsorted1_below. lia.
  - intros i Hi. apply Qcle_not_lt. apply searchsorted1_above; [assumption|lia].
Qed.

Lemma lower_edge_range (p_in : list Qc) (v : Qc) :
  2 <= length p_in ->
  (0 <= lower_edge p_in v <= Z.of_nat (length p_in) - 2)%Z.
Proof. intros H. unfold lower_edge. lia. Qed.

(** The cell found for [v] contains [v], as long as [v] lies within the
    axis. *)
Lemma lower_edge_contains (p_in : list Qc) (v : Qc) :
  valid_axis p_in ->
  (nth 0 p_in 0 <= v)%Qc -> (v <= nth (length p_in - 1) p_in 0)%Qc ->
  let j := Z.to_nat (lower_edge p_in v) in
  (nth j p_in 0 <= v)%Qc /\ (v <= nth (S j) p_in 0)%Qc.
Proof.
  intros [Hs Hlen] Hlo Hhi j.
  pose proof (searchsorted1_le p_in v) as Hle.
  assert (Hs_lt : searchsorted1 p_in v < length p_in).
  { destruct (Nat.eq_dec (searchsorted1 p_in v) (length p_in)) as [E|E]; [|lia].
    exfalso. apply (Qcle_not_lt _ _ Hhi). apply searchsorted1_below. lia. }
  destruct (searchsorted1 p_in v) as [|s] eqn:Es.
  - assert (j = 0) as -> by (subst j; unfold lower_edge; rewrite Es; lia).
    split; [assumption|].
    apply Qcle_trans with (nth 0 p_in 0%Qc).
    + rewrite <- Es. apply searchsorted1_at. lia.
    + apply sorted_nth_le; [assumption|lia].
  - assert (j = s) as -> by (subst j; unfold lower_edge; rewrite Es; lia).
    split.
    + apply Qclt_le_weak. apply searchsorted1_below. lia.
    + rewrite <- Es. apply searchsorted1_at. lia.
Qed.

Lemma this_div (x y : Qc) : (this (x / y)%Qc == this x / this y)%Q.
Proof.
  unfold Qcdiv, Qcinv. rewrite this_mult. unfold Q2Qc. cbn [this].
  rewrite Qred_correct. reflexivity.
Qed.

Lemma ratio_unit (lo hi v : Qc) :
  (lo < hi)%Qc -> (lo <= v)%Qc -> (v <= hi)%Qc ->
  (0 <= (v - lo) / (hi - lo))%Qc /\ ((v - lo) / (hi - lo) <= 1)%Qc.
Proof.
  intros Hlt Hlo Hhi. unfold Qcle, Qclt in *. rewrite this_div, !this_minus.
  change (this 0%Qc) with 0%Q; change (this 1%Qc) with 1%Q.
  assert (Hpos : (0 < this hi - this lo)%Q) by lra.
  split.
  - apply Qle_shift_div_l; [assumption|]. lra.
  - apply Qle_shift_div_r; [assumption|]. lra.
Qed.

Lemma norm_distance_unit (p_in : list Qc) (v : Qc) :
  valid_axis p_in ->
  (nth 0 p_in 0 <= v)%Qc -> (v <= nth (length p_in - 1) p_in 0)%Qc ->
  (0 <= norm_distance p_in v)%Qc /\ (norm_distance p_in v <= 1)%Qc.
Proof.
  intros Hv Hlo Hhi. unfold norm_distance.
  destruct (lower_edge_contains p_in v Hv Hlo Hhi) as [H1 H2].
  pose proof (lower_edge_range p_in v (proj2 Hv)) as Hr.
  apply ratio_unit; try assumption.
  apply sorted_nth_lt; [apply Hv|lia].
Qed.

(** ** Indexing and broadcasting *)

Lemma getitem_nat {A : Type} (a : list A) (i : Z) (d : A) :
  (0 <= i < Z.of_nat (length a))%Z ->
  getitem a i = Ok (nth (Z.to_nat i) a d).
Proof.
  intros H. unfold getitem.
  assert ((i <? 0)%Z = false) as -> by lia.
  assert (((0 <=? i)%Z && (i <? Z.of_nat (length a))%Z)%bool = true) as ->
    by (apply andb_true_iff; split; lia).
  destruct (nth_error a (Z.to_nat i)) as [x|] eqn:E.
  - f_equal. symmetry. apply nth_error_nth. assumption.
  - apply nth_error_None in E. lia.
Qed.

Lemma getitem_last {A : Type} (a : list A) (d : A) :
  a <> [] -> getitem a (-1)%Z = Ok (nth (length a - 1) a d).
Proof.
  intros H. assert (0 < length a) by (destruct a; [congruence|simpl; lia]).
  unfold getitem. cbn [Z.ltb Z.compare].
  assert (((0 <=? -1 + Z.of_nat (length a))%Z
           && (-1 + Z.of_nat (length a) <? Z.of_nat (length a))%Z)%bool = true) as ->
    by (apply andb_true_iff; split; lia).
  replace (Z.to_nat (-1 + Z.of_nat (length a))) with (length a - 1) by lia.
  destruct (nth_error a (length a - 1)) as [x|] eqn:E.
  - f_equal. symmetry. apply nth_error_nth. assumption.
  - apply nth_error_None in E. lia.
Qed.

Lemma getitem_empty {A : Type} (i : Z) : getitem (@nil A) i = Raise IndexError.
Proof.
  unfold getitem. simpl.
  destruct (i <? 0)%Z eqn:E1; [|destruct (0 <=? i)%Z eqn:E2];
    try reflexivity.
  - destruct ((0 <=? i + 0)%Z && (i + 0 <? 0)%Z)%bool eqn:E; [lia|reflexivity].
  - destruct (i <? 0)%Z eqn:E3; [lia|reflexivity].
Qed.

Lemma mapM_map {A B C : Type} (f : B -> result C) (g : A -> B) (l : list A) :
  mapM f (map g l) = mapM (fun x => f (g x)) l.
Proof.
  induction l as [|x l IH]; simpl; [reflexivity|]. rewrite IH. reflexivity.
Qed.

Lemma broadcast2_same {A B C : Type} (f : A -> B -> C) (a : list A) (b : list B) :
  length a = length b ->
  broadcast2 f a b = Ok (map (fun xy => f (fst xy) (snd xy)) (combine a b)).
Proof. intros H. unfold broadcast2. rewrite H, Nat.eqb_refl. reflexivity. Qed.

Lemma inplace2_same {A B : Type} (f : A -> B -> A) (dst : list A) (src : list B) :
  length src = length dst ->
  inplace2 f dst src = Ok (map (fun xy => f (fst xy) (snd xy)) (combine dst src)).
Proof. intros H. unfold inplace2. rewrite H, Nat.eqb_refl. reflexivity. Qed.

Lemma combine_map_map {A B C : Type} (f : A -> B) (g : A -> C) (l : list A) :
  combine (map f l) (map g l) = map (fun x => (f x, g x)) l.
Proof. induction l as [|x l IH]; simpl; [reflexivity|]. f_equal. apply IH. Qed.

Lemma take_map {A : Type} (a : list A) (d : A) {X : Type} (g : X -> Z) (l : list X) :
  (forall x, In x l -> (0 <= g x < Z.of_nat (length a))%Z) ->
  take a (map g l) = Ok (map (fun x => nth (Z.to_nat (g x)) a d) l).
Proof.
  intros H. unfold take. rewrite mapM_map. apply mapM_pure.
  intros x Hx. apply getitem_nat. apply H. assumption.
Qed.

(** ** [axis_edges] in closed form *)

Lemma axis_edges_closed (p_out p_in : list Qc) :
  2 <= length p_in ->
  axis_edges p_out p_in
  = Ok (map (lower_edge p_in) p_out, map (norm_distance p_in) p_out).
Proof.
  intros Hlen. unfold axis_edges.
  assert (E : np_clip (map (fun i => (i - 1)%Z) (np_searchsorted p_in p_out)) 0
                      (Z.of_nat (length p_in) - 2)
              = map (lower_edge p_in) p_out).
  { unfold np_clip, np_searchsorted. rewrite !map_map. reflexivity. }
  rewrite E. clear E.
  rewrite (take_map p_in 0%Qc)
    by (intros x _; pose proof (lower_edge_range p_in x Hlen); lia).
  cbn [bind].
  rewrite broadcast2_same by (rewrite length_map; reflexivity). cbn [bind].
  rewrite (take_map (np_diff p_in) 0%Qc)
    by (intros x _; pose proof (lower_edge_range p_in x Hlen);
        rewrite np_diff_length; lia).
  cbn [bind].
  rewrite broadcast2_same by (rewrite !length_map, !length_combine, !length_map; lia).
  cbn [bind]. f_equal. f_equal.
  rewrite <- (map_id p_out) at 1. rewrite combine_map_map, map_map.
  rewrite combine_map_map, map_map.
  apply map_ext_in. intros v _. cbn [fst snd]. unfold norm_distance.
  rewrite np_diff_nth; [reflexivity|].
  pose proof (lower_edge_range p_in v Hlen). lia.
Qed.

(** ** [np.linspace] *)

Lemma this_of_nat (n : nat) : (this (Qc_of_nat n) == inject_Z (Z.of_nat n))%Q.
Proof. unfold Qc_of_nat, Qc_of_Z, Q2Qc. cbn [this]. apply Qred_correct. Qed.

Lemma Qc_of_nat_neq0 (n : nat) : n <> 0 -> Qc_of_nat n <> 0%Qc.
Proof.
  intros Hn E. apply (f_equal this) in E.
  assert (H : (this (Qc_of_nat n) == 0)%Q) by (rewrite E; reflexivity).
  rewrite this_of_nat in H. unfold Qeq, inject_Z in H. simpl in H. lia.
Qed.

Lemma Qc_of_nat_le (i j : nat) : i <= j -> (Qc_of_nat i <= Qc_of_nat j)%Qc.
Proof.
  intros H. unfold Qcle. rewrite !this_of_nat. rewrite <- Zle_Qle. lia.
Qed.

Lemma Qc_of_nat_lt (i j : nat) : i < j -> (Qc_of_nat i < Qc_of_nat j)%Qc.
Proof.
  intros H. unfold Qclt. rewrite !this_of_nat. rewrite <- Zlt_Qlt. lia.
Qed.

Lemma Qc_of_nat_0 : Qc_of_nat 0 = 0%Qc.
Proof. apply Qc_is_canon. reflexivity. Qed.

Lemma removelast_map_seq {A : Type} (f : nat -> A) (n : nat) :
  removelast (map f (seq 0 (S n))) = map f (seq 0 n).
Proof.
  rewrite seq_S, map_app. simpl. apply removelast_last.
Qed.

Lemma np_linspace_closed (start stop : Qc) (num : nat) :
  np_linspace start stop num = map (linspace_point start stop num) (seq 0 num).
Proof.
  unfold np_linspace. fold (linspace_point start stop num).
  destruct (1 <? num) eqn:E; [|reflexivity].
  apply Nat.ltb_lt in E. destruct num as [|n]; [lia|].
  rewrite removelast_map_seq. rewrite seq_S, map_app. f_equal.
  simpl. f_equal. unfold linspace_point.
  replace (S n - 1) with n by lia.
  assert (Hn : Qc_of_nat n <> 0%Qc) by (apply Qc_of_nat_neq0; lia).
  field. assumption.
Qed.

Lemma np_linspace_length (start stop : Qc) (num : nat) :
  length (np_linspace start stop num) = num.
Proof. rewrite np_linspace_closed, length_map, length_seq. reflexivity. Qed.

Lemma np_linspace_nth (start stop : Qc) (num i : nat) :
  i < num ->
  nth i (np_linspace start stop num) 0%Qc = linspace_point start stop num i.
Proof.
  intros H. rewrite np_linspace_closed.
  rewrite (nth_indep _ 0%Qc (linspace_point start stop num 0))
    by (rewrite length_map, length_seq; assumption).
  rewrite map_nth, seq_nth by assumption. reflexivity.
Qed.

Lemma linspace_point_first (start stop : Qc) (num : nat) :
  linspace_point start stop num 0 = start.
Proof. unfold linspace_point. rewrite Qc_of_nat_0. ring. Qed.

Lemma linspace_point_last (start stop : Qc) (num : nat) :
  2 <= num -> linspace_point start stop num (num - 1) = stop.
Proof.
  intros H. unfold linspace_point.
  assert (Hn : Qc_of_nat (num - 1) <> 0%Qc) by (apply Qc_of_nat_neq0; lia).
  field. assumption.
Qed.

Lemma linspace_point_bounds (start stop : Qc) (num i : nat) :
  (start <= stop)%Qc -> i < num ->
  (start <= linspace_point start stop num i)%Qc
  /\ (linspace_point start stop num i <= stop)%Qc.
Proof.
  intros Hle Hi. unfold linspace_point.
  destruct (Nat.eq_dec num 1) as [->|Hne].
  - assert (i = 0) as -> by lia. rewrite Qc_of_nat_0.
    replace (0 * ((stop - start) / Qc_of_nat (1 - 1)) + start)%Qc with start by ring.
    split; [apply Qcle_refl|assumption].
  - assert (Hn : (0 < Qc_of_nat (num - 1))%Qc)
      by (rewrite <- Qc_of_nat_0; apply Qc_of_nat_lt; lia).
    assert (Hi0 : (0 <= Qc_of_nat i)%Qc)
      by (rewrite <- Qc_of_nat_0; apply Qc_of_nat_le; lia).
    assert (Hin : (Qc_of_nat i <= Qc_of_nat (num - 1))%Qc)
      by (apply Qc_of_nat_le; lia).
    set (t := (Qc_of_nat i / Qc_of_nat (num - 1))%Qc).
    assert (Ht : (0 <= t)%Qc /\ (t <= 1)%Qc).
    { pose proof (@ratio_unit 0%Qc (Qc_of_nat (num - 1)) (Qc_of_nat i) Hn Hi0 Hin) as R.
      replace ((Qc_of_nat i - 0) / (Qc_of_nat (num - 1) - 0))%Qc with t in R
        by (subst t; field; apply Qclt_not_eq in Hn; congruence).
      exact R. }
    replace (Qc_of_nat i * ((stop - start) / Qc_of_nat (num - 1)) + start)%Qc
      with (start + t * (stop - start))%Qc
      by (subst t; field; apply Qclt_not_eq in Hn; congruence).
    destruct Ht as [Ht0 Ht1]. clearbody t. split; qc_to_q; nra.
Qed.

(** ** Rows of a product *)

Lemma itertools_product_map {A B : Type} (f : A -> B) (pools : list (list A)) :
  itertools_product (map (map f) pools) = map (map f) (itertools_product pools).
Proof.
  induction pools as [|p pools IH]; [reflexivity|].
  cbn [map itertools_product]. rewrite IH.
  generalize (itertools_product pools) as sub. intros sub.
  induction p as [|x p IHp]; [reflexivity|].
  cbn [map flat_map]. rewrite map_app, IHp. f_equal.
  rewrite !map_map. reflexivity.
Qed.

Lemma itertools_product_In {A : Type} (pools : list (list A)) (row : list A) :
  In row (itertools_product pools) -> Forall2 (fun x p => In x p) row pools.
Proof.
  revert row; induction pools as [|p pools IH]; simpl; intros row H.
  - destruct H as [<-|[]]. constructor.
  - apply in_flat_map in H. destruct H as [x [Hx H]].
    apply in_map_iff in H. destruct H as [r [<- Hr]].
    constructor; [assumption|]. apply IH. assumption.
Qed.

Lemma edge_keys_In (nd : nat) (e : list Z) :
  In e (edge_keys nd) ->
  length e = nd /\ Forall (fun j => j = 0%Z \/ j = 1%Z) e.
Proof.
  intros H. split.
  - apply itertools_product_row_length in H. rewrite repeat_length in H. assumption.
  - apply itertools_product_In in H.
    remember (repeat [0%Z; 1%Z] nd) as pools eqn:Ep.
    revert nd Ep. induction H as [|j p e pools Hj _ IH]; intros nd Ep; [constructor|].
    destruct nd as [|nd]; [discriminate|]. simpl in Ep. injection Ep as -> ->.
    constructor; [|eapply IH; reflexivity].
    destruct Hj as [<-|[<-|[]]]; [left|right]; reflexivity.
Qed.

Lemma column_closed {A : Type} (d : A) (k : nat) (rows : list (list A)) :
  (forall row, In row rows -> k < length row) ->
  column k rows = Ok (map (fun row => nth k row d) rows).
Proof.
  intros H. unfold column. apply mapM_pure. intros row Hrow.
  destruct (nth_error row k) as [x|] eqn:E.
  - f_equal. symmetry. apply nth_error_nth. assumption.
  - apply nth_error_None in E. specialize (H row Hrow). lia.
Qed.

Lemma skipn_nth_cons {A : Type} (d : A) (l : list A) (s : nat) :
  s < length l -> skipn s l = nth s l d :: skipn (S s) l.
Proof.
  revert s; induction l as [|x l IH]; intros s H; [simpl in H; lia|].
  destruct s as [|s]; [reflexivity|]. simpl. apply IH. simpl in H. lia.
Qed.

Lemma repeat_map_const {A B : Type} (x : B) (l : list A) :
  repeat x (length l) = map (fun _ => x) l.
Proof. induction l as [|y l IH]; simpl; [reflexivity|]. f_equal. apply IH. Qed.

(** ** [_find_weights] in closed form *)

Lemma foldM_edge_weights (rows : list (list Qc)) (e : list Z) :
  forall (s : nat) (g : list Qc -> Qc),
    (forall row, In row rows -> length row = s + length e) ->
    Forall (fun j => j = 0%Z \/ j = 1%Z) e ->
    foldM (fun combined kj =>
             w <- getitem [map (map (fun x => (1 - x)%Qc)) rows; rows] (snd kj) ;;
             c <- column (fst kj) w ;;
             inplace2 Qcmult combined c)
          (combine (seq s (length e)) e) (map g rows)
    = Ok (map (fun row =>
                 fold_left (fun acc ju => (acc * axis_weight (fst ju) (snd ju))%Qc)
                           (combine e (skipn s row)) (g row))
              rows).
Proof.
  induction e as [|j e IH]; intros s g Hrows Hbits.
  - reflexivity.
  - inversion Hbits as [|? ? Hj Hbits']; subst.
    cbn [length seq combine foldM fst snd].
    assert (Hcol : forall f : Qc -> Qc,
               column s (map (map f) rows)
               = Ok (map (fun row => f (nth s row 0%Qc)) rows)).
    { intros f. rewrite (column_closed (f 0%Qc)).
      - rewrite map_map. f_equal. apply map_ext. intros row. apply map_nth.
      - intros row Hrow. apply in_map_iff in Hrow. destruct Hrow as [r [<- Hr]].
        rewrite length_map. specialize (Hrows r Hr). cbn [length] in Hrows. lia. }
    assert (Hstep :
              (w <- getitem [map (map (fun x => (1 - x)%Qc)) rows; rows] j ;;
               c <- column s w ;; inplace2 Qcmult (map g rows) c)
              = Ok (map (fun row => (g row * axis_weight j (nth s row 0))%Qc) rows)).
    { destruct Hj as [-> | ->]; cbn [getitem length Z.ltb Z.compare bind].
      - simpl. rewrite Hcol. cbn [bind].
        rewrite inplace2_same by (rewrite !length_map; reflexivity).
        rewrite combine_map_map, map_map. reflexivity.
      - simpl. specialize (Hcol (fun x => x)).
        rewrite (map_ext (map (fun x : Qc => x)) (fun r => r)) in Hcol
          by (intros; apply map_id).
        rewrite map_id in Hcol. rewrite Hcol. cbn [bind].
        rewrite inplace2_same by (rewrite !length_map; reflexivity).
        rewrite combine_map_map, map_map. reflexivity. }
    rewrite Hstep. cbn [bind].
    rewrite IH;
      [|intros row Hrow; specialize (Hrows row Hrow); cbn [length] in Hrows; lia
       |assumption].
    f_equal. apply map_ext_in. intros row Hrow.
    rewrite (@skipn_nth_cons Qc 0%Qc row s)
      by (specialize (Hrows row Hrow); cbn [length] in Hrows; lia).
    reflexivity.
Qed.

Lemma find_weights_closed (nd : nat) (norm_dists : list (list Qc)) :
  nd = length norm_dists ->
  norm_dists <> [] -> Forall (fun a => a <> []) norm_dists ->
  _find_weights nd norm_dists
  = Ok (map (fun e => (e, map (edge_weight e) (itertools_product norm_dists)))
            (edge_keys nd)).
Proof.
  intros Hnd Hne Hall. unfold _find_weights.
  rewrite cartesian_prod_product by assumption. cbn [bind].
  apply mapM_pure. intros e He. apply edge_keys_In in He. destruct He as [Hlen Hbits].
  rewrite repeat_map_const. unfold enumerate.
  rewrite (@foldM_edge_weights (itertools_product norm_dists) e 0 (fun _ => 1%Qc)).
  - reflexivity.
  - intros row Hrow. apply itertools_product_row_length in Hrow. simpl. lia.
  - assumption.
Qed.

(** ** The constructor *)

Lemma combine_In_l {A B : Type} (l1 : list A) (l2 : list B) (x : A) :
  length l2 = length l1 -> In x l1 -> exists y, In (x, y) (combine l1 l2).
Proof.
  revert l2; induction l1 as [|a l1 IH]; intros [|b l2] Hlen Hx; simpl in *;
    try discriminate; try contradiction.
  destruct Hx as [->|Hx].
  - exists b. left. reflexivity.
  - destruct (IH l2) as [y Hy]; [lia|assumption|]. exists y. right. assumption.
Qed.

Lemma combine_map_fst {A B C : Type} (g : A * B -> C) (l1 : list A) (l2 : list B) :
  combine (map g (combine l1 l2)) l1
  = map (fun ab => (g ab, fst ab)) (combine l1 l2).
Proof.
  revert l2; induction l1 as [|a l1 IH]; intros [|b l2]; simpl; try reflexivity.
  f_equal. apply IH.
Qed.

Lemma mapM_all_or {A B : Type} (f : A -> result B) (e : exn) (l : list A) :
  (forall x, In x l -> (exists y, f x = Ok y) \/ f x = Raise e) ->
  (exists ys, mapM f l = Ok ys) \/ mapM f l = Raise e.
Proof.
  induction l as [|x l IH]; intros H; simpl.
  - left. eexists. reflexivity.
  - destruct (H x (or_introl eq_refl)) as [[y ->]| ->]; [|right; reflexivity].
    destruct IH as [[ys ->]| ->]; [intros; apply H; right; assumption| |].
    + left. eexists. reflexivity.
    + right. reflexivity.
Qed.

Lemma mapM_fails {A B : Type} (f : A -> result B) (e : exn) (l : list A) (x0 : A) :
  (forall x, In x l -> (exists y, f x = Ok y) \/ f x = Raise e) ->
  In x0 l -> f x0 = Raise e -> mapM f l = Raise e.
Proof.
  intros H Hin Hx0. destruct (mapM_all_or f e l H) as [[ys Hok]|Hr]; [|assumption].
  destruct (mapM_In _ _ _ Hok x0 Hin) as [y [Hy _]]. congruence.
Qed.

Section Constructor.
Variables (in_pts : list (list Qc)) (out_shp : list Z).

Lemma check_axis_passes :
  Forall (Sorted Qclt) in_pts ->
  mapM check_axis in_pts = Ok (map (fun _ => tt) in_pts).
Proof.
  intros H. apply mapM_pure. intros p Hp. rewrite Forall_forall in H.
  unfold check_axis. rewrite (proj2 (ascending_check p) (H p Hp)). reflexivity.
Qed.

Lemma check_len_passes :
  Forall (fun n_p => (2 <= n_p)%Z) out_shp ->
  mapM check_len out_shp = Ok (map (fun _ => tt) out_shp).
Proof.
  intros H. apply mapM_pure. intros n Hn. rewrite Forall_forall in H.
  unfold check_len. specialize (H n Hn).
  destruct (n <? 2)%Z eqn:E; [lia|reflexivity].
Qed.

Lemma make_axis_cases (pn : list Qc * Z) :
  (2 <= snd pn)%Z ->
  (fst pn <> [] /\ make_axis pn = Ok (out_axis (fst pn) (snd pn)))
  \/ (fst pn = [] /\ make_axis pn = Raise IndexError).
Proof.
  intros Hn. unfold make_axis. destruct pn as [p n]. cbn [fst snd] in *.
  destruct p as [|x p].
  - right. split; [reflexivity|]. rewrite getitem_empty. reflexivity.
  - left. split; [discriminate|].
    rewrite (getitem_nat (x :: p) 0%Z 0%Qc) by (simpl; lia).
    rewrite (@getitem_last _ (x :: p) 0%Qc) by discriminate.
    cbn [bind]. unfold linspace.
    destruct (n <? 0)%Z eqn:E; [lia|]. reflexivity.
Qed.

(** With the output axis of at least two samples, [axis_edges] fails
    exactly on an input axis of one point, and then with IndexError. *)
Lemma axis_edges_cases (p : list Qc) (n : Z) :
  (2 <= n)%Z -> p <> [] ->
  (2 <= length p
   /\ axis_edges (out_axis p n) p
      = Ok (map (lower_edge p) (out_axis p n),
            map (norm_distance p) (out_axis p n)))
  \/ (length p = 1 /\ axis_edges (out_axis p n) p = Raise IndexError).
Proof.
  intros Hn Hp. destruct p as [|x [|y p]]; [congruence| |].
  - right. split; [reflexivity|].
    assert (Ho : exists v o, out_axis [x] n = v :: o).
    { unfold out_axis. rewrite np_linspace_closed.
      destruct (Z.to_nat n) as [|k] eqn:Ek; [lia|].
      cbn [seq map]. eexists. eexists. reflexivity. }
    destruct Ho as [v [o ->]]. unfold axis_edges.
    assert (E : np_clip (map (fun i => (i - 1)%Z) (np_searchsorted [x] (v :: o))) 0
                        (Z.of_nat (length [x]) - 2)
                = map (fun _ => (-1)%Z) (v :: o)).
    { unfold np_clip, np_searchsorted. rewrite !map_map.
      apply map_ext. intros a. cbn [length]. lia. }
    rewrite E. clear E. unfold take at 1. rewrite mapM_map.
    rewrite (mapM_pure _ (fun _ => x)) by (intros; reflexivity).
    cbn [bind].
    rewrite broadcast2_same by (rewrite length_map; reflexivity).
    cbn [bind]. reflexivity.
  - left. split; [simpl; lia|]. apply axis_edges_closed. simpl; lia.
Qed.
End Constructor.

Lemma out_axis_length (p : list Qc) (n : Z) : length (out_axis p n) = Z.to_nat n.
Proof. apply np_linspace_length. Qed.

Lemma valid_config_checks (in_pts : list (list Qc)) (out_shp : list Z) :
  valid_config in_pts out_shp -> checks_pass in_pts out_shp.
Proof.
  intros [Hlen [Hn Hax]]. repeat split; try assumption.
  eapply Forall_impl; [|exact Hax]. intros p [Hs _]. exact Hs.
Qed.

Lemma axes_nonempty (in_pts : list (list Qc)) (out_shp : list Z) :
  length out_shp = length in_pts -> in_pts <> [] -> combine in_pts out_shp <> [].
Proof.
  intros Hlen Hne. destruct in_pts; [congruence|]. destruct out_shp; [discriminate|].
  discriminate.
Qed.

(** A valid configuration with at least one axis is accepted, and the
    resampler built is [resampler_of]. *)
Lemma init_closed (in_pts : list (list Qc)) (out_shp : list Z) :
  valid_config in_pts out_shp -> in_pts <> [] ->
  __init__ in_pts out_shp = Ok (resampler_of in_pts out_shp).
Proof.
  intros Hv Hne. pose proof (valid_config_checks _ _ Hv) as [Hs [Hlen Hn]].
  destruct Hv as [_ [_ Hax]]. rewrite Forall_forall in Hax, Hn.
  unfold __init__.
  rewrite check_axis_passes by assumption. cbn [bind].
  rewrite Hlen, Nat.eqb_refl. cbn [negb].
  rewrite check_len_passes by (apply Forall_forall; assumption). cbn [bind].
  set (axes := combine in_pts out_shp).
  assert (Hin : forall pn, In pn axes -> valid_axis (fst pn) /\ (2 <= snd pn)%Z).
  { intros [p n] H. split; [apply Hax; eapply in_combine_l|apply Hn; eapply in_combine_r];
      exact H. }
  rewrite (mapM_pure _ (fun pn => out_axis (fst pn) (snd pn))).
  2:{ intros pn Hpn. destruct (Hin pn Hpn) as [[_ Hl] Hn2].
      destruct (make_axis_cases pn Hn2) as [[_ E]|[E _]]; [exact E|].
      rewrite E in Hl. simpl in Hl. lia. }
  cbn [bind]. unfold axes. rewrite combine_map_fst. fold axes. rewrite mapM_map.
  cbn [fst snd].
  rewrite (mapM_pure _ (fun pn => (map (lower_edge (fst pn)) (out_axis (fst pn) (snd pn)),
                                   map (norm_distance (fst pn)) (out_axis (fst pn) (snd pn))))).
  2:{ intros pn Hpn. destruct (Hin pn Hpn) as [[_ Hl] Hn2].
      apply axis_edges_closed. assumption. }
  cbn [bind]. rewrite !map_map. cbn [fst snd].
  assert (Haxes : axes <> []) by (apply axes_nonempty; assumption).
  assert (Hlen_axes : length axes = length in_pts)
    by (unfold axes; rewrite length_combine; lia).
  rewrite find_weights_closed.
  2:{ rewrite length_map. symmetry. assumption. }
  2:{ destruct axes; [congruence|discriminate]. }
  2:{ apply Forall_forall. intros a Ha. apply in_map_iff in Ha.
      destruct Ha as [pn [<- Hpn]]. destruct (Hin pn Hpn) as [_ Hn2].
      intros E. apply (f_equal (@length Qc)) in E.
      rewrite length_map, out_axis_length in E. simpl in E. lia. }
  cbn [bind].
  rewrite cartesian_prod_product.
  2:{ destruct axes; [congruence|discriminate]. }
  2:{ apply Forall_forall. intros a Ha. apply in_map_iff in Ha.
      destruct Ha as [pn [<- Hpn]]. destruct (Hin pn Hpn) as [_ Hn2].
      intros E. apply (f_equal (@length Z)) in E.
      rewrite length_map, out_axis_length in E. simpl in E. lia. }
  cbn [bind].
  rewrite (mapM_pure _ (fun k => map (fun row => nth k row 0%Z)
                                     (itertools_product
                                        (map (fun pn => map (lower_edge (fst pn))
                                                            (out_axis (fst pn) (snd pn)))
                                             axes)))).
  2:{ intros k Hk. apply in_seq in Hk. apply column_closed.
      intros row Hrow. apply itertools_product_row_length in Hrow.
      rewrite Hrow, length_map. lia. }
  cbn [bind]. reflexivity.
Qed.

Lemma checks_valid (in_pts : list (list Qc)) (out_shp : list Z) :
  checks_pass in_pts out_shp ->
  Forall (fun p => 2 <= length p) in_pts ->
  valid_config in_pts out_shp.
Proof.
  intros [Hs [Hlen Hn]] Hl. repeat split; try assumption.
  rewrite Forall_forall in *. intros p Hp. split; [apply Hs|apply Hl]; assumption.
Qed.

(** Past its three tests, the constructor can only fail with IndexError, and
    does so exactly when there is no axis or an axis has fewer than two
    points. *)
Lemma init_index_error (in_pts : list (list Qc)) (out_shp : list Z) :
  checks_pass in_pts out_shp ->
  ~ (Forall (fun p => 2 <= length p) in_pts /\ in_pts <> []) ->
  __init__ in_pts out_shp = Raise IndexError.
Proof.
  intros Hc Hbad. pose proof Hc as [Hs [Hlen Hn]].
  destruct in_pts as [|p0 in_pts'] eqn:Eip.
  { destruct out_shp; [reflexivity|discriminate]. }
  rewrite <- Eip in *. assert (Hne : in_pts <> []) by (rewrite Eip; discriminate).
  clear Eip p0 in_pts'.
  assert (Hex : Exists (fun p => ~ 2 <= length p) in_pts).
  { apply neg_Forall_Exists_neg.
    - intros p. destruct (le_dec 2 (length p)); [left|right]; assumption.
    - intros HF. apply Hbad. split; assumption. }
  apply Exists_exists in Hex. destruct Hex as [p [Hp Hshort]].
  destruct (combine_In_l in_pts out_shp p Hlen Hp) as [n Hpn].
  unfold __init__.
  rewrite check_axis_passes by assumption. cbn [bind].
  rewrite Hlen, Nat.eqb_refl. cbn [negb].
  rewrite check_len_passes by assumption. cbn [bind].
  set (axes := combine in_pts out_shp) in *.
  rewrite Forall_forall in Hn.
  assert (Hn2 : forall pn, In pn axes -> (2 <= snd pn)%Z).
  { intros [q m] H. apply Hn. eapply in_combine_r. exact H. }
  match goal with
  | |- bind (mapM ?f axes) _ = _ =>
      destruct (mapM_all_or f IndexError axes) as [[out_pts Hout]|Hout]
  end.
  { intros pn Hin. destruct (make_axis_cases pn (Hn2 pn Hin)) as [[_ E]|[_ E]];
      [left; eexists; exact E|right; exact E]. }
  2:{ rewrite Hout. reflexivity. }
  assert (Hnonempty : forall pn, In pn axes -> fst pn <> []).
  { intros pn Hin. destruct (mapM_In _ _ _ Hout pn Hin) as [y [Hy _]].
    destruct (make_axis_cases pn (Hn2 pn Hin)) as [[E _]|[_ E]]; [exact E|].
    congruence. }
  rewrite (mapM_pure _ (fun pn => out_axis (fst pn) (snd pn))).
  2:{ intros pn Hin. destruct (make_axis_cases pn (Hn2 pn Hin)) as [[_ E]|[E _]];
        [exact E|]. exfalso. exact (Hnonempty pn Hin E). }
  cbn [bind]. unfold axes. rewrite combine_map_fst. fold axes. rewrite mapM_map.
  cbn [fst snd].
  match goal with
  | |- bind (mapM ?f axes) _ = _ =>
      rewrite (mapM_fails f IndexError axes (p, n)); [reflexivity| |exact Hpn|]
  end.
  - intros pn Hin.
    destruct (axis_edges_cases (fst pn) (snd pn) (Hn2 pn Hin) (Hnonempty pn Hin))
      as [[_ E]|[_ E]]; [left; eexists; exact E|right; exact E].
  - cbn [fst snd].
    destruct (axis_edges_cases p n (Hn2 _ Hpn) (Hnonempty _ Hpn)) as [[Hl _]|[_ E]];
      [contradiction|exact E].
Qed.

Lemma init_value_error (in_pts : list (list Qc)) (out_shp : list Z) :
  checks_pass in_pts out_shp \/ is_ValueError (__init__ in_pts out_shp).
Proof.
  unfold __init__.
  destruct (mapM check_axis in_pts) as [u1|e1] eqn:E1.
  2:{ right. apply mapM_raise in E1. destruct E1 as [p [_ Hp]].
      unfold check_axis in Hp.
      destruct (any_nonpos (np_diff p)); [|discriminate].
      injection Hp as <-. eexists. reflexivity. }
  assert (Hs : Forall (Sorted Qclt) in_pts).
  { apply Forall_forall. intros p Hp.
    destruct (mapM_In _ _ _ E1 p Hp) as [y [Hy _]]. unfold check_axis in Hy.
    apply ascending_check.
    destruct (any_nonpos (np_diff p)); [discriminate|reflexivity]. }
  cbn [bind].
  destruct (length out_shp =? length in_pts) eqn:E2; cbn [negb].
  2:{ right. eexists. reflexivity. }
  apply Nat.eqb_eq in E2.
  destruct (mapM check_len out_shp) as [u3|e3] eqn:E3.
  2:{ right. apply mapM_raise in E3. destruct E3 as [n [_ Hn]].
      unfold check_len in Hn.
      destruct (n <? 2)%Z; [|discriminate].
      injection Hn as <-. eexists. reflexivity. }
  left. repeat split; try assumption.
  apply Forall_forall. intros n Hn.
  destruct (mapM_In _ _ _ E3 n Hn) as [y [Hy _]]. unfold check_len in Hy.
  destruct (n <? 2)%Z eqn:E; [discriminate|lia].
Qed.

Lemma init_trichotomy (in_pts : list (list Qc)) (out_shp : list Z) :
  (valid_config in_pts out_shp /\ in_pts <> []
   /\ __init__ in_pts out_shp = Ok (resampler_of in_pts out_shp))
  \/ (checks_pass in_pts out_shp
      /\ ~ (Forall (fun p => 2 <= length p) in_pts /\ in_pts <> [])
      /\ __init__ in_pts out_shp = Raise IndexError)
  \/ (~ checks_pass in_pts out_shp /\ is_ValueError (__init__ in_pts out_shp)).
Proof.
  destruct (init_value_error in_pts out_shp) as [Hc|Hve].
  - assert (Hdec : (Forall (fun p => 2 <= length p) in_pts /\ in_pts <> [])
                   \/ ~ (Forall (fun p => 2 <= length p) in_pts /\ in_pts <> [])).
    { destruct (Forall_dec (fun p => 2 <= length p)
                  (fun p => le_dec 2 (length p)) in_pts) as [HF|HF];
        [|right; tauto].
      destruct in_pts; [right; intros [_ H]; congruence|left; split; [assumption|discriminate]]. }
    destruct Hdec as [[HF Hne]|Hbad].
    + left. pose proof (checks_valid _ _ Hc HF) as Hv.
      repeat split; try assumption; try apply Hv. apply init_closed; assumption.
    + right. left. repeat split; try assumption; try apply Hc.
      apply init_index_error; assumption.
  - right. right. split; [|assumption].
    intros Hc. destruct Hve as [msg Hmsg].
    assert (Hdec : (Forall (fun p => 2 <= length p) in_pts /\ in_pts <> [])
                   \/ ~ (Forall (fun p => 2 <= length p) in_pts /\ in_pts <> [])).
    { destruct (Forall_dec (fun p => 2 <= length p)
                  (fun p => le_dec 2 (length p)) in_pts) as [HF|HF];
        [|right; tauto].
      destruct in_pts; [right; intros [_ H]; congruence|left; split; [assumption|discriminate]]. }
    destruct Hdec as [[HF Hne]|Hbad].
    + rewrite (init_closed _ _ (checks_valid _ _ Hc HF) Hne) in Hmsg. discriminate.
    + rewrite (init_index_error _ _ Hc Hbad) in Hmsg. discriminate.
Qed.

(** What a successful construction tells. *)
Lemma init_Ok_inv (in_pts : list (list Qc)) (out_shp : list Z) (R : RegularGridResampler) :
  __init__ in_pts out_shp = Ok R ->
  valid_config in_pts out_shp /\ in_pts <> [] /\ R = resampler_of in_pts out_shp.
Proof.
  intros H.
  destruct (init_trichotomy in_pts out_shp) as [[Hv [Hne E]]|[[_ [_ E]]|[_ [msg E]]]];
    rewrite E in H; try discriminate.
  injection H as <-. auto.
Qed.

(** ** [__call__] in closed form *)

Lemma dict_get_map {V : Type} (F : list Z -> V) (keys : list (list Z)) (e : list Z) :
  In e keys -> dict_get (map (fun k => (k, F k)) keys) e = Ok (F e).
Proof.
  unfold dict_get. induction keys as [|k keys IH]; intros H; [destruct H|].
  cbn [map find fst]. destruct (list_eq_dec Z.eq_dec k e) as [->|Hne].
  - reflexivity.
  - destruct H as [->|H]; [congruence|]. apply IH. assumption.
Qed.

Lemma broadcast2_scalar_r {A B C : Type} (f : A -> B -> C) (a : list A) (y : B) :
  broadcast2 f a [y] = Ok (map (fun x => f x y) a).
Proof.
  unfold broadcast2. destruct a as [|x [|x' a]]; reflexivity.
Qed.

Lemma norm_index_nat (d : nat) (i : Z) :
  (0 <= i < Z.of_nat d)%Z -> norm_index d i = Ok (Z.to_nat i).
Proof.
  intros H. unfold norm_index.
  assert ((i <? 0)%Z = false) as -> by lia.
  assert (((0 <=? i)%Z && (i <? Z.of_nat d)%Z)%bool = true) as ->
    by (apply andb_true_iff; split; lia).
  reflexivity.
Qed.

(** The flat offsets read for one edge: for every output point the
    row-major offset of that corner of its cell. *)
Lemma flat_offsets_fancy (rows : list (list Z)) (shp : list nat) :
  forall (e : list Z) (s : nat),
    shp <> [] -> length e = length shp ->
    (forall row, In row rows -> corner_in_range shp (skipn s row) e) ->
    flat_offsets shp
      (map (fun ja => map (fun x => (x + fst ja)%Z) (snd ja))
           (combine e (map (fun k => map (fun row => nth k row 0%Z) rows)
                           (seq s (length shp)))))
    = Ok (map (fun row => ravel shp (corner_index (skipn s row) e)) rows).
Proof.
  induction shp as [|d shp IH]; intros e s Hne Hlen Hrows; [congruence|].
  destruct e as [|j e]; [discriminate|].
  assert (Hrow : forall row, In row rows ->
            exists c rest, skipn s row = c :: rest
                           /\ nth s row 0%Z = c /\ skipn (S s) row = rest
                           /\ (0 <= c + j < Z.of_nat d)%Z
                           /\ corner_in_range shp rest e).
  { intros row Hin. specialize (Hrows row Hin).
    destruct (skipn s row) as [|c rest] eqn:E; [simpl in Hrows; contradiction|].
    exists c, rest. destruct Hrows as [Hr Hrest].
    assert (Hs : s < length row).
    { destruct (Nat.lt_ge_cases s (length row)) as [?|Hge]; [assumption|].
      rewrite skipn_all2 in E by assumption. discriminate. }
    rewrite (skipn_nth_cons 0%Z row s Hs) in E. injection E as E1 E2.
    split; [reflexivity|]. split; [exact E1|]. split; [exact E2|].
    split; assumption. }
  cbn [length seq map combine flat_offsets fst snd].
  rewrite !mapM_map.
  rewrite (mapM_pure _ (fun row => Z.to_nat (nth s row 0%Z + j))).
  2:{ intros row Hin. destruct (Hrow row Hin) as [c [rest [_ [Hc [_ [Hr _]]]]]].
      apply norm_index_nat. rewrite Hc. assumption. }
  cbn [bind].
  destruct shp as [|d' shp'].
  - destruct e; [|discriminate].
    cbn [length seq map combine flat_offsets bind].
    rewrite broadcast2_scalar_r. rewrite map_map. f_equal.
    apply map_ext_in. intros row Hin.
    destruct (Hrow row Hin) as [c [rest [E [Hc _]]]].
    rewrite E. unfold corner_index. cbn [combine map ravel fst snd]. rewrite Hc.
    destruct rest; reflexivity.
  - rewrite (IH e (S s)); [|discriminate|cbn [length] in *; lia|].
    2:{ intros row Hin. destruct (Hrow row Hin) as [c [rest [_ [_ [E [_ Hr]]]]]].
        rewrite E. assumption. }
    cbn [bind]. rewrite broadcast2_same by (rewrite !length_map; reflexivity).
    rewrite combine_map_map, map_map. f_equal.
    apply map_ext_in. intros row Hin.
    destruct (Hrow row Hin) as [c [rest [E [Hc [E' _]]]]].
    rewrite E, E'. unfold corner_index. cbn [combine map ravel fst snd].
    rewrite Hc. reflexivity.
Qed.

Lemma ravel_lt (shp : list nat) (cell e : list Z) :
  corner_in_range shp cell e ->
  ravel shp (corner_index cell e) < np_prod shp.
Proof.
  revert cell e; induction shp as [|d shp IH]; intros [|c cell] [|j e] H;
    simpl in H; try contradiction.
  - simpl. lia.
  - destruct H as [Hr H]. specialize (IH _ _ H).
    unfold corner_index in *. cbn [combine map ravel fst snd np_prod fold_right].
    fold (np_prod shp). nia.
Qed.

Lemma fancy_index_closed (field : ndarray) (lower : list (list Z)) (e : list Z) :
  ndarray_wf field -> shape field <> [] ->
  length e = length (shape field) ->
  (forall row, In row (itertools_product lower) ->
               corner_in_range (shape field) row e) ->
  fancy_index field (fancy_inds (length (shape field)) lower e)
  = Ok (map (fun row => corner_value field row e) (itertools_product lower)).
Proof.
  intros Hwf Hne Hlen Hrows. unfold fancy_index, fancy_inds.
  rewrite (flat_offsets_fancy (itertools_product lower) (shape field) e 0 Hne Hlen)
    by exact Hrows.
  cbn [bind skipn]. rewrite mapM_map.
  apply mapM_pure. intros row Hin. unfold item, corner_value, at_index.
  destruct (nth_error (data field) _) as [x|] eqn:E.
  - f_equal. symmetry. apply nth_error_nth. assumption.
  - apply nth_error_None in E. pose proof (ravel_lt _ _ _ (Hrows row Hin)) as Hlt.
    unfold ndarray_wf in Hwf. lia.
Qed.

Lemma Zprod_nat (l : list Z) :
  Forall (fun n => (0 <= n)%Z) l ->
  fold_right Z.mul 1%Z l = Z.of_nat (np_prod (map Z.to_nat l)).
Proof.
  induction 1 as [|n l Hn _ IH]; [reflexivity|].
  cbn [fold_right map np_prod]. fold (np_prod (map Z.to_nat l)). rewrite IH. lia.
Qed.

(** Every sample of an output point sits on its own axis, at one of the
    coordinates generated for that axis. *)
Lemma product_samples_In (ax : list (list Qc * Z)) (pt : list sample) :
  In pt (itertools_product (map axis_samples ax)) ->
  Forall2 (fun s pn => fst s = fst pn /\ In (snd s) (out_axis (fst pn) (snd pn)))
          pt ax.
Proof.
  revert pt; induction ax as [|pn ax IH]; intros pt H; simpl in H.
  - destruct H as [<-|[]]. constructor.
  - apply in_flat_map in H. destruct H as [s [Hs H]].
    apply in_map_iff in H. destruct H as [r [<- Hr]].
    constructor; [|apply IH; assumption].
    unfold axis_samples in Hs. apply in_map_iff in Hs.
    destruct Hs as [v [<- Hv]]. split; [reflexivity|exact Hv].
Qed.

Lemma axes_facts (in_pts : list (list Qc)) (out_shp : list Z) :
  valid_config in_pts out_shp ->
  length (combine in_pts out_shp) = length in_pts
  /\ map fst (combine in_pts out_shp) = in_pts
  /\ map snd (combine in_pts out_shp) = out_shp
  /\ forall pn, In pn (combine in_pts out_shp) ->
                valid_axis (fst pn) /\ (2 <= snd pn)%Z.
Proof.
  intros [Hlen [Hn Hax]].
  split; [rewrite length_combine; lia|].
  split; [|split].
  - clear -Hlen. revert out_shp Hlen.
    induction in_pts as [|p l IH]; intros [|n os] H; simpl in *; try discriminate;
      [reflexivity|]. f_equal. apply IH. lia.
  - clear -Hlen. revert out_shp Hlen.
    induction in_pts as [|p l IH]; intros [|n os] H; simpl in *; try discriminate;
      [reflexivity|]. f_equal. apply IH. lia.
  - rewrite Forall_forall in Hn, Hax. intros [p n] H. split.
    + apply Hax. eapply in_combine_l. exact H.
    + apply Hn. eapply in_combine_r. exact H.
Qed.

Lemma lower_rows (in_pts : list (list Qc)) (out_shp : list Z) :
  itertools_product (lower_edge_inds (resampler_of in_pts out_shp))
  = map cell_of (sample_points in_pts out_shp).
Proof.
  unfold sample_points, cell_of. rewrite <- itertools_product_map.
  cbn [resampler_of lower_edge_inds]. f_equal. rewrite map_map.
  apply map_ext. intros pn. unfold axis_samples. rewrite map_map. reflexivity.
Qed.

Lemma dists_rows (in_pts : list (list Qc)) (out_shp : list Z) :
  itertools_product (norm_distances (resampler_of in_pts out_shp))
  = map dists_of (sample_points in_pts out_shp).
Proof.
  unfold sample_points, dists_of. rewrite <- itertools_product_map.
  cbn [resampler_of norm_distances]. f_equal. rewrite map_map.
  apply map_ext. intros pn. unfold axis_samples. rewrite map_map. reflexivity.
Qed.

Lemma sample_points_length (in_pts : list (list Qc)) (out_shp : list Z) :
  valid_config in_pts out_shp ->
  length (sample_points in_pts out_shp) = np_prod (map Z.to_nat out_shp).
Proof.
  intros Hvalid. unfold sample_points. rewrite itertools_product_length, map_map.
  destruct (axes_facts in_pts out_shp Hvalid) as [_ [_ [Hsnd _]]].
  rewrite <- Hsnd at 2. rewrite map_map. f_equal. apply map_ext.
  intros pn. unfold axis_samples. rewrite length_map. apply out_axis_length.
Qed.

Lemma product_corner_in_range (ax : list (list Qc * Z)) (pt : list sample) :
  (forall pn, In pn ax -> valid_axis (fst pn) /\ (2 <= snd pn)%Z) ->
  In pt (itertools_product (map axis_samples ax)) ->
  forall e, length e = length ax -> Forall is_bit e ->
            corner_in_range (map (fun pn => length (fst pn)) ax) (cell_of pt) e.
Proof.
  intros Hax Hpt. apply product_samples_In in Hpt.
  induction Hpt as [|s pn pt ax [Hs _] _ IH]; intros e Hlen Hbits.
  - destruct e; [exact I|discriminate].
  - destruct e as [|j e]; [discriminate|].
    inversion Hbits as [|? ? Hj Hbits']; subst.
    cbn [map cell_of corner_in_range]. split.
    + destruct (Hax pn (or_introl eq_refl)) as [[_ Hl] _].
      pose proof (lower_edge_range (fst s) (snd s)) as Hr.
      rewrite Hs in Hr |- *. specialize (Hr Hl). destruct Hj as [-> | ->]; lia.
    + apply IH; [intros; apply Hax; right; assumption|simpl in Hlen; lia|assumption].
Qed.

Lemma sample_corner_in_range (in_pts : list (list Qc)) (out_shp : list Z)
    (pt : list sample) (e : list Z) :
  valid_config in_pts out_shp ->
  In pt (sample_points in_pts out_shp) -> In e (edge_keys (length in_pts)) ->
  corner_in_range (map (@length Qc) in_pts) (cell_of pt) e.
Proof.
  intros Hvalid Hpt He. apply edge_keys_In in He. destruct He as [Hlen Hbits].
  destruct (axes_facts in_pts out_shp Hvalid) as [Hla [Hfst [_ Hax]]].
  pose proof (f_equal (map (@length Qc)) Hfst) as E. rewrite map_map in E.
  rewrite <- E. apply product_corner_in_range; try assumption. lia.
Qed.

Section CallClosed.
Variables (in_pts : list (list Qc)) (out_shp : list Z) (field : ndarray).
Hypothesis Hvalid : valid_config in_pts out_shp.
Hypothesis Hne : in_pts <> [].
Hypothesis Hwf : ndarray_wf field.
Hypothesis Hshape : shape field = map (@length Qc) in_pts.

Lemma edge_gather (e : list Z) :
  In e (edge_keys (length in_pts)) ->
  fancy_index field
    (fancy_inds (length in_pts)
                (lower_edge_inds (resampler_of in_pts out_shp)) e)
  = Ok (map (fun pt => corner_value field (cell_of pt) e)
            (sample_points in_pts out_shp)).
Proof.
  intros He.
  assert (Hnd : length in_pts = length (shape field))
    by (rewrite Hshape, length_map; reflexivity).
  rewrite Hnd, fancy_index_closed; try assumption.
  - rewrite lower_rows, map_map. reflexivity.
  - rewrite Hshape. destruct in_pts; [congruence|discriminate].
  - rewrite <- Hnd. apply edge_keys_In in He. apply He.
  - intros row Hrow. rewrite lower_rows in Hrow.
    apply in_map_iff in Hrow. destruct Hrow as [pt [<- Hpt]].
    rewrite Hshape. apply (sample_corner_in_range in_pts out_shp); assumption.
Qed.

Lemma edge_lookup (e : list Z) :
  In e (edge_keys (length in_pts)) ->
  dict_get (fancy_inds_all (resampler_of in_pts out_shp)) e
  = Ok (fancy_inds (length in_pts)
                   (lower_edge_inds (resampler_of in_pts out_shp)) e).
Proof.
  intros He. cbn [resampler_of fancy_inds_all lower_edge_inds].
  apply (dict_get_map _ _ e He).
Qed.

Lemma foldM_edges (keys : list (list Z)) :
  forall g : list sample -> Qc,
    (forall e, In e keys -> In e (edge_keys (length in_pts))) ->
    foldM (fun out_values kv =>
             edge_fancy_inds <-
               dict_get (fancy_inds_all (resampler_of in_pts out_shp)) (fst kv) ;;
             g <- fancy_index field edge_fancy_inds ;;
             t <- broadcast2 Qcmult g (snd kv) ;;
             inplace2 Qcplus out_values t)
          (map (fun e => (e, map (edge_weight e)
                                 (map dists_of (sample_points in_pts out_shp))))
               keys)
          (map g (sample_points in_pts out_shp))
    = Ok (map (fun pt =>
                 fold_left (fun acc e =>
                              (acc + corner_value field (cell_of pt) e
                                     * edge_weight e (dists_of pt))%Qc)
                           keys (g pt))
              (sample_points in_pts out_shp)).
Proof.
  induction keys as [|e keys IH]; intros g Hkeys.
  - reflexivity.
  - cbn [map foldM fst snd].
    assert (He : In e (edge_keys (length in_pts))) by (apply Hkeys; left; reflexivity).
    rewrite (edge_lookup e He). cbn [bind].
    rewrite (edge_gather e He). cbn [bind]. rewrite !map_map.
    rewrite broadcast2_same by (rewrite !length_map; reflexivity).
    cbn [bind]. rewrite combine_map_map, map_map. cbn [fst snd].
    rewrite inplace2_same by (rewrite !length_map; reflexivity).
    cbn [bind]. rewrite combine_map_map, map_map. cbn [fst snd].
    specialize (IH (fun pt => (g pt + corner_value field (cell_of pt) e
                                      * edge_weight e (dists_of pt))%Qc)).
    rewrite IH by (intros; apply Hkeys; right; assumption).
    reflexivity.
Qed.

(** The array returned by [__call__]: at every output point, the
    multilinear interpolant over the corners of the point's cell. *)
Lemma call_closed :
  __call__ (resampler_of in_pts out_shp) field
  = Ok (out_points (resampler_of in_pts out_shp), resample in_pts out_shp field).
Proof.
  unfold __call__.
  destruct (list_eq_dec Nat.eq_dec (shape field)
              (in_shape (resampler_of in_pts out_shp))) as [_|Hbad].
  2:{ exfalso. apply Hbad. exact Hshape. }
  assert (Hnn : Forall (fun n => (0 <= n)%Z) out_shp).
  { destruct Hvalid as [_ [Hn _]]. eapply Forall_impl; [|exact Hn].
    intros n Hn2. simpl in Hn2. lia. }
  change (out_shape (resampler_of in_pts out_shp)) with out_shp.
  rewrite (Zprod_nat _ Hnn).
  assert ((Z.of_nat (np_prod (map Z.to_nat out_shp)) <? 0)%Z = false) as ->
    by (apply Z.ltb_ge; lia).
  rewrite Nat2Z.id.
  rewrite <- (sample_points_length in_pts out_shp Hvalid).
  rewrite repeat_map_const.
  change (weights (resampler_of in_pts out_shp))
    with (map (fun e => (e, map (edge_weight e)
                                (itertools_product
                                   (norm_distances (resampler_of in_pts out_shp)))))
              (edge_keys (length in_pts))).
  rewrite dists_rows.
  rewrite foldM_edges by (intros; assumption). cbn [bind].
  unfold reshape.
  assert (forallb (fun d => (0 <=? d)%Z) out_shp = true) as ->.
  { apply forallb_forall. rewrite Forall_forall in Hnn. intros n Hn.
    specialize (Hnn n Hn). apply Z.leb_le. assumption. }
  rewrite length_map.
  rewrite (sample_points_length in_pts out_shp Hvalid).
  rewrite (Zprod_nat _ Hnn), Z.eqb_refl. cbn [andb bind].
  reflexivity.
Qed.
End CallClosed.

(** ** The call on arrays of floats

    On an array of numbers the call in the arithmetic of [float] is the
    call in exact arithmetic. *)

Lemma finite_values_map (qs : list Qc) : finite_values (map Finite qs) = Some qs.
Proof. induction qs as [|q qs IH]; simpl; [reflexivity|]. rewrite IH. reflexivity. Qed.

Lemma finite_values_Some (a : list float) (qs : list Qc) :
  finite_values a = Some qs -> a = map Finite qs.
Proof.
  revert qs. induction a as [|x a IH]; intros qs H.
  - simpl in H. injection H as <-. reflexivity.
  - destruct x; simpl in H; try discriminate.
    destruct (finite_values a) as [qs'|]; [|discriminate].
    injection H as <-. simpl. f_equal. apply IH. reflexivity.
Qed.

Lemma assert_finite_of_ndarray (a : ndarray) : assert_finite (of_ndarray a) = Ok a.
Proof.
  unfold assert_finite. cbn [of_ndarray fdata fshape].
  rewrite finite_values_map. destruct a; reflexivity.
Qed.

Lemma assert_finite_inv (fa : farray) (a : ndarray) :
  assert_finite fa = Ok a -> fa = of_ndarray a.
Proof.
  unfold assert_finite. destruct (finite_values (fdata fa)) as [d|] eqn:E;
    [|discriminate].
  intros H. injection H as <-. apply finite_values_Some in E.
  destruct fa as [shp dat]. cbn in *. subst dat. reflexivity.
Qed.

Lemma mapM_ext {A B : Type} (f g : A -> result B) (l : list A) :
  (forall x, f x = g x) -> mapM f l = mapM g l.
Proof.
  intros H. induction l as [|x l IH]; [reflexivity|].
  cbn [mapM]. rewrite H, IH. reflexivity.
Qed.

Lemma mapM_fmap {A B C : Type} (f : A -> result B) (g : B -> C) (l : list A) :
  mapM (fun x => y <- f x ;; Ok (g y)) l = (ys <- mapM f l ;; Ok (map g ys)).
Proof.
  induction l as [|x l IH]; [reflexivity|].
  cbn [mapM]. destruct (f x) as [y|e]; [|reflexivity]. cbn [bind].
  rewrite IH. destruct (mapM f l) as [ys|e]; reflexivity.
Qed.

Lemma ffancy_index_finite (a : ndarray) (inds : list (list Z)) :
  ffancy_index (of_ndarray a) inds
  = (g <- fancy_index a inds ;; Ok (map Finite g)).
Proof.
  unfold ffancy_index, fancy_index. cbn [of_ndarray fshape].
  destruct (flat_offsets (shape a) inds) as [offs|e]; [|reflexivity].
  cbn [bind]. rewrite <- mapM_fmap.
  apply mapM_ext. intros off. unfold fitem, item. cbn [of_ndarray fdata].
  rewrite nth_error_map. destruct (nth_error (data a) off); reflexivity.
Qed.

Lemma broadcast2_fmul_finite (g w : list Qc) :
  broadcast2 fmul (map Finite g) w
  = (t <- broadcast2 Qcmult g w ;; Ok (map Finite t)).
Proof.
  unfold broadcast2. rewrite length_map.
  destruct (length g =? length w).
  - cbn [bind]. f_equal. rewrite map_map.
    revert w. induction g as [|x g IH]; intros [|y w]; try reflexivity.
    cbn [map combine fst snd fmul]. f_equal. apply IH.
  - destruct g as [|x [|x' g]]; cbn [map].
    + destruct w as [|y [|y' w]]; reflexivity.
    + cbn [bind]. rewrite map_map. reflexivity.
    + destruct w as [|y [|y' w]]; try reflexivity.
      cbn [bind map fmul]. rewrite !map_map. reflexivity.
Qed.

Lemma inplace2_fadd_finite (o t : list Qc) :
  inplace2 fadd (map Finite o) (map Finite t)
  = (r <- inplace2 Qcplus o t ;; Ok (map Finite r)).
Proof.
  unfold inplace2. rewrite !length_map.
  destruct (length t =? length o).
  - cbn [bind]. f_equal. rewrite map_map.
    revert t. induction o as [|x o IH]; intros [|y t]; try reflexivity.
    cbn [map combine fst snd fadd]. f_equal. apply IH.
  - destruct t as [|y [|y' t]]; try reflexivity.
    cbn [map bind]. rewrite !map_map. reflexivity.
Qed.

Lemma freshape_finite (v : list Qc) (new_shape : list Z) :
  freshape (map Finite v) new_shape
  = (o <- reshape v new_shape ;; Ok (of_ndarray o)).
Proof.
  unfold freshape, reshape. rewrite length_map.
  destruct (_ && _)%bool; reflexivity.
Qed.

Lemma foldM_call_finite (self : RegularGridResampler) (a : ndarray)
    (ws : dict (list Qc)) :
  forall acc : list Qc,
    foldM (fun out_values kv =>
             edge_fancy_inds <- dict_get (fancy_inds_all self) (fst kv) ;;
             g <- ffancy_index (of_ndarray a) edge_fancy_inds ;;
             t <- broadcast2 fmul g (snd kv) ;;
             inplace2 fadd out_values t)
          ws (map Finite acc)
    = (r <- foldM (fun out_values kv =>
                     edge_fancy_inds <- dict_get (fancy_inds_all self) (fst kv) ;;
                     g <- fancy_index a edge_fancy_inds ;;
                     t <- broadcast2 Qcmult g (snd kv) ;;
                     inplace2 Qcplus out_values t)
                  ws acc ;;
       Ok (map Finite r)).
Proof.
  induction ws as [|kv ws IH]; intros acc; [reflexivity|].
  cbn [foldM].
  destruct (dict_get (fancy_inds_all self) (fst kv)) as [inds|e]; [|reflexivity].
  cbn [bind]. rewrite ffancy_index_finite.
  destruct (fancy_index a inds) as [g|e]; [|reflexivity].
  cbn [bind]. rewrite broadcast2_fmul_finite.
  destruct (broadcast2 Qcmult g (snd kv)) as [t|e]; [|reflexivity].
  cbn [bind]. rewrite inplace2_fadd_finite.
  destruct (inplace2 Qcplus acc t) as [r|e]; [|reflexivity].
  cbn [bind]. apply IH.
Qed.

(** The two readings of [__call__] agree on arrays of numbers. *)
Lemma call_float_finite (self : RegularGridResampler) (a : ndarray) :
  __call___float self (of_ndarray a)
  = (r <- __call__ self a ;; Ok (fst r, of_ndarray (snd r))).
Proof.
  unfold __call___float, __call__. cbn [of_ndarray fshape].
  destruct (list_eq_dec Nat.eq_dec (shape a) (in_shape self)); [|reflexivity].
  cbv zeta. destruct (_ <? 0)%Z; [reflexivity|].
  match goal with
  | |- context [repeat (Finite 0%Qc) ?n] =>
      replace (repeat (Finite 0%Qc) n) with (map Finite (repeat 0%Qc n))
        by apply map_repeat
  end.
  rewrite foldM_call_finite.
  match goal with |- context [foldM ?f ?l ?s] => destruct (foldM f l s) as [out|err] end;
    [|reflexivity].
  cbn [bind]. rewrite freshape_finite.
  destruct (reshape out (out_shape self)); reflexivity.
Qed.

(** ** Sums over the corners *)

Lemma fold_left_Qcsum {A : Type} (G : A -> Qc) (l : list A) (a : Qc) :
  fold_left (fun acc e => (acc + G e)%Qc) l a = (a + Qcsum (map G l))%Qc.
Proof.
  revert a; induction l as [|x l IH]; intros a; simpl.
  - ring.
  - rewrite IH. ring.
Qed.

Lemma Qcsum_app (l1 l2 : list Qc) : Qcsum (l1 ++ l2) = (Qcsum l1 + Qcsum l2)%Qc.
Proof.
  induction l1 as [|x l1 IH]; simpl; [ring|]. rewrite IH. ring.
Qed.

Lemma Qcsum_scale {A : Type} (c : Qc) (G : A -> Qc) (l : list A) :
  Qcsum (map (fun e => (c * G e)%Qc) l) = (c * Qcsum (map G l))%Qc.
Proof.
  induction l as [|x l IH]; simpl; [ring|]. rewrite IH. ring.
Qed.

Lemma fold_left_mul_init (l : list (Z * Qc)) (a : Qc) :
  fold_left (fun acc ju => (acc * axis_weight (fst ju) (snd ju))%Qc) l a
  = (a * fold_left (fun acc ju => (acc * axis_weight (fst ju) (snd ju))%Qc) l 1)%Qc.
Proof.
  revert a; induction l as [|x l IH]; intros a; simpl.
  - ring.
  - rewrite IH. rewrite (IH (1 * _)%Qc). ring.
Qed.

Lemma edge_weight_cons (j : Z) (e : list Z) (u : Qc) (us : list Qc) :
  edge_weight (j :: e) (u :: us) = (axis_weight j u * edge_weight e us)%Qc.
Proof.
  unfold edge_weight. cbn [combine fold_left fst snd].
  rewrite fold_left_mul_init. ring.
Qed.

Lemma edge_keys_S (n : nat) :
  edge_keys (S n) = map (cons 0%Z) (edge_keys n) ++ map (cons 1%Z) (edge_keys n).
Proof.
  unfold edge_keys. cbn [repeat itertools_product flat_map]. rewrite app_nil_r.
  reflexivity.
Qed.

Lemma edge_keys_length (n : nat) : length (edge_keys n) = 2 ^ n.
Proof.
  induction n as [|n IH]; [reflexivity|].
  rewrite edge_keys_S, length_app, !length_map, IH. simpl. lia.
Qed.

(** The sum over the edges, as [__call__] forms it, is the iterated linear
    interpolation. *)
Lemma edge_sum_multilin (F : list Z -> Qc) (us : list Qc) :
  Qcsum (map (fun e => (F e * edge_weight e us)%Qc) (edge_keys (length us)))
  = multilin F us.
Proof.
  revert F; induction us as [|u us IH]; intros F.
  - simpl. unfold edge_weight. simpl. ring.
  - cbn [length multilin]. rewrite edge_keys_S, map_app, Qcsum_app, !map_map.
    rewrite <- (IH (fun e => F (0%Z :: e))), <- (IH (fun e => F (1%Z :: e))).
    rewrite <- !Qcsum_scale. f_equal; f_equal; apply map_ext; intros e;
      rewrite edge_weight_cons; unfold axis_weight; simpl; ring.
Qed.

Lemma interp_multilin (field : ndarray) (cell : list Z) (us : list Qc) :
  interp (length us) field cell us = multilin (corner_value field cell) us.
Proof.
  unfold interp. rewrite fold_left_Qcsum, edge_sum_multilin. ring.
Qed.

Lemma multilin_const (c : Qc) (us : list Qc) : multilin (fun _ => c) us = c.
Proof.
  induction us as [|u us IH]; simpl; [reflexivity|]. rewrite IH. ring.
Qed.

(** Partition of unity at one point. *)
Lemma edge_weights_sum (us : list Qc) :
  Qcsum (map (fun e => edge_weight e us) (edge_keys (length us))) = 1%Qc.
Proof.
  rewrite <- (multilin_const 1%Qc us), <- edge_sum_multilin.
  f_equal. apply map_ext. intros e. ring.
Qed.

Lemma axis_weight_nonneg (j : Z) (u : Qc) :
  unit_interval u -> (0 <= axis_weight j u)%Qc.
Proof.
  intros [H0 H1]. unfold axis_weight. destruct (j =? 0)%Z; [|assumption].
  qc_to_q. lra.
Qed.

Lemma Qcmult_nonneg (a b : Qc) : (0 <= a)%Qc -> (0 <= b)%Qc -> (0 <= a * b)%Qc.
Proof. intros Ha Hb. qc_to_q. nra. Qed.

Lemma edge_weight_nonneg (e : list Z) (us : list Qc) :
  Forall unit_interval us -> (0 <= edge_weight e us)%Qc.
Proof.
  intros H. revert e. induction H as [|u us Hu _ IH]; intros e.
  - unfold edge_weight. destruct e; simpl; unfold Qcle; simpl; lra.
  - destruct e as [|j e].
    + unfold edge_weight. simpl. unfold Qcle; simpl; lra.
    + rewrite edge_weight_cons. apply Qcmult_nonneg;
        [apply axis_weight_nonneg; assumption|apply IH].
Qed.

(** A multilinear interpolant stays between any two bounds of the corner
    values. *)
Lemma multilin_bounds (lo hi : Qc) (us : list Qc) :
  Forall unit_interval us ->
  forall F : list Z -> Qc,
    (forall e, length e = length us -> Forall is_bit e ->
               (lo <= F e)%Qc /\ (F e <= hi)%Qc) ->
    (lo <= multilin F us)%Qc /\ (multilin F us <= hi)%Qc.
Proof.
  induction 1 as [|u us [Hu0 Hu1] _ IH]; intros F HF.
  - simpl. apply HF; [reflexivity|constructor].
  - cbn [multilin].
    destruct (IH (fun e => F (0%Z :: e))) as [A1 A2].
    { intros e Hl Hb. apply HF; [simpl; lia|constructor; [left; reflexivity|assumption]]. }
    destruct (IH (fun e => F (1%Z :: e))) as [B1 B2].
    { intros e Hl Hb. apply HF; [simpl; lia|constructor; [right; reflexivity|assumption]]. }
    generalize dependent (multilin (fun e => F (0%Z :: e)) us).
    generalize dependent (multilin (fun e => F (1%Z :: e)) us).
    intros b B1 B2 a A1 A2. split; qc_to_q; nra.
Qed.

(** When every normalised distance is 0 or 1, the interpolant is the value
    at the corner that the distances point to. *)
Lemma multilin_select (bs : list Z) (us : list Qc) :
  Forall2 (fun b u => (b = 0%Z /\ u = 0%Qc) \/ (b = 1%Z /\ u = 1%Qc)) bs us ->
  forall F : list Z -> Qc, multilin F us = F bs.
Proof.
  induction 1 as [|b u bs us Hbu _ IH]; intros F; [reflexivity|].
  cbn [multilin]. rewrite !IH.
  destruct Hbu as [[-> ->]|[-> ->]]; ring.
Qed.

(** ** Output points *)

Lemma out_axis_within (p : list Qc) (n : Z) (v : Qc) :
  valid_axis p -> In v (out_axis p n) ->
  (nth 0 p 0 <= v)%Qc /\ (v <= nth (length p - 1) p 0)%Qc.
Proof.
  intros [Hs Hl] Hv. apply (In_nth _ _ 0%Qc) in Hv. destruct Hv as [i [Hi <-]].
  unfold out_axis in *. rewrite np_linspace_length in Hi.
  rewrite np_linspace_nth by assumption.
  apply linspace_point_bounds; [|assumption].
  apply sorted_nth_le; [assumption|lia].
Qed.

Lemma out_axis_first (p : list Qc) (n : Z) :
  (2 <= n)%Z -> nth 0 (out_axis p n) 0%Qc = nth 0 p 0%Qc.
Proof.
  intros Hn. unfold out_axis. rewrite np_linspace_nth by lia.
  apply linspace_point_first.
Qed.

Lemma out_axis_last (p : list Qc) (n : Z) :
  (2 <= n)%Z ->
  nth (length (out_axis p n) - 1) (out_axis p n) 0%Qc = nth (length p - 1) p 0%Qc.
Proof.
  intros Hn. rewrite out_axis_length. unfold out_axis.
  rewrite np_linspace_nth by lia. apply linspace_point_last. lia.
Qed.

Lemma product_sample_facts (ax : list (list Qc * Z)) (pt : list sample) :
  (forall pn, In pn ax -> valid_axis (fst pn) /\ (2 <= snd pn)%Z) ->
  In pt (itertools_product (map axis_samples ax)) ->
  length pt = length ax
  /\ map fst pt = map fst ax
  /\ Forall (fun s => valid_axis (fst s)
                      /\ (nth 0 (fst s) 0 <= snd s)%Qc
                      /\ (snd s <= nth (length (fst s) - 1) (fst s) 0)%Qc) pt.
Proof.
  intros Hax Hpt. apply product_samples_In in Hpt.
  induction Hpt as [|s pn pt ax [Hs Hv] _ IH].
  - repeat split; constructor.
  - destruct IH as [IH1 [IH2 IH3]]; [intros; apply Hax; right; assumption|].
    destruct (Hax pn (or_introl eq_refl)) as [Hva Hn].
    split; [simpl; lia|]. split; [simpl; congruence|].
    constructor; [|assumption]. rewrite Hs.
    split; [assumption|]. apply (out_axis_within _ (snd pn)); assumption.
Qed.

Section Points.
Variables (in_pts : list (list Qc)) (out_shp : list Z).
Hypothesis Hvalid : valid_config in_pts out_shp.

Lemma sample_point_facts (pt : list sample) :
  In pt (sample_points in_pts out_shp) ->
  length pt = length in_pts
  /\ map fst pt = in_pts
  /\ Forall (fun s => valid_axis (fst s)
                      /\ (nth 0 (fst s) 0 <= snd s)%Qc
                      /\ (snd s <= nth (length (fst s) - 1) (fst s) 0)%Qc) pt.
Proof.
  intros Hpt.
  destruct (axes_facts in_pts out_shp Hvalid) as [Hla [Hfst [_ Hax]]].
  destruct (product_sample_facts _ pt Hax Hpt) as [H1 [H2 H3]].
  rewrite Hla in H1. rewrite Hfst in H2. auto.
Qed.

Lemma sample_dists_unit (pt : list sample) :
  In pt (sample_points in_pts out_shp) -> Forall unit_interval (dists_of pt).
Proof.
  intros Hpt. destruct (sample_point_facts pt Hpt) as [_ [_ HF]].
  unfold dists_of. apply Forall_map. eapply Forall_impl; [|exact HF].
  intros s [Hva [Hlo Hhi]]. apply norm_distance_unit; assumption.
Qed.

Lemma sample_dists_length (pt : list sample) :
  In pt (sample_points in_pts out_shp) -> length (dists_of pt) = length in_pts.
Proof.
  intros Hpt. destruct (sample_point_facts pt Hpt) as [Hl _].
  unfold dists_of. rewrite length_map. assumption.
Qed.
End Points.

(** ** Minimum and maximum of an array *)

Lemma fold_Qcmin_spec (l : list Qc) (x : Qc) :
  let m := fold_left Qcmin l x in
  (m = x \/ In m l) /\ (m <= x)%Qc /\ Forall (fun y => (m <= y)%Qc) l.
Proof.
  revert x; induction l as [|y l IH]; intros x; cbn [fold_left].
  - split; [left; reflexivity|]. split; [apply Qcle_refl|constructor].
  - destruct (IH (Qcmin x y)) as [Hin [Hle Hall]].
    assert (Hm : (Qcmin x y <= x)%Qc /\ (Qcmin x y <= y)%Qc
                 /\ (Qcmin x y = x \/ Qcmin x y = y)).
    { unfold Qcmin. destruct (Qcleb x y) eqn:E.
      - apply Qcleb_le in E. split; [apply Qcle_refl|]. split; [assumption|left; reflexivity].
      - apply Qcleb_gt in E. split; [apply Qclt_le_weak; assumption|].
        split; [apply Qcle_refl|right; reflexivity]. }
    destruct Hm as [Hx [Hy Hxy]].
    split; [|split].
    + destruct Hin as [Hin|Hin]; [|right; right; assumption].
      destruct Hxy as [E|E]; rewrite E in Hin; [left|right; left]; congruence.
    + eapply Qcle_trans; eassumption.
    + constructor; [eapply Qcle_trans; eassumption|assumption].
Qed.

Lemma fold_Qcmax_spec (l : list Qc) (x : Qc) :
  let m := fold_left Qcmax l x in
  (m = x \/ In m l) /\ (x <= m)%Qc /\ Forall (fun y => (y <= m)%Qc) l.
Proof.
  revert x; induction l as [|y l IH]; intros x; cbn [fold_left].
  - split; [left; reflexivity|]. split; [apply Qcle_refl|constructor].
  - destruct (IH (Qcmax x y)) as [Hin [Hle Hall]].
    assert (Hm : (x <= Qcmax x y)%Qc /\ (y <= Qcmax x y)%Qc
                 /\ (Qcmax x y = x \/ Qcmax x y = y)).
    { unfold Qcmax. destruct (Qcleb x y) eqn:E.
      - apply Qcleb_le in E. split; [assumption|]. split; [apply Qcle_refl|right; reflexivity].
      - apply Qcleb_gt in E. split; [apply Qcle_refl|].
        split; [apply Qclt_le_weak; assumption|left; reflexivity]. }
    destruct Hm as [Hx [Hy Hxy]].
    split; [|split].
    + destruct Hin as [Hin|Hin]; [|right; right; assumption].
      destruct Hxy as [E|E]; rewrite E in Hin; [left|right; left]; congruence.
    + eapply Qcle_trans; eassumption.
    + constructor; [eapply Qcle_trans; eassumption|assumption].
Qed.

Lemma arr_min_spec (a : list Qc) :
  a <> [] ->
  exists m, arr_min a = Ok m /\ In m a /\ Forall (fun y => (m <= y)%Qc) a.
Proof.
  intros Hne. destruct a as [|x a]; [congruence|].
  destruct (fold_Qcmin_spec a x) as [Hin [Hle Hall]].
  exists (fold_left Qcmin a x). split; [reflexivity|]. split.
  - destruct Hin as [->|Hin]; [left; reflexivity|right; assumption].
  - constructor; assumption.
Qed.

Lemma arr_max_spec (a : list Qc) :
  a <> [] ->
  exists m, arr_max a = Ok m /\ In m a /\ Forall (fun y => (y <= m)%Qc) a.
Proof.
  intros Hne. destruct a as [|x a]; [congruence|].
  destruct (fold_Qcmax_spec a x) as [Hin [Hle Hall]].
  exists (fold_left Qcmax a x). split; [reflexivity|]. split.
  - destruct Hin as [->|Hin]; [left; reflexivity|right; assumption].
  - constructor; assumption.
Qed.

Lemma arr_min_unique (a : list Qc) (m : Qc) :
  In m a -> Forall (fun y => (m <= y)%Qc) a -> arr_min a = Ok m.
Proof.
  intros Hin Hall. destruct (arr_min_spec a) as [m' [E [Hin' Hall']]].
  { intros ->. destruct Hin. }
  rewrite E. f_equal. rewrite Forall_forall in Hall, Hall'.
  apply Qcle_antisym; [apply Hall'|apply Hall]; assumption.
Qed.

Lemma arr_max_unique (a : list Qc) (m : Qc) :
  In m a -> Forall (fun y => (y <= m)%Qc) a -> arr_max a = Ok m.
Proof.
  intros Hin Hall. destruct (arr_max_spec a) as [m' [E [Hin' Hall']]].
  { intros ->. destruct Hin. }
  rewrite E. f_equal. rewrite Forall_forall in Hall, Hall'.
  apply Qcle_antisym; [apply Hall|apply Hall']; assumption.
Qed.

Lemma nth_map_lt {A B : Type} (f : A -> B) (l : list A) (t : nat) (d : B) (d' : A) :
  t < length l -> nth t (map f l) d = f (nth t l d').
Proof.
  intros H. rewrite (nth_indep _ d (f d')) by (rewrite length_map; assumption).
  apply map_nth.
Qed.

Lemma edge_keys_complete (nd : nat) (e : list Z) :
  length e = nd -> Forall is_bit e -> In e (edge_keys nd).
Proof.
  revert e; induction nd as [|nd IH]; intros e Hl Hb.
  - destruct e; [left; reflexivity|discriminate].
  - destruct e as [|j e]; [discriminate|]. inversion Hb as [|? ? Hj Hb']; subst.
    rewrite edge_keys_S. apply in_or_app.
    destruct Hj as [-> | ->]; [left|right]; apply in_map; apply IH;
      simpl in Hl; (lia || assumption).
Qed.

(** * The properties stated by the specification *)

(** C2 (partition of unity).  For every resampler that the constructor
    builds, there are [2 ^ ndim] stored edge weight vectors, each with one
    entry per output point, and at every output point the [2 ^ ndim] edge
    weights sum to exactly 1. *)
Theorem C2_partition_of_unity
    (in_pts : list (list Qc)) (out_shp : list Z) (R : RegularGridResampler) :
  __init__ in_pts out_shp = Ok R ->
  let n_points := np_prod (map Z.to_nat (out_shape R)) in
  length (weights R) = 2 ^ ndim R
  /\ (forall kv, In kv (weights R) -> length (snd kv) = n_points)
  /\ (forall t, t < n_points ->
                Qcsum (map (fun kv => nth t (snd kv) 0%Qc) (weights R)) = 1%Qc).
Proof.
  intros Hinit n_points. apply init_Ok_inv in Hinit.
  destruct Hinit as [Hv [Hne ->]]. subst n_points.
  cbn [resampler_of weights ndim out_shape].
  change (map (fun pn : list Qc * Z => map (norm_distance (fst pn)) (out_axis (fst pn) (snd pn)))
              (combine in_pts out_shp))
    with (norm_distances (resampler_of in_pts out_shp)).
  rewrite (dists_rows in_pts out_shp).
  rewrite <- (sample_points_length in_pts out_shp Hv).
  split; [|split].
  - rewrite length_map. apply edge_keys_length.
  - intros kv Hkv. apply in_map_iff in Hkv. destruct Hkv as [e [<- _]].
    cbn [snd]. rewrite !length_map. reflexivity.
  - intros t Ht. rewrite map_map. cbn [snd].
    set (pt := nth t (sample_points in_pts out_shp) []).
    assert (Hpt : In pt (sample_points in_pts out_shp)) by (apply nth_In; assumption).
    rewrite (map_ext _ (fun e => edge_weight e (dists_of pt))).
    + rewrite <- (sample_dists_length in_pts out_shp Hv pt Hpt).
      apply edge_weights_sum.
    + intros e. rewrite map_map.
      apply (nth_map_lt (fun x => edge_weight e (dists_of x))). assumption.
Qed.

Lemma C2_partition_of_unity_witness :
  __init__ [ex_axis] [5%Z] = Ok ex_resampler
  /\ length (weights ex_resampler) = 2 ^ ndim ex_resampler
  /\ (forall kv, In kv (weights ex_resampler) ->
                 length (snd kv) = np_prod (map Z.to_nat (out_shape ex_resampler)))
  /\ (forall t, t < np_prod (map Z.to_nat (out_shape ex_resampler)) ->
                Qcsum (map (fun kv => nth t (snd kv) 0%Qc) (weights ex_resampler))
                = 1%Qc).
Proof.
  split; [vm_compute; reflexivity|].
  apply (C2_partition_of_unity [ex_axis] [5%Z] ex_resampler).
  vm_compute; reflexivity.
Defined.

Lemma coords_rows (in_pts : list (list Qc)) (out_shp : list Z) :
  itertools_product (out_points (resampler_of in_pts out_shp))
  = map (map snd) (sample_points in_pts out_shp).
Proof.
  unfold sample_points. rewrite <- itertools_product_map.
  cbn [resampler_of out_points]. f_equal. rewrite map_map.
  apply map_ext. intros pn. unfold axis_samples. rewrite map_map.
  cbn [snd]. symmetry. apply map_id.
Qed.

Lemma corner_value_In (field : ndarray) (cell e : list Z) :
  ndarray_wf field -> corner_in_range (shape field) cell e ->
  In (corner_value field cell e) (data field).
Proof.
  intros Hwf Hr. unfold corner_value, at_index. apply nth_In.
  unfold ndarray_wf in Hwf. rewrite Hwf. apply ravel_lt. assumption.
Qed.

Lemma resample_point (in_pts : list (list Qc)) (out_shp : list Z)
    (field : ndarray) (t : nat) (pt : list sample) :
  nth_error (sample_points in_pts out_shp) t = Some pt ->
  nth t (data (resample in_pts out_shp field)) 0%Qc
  = interp (length in_pts) field (cell_of pt) (dists_of pt).
Proof.
  intros Ht. cbn [resample data].
  assert (Hlt : t < length (sample_points in_pts out_shp))
    by (apply nth_error_Some; congruence).
  rewrite (nth_map_lt (fun p => interp (length in_pts) field (cell_of p) (dists_of p))
                      _ t 0%Qc [] Hlt).
  f_equal; f_equal; apply nth_error_nth; assumption.
Qed.

(** C3 (convexity and boundedness).  On a field of matching shape the
    resampler returns, at every output point, a convex combination of the
    [2 ^ ndim] values of the field at the corners of the input cell that
    contains the point: the weights are non-negative and sum to 1, the value
    is exactly that weighted sum (nothing is clipped), and it lies between
    the minimum and the maximum of the corner values.  A field without
    negative values therefore has a resampled array without negative
    values. *)
Theorem C3_convex_combination
    (in_pts : list (list Qc)) (out_shp : list Z) (R : RegularGridResampler)
    (field : ndarray) :
  __init__ in_pts out_shp = Ok R ->
  ndarray_wf field -> shape field = in_shape R ->
  exists out,
    __call__ R field = Ok (out_points R, out)
    /\ length (data out) = length (sample_points in_pts out_shp)
    /\ (forall t pt,
          nth_error (sample_points in_pts out_shp) t = Some pt ->
          let corners := map (corner_value field (cell_of pt)) (edge_keys (ndim R)) in
          let ws := map (fun e => edge_weight e (dists_of pt)) (edge_keys (ndim R)) in
          let value := nth t (data out) 0%Qc in
          map fst pt = in_points R
          /\ nth_error (itertools_product (out_points R)) t = Some (map snd pt)
          /\ Forall (fun s =>
                       let j := Z.to_nat (lower_edge (fst s) (snd s)) in
                       (nth j (fst s) 0 <= snd s)%Qc
                       /\ (snd s <= nth (S j) (fst s) 0)%Qc) pt
          /\ Forall (fun c => In c (data field)) corners
          /\ Forall (fun w => (0 <= w)%Qc) ws
          /\ Qcsum ws = 1%Qc
          /\ value = Qcsum (map (fun cw => (fst cw * snd cw)%Qc) (combine corners ws))
          /\ exists cmin cmax,
               arr_min corners = Ok cmin /\ arr_max corners = Ok cmax
               /\ (cmin <= value)%Qc /\ (value <= cmax)%Qc)
    /\ (Forall (fun x => (0 <= x)%Qc) (data field) ->
        Forall (fun x => (0 <= x)%Qc) (data out)).
Proof.
  intros Hinit Hwf Hshape. apply init_Ok_inv in Hinit.
  destruct Hinit as [Hv [Hne ->]].
  exists (resample in_pts out_shp field).
  split; [apply call_closed; assumption|].
  split; [cbn [resample data]; apply length_map|].
  assert (Hpoint : forall t pt,
            nth_error (sample_points in_pts out_shp) t = Some pt ->
            let corners := map (corner_value field (cell_of pt))
                               (edge_keys (length in_pts)) in
            let value := nth t (data (resample in_pts out_shp field)) 0%Qc in
            Forall (fun c => In c (data field)) corners
            /\ exists cmin cmax,
                 arr_min corners = Ok cmin /\ arr_max corners = Ok cmax
                 /\ (cmin <= value)%Qc /\ (value <= cmax)%Qc).
  { intros t pt Ht corners value.
    assert (Hpt : In pt (sample_points in_pts out_shp))
      by (eapply nth_error_In; eassumption).
    assert (Hcorners : Forall (fun c => In c (data field)) corners).
    { apply Forall_forall. intros c Hc. apply in_map_iff in Hc.
      destruct Hc as [e [<- He]]. apply corner_value_In; [assumption|].
      rewrite Hshape. apply (sample_corner_in_range in_pts out_shp); assumption. }
    split; [assumption|].
    assert (Hcne : corners <> []).
    { intros E. apply (f_equal (@length Qc)) in E. unfold corners in E.
      rewrite length_map, edge_keys_length in E. simpl in E.
      pose proof (Nat.pow_nonzero 2 (length in_pts)). lia. }
    destruct (arr_min_spec corners Hcne) as [cmin [Emin [_ Hmin]]].
    destruct (arr_max_spec corners Hcne) as [cmax [Emax [_ Hmax]]].
    exists cmin, cmax. split; [assumption|]. split; [assumption|].
    subst value. rewrite (resample_point _ _ _ _ _ Ht).
    rewrite <- (sample_dists_length in_pts out_shp Hv pt Hpt).
    rewrite interp_multilin.
    apply multilin_bounds; [apply (sample_dists_unit in_pts out_shp Hv); assumption|].
    intros e Hl Hb. rewrite Forall_forall in Hmin, Hmax.
    assert (Hin : In (corner_value field (cell_of pt) e) corners).
    { apply in_map. apply edge_keys_complete; [|assumption].
      rewrite Hl. apply (sample_dists_length in_pts out_shp Hv); assumption. }
    split; [apply Hmin|apply Hmax]; assumption. }
  split.
  - intros t pt Ht corners ws value.
    assert (Hpt : In pt (sample_points in_pts out_shp))
      by (eapply nth_error_In; eassumption).
    destruct (sample_point_facts in_pts out_shp Hv pt Hpt) as [Hl [Hfst Hin]].
    split; [exact Hfst|].
    split.
    { rewrite coords_rows. apply map_nth_error. exact Ht. }
    split.
    { eapply Forall_impl; [|exact Hin]. intros s [Hva [Hlo Hhi]].
      apply lower_edge_contains; assumption. }
    destruct (Hpoint t pt Ht) as [Hcorners Hbounds].
    split; [exact Hcorners|].
    split.
    { apply Forall_forall. intros w Hw. apply in_map_iff in Hw.
      destruct Hw as [e [<- _]]. apply edge_weight_nonneg.
      apply (sample_dists_unit in_pts out_shp Hv); assumption. }
    split.
    { subst ws. cbn [resampler_of ndim].
      rewrite <- (sample_dists_length in_pts out_shp Hv pt Hpt).
      apply edge_weights_sum. }
    split; [|exact Hbounds].
    subst value corners ws. rewrite (resample_point _ _ _ _ _ Ht).
    unfold interp. rewrite fold_left_Qcsum, combine_map_map, map_map.
    cbn [resampler_of ndim fst snd]. ring.
  - intros Hnonneg. apply Forall_forall. intros x Hx.
    apply (In_nth _ _ 0%Qc) in Hx. destruct Hx as [t [Ht <-]].
    cbn [resample data] in Ht. rewrite length_map in Ht.
    destruct (nth_error (sample_points in_pts out_shp) t) as [pt|] eqn:E;
      [|apply nth_error_None in E; lia].
    destruct (Hpoint t pt E) as [Hcorners [cmin [cmax [Emin [_ [Hlo _]]]]]].
    apply Qcle_trans with cmin; [|exact Hlo].
    assert (Hc : In cmin (data field)).
    { rewrite Forall_forall in Hcorners. apply Hcorners.
      destruct (map (corner_value field (cell_of pt)) (edge_keys (length in_pts)))
        as [|c cs] eqn:Ec; [discriminate|].
      destruct (arr_min_spec (c :: cs)) as [m [Em [Hm _]]]; [discriminate|].
      congruence. }
    rewrite Forall_forall in Hnonneg. apply Hnonneg. assumption.
Qed.

Lemma C3_convex_combination_witness :
  __init__ same_axes [3%Z; 2%Z] = Ok same_resampler
  /\ ndarray_wf same_field
  /\ shape same_field = in_shape same_resampler
  /\ exists out,
       __call__ same_resampler same_field = Ok (out_points same_resampler, out)
       /\ length (data out) = 6
       /\ (forall t pt,
             nth_error (sample_points same_axes [3%Z; 2%Z]) t = Some pt ->
             exists cmin cmax,
               arr_min (map (corner_value same_field (cell_of pt))
                            (edge_keys (ndim same_resampler))) = Ok cmin
               /\ arr_max (map (corner_value same_field (cell_of pt))
                               (edge_keys (ndim same_resampler))) = Ok cmax
               /\ (cmin <= nth t (data out) 0)%Qc
               /\ (nth t (data out) 0 <= cmax)%Qc)
       /\ nth 1 (data out) 0%Qc = Qc_of_Z (-2).
Proof.
  assert (H1 : __init__ same_axes [3%Z; 2%Z] = Ok same_resampler)
    by (vm_compute; reflexivity).
  assert (H2 : ndarray_wf same_field) by reflexivity.
  assert (H3 : shape same_field = in_shape same_resampler)
    by (vm_compute; reflexivity).
  split; [exact H1|]. split; [exact H2|]. split; [exact H3|].
  destruct (C3_convex_combination same_axes [3%Z; 2%Z] same_resampler same_field
              H1 H2 H3) as [out [Hcall [Hlen [Hpt _]]]].
  exists out. split; [exact Hcall|].
  split; [rewrite Hlen; vm_compute; reflexivity|].
  split.
  - intros t pt Ht. destruct (Hpt t pt Ht) as [_ [_ [_ [_ [_ [_ [_ Hb]]]]]]].
    exact Hb.
  - vm_compute in Hcall. injection Hcall as <-. vm_compute.
    apply Qc_is_canon. reflexivity.
Defined.

(** ** Resampling onto the grid itself *)

Lemma searchsorted1_at_point (p : list Qc) (i : nat) :
  Sorted Qclt p -> i < length p -> searchsorted1 p (nth i p 0%Qc) = i.
Proof.
  intros Hs Hi. pose proof (searchsorted1_le p (nth i p 0%Qc)) as Hle.
  destruct (Nat.lt_trichotomy (searchsorted1 p (nth i p 0%Qc)) i) as [H|[H|H]].
  - exfalso. assert (Hlt : searchsorted1 p (nth i p 0%Qc) < length p) by lia.
    pose proof (searchsorted1_at p _ Hlt) as H1.
    pose proof (sorted_nth_lt p Hs _ i (conj H Hi)) as H2.
    exact (Qcle_not_lt _ _ H1 H2).
  - assumption.
  - exfalso. pose proof (searchsorted1_below p _ i H) as H1.
    exact (Qclt_not_eq _ _ H1 eq_refl).
Qed.

(** At a point of the input axis: the lower edge is the point before (the
    point itself at the start of the axis), at distance 1 (distance 0 at the
    start). *)
Lemma grid_point_edge_exact (p : list Qc) (i : nat) :
  valid_axis p -> i < length p ->
  let v := nth i p 0%Qc in
  lower_edge p v = Z.max (Z.of_nat i - 1) 0
  /\ norm_distance p v = if i =? 0 then 0%Qc else 1%Qc.
Proof.
  intros [Hs Hl] Hi v.
  assert (Hle : lower_edge p v = Z.max (Z.of_nat i - 1) 0).
  { unfold lower_edge, v. rewrite searchsorted1_at_point by assumption. lia. }
  split; [exact Hle|].
  unfold norm_distance. rewrite Hle. destruct i as [|i]; cbn [Nat.eqb].
  - change (Z.to_nat (Z.max (Z.of_nat 0 - 1) 0)) with 0.
    unfold Qcdiv. subst v. ring.
  - replace (Z.to_nat (Z.max (Z.of_nat (S i) - 1) 0)) with i by lia.
    subst v.
    assert (Hlt : (nth i p 0 < nth (S i) p 0)%Qc) by (apply sorted_nth_lt; [assumption|lia]).
    field. intros E. clear - E Hlt. qc_to_q. lra.
Qed.

Lemma grid_point_edge (p : list Qc) (i : nat) :
  valid_axis p -> i < length p ->
  let v := nth i p 0%Qc in
  exists b,
    ((b = 0%Z /\ norm_distance p v = 0%Qc) \/ (b = 1%Z /\ norm_distance p v = 1%Qc))
    /\ Z.to_nat (lower_edge p v + b) = i.
Proof.
  intros Hv Hi v. destruct (grid_point_edge_exact p i Hv Hi) as [Hle Hnd].
  fold v in Hle, Hnd. destruct i as [|i]; cbn [Nat.eqb] in Hnd.
  - exists 0%Z. split; [left; split; [reflexivity|exact Hnd]|rewrite Hle; reflexivity].
  - exists 1%Z. split; [right; split; [reflexivity|exact Hnd]|rewrite Hle; lia].
Qed.

Lemma seq_offset (s k n : nat) :
  map (fun o => s + o) (seq k n) = seq (s + k) n.
Proof.
  revert k; induction n as [|n IH]; intros k; [reflexivity|].
  cbn [seq map]. f_equal. rewrite IH. f_equal. lia.
Qed.

Lemma seq_blocks (d P : nat) :
  flat_map (fun i => seq (i * P) P) (seq 0 d) = seq 0 (d * P).
Proof.
  induction d as [|d IH]; [reflexivity|].
  rewrite seq_S, flat_map_app, IH. cbn [flat_map]. rewrite app_nil_r.
  replace (S d * P) with (d * P + P) by lia. rewrite seq_app. reflexivity.
Qed.

(** Listing the multi-indices of a shape in product order lists the flat
    offsets in increasing order: the product order is the C order. *)
Lemma ravel_enumerate (shp : list nat) :
  map (ravel shp) (itertools_product (map (seq 0) shp)) = seq 0 (np_prod shp).
Proof.
  induction shp as [|d shp IH]; [reflexivity|].
  cbn [map itertools_product np_prod fold_right]. fold (np_prod shp).
  rewrite <- seq_blocks. rewrite !flat_map_concat_map, concat_map, map_map.
  f_equal. apply map_ext. intros i. rewrite map_map. cbn [ravel].
  rewrite <- (map_map (ravel shp) (fun o => i * np_prod shp + o)), IH.
  rewrite seq_offset, Nat.add_0_r. reflexivity.
Qed.

Lemma map_nth_seq {A : Type} (l : list A) (d : A) :
  map (fun o => nth o l d) (seq 0 (length l)) = l.
Proof.
  induction l as [|x l IH]; [reflexivity|].
  cbn [length seq map nth]. f_equal.
  rewrite <- seq_shift, map_map. exact IH.
Qed.

Lemma grid_points_select (ipt : list (list Qc * nat)) :
  Forall (fun s => valid_axis (fst s) /\ snd s < length (fst s)) ipt ->
  let pt := map (fun s => (fst s, nth (snd s) (fst s) 0%Qc)) ipt in
  exists bs,
    Forall2 (fun b u => (b = 0%Z /\ u = 0%Qc) \/ (b = 1%Z /\ u = 1%Qc))
            bs (dists_of pt)
    /\ corner_index (cell_of pt) bs = map snd ipt.
Proof.
  induction 1 as [|s ipt [Hva Hi] _ IH]; cbn zeta in *.
  - exists []. split; [constructor|reflexivity].
  - destruct IH as [bs [Hbs Hci]].
    destruct (grid_point_edge (fst s) (snd s) Hva Hi) as [b [Hb Hsum]].
    exists (b :: bs). split.
    + cbn [map dists_of fst snd]. constructor; [exact Hb|exact Hbs].
    + unfold corner_index in *. cbn [map cell_of combine fst snd].
      f_equal; [exact Hsum|exact Hci].
Qed.

Lemma index_rows_facts (in_pts : list (list Qc)) (ipt : list (list Qc * nat)) :
  Forall valid_axis in_pts ->
  In ipt (itertools_product
            (map (fun p => map (pair p) (seq 0 (length p))) in_pts)) ->
  length ipt = length in_pts
  /\ Forall (fun s => valid_axis (fst s) /\ snd s < length (fst s)) ipt.
Proof.
  intros Hv Hin. apply itertools_product_In in Hin.
  remember (map (fun p => map (pair p) (seq 0 (length p))) in_pts) as tabs eqn:Et.
  revert in_pts Hv Et.
  induction Hin as [|s tab ipt tabs Hs _ IH]; intros in_pts Hv Et.
  - destruct in_pts; [split; [reflexivity|constructor]|discriminate].
  - destruct in_pts as [|p in_pts]; [discriminate|]. injection Et as -> ->.
    inversion Hv as [|? ? Hp Hv']; subst.
    destruct (IH in_pts Hv' eq_refl) as [IH1 IH2].
    split; [simpl; lia|]. constructor; [|assumption].
    apply in_map_iff in Hs. destruct Hs as [i [<- Hi]]. apply in_seq in Hi.
    cbn [fst snd]. split; [assumption|lia].
Qed.

(** Interpolating at the points of the input grid reads the field back. *)
Lemma same_grid_data (in_pts : list (list Qc)) (field : ndarray) :
  Forall valid_axis in_pts ->
  ndarray_wf field -> shape field = map (@length Qc) in_pts ->
  map (fun pt => interp (length in_pts) field (cell_of pt) (dists_of pt))
      (itertools_product (map (fun p => map (pair p) p) in_pts))
  = data field.
Proof.
  intros Hv Hwf Hshape.
  assert (E1 : map (fun p : list Qc => map (pair p) p) in_pts
               = map (map (fun s : list Qc * nat => (fst s, nth (snd s) (fst s) 0%Qc)))
                     (map (fun p => map (pair p) (seq 0 (length p))) in_pts)).
  { rewrite map_map. apply map_ext. intros p. rewrite map_map. cbn [fst snd].
    rewrite <- (map_nth_seq p 0%Qc) at 2. rewrite map_map. reflexivity. }
  rewrite E1, itertools_product_map, map_map.
  rewrite (map_ext_in _ (fun ipt => at_index field (map snd ipt))).
  2:{ intros ipt Hin. destruct (index_rows_facts in_pts ipt Hv Hin) as [Hl HF].
      destruct (grid_points_select ipt HF) as [bs [Hbs Hci]]. cbn zeta in *.
      assert (Hlen : length in_pts
                     = length (dists_of (map (fun s : list Qc * nat =>
                                                (fst s, nth (snd s) (fst s) 0%Qc)) ipt)))
        by (unfold dists_of; rewrite !length_map; lia).
      rewrite Hlen, interp_multilin, (multilin_select bs _ Hbs).
      unfold corner_value. rewrite Hci. reflexivity. }
  rewrite <- (map_map (map snd) (at_index field)), <- itertools_product_map.
  rewrite map_map.
  rewrite (map_ext (fun p : list Qc => map snd (map (pair p) (seq 0 (length p))))
                   (fun p => seq 0 (length p))).
  2:{ intros p. rewrite map_map. cbn [snd]. apply map_id. }
  rewrite <- (map_map (@length Qc) (seq 0)), <- Hshape.
  unfold at_index.
  rewrite <- (map_map (ravel (shape field)) (fun o => nth o (data field) 0%Qc)).
  rewrite ravel_enumerate. unfold ndarray_wf in Hwf. rewrite <- Hwf.
  apply map_nth_seq.
Qed.

(** C4 (corner exactness).  When the output sample points are the input
    axis points, resampling returns the field itself. *)
Theorem C4_same_grid_identity
    (in_pts : list (list Qc)) (out_shp : list Z) (R : RegularGridResampler)
    (field : ndarray) :
  __init__ in_pts out_shp = Ok R ->
  ndarray_wf field -> shape field = in_shape R ->
  out_points R = in_points R ->
  __call__ R field = Ok (in_points R, field).
Proof.
  intros Hinit Hwf Hshape Hsame. apply init_Ok_inv in Hinit.
  destruct Hinit as [Hv [Hne ->]].
  rewrite (call_closed in_pts out_shp field Hv Hne Hwf Hshape).
  rewrite Hsame. f_equal. f_equal.
  destruct (axes_facts in_pts out_shp Hv) as [Hla [Hfst [Hsnd Hax]]].
  cbn [resampler_of out_points in_points] in Hsame.
  destruct field as [shp dat]. cbn [shape resampler_of in_shape] in Hshape.
  unfold resample, sample_points.
  remember (combine in_pts out_shp) as axes eqn:Eaxes.
  assert (Haxis : forall pn, In pn axes -> out_axis (fst pn) (snd pn) = fst pn).
  { apply map_ext_in_iff. rewrite Hfst. exact Hsame. }
  f_equal.
  - rewrite Hshape, <- Hsnd, <- Hfst, !map_map.
    apply map_ext_in. intros pn Hpn.
    rewrite <- (Haxis pn Hpn) at 1. rewrite out_axis_length. reflexivity.
  - rewrite (map_ext_in axis_samples (fun pn => map (pair (fst pn)) (fst pn))).
    2:{ intros pn Hpn. unfold axis_samples. rewrite (Haxis pn Hpn). reflexivity. }
    rewrite <- (map_map fst (fun p : list Qc => map (pair p) p)), Hfst.
    apply (same_grid_data in_pts {| shape := shp; data := dat |});
      [apply Hv|assumption|exact Hshape].
Qed.

Lemma C4_same_grid_identity_witness :
  __init__ same_axes [3%Z; 2%Z] = Ok same_resampler
  /\ ndarray_wf same_field
  /\ shape same_field = in_shape same_resampler
  /\ out_points same_resampler = in_points same_resampler
  /\ __call__ same_resampler same_field = Ok (in_points same_resampler, same_field).
Proof.
  assert (H1 : __init__ same_axes [3%Z; 2%Z] = Ok same_resampler)
    by (vm_compute; reflexivity).
  assert (H2 : ndarray_wf same_field) by reflexivity.
  assert (H3 : shape same_field = in_shape same_resampler)
    by (vm_compute; reflexivity).
  assert (H4 : out_points same_resampler = in_points same_resampler).
  { vm_compute. repeat f_equal; apply Qc_is_canon; reflexivity. }
  repeat (split; [assumption|]).
  exact (C4_same_grid_identity same_axes [3%Z; 2%Z] same_resampler same_field
           H1 H2 H3 H4).
Defined.

(** ** Per-axis precomputation *)

Lemma nth_error_combine {A B : Type} (l1 : list A) (l2 : list B) (k : nat)
    (x : A) (y : B) :
  nth_error l1 k = Some x -> nth_error l2 k = Some y ->
  nth_error (combine l1 l2) k = Some (x, y).
Proof.
  revert l1 l2; induction k as [|k IH]; intros [|a l1] [|b l2] H1 H2;
    simpl in *; try discriminate.
  - congruence.
  - apply IH; assumption.
Qed.

Lemma valid_axis_min (p : list Qc) :
  valid_axis p -> arr_min p = Ok (nth 0 p 0%Qc).
Proof.
  intros [Hs Hl]. apply arr_min_unique.
  - apply nth_In. lia.
  - apply Forall_forall. intros y Hy. apply (In_nth _ _ 0%Qc) in Hy.
    destruct Hy as [i [Hi <-]]. apply sorted_nth_le; [assumption|lia].
Qed.

Lemma valid_axis_max (p : list Qc) :
  valid_axis p -> arr_max p = Ok (nth (length p - 1) p 0%Qc).
Proof.
  intros [Hs Hl]. apply arr_max_unique.
  - apply nth_In. lia.
  - apply Forall_forall. intros y Hy. apply (In_nth _ _ 0%Qc) in Hy.
    destruct Hy as [i [Hi <-]]. apply sorted_nth_le; [assumption|lia].
Qed.

Lemma axis_edges_rule (p : list Qc) (p_out : list Qc) :
  Sorted Qclt p ->
  edges_rule Qclt p p_out (map (lower_edge p) p_out) (map (norm_distance p) p_out).
Proof.
  intros Hs. unfold edges_rule. rewrite !length_map.
  split; [reflexivity|]. split; [reflexivity|].
  intros i v Hi.
  assert (Hlt : i < length p_out) by (apply nth_error_Some; congruence).
  exists (Z.of_nat (searchsorted1 p v) - 1)%Z.
  split; [apply searchsorted1_largest; assumption|].
  rewrite (nth_map_lt (lower_edge p) p_out i 0%Z 0%Qc Hlt).
  rewrite (nth_map_lt (norm_distance p) p_out i 0%Qc 0%Qc Hlt).
  rewrite (nth_error_nth _ _ 0%Qc Hi).
  split; reflexivity.
Qed.

(** C1, as amended.  For every resampler built and each axis: the output
    coordinates are [linspace(axis min, axis max, n_out)]; the lower edge
    index stored for an output coordinate [v] is the largest index [j] with
    [axis_in[j] < v] (strictly below), clipped into [[0, len - 2]]; the
    normalised distance is [(v - axis_in[j]) / (axis_in[j+1] - axis_in[j])];
    [v = axis min] gives index 0 and distance 0, [v = axis max] gives index
    [len - 2] and distance 1. *)
Theorem C1_axis_precomputation
    (in_pts : list (list Qc)) (out_shp : list Z) (R : RegularGridResampler)
    (k : nat) (p : list Qc) (n_out : Z) :
  __init__ in_pts out_shp = Ok R ->
  nth_error in_pts k = Some p -> nth_error out_shp k = Some n_out ->
  exists a_min a_max p_out lo dist,
    arr_min p = Ok a_min /\ arr_max p = Ok a_max
    /\ nth_error (out_points R) k = Some p_out
    /\ nth_error (lower_edge_inds R) k = Some lo
    /\ nth_error (norm_distances R) k = Some dist
    /\ p_out = np_linspace a_min a_max (Z.to_nat n_out)
    /\ edges_rule Qclt p p_out lo dist
    /\ (forall i, nth_error p_out i = Some a_min ->
                  nth i lo 0%Z = 0%Z /\ nth i dist 0%Qc = 0%Qc)
    /\ (forall i, nth_error p_out i = Some a_max ->
                  nth i lo 0%Z = (Z.of_nat (length p) - 2)%Z
                  /\ nth i dist 0%Qc = 1%Qc).
Proof.
  intros Hinit Hp Hn. apply init_Ok_inv in Hinit. destruct Hinit as [Hv [Hne ->]].
  destruct (axes_facts in_pts out_shp Hv) as [_ [_ [_ Hax]]].
  pose proof (nth_error_combine _ _ _ _ _ Hp Hn) as Hpn.
  destruct (Hax (p, n_out) (nth_error_In _ _ Hpn)) as [Hva Hn2].
  cbn [fst snd] in Hva, Hn2.
  exists (nth 0 p 0%Qc), (nth (length p - 1) p 0%Qc), (out_axis p n_out),
    (map (lower_edge p) (out_axis p n_out)),
    (map (norm_distance p) (out_axis p n_out)).
  split; [apply valid_axis_min; assumption|].
  split; [apply valid_axis_max; assumption|].
  cbn [resampler_of out_points lower_edge_inds norm_distances].
  split;
    [exact (map_nth_error (fun pn => out_axis (fst pn) (snd pn)) _ _ Hpn)|].
  split;
    [exact (map_nth_error
              (fun pn => map (lower_edge (fst pn)) (out_axis (fst pn) (snd pn)))
              _ _ Hpn)|].
  split;
    [exact (map_nth_error
              (fun pn => map (norm_distance (fst pn)) (out_axis (fst pn) (snd pn)))
              _ _ Hpn)|].
  split; [reflexivity|].
  split; [apply axis_edges_rule; apply Hva|].
  assert (Hat : forall i j, nth_error (out_axis p n_out) i = Some (nth j p 0%Qc) ->
                            j < length p ->
                            nth i (map (lower_edge p) (out_axis p n_out)) 0%Z
                            = Z.max (Z.of_nat j - 1) 0
                            /\ nth i (map (norm_distance p) (out_axis p n_out)) 0%Qc
                               = if j =? 0 then 0%Qc else 1%Qc).
  { intros i j Hi Hj.
    assert (Hlt : i < length (out_axis p n_out)) by (apply nth_error_Some; congruence).
    rewrite (nth_map_lt (lower_edge p) _ i 0%Z 0%Qc Hlt).
    rewrite (nth_map_lt (norm_distance p) _ i 0%Qc 0%Qc Hlt).
    rewrite (nth_error_nth _ _ 0%Qc Hi).
    apply grid_point_edge_exact; assumption. }
  destruct Hva as [Hs Hl]. split.
  - intros i Hi. destruct (Hat i 0 Hi) as [H1 H2]; [lia|].
    rewrite H1, H2. split; reflexivity.
  - intros i Hi. destruct (Hat i (length p - 1) Hi) as [H1 H2]; [lia|].
    rewrite H1, H2. split; [lia|].
    destruct (length p - 1 =? 0) eqn:E; [apply Nat.eqb_eq in E; lia|reflexivity].
Qed.

Lemma C1_axis_precomputation_witness :
  __init__ [ex_axis] [5%Z] = Ok ex_resampler
  /\ nth_error [ex_axis] 0 = Some ex_axis
  /\ nth_error [5%Z] 0 = Some 5%Z
  /\ exists a_min a_max p_out lo dist,
       arr_min ex_axis = Ok a_min /\ arr_max ex_axis = Ok a_max
       /\ nth_error (out_points ex_resampler) 0 = Some p_out
       /\ nth_error (lower_edge_inds ex_resampler) 0 = Some lo
       /\ nth_error (norm_distances ex_resampler) 0 = Some dist
       /\ p_out = np_linspace a_min a_max (Z.to_nat 5)
       /\ edges_rule Qclt ex_axis p_out lo dist
       /\ (forall i, nth_error p_out i = Some a_min ->
                     nth i lo 0%Z = 0%Z /\ nth i dist 0%Qc = 0%Qc)
       /\ (forall i, nth_error p_out i = Some a_max ->
                     nth i lo 0%Z = (Z.of_nat (length ex_axis) - 2)%Z
                     /\ nth i dist 0%Qc = 1%Qc).
Proof.
  split; [vm_compute; reflexivity|]. split; [reflexivity|]. split; [reflexivity|].
  apply (C1_axis_precomputation [ex_axis] [5%Z] ex_resampler 0 ex_axis 5%Z);
    [vm_compute; reflexivity|reflexivity|reflexivity].
Defined.

(** C1 as stated fails: with the input axis [0, 10, 20] and five output
    points, the output coordinate 10 coincides with an interior axis point;
    the largest index with [axis_in[j] <= 10] is 1, but the index stored is 0
    (with distance 1). *)
Lemma C1_counterexample :
  __init__ [ex_axis] [5%Z] = Ok ex_resampler
  /\ lower_edge_inds ex_resampler = [[0; 0; 0; 1; 1]%Z]
  /\ ~ edges_rule Qcle ex_axis
         (nth 0 (out_points ex_resampler) [])
         (nth 0 (lower_edge_inds ex_resampler) [])
         (nth 0 (norm_distances ex_resampler) []).
Proof.
  split; [vm_compute; reflexivity|]. split; [vm_compute; reflexivity|].
  intros [_ [_ H]].
  destruct (H 2 (Qc_of_Z 10)) as [j0 [[Hr [Hin Hout]] [Hj _]]].
  { vm_compute. reflexivity. }
  assert (Hlo : nth 2 (nth 0 (lower_edge_inds ex_resampler) []) 0%Z = 0%Z)
    by (vm_compute; reflexivity).
  rewrite Hlo in Hj. change (Z.of_nat (length ex_axis)) with 3%Z in Hj, Hr.
  assert (Hj0 : (j0 <= 0)%Z) by lia.
  apply (Hout 1).
  - change (length ex_axis) with 3. lia.
  - vm_compute. discriminate.
Qed.

(** ** Outcomes of the constructor *)

Lemma Sorted_dec (p : list Qc) : {Sorted Qclt p} + {~ Sorted Qclt p}.
Proof.
  destruct (any_nonpos (np_diff p)) eqn:E.
  - right. intros H. apply ascending_check in H. congruence.
  - left. apply ascending_check. assumption.
Qed.

Lemma checks_fail_iff (in_pts : list (list Qc)) (out_shp : list Z) :
  ~ checks_pass in_pts out_shp
  <-> (Exists (fun p => ~ Sorted Qclt p) in_pts
       \/ length out_shp <> length in_pts
       \/ Exists (fun n_p => (n_p < 2)%Z) out_shp).
Proof.
  split.
  - intros H.
    destruct (Forall_Exists_dec (Sorted Qclt) Sorted_dec in_pts) as [H1|H1];
      [|left; exact H1].
    destruct (Nat.eq_dec (length out_shp) (length in_pts)) as [H2|H2];
      [|right; left; exact H2].
    destruct (Forall_Exists_dec (fun n => (2 <= n)%Z)
                (fun n => Z_le_dec 2 n) out_shp) as [H3|H3].
    + exfalso. apply H. repeat split; assumption.
    + right. right. eapply Exists_impl; [|exact H3]. intros n Hn. simpl in Hn. lia.
  - intros [H|[H|H]] [H1 [H2 H3]].
    + apply Exists_exists in H. destruct H as [p [Hp Hns]].
      rewrite Forall_forall in H1. exact (Hns (H1 p Hp)).
    + exact (H H2).
    + apply Exists_exists in H. destruct H as [n [Hn Hlt]].
      rewrite Forall_forall in H3. specialize (H3 n Hn). lia.
Qed.

(** C5 (outcomes of the construction), at an input axis of a single point.
    The claim asks for the configuration error, ValueError, on every input
    axis of fewer than two points.  The constructor has no test of the
    length of an axis: the axis [[5.0]] passes the ascending test, whose
    [np.diff] is empty, and construction then fails with IndexError at
    [p_in_diff[i_vec]], not with ValueError.  The sibling test, of the
    requested output lengths, does raise ValueError on a length below 2.
    The input is one that the repository produces:
    [interpolate_flux_arrays] hands it to the constructor for a raw grid
    whose parameter has a single value, and fails with that IndexError. *)
Theorem C5_single_point_axis :
  ~ valid_axis [Qc_of_Z 5]
  /\ __init__ [[Qc_of_Z 5]] [3%Z] = Raise IndexError
  /\ ~ is_ValueError (__init__ [[Qc_of_Z 5]] [3%Z])
  /\ is_ValueError (__init__ [ex_axis] [1%Z])
  /\ interpolate_flux_arrays single_value_grid [3%Z] = Raise IndexError.
Proof.
  split; [|split; [|split; [|split]]].
  - intros [_ H]. simpl in H. lia.
  - vm_compute. reflexivity.
  - intros [msg H]. vm_compute in H. discriminate.
  - eexists. vm_compute. reflexivity.
  - vm_compute. reflexivity.
Qed.

(** ** Shapes, ranges and the absence of runtime failures *)

Lemma Forall2_map_same {A B C : Type} (P : B -> C -> Prop)
    (f : A -> B) (g : A -> C) (l : list A) :
  (forall x, In x l -> P (f x) (g x)) -> Forall2 P (map f l) (map g l).
Proof.
  induction l as [|x l IH]; intros H; [constructor|].
  cbn [map]. constructor; [apply H; left; reflexivity|].
  apply IH. intros y Hy. apply H. right. assumption.
Qed.

(** C6 (shape contract).  A field whose shape differs from the stored input
    shape is refused with the shape-mismatch ValueError; on a field of the
    stored shape the call returns the per-axis output coordinate arrays, one
    per axis with the requested number of points, together with an array of
    exactly [out_shape]. *)
Theorem C6_shape_contract
    (in_pts : list (list Qc)) (out_shp : list Z) (R : RegularGridResampler)
    (field : ndarray) :
  __init__ in_pts out_shp = Ok R ->
  ndarray_wf field ->
  (shape field <> in_shape R ->
   __call__ R field
   = Raise (ValueError "Shape of grid array doesn't match shape of this RegularGridResampler"))
  /\ (shape field = in_shape R ->
      exists out,
        __call__ R field = Ok (out_points R, out)
        /\ shape out = map Z.to_nat (out_shape R)
        /\ ndarray_wf out
        /\ Forall2 (fun o n_p => length o = Z.to_nat n_p)
                   (out_points R) (out_shape R)).
Proof.
  intros Hinit Hwf. split.
  - intros Hne. unfold __call__.
    destruct (list_eq_dec Nat.eq_dec (shape field) (in_shape R)); [contradiction|].
    reflexivity.
  - intros Hshape. apply init_Ok_inv in Hinit. destruct Hinit as [Hv [Hne ->]].
    exists (resample in_pts out_shp field).
    split; [apply call_closed; assumption|].
    split; [reflexivity|].
    split.
    + unfold ndarray_wf. cbn [resample data shape resampler_of out_shape].
      rewrite length_map. apply sample_points_length. assumption.
    + destruct (axes_facts in_pts out_shp Hv) as [_ [_ [Hsnd _]]].
      cbn [resampler_of out_points out_shape]. rewrite <- Hsnd at 2.
      apply Forall2_map_same. intros pn _. apply out_axis_length.
Qed.

Lemma C6_shape_contract_witness :
  __init__ [ex_axis] [5%Z] = Ok ex_resampler
  /\ ndarray_wf ex_field /\ shape ex_field = in_shape ex_resampler
  /\ ndarray_wf ex2_field /\ shape ex2_field <> in_shape ex_resampler
  /\ (exists out,
        __call__ ex_resampler ex_field = Ok (out_points ex_resampler, out)
        /\ shape out = [5])
  /\ __call__ ex_resampler ex2_field
     = Raise (ValueError "Shape of grid array doesn't match shape of this RegularGridResampler").
Proof.
  assert (H1 : __init__ [ex_axis] [5%Z] = Ok ex_resampler) by (vm_compute; reflexivity).
  assert (H2 : ndarray_wf ex_field) by reflexivity.
  assert (H3 : shape ex_field = in_shape ex_resampler) by (vm_compute; reflexivity).
  assert (H4 : ndarray_wf ex2_field) by reflexivity.
  assert (H5 : shape ex2_field <> in_shape ex_resampler) by (vm_compute; discriminate).
  repeat (split; [assumption|]).
  split.
  - destruct (C6_shape_contract [ex_axis] [5%Z] ex_resampler ex_field H1 H2)
      as [_ Hok].
    destruct (Hok H3) as [out [Hcall [Hshape _]]].
    exists out. split; [exact Hcall|]. rewrite Hshape. vm_compute. reflexivity.
  - destruct (C6_shape_contract [ex_axis] [5%Z] ex_resampler ex2_field H1 H4)
      as [Hbad _].
    exact (Hbad H5).
Defined.

Lemma corner_in_range_nth (shp : list nat) (cell e : list Z) :
  corner_in_range shp cell e ->
  forall k, k < length shp ->
            (0 <= nth k cell 0 + nth k e 0 < Z.of_nat (nth k shp 0%nat))%Z.
Proof.
  revert cell e; induction shp as [|d shp IH]; intros [|c cell] [|j e] H k Hk;
    simpl in H; try contradiction; [simpl in Hk; lia|].
  destruct H as [Hr H]. destruct k as [|k]; [exact Hr|].
  cbn [nth]. apply IH; [assumption|simpl in Hk; lia].
Qed.

Lemma fancy_inds_nth (nd : nat) (lower : list (list Z)) (e : list Z) (k : nat) :
  length e = nd -> k < nd ->
  nth k (fancy_inds nd lower e) []
  = map (fun row => (nth k row 0 + nth k e 0)%Z) (itertools_product lower).
Proof.
  intros Hl Hk. unfold fancy_inds.
  set (cols := map (fun k0 => map (fun row => nth k0 row 0%Z) (itertools_product lower))
                   (seq 0 nd)).
  assert (Hc : length cols = nd) by (unfold cols; rewrite length_map, length_seq; reflexivity).
  rewrite (nth_map_lt (fun ja : Z * list Z => map (fun x => (x + fst ja)%Z) (snd ja))
                      (combine e cols) k [] (0%Z, []))
    by (rewrite length_combine; lia).
  rewrite combine_nth by lia. cbn [fst snd].
  unfold cols.
  rewrite (nth_map_lt (fun k0 => map (fun row => nth k0 row 0%Z) (itertools_product lower))
                      (seq 0 nd) k [] 0)
    by (rewrite length_seq; assumption).
  rewrite seq_nth by assumption. rewrite map_map. reflexivity.
Qed.

(** C7 (no extrapolation, no runtime failure).  For every resampler built:
    each output axis has the minimum and the maximum of its input axis; each
    stored gather index for axis [k] lies in [[0, len_k - 1]]; the divisors
    used for the normalised distances are positive; and the call on any
    field of the stored shape returns. *)
Theorem C7_no_runtime_failure
    (in_pts : list (list Qc)) (out_shp : list Z) (R : RegularGridResampler) :
  __init__ in_pts out_shp = Ok R ->
  Forall2 (fun p o =>
             exists lo hi,
               arr_min p = Ok lo /\ arr_min o = Ok lo
               /\ arr_max p = Ok hi /\ arr_max o = Ok hi)
          (in_points R) (out_points R)
  /\ (forall e inds,
        In (e, inds) (fancy_inds_all R) ->
        length inds = ndim R
        /\ forall k, k < ndim R ->
             Forall (fun i => (0 <= i <= Z.of_nat (nth k (in_shape R) 0%nat) - 1)%Z)
                    (nth k inds []))
  /\ Forall2 (fun p lo =>
                exists den, take (np_diff p) lo = Ok den
                            /\ Forall (fun d => (0 < d)%Qc) den)
             (in_points R) (lower_edge_inds R)
  /\ (forall field,
        ndarray_wf field -> shape field = in_shape R -> succeeds (__call__ R field)).
Proof.
  intros Hinit. apply init_Ok_inv in Hinit. destruct Hinit as [Hv [Hne ->]].
  destruct (axes_facts in_pts out_shp Hv) as [Hla [Hfst [Hsnd Hax]]].
  split; [|split; [|split]].
  - cbn [resampler_of in_points out_points]. rewrite <- Hfst at 1.
    apply Forall2_map_same. intros pn Hpn. destruct (Hax pn Hpn) as [Hva Hn].
    exists (nth 0 (fst pn) 0%Qc), (nth (length (fst pn) - 1) (fst pn) 0%Qc).
    split; [apply valid_axis_min; assumption|].
    split.
    { apply arr_min_unique.
      - rewrite <- (out_axis_first (fst pn) (snd pn) Hn). apply nth_In.
        rewrite out_axis_length. lia.
      - apply Forall_forall. intros v Hin.
        apply (out_axis_within _ _ _ Hva Hin). }
    split; [apply valid_axis_max; assumption|].
    apply arr_max_unique.
    + rewrite <- (out_axis_last (fst pn) (snd pn) Hn). apply nth_In.
      rewrite out_axis_length. lia.
    + apply Forall_forall. intros v Hin.
      apply (out_axis_within _ _ _ Hva Hin).
  - intros e inds Hin. cbn [resampler_of fancy_inds_all ndim in_shape] in *.
    apply in_map_iff in Hin. destruct Hin as [e' [E He]]. injection E as -> <-.
    pose proof (edge_keys_In _ _ He) as [Hel _].
    split.
    { unfold fancy_inds. rewrite length_map, length_combine, length_map, length_seq. lia. }
    intros k Hk. rewrite (fancy_inds_nth _ _ _ k Hel Hk).
    apply Forall_forall. intros i Hi. apply in_map_iff in Hi.
    destruct Hi as [row [<- Hrow]].
    change (map _ (combine in_pts out_shp))
      with (lower_edge_inds (resampler_of in_pts out_shp)) in Hrow.
    rewrite (lower_rows in_pts out_shp) in Hrow.
    apply in_map_iff in Hrow. destruct Hrow as [pt [<- Hpt]].
    pose proof (sample_corner_in_range in_pts out_shp pt e Hv Hpt He) as Hr.
    pose proof (corner_in_range_nth _ _ _ Hr k) as Hb.
    rewrite length_map in Hb. specialize (Hb Hk). lia.
  - cbn [resampler_of in_points lower_edge_inds]. rewrite <- Hfst at 1.
    apply Forall2_map_same. intros pn Hpn. destruct (Hax pn Hpn) as [[Hs Hl] Hn].
    eexists. split.
    + apply (take_map (np_diff (fst pn)) 0%Qc). intros v _.
      pose proof (lower_edge_range (fst pn) v Hl). rewrite np_diff_length. lia.
    + apply Forall_forall. intros d Hd. apply in_map_iff in Hd.
      destruct Hd as [v [<- _]].
      pose proof (lower_edge_range (fst pn) v Hl) as Hr.
      rewrite np_diff_nth by lia.
      assert (Hlt : (nth (Z.to_nat (lower_edge (fst pn) v)) (fst pn) 0
                     < nth (S (Z.to_nat (lower_edge (fst pn) v))) (fst pn) 0)%Qc)
        by (apply sorted_nth_lt; [assumption|lia]).
      clear - Hlt. qc_to_q. lra.
  - intros field Hwf Hshape. eexists. apply call_closed; assumption.
Qed.

Lemma C7_no_runtime_failure_witness :
  __init__ ex2_axes [3%Z; 3%Z] = Ok ex2_resampler
  /\ Forall2 (fun p o =>
                exists lo hi,
                  arr_min p = Ok lo /\ arr_min o = Ok lo
                  /\ arr_max p = Ok hi /\ arr_max o = Ok hi)
             (in_points ex2_resampler) (out_points ex2_resampler)
  /\ succeeds (__call__ ex2_resampler ex2_field).
Proof.
  assert (H1 : __init__ ex2_axes [3%Z; 3%Z] = Ok ex2_resampler)
    by (vm_compute; reflexivity).
  split; [exact H1|].
  destruct (C7_no_runtime_failure ex2_axes [3%Z; 3%Z] ex2_resampler H1)
    as [Hminmax [_ [_ Hcall]]].
  split; [exact Hminmax|].
  apply Hcall; [reflexivity|vm_compute; reflexivity].
Defined.

(** ** The flattening order *)

Lemma nth_error_flat_map_blocks {A B : Type} (f : A -> list B) (P : nat)
    (a : list A) (i r : nat) (x : A) :
  (forall y, length (f y) = P) ->
  nth_error a i = Some x -> r < P ->
  nth_error (flat_map f a) (i * P + r) = nth_error (f x) r.
Proof.
  intros Hf. revert i; induction a as [|y a IH]; intros i Hi Hr.
  - destruct i; discriminate.
  - cbn [flat_map]. destruct i as [|i].
    + injection Hi as ->. cbn [Nat.mul Nat.add].
      apply nth_error_app1. rewrite Hf. assumption.
    + cbn [nth_error] in Hi. rewrite nth_error_app2 by (rewrite Hf; simpl; lia).
      rewrite Hf. replace (S i * P + r - P) with (i * P + r) by (simpl; lia).
      apply IH; assumption.
Qed.

Lemma multi_index_ravel_lt {A : Type} (idx : list nat) (pools : list (list A)) :
  multi_index idx pools ->
  ravel (map (@length A) pools) idx < np_prod (map (@length A) pools).
Proof.
  induction 1 as [|i a idx pools Hi _ IH]; [simpl; lia|].
  cbn [map ravel np_prod fold_right]. fold (np_prod (map (@length A) pools)). nia.
Qed.

(** Row [ravel idx] of the product is the combination picked by [idx]: the
    last pool advances fastest. *)
Lemma product_nth_ravel {A : Type} (idx : list nat) (pools : list (list A)) :
  multi_index idx pools ->
  exists row,
    nth_error (itertools_product pools) (ravel (map (@length A) pools) idx) = Some row
    /\ picks idx pools row.
Proof.
  induction 1 as [|i a idx pools Hi Hrest IH].
  - exists []. split; [reflexivity|constructor].
  - destruct IH as [row [Hrow Hpicks]].
    destruct (nth_error a i) as [x|] eqn:Ex; [|apply nth_error_None in Ex; lia].
    exists (x :: row). split.
    + cbn [map ravel itertools_product].
      rewrite (nth_error_flat_map_blocks
                 (fun x0 => map (cons x0) (itertools_product pools))
                 (np_prod (map (@length A) pools)) a i _ x).
      * apply map_nth_error. exact Hrow.
      * intros y. rewrite length_map. apply itertools_product_length.
      * exact Ex.
      * apply multi_index_ravel_lt. exact Hrest.
    + unfold picks. cbn [combine]. constructor; [exact Ex|exact Hpicks].
Qed.

Lemma picks_map {A B : Type} (f : A -> B) (idx : list nat)
    (pools : list (list A)) (row : list A) :
  picks idx pools row -> picks idx (map (map f) pools) (map f row).
Proof.
  unfold picks. revert idx row; induction pools as [|a pools IH]; intros idx row H.
  - destruct idx; simpl in *; inversion H; constructor.
  - destruct idx as [|i idx]; simpl in *; inversion H as [|x ia row' l' Hx Hr]; subst;
      [constructor|].
    cbn [map]. constructor.
    + cbn [fst snd] in *. apply map_nth_error. exact Hx.
    + apply IH. exact Hr.
Qed.

Lemma multi_index_map {A B : Type} (f : A -> B) (idx : list nat)
    (pools : list (list A)) :
  multi_index idx (map (map f) pools) -> multi_index idx pools.
Proof.
  unfold multi_index. revert idx; induction pools as [|a pools IH]; intros idx H;
    inversion H as [|i a' idx' l' Hi Hr]; subst; [constructor|].
  constructor; [rewrite length_map in Hi; exact Hi|apply IH; exact Hr].
Qed.

Lemma out_points_tables (in_pts : list (list Qc)) (out_shp : list Z) :
  out_points (resampler_of in_pts out_shp)
  = map (map snd) (map axis_samples (combine in_pts out_shp)).
Proof.
  cbn [resampler_of out_points]. rewrite map_map. apply map_ext. intros pn.
  unfold axis_samples. rewrite map_map. cbn [snd]. symmetry. apply map_id.
Qed.

Lemma lower_tables (in_pts : list (list Qc)) (out_shp : list Z) :
  lower_edge_inds (resampler_of in_pts out_shp)
  = map (map (fun s : sample => lower_edge (fst s) (snd s)))
        (map axis_samples (combine in_pts out_shp)).
Proof.
  cbn [resampler_of lower_edge_inds]. rewrite map_map. apply map_ext. intros pn.
  unfold axis_samples. rewrite map_map. reflexivity.
Qed.

Lemma dists_tables (in_pts : list (list Qc)) (out_shp : list Z) :
  norm_distances (resampler_of in_pts out_shp)
  = map (map (fun s : sample => norm_distance (fst s) (snd s)))
        (map axis_samples (combine in_pts out_shp)).
Proof.
  cbn [resampler_of norm_distances]. rewrite map_map. apply map_ext. intros pn.
  unfold axis_samples. rewrite map_map. reflexivity.
Qed.

Lemma tables_shape (in_pts : list (list Qc)) (out_shp : list Z) :
  valid_config in_pts out_shp ->
  map (@length sample) (map axis_samples (combine in_pts out_shp))
  = map Z.to_nat out_shp.
Proof.
  intros Hv. destruct (axes_facts in_pts out_shp Hv) as [_ [_ [Hsnd _]]].
  rewrite <- Hsnd at 2. rewrite !map_map. apply map_ext. intros pn.
  unfold axis_samples. rewrite length_map. apply out_axis_length.
Qed.

(** C8, as amended.  For at least one array, none of them empty, the
    cartesian-product helper returns one row per combination, with one
    column per array and [m1 * ... * mn] rows, in lexicographic order: the
    row at the row-major offset of a multi-index is the combination that the
    multi-index picks, so the last array advances fastest.  The constructor
    and the call use this one order throughout: at the row-major offset [t]
    of an output multi-index, every weight vector holds the weight of that
    output point, every gather-index tuple reads the corner of that output
    point's cell, and the reshaped output holds the value interpolated
    there. *)
Theorem C8_cartesian_prod_order
    {A : Type} (arrays : list (list A)) (idx : list nat)
    (in_pts : list (list Qc)) (out_shp : list Z) (R : RegularGridResampler)
    (field : ndarray) (oidx : list nat) :
  arrays <> [] -> Forall (fun a => a <> []) arrays -> multi_index idx arrays ->
  __init__ in_pts out_shp = Ok R ->
  ndarray_wf field -> shape field = in_shape R ->
  multi_index oidx (out_points R) ->
  (exists rows,
     _cartesian_prod arrays = Ok rows
     /\ rows = itertools_product arrays
     /\ length rows = np_prod (map (@length A) arrays)
     /\ Forall (fun row => length row = length arrays) rows
     /\ exists row,
          nth_error rows (ravel (map (@length A) arrays) idx) = Some row
          /\ picks idx arrays row)
  /\ (let t := ravel (map Z.to_nat (out_shape R)) oidx in
      exists x u cell out,
        picks oidx (out_points R) x
        /\ picks oidx (norm_distances R) u
        /\ picks oidx (lower_edge_inds R) cell
        /\ (forall e w, In (e, w) (weights R) -> nth t w 0%Qc = edge_weight e u)
        /\ (forall e inds,
              In (e, inds) (fancy_inds_all R) ->
              exists g, fancy_index field inds = Ok g
                        /\ nth t g 0%Qc = corner_value field cell e)
        /\ __call__ R field = Ok (out_points R, out)
        /\ shape out = map Z.to_nat (out_shape R)
        /\ at_index out oidx = interp (ndim R) field cell u).
Proof.
  intros Hne Hall Hidx Hinit Hwf Hshape Hoidx. split.
  - exists (itertools_product arrays).
    split; [apply cartesian_prod_product; assumption|].
    split; [reflexivity|].
    split; [apply itertools_product_length|].
    split; [apply Forall_forall; intros row; apply itertools_product_row_length|].
    apply product_nth_ravel. assumption.
  - apply init_Ok_inv in Hinit. destruct Hinit as [Hv [Hne' ->]].
    intros t. subst t. cbn [resampler_of out_shape].
    set (tables := map axis_samples (combine in_pts out_shp)).
    rewrite out_points_tables in Hoidx. fold tables in Hoidx.
    apply multi_index_map in Hoidx.
    destruct (product_nth_ravel oidx tables Hoidx) as [pt [Hpt Hpicks]].
    unfold tables in Hpt. rewrite (tables_shape in_pts out_shp Hv) in Hpt.
    change (itertools_product (map axis_samples (combine in_pts out_shp)))
      with (sample_points in_pts out_shp) in Hpt.
    set (t := ravel (map Z.to_nat out_shp) oidx) in *.
    assert (Hin : In pt (sample_points in_pts out_shp))
      by (eapply nth_error_In; exact Hpt).
    assert (Hlt : t < length (sample_points in_pts out_shp))
      by (apply nth_error_Some; congruence).
    exists (map snd pt), (dists_of pt), (cell_of pt),
      (resample in_pts out_shp field).
    split; [rewrite out_points_tables; apply picks_map; exact Hpicks|].
    split; [rewrite dists_tables; apply picks_map; exact Hpicks|].
    split; [rewrite lower_tables; apply picks_map; exact Hpicks|].
    split.
    { intros e w Hw. cbn [resampler_of weights] in Hw.
      apply in_map_iff in Hw. destruct Hw as [e' [E _]]. injection E as -> <-.
      change (map _ (combine in_pts out_shp))
        with (norm_distances (resampler_of in_pts out_shp)).
      rewrite (dists_rows in_pts out_shp), map_map.
      rewrite (nth_map_lt (fun p => edge_weight e (dists_of p)) _ t 0%Qc [] Hlt).
      rewrite (nth_error_nth _ _ [] Hpt). reflexivity. }
    split.
    { intros e inds Hinds. cbn [resampler_of fancy_inds_all] in Hinds.
      apply in_map_iff in Hinds. destruct Hinds as [e' [E He]]. injection E as -> <-.
      assert (Hnd : length in_pts = length (shape field))
        by (rewrite Hshape; cbn [resampler_of in_shape]; rewrite length_map; reflexivity).
      assert (Hrows : itertools_product
                        (map (fun pn : list Qc * Z =>
                                map (lower_edge (fst pn)) (out_axis (fst pn) (snd pn)))
                             (combine in_pts out_shp))
                      = map cell_of (sample_points in_pts out_shp))
        by (apply (lower_rows in_pts out_shp)).
      eexists. split.
      - rewrite Hnd. apply fancy_index_closed; try assumption.
        + rewrite Hshape. cbn [resampler_of in_shape].
          destruct in_pts; [congruence|discriminate].
        + rewrite <- Hnd. apply edge_keys_In in He. apply He.
        + intros row Hrow. rewrite Hrows in Hrow.
          apply in_map_iff in Hrow. destruct Hrow as [pt' [<- Hpt']].
          rewrite Hshape. apply (sample_corner_in_range in_pts out_shp); assumption.
      - rewrite Hrows, map_map.
        rewrite (nth_map_lt (fun p => corner_value field (cell_of p) e) _ t 0%Qc [] Hlt).
        rewrite (nth_error_nth _ _ [] Hpt). reflexivity. }
    split; [apply call_closed; assumption|].
    split; [reflexivity|].
    unfold at_index. cbn [resample shape]. fold t.
    change (nth t (data (resample in_pts out_shp field)) 0%Qc
            = interp (ndim (resampler_of in_pts out_shp)) field (cell_of pt) (dists_of pt)).
    apply resample_point. exact Hpt.
Qed.

Lemma C8_cartesian_prod_order_witness :
  [[1; 2; 3]; [4; 5]; [6; 7]] <> []
  /\ Forall (fun a : list nat => a <> []) [[1; 2; 3]; [4; 5]; [6; 7]]
  /\ multi_index [1; 0; 1] [[1; 2; 3]; [4; 5]; [6; 7]]
  /\ __init__ ex2_axes [3%Z; 3%Z] = Ok ex2_resampler
  /\ ndarray_wf ex2_field
  /\ shape ex2_field = in_shape ex2_resampler
  /\ multi_index [1; 1] (out_points ex2_resampler)
  /\ (exists rows,
        _cartesian_prod [[1; 2; 3]; [4; 5]; [6; 7]] = Ok rows
        /\ length rows = 12
        /\ nth_error rows 5 = Some [2; 4; 7])
  /\ (exists out,
        __call__ ex2_resampler ex2_field = Ok (out_points ex2_resampler, out)
        /\ at_index out [1; 1] = Qc_of_Z 1).
Proof.
  assert (H1 : [[1; 2; 3]; [4; 5]; [6; 7]] <> []) by discriminate.
  assert (H2 : Forall (fun a : list nat => a <> []) [[1; 2; 3]; [4; 5]; [6; 7]])
    by (repeat constructor; discriminate).
  assert (H3 : multi_index [1; 0; 1] [[1; 2; 3]; [4; 5]; [6; 7]])
    by (repeat constructor).
  assert (H4 : __init__ ex2_axes [3%Z; 3%Z] = Ok ex2_resampler)
    by (vm_compute; reflexivity).
  assert (H5 : ndarray_wf ex2_field) by reflexivity.
  assert (H6 : shape ex2_field = in_shape ex2_resampler) by (vm_compute; reflexivity).
  assert (H7 : multi_index [1; 1] (out_points ex2_resampler))
    by (vm_compute; repeat constructor).
  repeat (split; [assumption|]).
  destruct (C8_cartesian_prod_order [[1; 2; 3]; [4; 5]; [6; 7]] [1; 0; 1]
              ex2_axes [3%Z; 3%Z] ex2_resampler ex2_field [1; 1]
              H1 H2 H3 H4 H5 H6 H7)
    as [[rows [Hrows [Hlex [Hlen [_ [row [Hrow _]]]]]]]
        [x [u [cell [out [_ [_ [_ [_ [_ [Hcall _]]]]]]]]]]].
  split.
  - exists rows. split; [exact Hrows|]. split; [rewrite Hlen; reflexivity|].
    rewrite Hlex. reflexivity.
  - exists out. split; [exact Hcall|].
    vm_compute in Hcall. injection Hcall as <-. vm_compute. reflexivity.
Defined.

(** C8 as stated fails on degenerate inputs: with no array at all, and with
    an empty array followed by a non-empty one, the helper raises instead of
    returning the (one-row, respectively zero-row) product. *)
Lemma C8_counterexample :
  ~ succeeds (_cartesian_prod (@nil (list nat)))
  /\ ~ succeeds (_cartesian_prod [[]; [1; 2]]).
Proof.
  split; intros [rows H]; vm_compute in H; discriminate.
Qed.

(** ** The worked example *)

Lemma Qc_list_decomp (l1 l2 : list Qc) : map this l1 = map this l2 -> l1 = l2.
Proof.
  revert l2; induction l1 as [|x l1 IH]; intros [|y l2] H; simpl in H;
    try discriminate; [reflexivity|].
  injection H as Hx Hl. f_equal; [apply Qc_decomp; exact Hx|apply IH; exact Hl].
Qed.

Lemma Qc_lists_decomp (l1 l2 : list (list Qc)) :
  map (map this) l1 = map (map this) l2 -> l1 = l2.
Proof.
  revert l2; induction l1 as [|x l1 IH]; intros [|y l2] H; simpl in H;
    try discriminate; [reflexivity|].
  injection H as Hx Hl. f_equal; [apply Qc_list_decomp; exact Hx|apply IH; exact Hl].
Qed.

Lemma call_result_eq (R : RegularGridResampler) (field : ndarray)
    (pts : list (list Qc)) (shp : list nat) (dat : list Qc) :
  match __call__ R field with
  | Ok (p, a) =>
      map (map this) p = map (map this) pts
      /\ shape a = shp /\ map this (data a) = map this dat
  | Raise _ => False
  end ->
  __call__ R field = Ok (pts, {| shape := shp; data := dat |}).
Proof.
  destruct (__call__ R field) as [[p [s d]]|e]; [|contradiction].
  cbn [shape data]. intros [Hp [Hs Hd]].
  apply Qc_lists_decomp in Hp. apply Qc_list_decomp in Hd. subst. reflexivity.
Qed.

(** C9 (1-D example).  Input axis [0, 10, 20], field [0, 100, 0],
    [out_shape = [5]]: the output axis is [0, 5, 10, 15, 20] and the
    resampled field is [0, 50, 100, 50, 0]. *)
Theorem C9_worked_example :
  exists R,
    __init__ [[Qc_of_Z 0; Qc_of_Z 10; Qc_of_Z 20]] [5%Z] = Ok R
    /\ __call__ R {| shape := [3]; data := [Qc_of_Z 0; Qc_of_Z 100; Qc_of_Z 0] |}
       = Ok ([[Qc_of_Z 0; Qc_of_Z 5; Qc_of_Z 10; Qc_of_Z 15; Qc_of_Z 20]],
             {| shape := [5];
                data := [Qc_of_Z 0; Qc_of_Z 50; Qc_of_Z 100; Qc_of_Z 50; Qc_of_Z 0] |}).
Proof.
  exists ex_resampler. split; [vm_compute; reflexivity|].
  apply call_result_eq. vm_compute. repeat split; reflexivity.
Qed.

(** ** The caller: [interpolate_flux_arrays] *)

Lemma bind_Ok_inv {A B : Type} (c : result A) (f : A -> result B) (b : B) :
  bind c f = Ok b -> exists a, c = Ok a /\ f a = Ok b.
Proof.
  destruct c as [a|e]; simpl; [|discriminate]. intros H. exists a. auto.
Qed.

Lemma od_set_In {K V : Type} (dec : forall x y : K, {x = y} + {x <> y})
    (d : od K V) (k k' : K) (v v' : V) :
  In (k', v') (od_set dec d k v) -> (k', v') = (k, v) \/ In (k', v') d.
Proof.
  induction d as [|[k0 v0] d IH]; simpl.
  - intros [H|[]]. left. congruence.
  - destruct (dec k0 k) as [->|Hne]; simpl.
    + intros [H|H]; [left; congruence|right; right; assumption].
    + intros [H|H]; [right; left; assumption|].
      destruct (IH H) as [E|Hin]; [left; assumption|right; right; assumption].
Qed.

Lemma Qcmax_nonneg (x : Qc) : (0 <= Qcmax 0 x)%Qc.
Proof.
  unfold Qcmax. destruct (Qcleb 0 x) eqn:E.
  - apply Qcleb_le. assumption.
  - apply Qcle_refl.
Qed.

Lemma clip_nonneg_data (a : ndarray) :
  Forall (fun x => (0 <= x)%Qc) (data (clip_nonneg a)).
Proof.
  cbn [clip_nonneg data]. apply Forall_forall. intros x Hx.
  apply in_map_iff in Hx. destruct Hx as [y [<- _]]. apply Qcmax_nonneg.
Qed.

(** What [np.clip(a, 0., None)] does to each value. *)
Lemma clip_nonneg_rule (a : ndarray) :
  Forall2 (fun x y => ((x < 0)%Qc -> y = 0%Qc) /\ ((0 <= x)%Qc -> y = x))
          (data a) (data (clip_nonneg a)).
Proof.
  cbn [clip_nonneg data]. rewrite <- (map_id (data a)) at 1.
  apply Forall2_map_same. intros x _. unfold Qcmax.
  destruct (Qcleb 0 x) eqn:E.
  - apply Qcleb_le in E. split; [|reflexivity].
    intros Hx. exfalso. apply (Qclt_not_le _ _ Hx). exact E.
  - apply Qcleb_gt in E. split; [reflexivity|].
    intros Hx. exfalso. apply (Qclt_not_le _ _ E). exact Hx.
Qed.

(** Every array that the loop over the emission lines stores is the output
    of the resampler on one of the raw flux arrays, and has passed the test
    of [np.isfinite]. *)
Lemma resampled_entries (Interpolator : RegularGridResampler)
    (interp_axes : list (list Qc)) (raw : od string grid_entry) :
  forall acc no_norm : od string ndarray,
    foldM (fun (no_norm : od string ndarray) kv =>
             match snd kv with
             | Arr raw_flux_arr =>
                 r <- __call___float Interpolator raw_flux_arr ;;
                 interp_arr <- assert_finite (snd r) ;;
                 let no_norm := od_set string_dec no_norm (fst kv) interp_arr in
                 _ <- mapM (fun aa => assertM (np_array_equal (fst aa) (snd aa)))
                           (combine (fst r) interp_axes) ;;
                 Ok no_norm
             | Sub _ => Raise AttributeError
             end)
          raw acc = Ok no_norm ->
    forall line a,
      In (line, a) no_norm ->
      In (line, a) acc
      \/ exists raw_flux_arr pts,
           In (line, Arr raw_flux_arr) raw
           /\ __call___float Interpolator raw_flux_arr = Ok (pts, of_ndarray a).
Proof.
  induction raw as [|[name entry] raw IH]; intros acc no_norm H line a Hin.
  - simpl in H. injection H as <-. left. assumption.
  - cbn [foldM fst snd] in H. apply bind_Ok_inv in H. destruct H as [acc' [Hstep Hrest]].
    destruct entry as [raw_flux_arr|d]; [|discriminate].
    apply bind_Ok_inv in Hstep. destruct Hstep as [[pts farr] [Hcall Hstep]].
    cbn [fst snd] in Hstep.
    apply bind_Ok_inv in Hstep. destruct Hstep as [arr [Hfin Hstep]].
    apply assert_finite_inv in Hfin. subst farr.
    apply bind_Ok_inv in Hstep. destruct Hstep as [u [_ Hacc]]. injection Hacc as <-.
    destruct (IH _ _ Hrest line a Hin) as [Hacc|[r [p [Hr Hc]]]].
    + apply od_set_In in Hacc. destruct Hacc as [E|Hacc]; [|left; assumption].
      injection E as -> ->. right. exists raw_flux_arr, pts.
      split; [left; reflexivity|assumption].
    + right. exists r, p. split; [right; assumption|assumption].
Qed.

(** ** The steps of [interpolate_flux_arrays]

    The lookups, the assertions and the constructors that
    [interpolate_flux_arrays] runs, each with the conditions under which it
    goes through. *)

Lemma mapM_succeeds {A B : Type} (f : A -> result B) (l : list A) :
  (forall x, In x l -> succeeds (f x)) -> succeeds (mapM f l).
Proof.
  induction l as [|x l IH]; intros H.
  - exists []. reflexivity.
  - destruct (H x (or_introl eq_refl)) as [y Hy].
    destruct IH as [ys Hys]; [intros x' Hx'; apply H; right; exact Hx'|].
    exists (y :: ys). cbn [mapM]. rewrite Hy. cbn [bind]. rewrite Hys. reflexivity.
Qed.

Section OrderedDictFacts.
Context {K V : Type} (dec : forall x y : K, {x = y} + {x <> y}).

Lemma od_set_fresh (d : od K V) (k : K) (v : V) :
  ~ In k (map fst d) -> od_set dec d k v = d ++ [(k, v)].
Proof.
  induction d as [|[k' v'] d IH]; simpl; intros H; [reflexivity|].
  destruct (dec k' k) as [E|_]; [exfalso; apply H; left; exact E|].
  rewrite IH; [reflexivity|]. intros Hin. apply H. right. exact Hin.
Qed.

Lemma od_set_nonempty (d : od K V) (k : K) (v : V) : od_set dec d k v <> [].
Proof.
  destruct d as [|[k' v'] d]; simpl; [discriminate|].
  destruct (dec k' k); discriminate.
Qed.

Lemma od_of_list_NoDup (l : list (K * V)) :
  NoDup (map fst l) -> od_of_list dec l = l.
Proof.
  unfold od_of_list.
  assert (H : forall acc,
             NoDup (map fst (acc ++ l)) ->
             fold_left (fun d kv => od_set dec d (fst kv) (snd kv)) l acc = acc ++ l).
  { induction l as [|[k v] l IH]; intros acc Hnd; simpl.
    - rewrite app_nil_r. reflexivity.
    - rewrite od_set_fresh.
      + rewrite IH; rewrite <- app_assoc; [reflexivity|exact Hnd].
      + rewrite map_app in Hnd. simpl in Hnd. apply NoDup_remove_2 in Hnd.
        intros Hin. apply Hnd. apply in_or_app. left. exact Hin. }
  intros Hnd. apply (H []). exact Hnd.
Qed.

Lemma od_of_list_In (l : list (K * V)) (kv : K * V) :
  In kv (od_of_list dec l) -> In kv l.
Proof.
  unfold od_of_list.
  assert (H : forall acc,
             In kv (fold_left (fun d kv => od_set dec d (fst kv) (snd kv)) l acc) ->
             In kv acc \/ In kv l).
  { induction l as [|[k v] l IH]; intros acc Hin; simpl in *.
    - left. exact Hin.
    - destruct (IH _ Hin) as [Hacc|Hl]; [|right; right; exact Hl].
      destruct kv as [k' v']. apply od_set_In in Hacc.
      destruct Hacc as [E|Hacc]; [right; left; symmetry; exact E|left; exact Hacc]. }
  intros Hin. destruct (H [] Hin) as [[]|Hl]. exact Hl.
Qed.

Lemma od_get_In (d : od K V) (k : K) (v : V) :
  NoDup (map fst d) -> In (k, v) d -> od_get dec d k = Ok v.
Proof.
  induction d as [|[k' v'] d IH]; simpl; intros Hnd Hin; [contradiction|].
  inversion Hnd as [|? ? Hnotin Hnd']; subst.
  destruct Hin as [E|Hin].
  - injection E as -> ->. destruct (dec k k); [reflexivity|congruence].
  - destruct (dec k' k) as [->|_]; [|apply IH; assumption].
    exfalso. apply Hnotin. apply in_map_iff. exists (k, v). auto.
Qed.
End OrderedDictFacts.

Lemma map_fst_combine {A B : Type} (l1 : list A) (l2 : list B) :
  length l1 = length l2 -> map fst (combine l1 l2) = l1.
Proof.
  revert l2. induction l1 as [|x l1 IH]; intros [|y l2] H; simpl in *;
    try reflexivity; try discriminate.
  f_equal. apply IH. lia.
Qed.

Lemma NB_Grid_init_returns (names : list string) (value_arrs : list (list Qc)) :
  length names = length value_arrs ->
  Forall (fun a => a <> []) value_arrs ->
  succeeds (NB_Grid_init names value_arrs).
Proof.
  intros Hlen Hne. unfold NB_Grid_init.
  apply Nat.eqb_eq in Hlen. rewrite Hlen. cbn [negb]. cbv zeta.
  destruct (mapM_succeeds
              (fun pa => lo <- arr_min (snd pa) ;;
                         hi <- arr_max (snd pa) ;;
                         Ok (fst pa, (lo, hi)))
              (od_of_list string_dec (combine names value_arrs))) as [mm Hmm].
  { intros [p a] Hin. apply od_of_list_In in Hin. apply in_combine_r in Hin.
    rewrite Forall_forall in Hne. specialize (Hne a Hin).
    destruct (arr_min_spec a Hne) as [lo [Hlo _]].
    destruct (arr_max_spec a Hne) as [hi [Hhi _]].
    exists (p, (lo, hi)). cbn [fst snd]. rewrite Hlo. cbn [bind]. rewrite Hhi.
    reflexivity. }
  rewrite Hmm. cbn [bind]. eexists. reflexivity.
Qed.

Lemma NB_Grid_init_inv (names : list string) (value_arrs : list (list Qc))
    (G : NB_Grid) :
  NB_Grid_init names value_arrs = Ok G ->
  length names = length value_arrs
  /\ param_names G = names
  /\ param_values_arrs G = value_arrs
  /\ grid_shape G = map (@length Qc) value_arrs
  /\ grids G = [].
Proof.
  unfold NB_Grid_init. intros H.
  destruct (length names =? length value_arrs) eqn:E; [|discriminate].
  apply Nat.eqb_eq in E. cbn [negb] in H. cbv zeta in H.
  apply bind_Ok_inv in H. destruct H as [mm [_ H]]. injection H as <-.
  cbn. auto.
Qed.

Lemma NB_Grid_init_minmax (names : list string) (value_arrs : list (list Qc))
    (G : NB_Grid) :
  NoDup names -> Forall valid_axis value_arrs ->
  NB_Grid_init names value_arrs = Ok G ->
  paramName2paramMinMax G
  = map (fun pa => (fst pa, (nth 0 (snd pa) 0%Qc,
                             nth (length (snd pa) - 1) (snd pa) 0%Qc)))
        (combine names value_arrs).
Proof.
  intros Hnd Hval H. unfold NB_Grid_init in H.
  destruct (length names =? length value_arrs) eqn:E; [|discriminate].
  apply Nat.eqb_eq in E. cbn [negb] in H. cbv zeta in H.
  assert (Hkeys : NoDup (map fst (combine names value_arrs)))
    by (rewrite map_fst_combine; assumption).
  rewrite (od_of_list_NoDup string_dec _ Hkeys) in H.
  rewrite (mapM_pure _
             (fun pa => (fst pa, (nth 0 (snd pa) 0%Qc,
                                  nth (length (snd pa) - 1) (snd pa) 0%Qc)))) in H.
  - cbn [bind] in H. injection H as <-. cbn [paramName2paramMinMax].
    apply od_of_list_NoDup. rewrite map_map. cbn [fst]. exact Hkeys.
  - intros [p a] Hin. apply in_combine_r in Hin.
    rewrite Forall_forall in Hval. specialize (Hval a Hin). cbn [fst snd].
    rewrite (valid_axis_min a Hval). cbn [bind].
    rewrite (valid_axis_max a Hval). reflexivity.
Qed.

(** The coordinates of the interpolated grid, read off the dictionary of
    minima and maxima, are the output axes of the resampler. *)
Lemma interp_axes_closed (d : od string (Qc * Qc)) :
  NoDup (map fst d) ->
  forall (names : list string) (arrs : list (list Qc)) (shp : list Z),
    length names = length arrs -> length shp = length arrs ->
    (forall p a, In (p, a) (combine names arrs) ->
                 In (p, (nth 0 a 0%Qc, nth (length a - 1) a 0%Qc)) d) ->
    Forall (fun n => (0 <= n)%Z) shp ->
    mapM (fun pn => mm <- od_get string_dec d (fst pn) ;;
                    linspace (fst mm) (snd mm) (snd pn))
         (combine names shp)
    = Ok (map (fun an => out_axis (fst an) (snd an)) (combine arrs shp)).
Proof.
  intros Hnd. induction names as [|p names IH];
    intros [|a arrs] [|n shp] Hl1 Hl2 Hin Hshp; simpl in Hl1, Hl2;
    try discriminate; try reflexivity.
  cbn [combine mapM map fst snd].
  rewrite (od_get_In string_dec d p _ Hnd (Hin p a (or_introl eq_refl))).
  cbn [bind fst snd].
  inversion Hshp as [|? ? Hn Hshp']; subst.
  assert (Hlin : forall lo hi, linspace lo hi n = Ok (np_linspace lo hi (Z.to_nat n))).
  { intros lo hi. unfold linspace.
    destruct (n <? 0)%Z eqn:E; [apply Z.ltb_lt in E; lia|reflexivity]. }
  rewrite Hlin. cbn [bind]. rewrite (IH arrs shp); try assumption; try lia.
  - reflexivity.
  - intros p' a' H'. apply Hin. right. exact H'.
Qed.

Lemma interp_shape_closed (arrs : list (list Qc)) :
  forall shp : list Z,
    length shp = length arrs -> Forall (fun n => (0 <= n)%Z) shp ->
    map Z.of_nat
        (map (@length Qc)
             (map (fun an => out_axis (fst an) (snd an)) (combine arrs shp)))
    = shp.
Proof.
  induction arrs as [|a arrs IH]; intros [|n shp] Hl Hshp; simpl in Hl;
    try discriminate; try reflexivity.
  inversion Hshp as [|? ? Hn Hshp']; subst.
  cbn [combine map fst snd]. rewrite out_axis_length, Z2Nat.id by lia.
  f_equal. apply IH; [lia|assumption].
Qed.

Lemma Qc_of_nat_S (n : nat) : Qc_of_nat (S n) = (Qc_of_nat n + 1)%Qc.
Proof.
  apply Qc_is_canon. rewrite this_plus, !this_of_nat.
  change (this 1%Qc) with 1%Q.
  rewrite Nat2Z.inj_succ. unfold Z.succ. rewrite inject_Z_plus. reflexivity.
Qed.

(** Consecutive points of [np.linspace] are one step apart. *)
Lemma np_diff_linspace (start stop : Qc) (num : nat) (x : Qc) :
  In x (np_diff (np_linspace start stop num)) ->
  x = ((stop - start) / Qc_of_nat (num - 1))%Qc.
Proof.
  intros Hx. apply (In_nth _ _ 0%Qc) in Hx. destruct Hx as [j [Hj <-]].
  rewrite np_diff_length, np_linspace_length in Hj.
  rewrite np_diff_nth by (rewrite np_linspace_length; lia).
  rewrite !np_linspace_nth by lia. unfold linspace_point.
  rewrite Qc_of_nat_S.
  set (s := ((stop - start) / Qc_of_nat (num - 1))%Qc). ring.
Qed.

Lemma Qcabs'_nonneg (x : Qc) : (0 <= Qcabs' x)%Qc.
Proof.
  unfold Qcabs'. destruct (Qcltb x 0) eqn:E.
  - apply Qcltb_lt in E. qc_to_q. lra.
  - apply Qcltb_ge in E. exact E.
Qed.

(** The assertion on the spacing of an interpolated axis holds. *)
Lemma uniform_spacing_check (p : list Qc) (n : Z) :
  (2 <= n)%Z ->
  (let arr_diff := np_diff (out_axis p n) in
   d0 <- getitem arr_diff 0%Z ;; assertM (np_allclose arr_diff d0))
  = Ok tt.
Proof.
  intros Hn. cbv zeta. unfold out_axis.
  set (lo := nth 0 p 0%Qc). set (hi := nth (length p - 1) p 0%Qc).
  set (s := ((hi - lo) / Qc_of_nat (Z.to_nat n - 1))%Qc).
  assert (Hlen : length (np_diff (np_linspace lo hi (Z.to_nat n))) = Z.to_nat n - 1)
    by (rewrite np_diff_length, np_linspace_length; reflexivity).
  rewrite (getitem_nat _ 0%Z 0%Qc) by lia. cbn [bind].
  change (Z.to_nat 0) with 0.
  assert (H0 : nth 0 (np_diff (np_linspace lo hi (Z.to_nat n))) 0%Qc = s)
    by (apply np_diff_linspace; apply nth_In; lia).
  rewrite H0. unfold np_allclose.
  match goal with
  | |- assertM ?b = _ => assert (Hb : b = true); [|rewrite Hb; reflexivity]
  end.
  apply forallb_forall. intros x Hx.
  apply np_diff_linspace in Hx. fold s in Hx. subst x.
  apply Qcleb_le. replace (s - s)%Qc with 0%Qc by ring.
  assert (Ha : (0 <= Q2Qc (1 # 100000000))%Qc) by (vm_compute; discriminate).
  assert (Hr : (0 <= Q2Qc (1 # 100000))%Qc) by (vm_compute; discriminate).
  pose proof (Qcabs'_nonneg s) as Hs.
  change (Qcabs' 0) with 0%Qc.
  revert Ha Hr Hs.
  generalize (Q2Qc (1 # 100000000)) (Q2Qc (1 # 100000)) (Qcabs' s).
  intros a r c Ha Hr Hc. qc_to_q. nra.
Qed.

Lemma array_equal_checks (l : list (list Qc)) :
  mapM (fun aa => assertM (np_array_equal (fst aa) (snd aa))) (combine l l)
  = Ok (map (fun _ => tt) l).
Proof.
  induction l as [|a l IH]; [reflexivity|].
  cbn [combine mapM map fst snd]. unfold np_array_equal at 1.
  destruct (list_eq_dec Qc_eq_dec a a) as [_|Hne]; [|congruence].
  cbn [assertM bind]. rewrite IH. reflexivity.
Qed.

(** C10 (clamping in the caller).  Whenever [interpolate_flux_arrays]
    returns, the grids it returns are held under ["No_norm"], and each of
    them comes from the resampler's output for one raw flux array, value by
    value: a negative value of the output has become zero, every other
    value is kept as it is.  So every value of every returned array is
    non-negative. *)
Theorem C10_interpolated_grids_nonneg
    (Raw_grids : NB_Grid) (interpd_shape : list Z) (Interpd_grids : NB_Grid) :
  interpolate_flux_arrays Raw_grids interpd_shape = Ok Interpd_grids ->
  exists Interpolator no_norm,
    __init__ (param_values_arrs Raw_grids) (map Z.of_nat (grid_shape Interpd_grids))
    = Ok Interpolator
    /\ grids Interpd_grids = [("No_norm", Sub no_norm)]
    /\ no_norm <> []
    /\ forall line a,
         In (line, a) no_norm ->
         Forall (fun x => (0 <= x)%Qc) (data a)
         /\ exists raw_flux_arr pts interp_arr,
              In (line, Arr raw_flux_arr) (grids Raw_grids)
              /\ __call___float Interpolator raw_flux_arr
                 = Ok (pts, of_ndarray interp_arr)
              /\ shape a = shape interp_arr
              /\ Forall2 (fun x y => ((x < 0)%Qc -> y = 0%Qc)
                                     /\ ((0 <= x)%Qc -> y = x))
                         (data interp_arr) (data a).
Proof.
  unfold interpolate_flux_arrays. intros H.
  apply bind_Ok_inv in H. destruct H as [val_arrs_interp [_ H]].
  apply bind_Ok_inv in H. destruct H as [G0 [HG0 H]].
  apply bind_Ok_inv in H. destruct H as [u1 [_ H]].
  apply bind_Ok_inv in H. destruct H as [Interpolator [Hinit H]].
  apply bind_Ok_inv in H. destruct H as [no_norm [Hfold H]].
  apply bind_Ok_inv in H. destruct H as [first [Hfirst H]].
  injection H as <-. cbn [grids grid_shape].
  assert (HG0grids : grids G0 = []).
  { unfold NB_Grid_init in HG0.
    destruct (negb _); [discriminate|].
    apply bind_Ok_inv in HG0. destruct HG0 as [mm [_ HG0]].
    injection HG0 as <-. reflexivity. }
  exists Interpolator, (map (fun kv => (fst kv, clip_nonneg (snd kv))) no_norm).
  split; [exact Hinit|]. split; [rewrite HG0grids; reflexivity|].
  split.
  { destruct no_norm; [|discriminate]. rewrite getitem_empty in Hfirst. discriminate. }
  intros line a Hin. apply in_map_iff in Hin. destruct Hin as [[line' arr] [E Hin]].
  cbn [fst snd] in E. injection E as -> <-.
  split; [apply clip_nonneg_data|].
  destruct (resampled_entries _ _ _ _ _ Hfold line arr Hin) as [[]|[r [p [Hr Hc]]]].
  exists r, p, arr. split; [exact Hr|]. split; [exact Hc|].
  split; [reflexivity|apply clip_nonneg_rule].
Qed.

(** On the worked raw grid, whose flux array holds [-4]: the resampler
    returns [-4, 48, 100, 50, 0], and the grid stored is
    [0, 48, 100, 50, 0]. *)
Lemma C10_interpolated_grids_nonneg_witness :
  interpolate_flux_arrays ex_raw_grids [5%Z] = Ok ex_interpd_grids
  /\ grids ex_interpd_grids
     = [("No_norm",
         Sub [("Hbeta",
               {| shape := [5];
                  data := [Qc_of_Z 0; Qc_of_Z 48; Qc_of_Z 100; Qc_of_Z 50;
                           Qc_of_Z 0] |})])]
  /\ exists no_norm,
       grids ex_interpd_grids = [("No_norm", Sub no_norm)]
       /\ no_norm <> []
       /\ forall line a,
            In (line, a) no_norm ->
            Forall (fun x => (0 <= x)%Qc) (data a)
            /\ exists interp_arr,
                 shape a = shape interp_arr
                 /\ Forall2 (fun x y => ((x < 0)%Qc -> y = 0%Qc)
                                        /\ ((0 <= x)%Qc -> y = x))
                            (data interp_arr) (data a).
Proof.
  assert (H : interpolate_flux_arrays ex_raw_grids [5%Z] = Ok ex_interpd_grids)
    by (vm_compute; reflexivity).
  split; [exact H|].
  split.
  { vm_compute. reflexivity. }
  destruct (C10_interpolated_grids_nonneg ex_raw_grids [5%Z] ex_interpd_grids H)
    as [Interpolator [no_norm [_ [Hg [Hne Hall]]]]].
  exists no_norm. split; [exact Hg|]. split; [exact Hne|].
  intros line a Hin. destruct (Hall line a Hin) as [Hpos [r [p [ia [_ [_ [Hs Hr]]]]]]].
  split; [exact Hpos|]. exists ia. split; [exact Hs|exact Hr].
Defined.

(** * Further properties of the code *)

(** ** The resampler as an operator on fields *)

Lemma nth_lincomb (a b : Qc) (df dg : list Qc) (k : nat) :
  length df = length dg ->
  nth k (map (fun xy => (a * fst xy + b * snd xy)%Qc) (combine df dg)) 0%Qc
  = (a * nth k df 0 + b * nth k dg 0)%Qc.
Proof.
  revert dg k. induction df as [|x df IH]; intros [|y dg] k H; simpl in H;
    try discriminate.
  - destruct k; simpl; ring.
  - destruct k as [|k]; simpl; [reflexivity|]. apply IH. lia.
Qed.

Lemma Qcsum_lincomb {A : Type} (a b : Qc) (F G : A -> Qc) (l : list A) :
  Qcsum (map (fun e => (a * F e + b * G e)%Qc) l)
  = (a * Qcsum (map F l) + b * Qcsum (map G l))%Qc.
Proof. induction l as [|x l IH]; simpl; [ring|]. rewrite IH. ring. Qed.

Lemma interp_lincomb (nd : nat) (a b : Qc) (f g : ndarray) (cell : list Z)
    (us : list Qc) :
  shape g = shape f -> length (data f) = length (data g) ->
  interp nd (lincomb a f b g) cell us
  = (a * interp nd f cell us + b * interp nd g cell us)%Qc.
Proof.
  intros Hs Hl. unfold interp. rewrite !fold_left_Qcsum.
  rewrite (map_ext _ (fun e => (a * (corner_value f cell e * edge_weight e us)
                                + b * (corner_value g cell e * edge_weight e us))%Qc)).
  - rewrite Qcsum_lincomb. ring.
  - intros e. unfold corner_value, at_index. cbn [lincomb shape data].
    rewrite nth_lincomb by assumption. rewrite Hs. ring.
Qed.

Lemma lincomb_wf (a b : Qc) (f g : ndarray) :
  ndarray_wf f -> ndarray_wf g -> shape g = shape f ->
  ndarray_wf (lincomb a f b g).
Proof.
  unfold ndarray_wf. intros Hf Hg Hs. cbn [lincomb shape data].
  rewrite length_map, length_combine. rewrite Hg, Hs, Hf. lia.
Qed.

(** X1 (linearity).  For every resampler that the constructor builds, the
    call is a linear map of the field: the output for [a * f + b * g] is
    [a] times the output for [f] plus [b] times the output for [g]. *)
Theorem resampling_is_linear
    (in_pts : list (list Qc)) (out_shp : list Z) (R : RegularGridResampler)
    (f g : ndarray) (a b : Qc) :
  __init__ in_pts out_shp = Ok R ->
  ndarray_wf f -> shape f = in_shape R ->
  ndarray_wf g -> shape g = in_shape R ->
  exists out_f out_g,
    __call__ R f = Ok (out_points R, out_f)
    /\ __call__ R g = Ok (out_points R, out_g)
    /\ __call__ R (lincomb a f b g) = Ok (out_points R, lincomb a out_f b out_g).
Proof.
  intros Hinit Hwf Hsf Hwg Hsg. apply init_Ok_inv in Hinit.
  destruct Hinit as [Hv [Hne ->]]. cbn [resampler_of in_shape] in Hsf, Hsg.
  exists (resample in_pts out_shp f), (resample in_pts out_shp g).
  rewrite (call_closed in_pts out_shp f Hv Hne Hwf Hsf).
  rewrite (call_closed in_pts out_shp g Hv Hne Hwg Hsg).
  split; [reflexivity|]. split; [reflexivity|].
  assert (Hs : shape g = shape f) by congruence.
  assert (Hl : length (data f) = length (data g))
    by (unfold ndarray_wf in *; congruence).
  rewrite (call_closed in_pts out_shp (lincomb a f b g) Hv Hne
             (lincomb_wf a b f g Hwf Hwg Hs) Hsf).
  f_equal. f_equal. unfold lincomb at 2. unfold resample. cbn [shape data].
  f_equal. rewrite combine_map_map, map_map. apply map_ext. intros pt.
  cbn [fst snd]. apply interp_lincomb; assumption.
Qed.

Lemma resampling_is_linear_witness :
  exists out_f out_g,
    __call__ ex_resampler ex_field = Ok (out_points ex_resampler, out_f)
    /\ __call__ ex_resampler ex_field_b = Ok (out_points ex_resampler, out_g)
    /\ __call__ ex_resampler (lincomb (Qc_of_Z 2) ex_field (Qc_of_Z (-1)) ex_field_b)
       = Ok (out_points ex_resampler,
             lincomb (Qc_of_Z 2) out_f (Qc_of_Z (-1)) out_g).
Proof.
  apply (resampling_is_linear [ex_axis] [5%Z] ex_resampler ex_field ex_field_b);
    vm_compute; reflexivity.
Defined.

Lemma multilin_monotone (us : list Qc) :
  Forall unit_interval us ->
  forall F G : list Z -> Qc,
    (forall e, length e = length us -> Forall is_bit e -> (F e <= G e)%Qc) ->
    (multilin F us <= multilin G us)%Qc.
Proof.
  induction 1 as [|u us [Hu0 Hu1] _ IH]; intros F G HFG.
  - simpl. apply HFG; [reflexivity|constructor].
  - cbn [multilin].
    assert (A : (multilin (fun e => F (0%Z :: e)) us
                 <= multilin (fun e => G (0%Z :: e)) us)%Qc).
    { apply IH. intros e Hl Hb.
      apply HFG; [simpl; lia|constructor; [left; reflexivity|assumption]]. }
    assert (B : (multilin (fun e => F (1%Z :: e)) us
                 <= multilin (fun e => G (1%Z :: e)) us)%Qc).
    { apply IH. intros e Hl Hb.
      apply HFG; [simpl; lia|constructor; [right; reflexivity|assumption]]. }
    revert A B.
    generalize (multilin (fun e => F (0%Z :: e)) us)
               (multilin (fun e => G (0%Z :: e)) us)
               (multilin (fun e => F (1%Z :: e)) us)
               (multilin (fun e => G (1%Z :: e)) us).
    intros f0 g0 f1 g1 A B. qc_to_q. nra.
Qed.

Lemma nth_Forall2_le (df dg : list Qc) :
  Forall2 Qcle df dg -> forall k, (nth k df 0 <= nth k dg 0)%Qc.
Proof.
  induction 1 as [|x y df dg Hxy _ IH]; intros [|k]; simpl;
    try apply Qcle_refl; [assumption|apply IH].
Qed.

(** X2 (monotonicity).  The call preserves the pointwise order of fields:
    if [f <= g] at every grid point, the output for [f] is below the output
    for [g] at every output point. *)
Theorem resampling_is_monotone
    (in_pts : list (list Qc)) (out_shp : list Z) (R : RegularGridResampler)
    (f g : ndarray) :
  __init__ in_pts out_shp = Ok R ->
  ndarray_wf f -> shape f = in_shape R ->
  ndarray_wf g -> shape g = in_shape R ->
  Forall2 Qcle (data f) (data g) ->
  exists out_f out_g,
    __call__ R f = Ok (out_points R, out_f)
    /\ __call__ R g = Ok (out_points R, out_g)
    /\ Forall2 Qcle (data out_f) (data out_g).
Proof.
  intros Hinit Hwf Hsf Hwg Hsg Hle. apply init_Ok_inv in Hinit.
  destruct Hinit as [Hv [Hne ->]]. cbn [resampler_of in_shape] in Hsf, Hsg.
  exists (resample in_pts out_shp f), (resample in_pts out_shp g).
  rewrite (call_closed in_pts out_shp f Hv Hne Hwf Hsf).
  rewrite (call_closed in_pts out_shp g Hv Hne Hwg Hsg).
  split; [reflexivity|]. split; [reflexivity|].
  unfold resample. cbn [data]. apply Forall2_map_same. intros pt Hpt.
  rewrite <- (sample_dists_length in_pts out_shp Hv pt Hpt).
  rewrite !interp_multilin. apply multilin_monotone.
  - apply (sample_dists_unit in_pts out_shp Hv pt Hpt).
  - intros e _ _. unfold corner_value, at_index.
    replace (shape g) with (shape f) by congruence. apply nth_Forall2_le. exact Hle.
Qed.

Lemma resampling_is_monotone_witness :
  exists out_f out_g,
    __call__ ex_resampler ex_field_b = Ok (out_points ex_resampler, out_f)
    /\ __call__ ex_resampler
                (lincomb 1 ex_field_b 1 ex_field) = Ok (out_points ex_resampler, out_g)
    /\ Forall2 Qcle (data out_f) (data out_g).
Proof.
  apply (resampling_is_monotone [ex_axis] [5%Z] ex_resampler ex_field_b
           (lincomb 1 ex_field_b 1 ex_field));
    try (vm_compute; reflexivity).
  vm_compute. repeat constructor; discriminate.
Defined.

Lemma multilin_ext (us : list Qc) :
  forall F G : list Z -> Qc,
    (forall e, length e = length us -> Forall is_bit e -> F e = G e) ->
    multilin F us = multilin G us.
Proof.
  induction us as [|u us IH]; intros F G H.
  - simpl. apply H; [reflexivity|constructor].
  - cbn [multilin].
    rewrite (IH (fun e => F (0%Z :: e)) (fun e => G (0%Z :: e))).
    + rewrite (IH (fun e => F (1%Z :: e)) (fun e => G (1%Z :: e))); [reflexivity|].
      intros e Hl Hb.
      apply H; [simpl; lia|constructor; [right; reflexivity|assumption]].
    + intros e Hl Hb.
      apply H; [simpl; lia|constructor; [left; reflexivity|assumption]].
Qed.

(** Linear interpolation between the two ends of the cell gives back the
    coordinate itself. *)
Lemma lerp_cell (p : list Qc) (v : Qc) :
  valid_axis p ->
  ((1 - norm_distance p v) * nth (Z.to_nat (lower_edge p v)) p 0
   + norm_distance p v * nth (S (Z.to_nat (lower_edge p v))) p 0 = v)%Qc.
Proof.
  intros [Hs Hl]. unfold norm_distance.
  pose proof (lower_edge_range p v Hl) as Hr.
  set (j := Z.to_nat (lower_edge p v)).
  assert (Hlt : (nth j p 0 < nth (S j) p 0)%Qc)
    by (apply sorted_nth_lt; [assumption|subst j; lia]).
  assert (Hne : (nth (S j) p 0 - nth j p 0)%Qc <> 0%Qc).
  { intros E. qc_to_q. lra. }
  field. exact Hne.
Qed.

Lemma affine_cons (c0 c x : Qc) (cs xs : list Qc) :
  affine c0 (c :: cs) (x :: xs) = affine (c0 + c * x) cs xs.
Proof.
  unfold affine, Qcsum. cbn [combine map fold_right fst snd]. ring.
Qed.

Lemma multilin_affine (pt : list sample) :
  Forall (fun s => valid_axis (fst s)) pt ->
  forall (cs : list Qc) (c0 : Qc) (F : list Z -> Qc),
    length cs = length pt ->
    (forall e, length e = length pt -> Forall is_bit e ->
               F e = affine c0 cs (grid_coords (map fst pt)
                                               (corner_index (cell_of pt) e))) ->
    multilin F (dists_of pt) = affine c0 cs (map snd pt).
Proof.
  induction 1 as [|[p v] pt Hp _ IH]; intros [|c cs] c0 F Hl HF;
    simpl in Hl; try discriminate.
  - simpl. rewrite (HF [] eq_refl (Forall_nil _)). reflexivity.
  - cbn [fst snd] in Hp. pose proof Hp as [_ Hlen].
    pose proof (lower_edge_range p v Hlen) as Hr.
    cbn [dists_of map multilin fst snd].
    fold (dists_of pt).
    rewrite (IH cs (c0 + c * nth (Z.to_nat (lower_edge p v)) p 0)%Qc
                (fun e => F (0%Z :: e))).
    + rewrite (IH cs (c0 + c * nth (S (Z.to_nat (lower_edge p v))) p 0)%Qc
                  (fun e => F (1%Z :: e))).
      * rewrite affine_cons. unfold affine.
        generalize (Qcsum (map (fun cx => (fst cx * snd cx)%Qc)
                               (combine cs (map snd pt)))).
        intros q. pose proof (lerp_cell p v Hp) as E. revert E.
        generalize (norm_distance p v) (nth (Z.to_nat (lower_edge p v)) p 0%Qc)
                   (nth (S (Z.to_nat (lower_edge p v))) p 0%Qc).
        intros u x0 x1 E. rewrite <- E. ring.
      * lia.
      * intros e Hle Hb. rewrite HF.
        -- cbn [map fst snd cell_of corner_index combine grid_coords].
           rewrite affine_cons. f_equal. f_equal. f_equal. f_equal. lia.
        -- simpl. lia.
        -- constructor; [right; reflexivity|assumption].
    + lia.
    + intros e Hle Hb. rewrite HF.
      * cbn [map fst snd cell_of corner_index combine grid_coords].
        rewrite affine_cons. f_equal. f_equal. f_equal. f_equal. lia.
      * simpl. lia.
      * constructor; [left; reflexivity|assumption].
Qed.

Lemma corner_multi_index (in_pts : list (list Qc)) :
  forall cell e : list Z,
    corner_in_range (map (@length Qc) in_pts) cell e ->
    multi_index (corner_index cell e) in_pts.
Proof.
  unfold multi_index.
  induction in_pts as [|p in_pts IH]; intros [|c cell] [|j e] H; simpl in H;
    try contradiction.
  - constructor.
  - destruct H as [Hc H]. cbn [corner_index combine map fst snd].
    constructor; [lia|]. apply IH. exact H.
Qed.

Lemma sample_at (in_pts : list (list Qc)) (out_shp : list Z) (t : nat)
    (xs : list Qc) :
  nth_error (itertools_product (out_points (resampler_of in_pts out_shp))) t
  = Some xs ->
  exists pt, nth_error (sample_points in_pts out_shp) t = Some pt
             /\ map snd pt = xs.
Proof.
  rewrite coords_rows, nth_error_map.
  match goal with
  | |- option_map _ ?x = _ -> _ => destruct x as [pt|] eqn:Ht
  end; simpl; intros E; [|discriminate E].
  injection E as <-. exists pt. split; [exact Ht|reflexivity].
Qed.

Lemma sample_corner_multi_index (in_pts : list (list Qc)) (out_shp : list Z)
    (pt : list sample) (e : list Z) :
  valid_config in_pts out_shp ->
  In pt (sample_points in_pts out_shp) ->
  length e = length in_pts -> Forall is_bit e ->
  multi_index (corner_index (cell_of pt) e) in_pts.
Proof.
  intros Hv Hpt Hl Hb. apply corner_multi_index.
  apply (sample_corner_in_range in_pts out_shp pt e Hv Hpt).
  apply edge_keys_complete; assumption.
Qed.

(** X3 (affine functions are reproduced).  When the field is an affine
    function of the grid coordinates, [c0 + sum_k cs_k * x_k], the output at
    every output point is that same function of the output coordinates. *)
Theorem resampling_reproduces_affine
    (in_pts : list (list Qc)) (out_shp : list Z) (R : RegularGridResampler)
    (field : ndarray) (c0 : Qc) (cs : list Qc) :
  __init__ in_pts out_shp = Ok R ->
  ndarray_wf field -> shape field = in_shape R ->
  length cs = ndim R ->
  (forall idx, multi_index idx in_pts ->
               at_index field idx = affine c0 cs (grid_coords in_pts idx)) ->
  exists out,
    __call__ R field = Ok (out_points R, out)
    /\ forall t xs,
         nth_error (itertools_product (out_points R)) t = Some xs ->
         nth t (data out) 0%Qc = affine c0 cs xs.
Proof.
  intros Hinit Hwf Hshape Hcs Haff. apply init_Ok_inv in Hinit.
  destruct Hinit as [Hv [Hne ->]]. cbn [resampler_of in_shape ndim] in Hshape, Hcs.
  exists (resample in_pts out_shp field).
  split; [apply call_closed; assumption|].
  intros t xs Hxs. apply sample_at in Hxs. destruct Hxs as [pt [Ht <-]].
  rewrite (resample_point in_pts out_shp field t pt Ht).
  assert (Hpt : In pt (sample_points in_pts out_shp))
    by (eapply nth_error_In; exact Ht).
  destruct (sample_point_facts in_pts out_shp Hv pt Hpt) as [Hlen [Hfst HF]].
  rewrite <- (sample_dists_length in_pts out_shp Hv pt Hpt), interp_multilin.
  apply multilin_affine.
  - eapply Forall_impl; [|exact HF]. intros s [Hs _]. exact Hs.
  - lia.
  - intros e Hl Hb. unfold corner_value. rewrite Hfst. apply Haff.
    apply (sample_corner_multi_index in_pts out_shp pt e Hv Hpt); [lia|assumption].
Qed.

Lemma resampling_reproduces_affine_witness :
  exists out,
    __call__ ex2_resampler ex2_affine_field = Ok (out_points ex2_resampler, out)
    /\ forall t xs,
         nth_error (itertools_product (out_points ex2_resampler)) t = Some xs ->
         nth t (data out) 0%Qc
         = affine (Qc_of_Z 1) [Qc_of_Z 2; Qc_of_Z 3] xs.
Proof.
  apply (resampling_reproduces_affine ex2_axes [3%Z; 3%Z] ex2_resampler
           ex2_affine_field (Qc_of_Z 1) [Qc_of_Z 2; Qc_of_Z 3]);
    try (vm_compute; reflexivity).
  intros idx Hidx. unfold multi_index, ex2_axes in Hidx.
  inversion Hidx as [|i p idx1 ps1 Hi Hidx1]; subst.
  inversion Hidx1 as [|j q idx2 ps2 Hj Hidx2]; subst.
  inversion Hidx2; subst. simpl in Hi, Hj.
  assert (Hi' : i = 0 \/ i = 1) by lia. assert (Hj' : j = 0 \/ j = 1) by lia.
  destruct Hi' as [-> | ->], Hj' as [-> | ->]; apply Qc_is_canon; reflexivity.
Defined.

Lemma map_snd_combine {A B : Type} (l1 : list A) (l2 : list B) :
  length l1 = length l2 -> map snd (combine l1 l2) = l2.
Proof.
  revert l2. induction l1 as [|x l1 IH]; intros [|y l2] H; simpl in *;
    try reflexivity; try discriminate.
  f_equal. apply IH. lia.
Qed.

Lemma point_of_index (pt : list sample) :
  forall (in_pts : list (list Qc)) (idx : list nat),
    map fst pt = in_pts -> map snd pt = grid_coords in_pts idx ->
    length idx = length in_pts ->
    pt = map (fun s => (fst s, nth (snd s) (fst s) 0%Qc)) (combine in_pts idx).
Proof.
  induction pt as [|[p v] pt IH]; intros in_pts idx Hfst Hsnd Hlen.
  - simpl in Hfst. subst in_pts. reflexivity.
  - simpl in Hfst. subst in_pts. destruct idx as [|i idx]; [discriminate|].
    cbn [grid_coords combine map fst snd] in Hsnd. injection Hsnd as Hv Hsnd.
    cbn [combine map fst snd]. rewrite <- Hv. f_equal.
    apply IH; [reflexivity|exact Hsnd|simpl in Hlen; lia].
Qed.

Lemma index_in_axes (idx : list nat) (in_pts : list (list Qc)) :
  multi_index idx in_pts -> Forall valid_axis in_pts ->
  Forall (fun s => valid_axis (fst s) /\ snd s < length (fst s))
         (combine in_pts idx).
Proof.
  unfold multi_index. induction 1 as [|i p idx in_pts Hi _ IH]; intros Hv.
  - constructor.
  - inversion Hv as [|? ? Hp Hv']; subst. cbn [combine]. constructor.
    + split; assumption.
    + apply IH. assumption.
Qed.

(** X4 (exact at grid points).  Wherever an output point has the
    coordinates of an input grid point, the output is the field's value at
    that grid point; the other grid values do not enter. *)
Theorem resampling_exact_at_grid_points
    (in_pts : list (list Qc)) (out_shp : list Z) (R : RegularGridResampler)
    (field : ndarray) :
  __init__ in_pts out_shp = Ok R ->
  ndarray_wf field -> shape field = in_shape R ->
  exists out,
    __call__ R field = Ok (out_points R, out)
    /\ forall t idx,
         multi_index idx in_pts ->
         nth_error (itertools_product (out_points R)) t
         = Some (grid_coords in_pts idx) ->
         nth t (data out) 0%Qc = at_index field idx.
Proof.
  intros Hinit Hwf Hshape. apply init_Ok_inv in Hinit.
  destruct Hinit as [Hv [Hne ->]]. cbn [resampler_of in_shape] in Hshape.
  exists (resample in_pts out_shp field).
  split; [apply call_closed; assumption|].
  intros t idx Hidx Ht. apply sample_at in Ht. destruct Ht as [pt [Ht Hsnd]].
  rewrite (resample_point in_pts out_shp field t pt Ht).
  assert (Hpt : In pt (sample_points in_pts out_shp))
    by (eapply nth_error_In; exact Ht).
  destruct (sample_point_facts in_pts out_shp Hv pt Hpt) as [_ [Hfst _]].
  assert (Hlen : length idx = length in_pts)
    by (eapply Forall2_length; exact Hidx).
  pose proof (point_of_index pt in_pts idx Hfst Hsnd Hlen) as Ept.
  destruct (grid_points_select (combine in_pts idx)) as [bs [Hbs Hci]].
  { apply index_in_axes; [assumption|apply Hv]. }
  cbn zeta in Hbs, Hci. rewrite <- Ept in Hbs, Hci.
  rewrite <- (sample_dists_length in_pts out_shp Hv pt Hpt), interp_multilin.
  rewrite (multilin_select bs _ Hbs). unfold corner_value.
  rewrite Hci, map_snd_combine by lia. reflexivity.
Qed.

Lemma resampling_exact_at_grid_points_witness :
  exists out,
    __call__ ex_resampler ex_field = Ok (out_points ex_resampler, out)
    /\ forall t idx,
         multi_index idx [ex_axis] ->
         nth_error (itertools_product (out_points ex_resampler)) t
         = Some (grid_coords [ex_axis] idx) ->
         nth t (data out) 0%Qc = at_index ex_field idx.
Proof.
  apply (resampling_exact_at_grid_points [ex_axis] [5%Z] ex_resampler ex_field);
    vm_compute; reflexivity.
Defined.

(** ** Resampling the output again *)

Lemma Qcdiv_pos (a b : Qc) : (0 < a)%Qc -> (0 < b)%Qc -> (0 < a / b)%Qc.
Proof.
  unfold Qclt. rewrite this_div. change (this 0%Qc) with 0%Q. intros Ha Hb.
  apply Qlt_shift_div_l; [assumption|]. lra.
Qed.

Lemma Sorted_map_seq (f : nat -> Qc) (n : nat) :
  forall s : nat,
    (forall i, s <= i -> S i < s + n -> (f i < f (S i))%Qc) ->
    Sorted Qclt (map f (seq s n)).
Proof.
  induction n as [|n IH]; intros s H; simpl; [constructor|].
  constructor.
  - apply IH. intros i Hi Hi'. apply H; lia.
  - destruct n; simpl; constructor. apply H; lia.
Qed.

(** [np.linspace] from [start] to a larger [stop] is strictly ascending. *)
Lemma np_linspace_sorted (start stop : Qc) (num : nat) :
  (start < stop)%Qc -> Sorted Qclt (np_linspace start stop num).
Proof.
  intros Hlt. rewrite np_linspace_closed. apply Sorted_map_seq.
  intros i _ Hi. unfold linspace_point. rewrite Qc_of_nat_S.
  assert (Hstep : (0 < (stop - start) / Qc_of_nat (num - 1))%Qc).
  { apply Qcdiv_pos.
    - qc_to_q. lra.
    - rewrite <- Qc_of_nat_0. apply Qc_of_nat_lt. lia. }
  revert Hstep. generalize ((stop - start) / Qc_of_nat (num - 1))%Qc.
  generalize (Qc_of_nat i). intros k s Hs. qc_to_q. nra.
Qed.

Lemma out_axis_valid (p : list Qc) (n : Z) :
  valid_axis p -> (2 <= n)%Z -> valid_axis (out_axis p n).
Proof.
  intros [Hs Hl] Hn. split.
  - unfold out_axis. apply np_linspace_sorted.
    apply sorted_nth_lt; [assumption|lia].
  - rewrite out_axis_length. lia.
Qed.

Lemma out_axis_idem (p : list Qc) (n : Z) :
  (2 <= n)%Z -> out_axis (out_axis p n) n = out_axis p n.
Proof.
  intros Hn. unfold out_axis at 1.
  rewrite out_axis_first, out_axis_last by assumption. reflexivity.
Qed.

Lemma out_axes_idem (in_pts : list (list Qc)) :
  forall out_shp : list Z,
    Forall (fun n => (2 <= n)%Z) out_shp ->
    map (fun pn => out_axis (fst pn) (snd pn))
        (combine (map (fun pn => out_axis (fst pn) (snd pn))
                      (combine in_pts out_shp))
                 out_shp)
    = map (fun pn => out_axis (fst pn) (snd pn)) (combine in_pts out_shp).
Proof.
  induction in_pts as [|p in_pts IH]; intros [|n out_shp] H; try reflexivity.
  inversion H as [|? ? Hn H']; subst. cbn [combine map fst snd].
  rewrite out_axis_idem by assumption. f_equal. apply IH. assumption.
Qed.

(** Resampling onto the grid itself returns the field. *)
Lemma resample_same_grid (in_pts : list (list Qc)) (out_shp : list Z)
    (field : ndarray) :
  valid_config in_pts out_shp ->
  map (fun pn => out_axis (fst pn) (snd pn)) (combine in_pts out_shp) = in_pts ->
  ndarray_wf field -> shape field = map (@length Qc) in_pts ->
  resample in_pts out_shp field = field.
Proof.
  intros Hv Hsame Hwf Hshape.
  destruct (axes_facts in_pts out_shp Hv) as [Hla [Hfst [Hsnd Hax]]].
  destruct field as [shp dat]. cbn [shape] in Hshape.
  unfold resample, sample_points.
  remember (combine in_pts out_shp) as axes eqn:Eaxes.
  assert (Haxis : forall pn, In pn axes -> out_axis (fst pn) (snd pn) = fst pn).
  { apply map_ext_in_iff. rewrite Hfst. exact Hsame. }
  f_equal.
  - rewrite Hshape, <- Hsnd, <- Hfst, !map_map.
    apply map_ext_in. intros pn Hpn.
    rewrite <- (Haxis pn Hpn) at 1. rewrite out_axis_length. reflexivity.
  - rewrite (map_ext_in axis_samples (fun pn => map (pair (fst pn)) (fst pn))).
    2:{ intros pn Hpn. unfold axis_samples. rewrite (Haxis pn Hpn). reflexivity. }
    rewrite <- (map_map fst (fun p : list Qc => map (pair p) p)), Hfst.
    apply (same_grid_data in_pts {| shape := shp; data := dat |});
      [apply Hv|assumption|exact Hshape].
Qed.

(** X5 (idempotence).  The output of a call lies on a grid that the
    constructor accepts in turn, and resampling the output onto a grid of
    the same shape returns it unchanged. *)
Theorem resampling_is_idempotent
    (in_pts : list (list Qc)) (out_shp : list Z) (R : RegularGridResampler)
    (field : ndarray) (pts : list (list Qc)) (out : ndarray) :
  __init__ in_pts out_shp = Ok R ->
  ndarray_wf field -> shape field = in_shape R ->
  __call__ R field = Ok (pts, out) ->
  exists R', __init__ pts out_shp = Ok R' /\ __call__ R' out = Ok (pts, out).
Proof.
  intros Hinit Hwf Hshape Hcall. apply init_Ok_inv in Hinit.
  destruct Hinit as [Hv [Hne ->]]. cbn [resampler_of in_shape] in Hshape.
  rewrite (call_closed in_pts out_shp field Hv Hne Hwf Hshape) in Hcall.
  injection Hcall as <- <-. cbn [resampler_of out_points].
  destruct (axes_facts in_pts out_shp Hv) as [Hla [Hfst [Hsnd Hax]]].
  pose proof Hv as [Hlen [Hshp Haxes]].
  set (pts := map (fun pn => out_axis (fst pn) (snd pn)) (combine in_pts out_shp)).
  assert (Hlp : length pts = length in_pts)
    by (subst pts; rewrite length_map; exact Hla).
  assert (Hv' : valid_config pts out_shp).
  { split; [lia|]. split; [assumption|].
    subst pts. apply Forall_forall. intros o Ho. apply in_map_iff in Ho.
    destruct Ho as [pn [<- Hpn]]. destruct (Hax pn Hpn) as [Hp Hn].
    apply out_axis_valid; assumption. }
  assert (Hne' : pts <> []).
  { intros E. rewrite E in Hlp. destruct in_pts; [congruence|discriminate]. }
  assert (Hidem : map (fun pn => out_axis (fst pn) (snd pn)) (combine pts out_shp)
                  = pts)
    by (subst pts; apply out_axes_idem; assumption).
  assert (Hwf' : ndarray_wf (resample in_pts out_shp field)).
  { unfold ndarray_wf, resample. cbn [shape data].
    rewrite length_map. apply sample_points_length. assumption. }
  assert (Hshape' : shape (resample in_pts out_shp field) = map (@length Qc) pts).
  { unfold resample. cbn [shape]. subst pts. rewrite map_map.
    rewrite <- Hsnd at 1. rewrite map_map. apply map_ext. intros pn.
    rewrite out_axis_length. reflexivity. }
  exists (resampler_of pts out_shp).
  split; [apply init_closed; assumption|].
  rewrite (call_closed pts out_shp _ Hv' Hne' Hwf' Hshape').
  cbn [resampler_of out_points]. rewrite Hidem. f_equal. f_equal.
  apply resample_same_grid; assumption.
Qed.

Lemma resampling_is_idempotent_witness :
  exists R',
    __init__ (out_points ex_resampler) [5%Z] = Ok R'
    /\ __call__ R' (resample [ex_axis] [5%Z] ex_field)
       = Ok (out_points ex_resampler, resample [ex_axis] [5%Z] ex_field).
Proof.
  apply (resampling_is_idempotent [ex_axis] [5%Z] ex_resampler ex_field);
    vm_compute; reflexivity.
Defined.

(** ** [interpolate_flux_arrays] on a raw grid *)

Lemma val_arrs_step (names : list string) (arrs : list (list Qc)) (G : NB_Grid)
    (shp : list Z) :
  NoDup names -> NB_Grid_init names arrs = Ok G -> Forall valid_axis arrs ->
  length shp = length arrs -> Forall (fun n => (0 <= n)%Z) shp ->
  mapM (fun pn => mm <- od_get string_dec (paramName2paramMinMax G) (fst pn) ;;
                  linspace (fst mm) (snd mm) (snd pn))
       (combine names shp)
  = Ok (map (fun an => out_axis (fst an) (snd an)) (combine arrs shp)).
Proof.
  intros Hnd HG Haxes Hlen Hshp.
  destruct (NB_Grid_init_inv _ _ _ HG) as [Hl _].
  rewrite (NB_Grid_init_minmax _ _ _ Hnd Haxes HG).
  apply interp_axes_closed; try assumption.
  - rewrite map_map. cbn [fst]. rewrite map_fst_combine; assumption.
  - intros p a Hin.
    apply (in_map (fun pa => (fst pa, (nth 0 (snd pa) 0%Qc,
                                       nth (length (snd pa) - 1) (snd pa) 0%Qc)))
                  _ _ Hin).
Qed.

Lemma interp_description (names : list string) (arrs : list (list Qc))
    (shp : list Z) :
  length names = length arrs -> length shp = length arrs ->
  Forall (fun n => (1 <= n)%Z) shp ->
  exists Gi,
    NB_Grid_init names (map (fun an => out_axis (fst an) (snd an))
                            (combine arrs shp)) = Ok Gi
    /\ param_names Gi = names
    /\ param_values_arrs Gi
       = map (fun an => out_axis (fst an) (snd an)) (combine arrs shp)
    /\ grid_shape Gi = map Z.to_nat shp
    /\ grids Gi = [].
Proof.
  intros Hl Hlen Hshp.
  set (vals := map (fun an => out_axis (fst an) (snd an)) (combine arrs shp)).
  destruct (NB_Grid_init_returns names vals) as [Gi HGi].
  { subst vals. rewrite length_map, length_combine. lia. }
  { subst vals. apply Forall_forall. intros o Ho. apply in_map_iff in Ho.
    destruct Ho as [[a n] [<- Hin]]. cbn [fst snd]. apply in_combine_r in Hin.
    rewrite Forall_forall in Hshp. specialize (Hshp n Hin).
    intros E. apply (f_equal (@length Qc)) in E.
    rewrite out_axis_length in E. simpl in E. lia. }
  exists Gi. split; [exact HGi|].
  destruct (NB_Grid_init_inv _ _ _ HGi) as [_ [Hn [Hvals [Hgshape Hgrids]]]].
  repeat split; try assumption.
  rewrite Hgshape. subst vals. rewrite map_map.
  rewrite <- (map_snd_combine arrs shp) at 2 by lia. rewrite map_map.
  apply map_ext. intros an. apply out_axis_length.
Qed.

Lemma Z_of_nat_to_nat (shp : list Z) :
  Forall (fun n => (0 <= n)%Z) shp -> map Z.of_nat (map Z.to_nat shp) = shp.
Proof.
  induction 1 as [|n shp Hn _ IH]; simpl; [reflexivity|].
  rewrite Z2Nat.id by assumption. f_equal. exact IH.
Qed.

Lemma spacing_checks (arrs : list (list Qc)) (shp : list Z) :
  Forall (fun n => (2 <= n)%Z) shp ->
  mapM (fun arr => d0 <- getitem (np_diff arr) 0%Z ;;
                   assertM (np_allclose (np_diff arr) d0))
       (map (fun an => out_axis (fst an) (snd an)) (combine arrs shp))
  = Ok (map (fun _ => tt)
            (map (fun an => out_axis (fst an) (snd an)) (combine arrs shp))).
Proof.
  intros Hshp. apply mapM_pure. intros o Ho. apply in_map_iff in Ho.
  destruct Ho as [[a n] [<- Hin]]. cbn [fst snd]. apply in_combine_r in Hin.
  rewrite Forall_forall in Hshp.
  apply (uniform_spacing_check a n). apply Hshp. exact Hin.
Qed.

(** The loop over the emission lines, run on flux arrays of the shape of the
    resampler: every line is stored under its name. *)
Lemma lines_loop_closed (in_pts : list (list Qc)) (out_shp : list Z)
    (interp_axes : list (list Qc)) :
  valid_config in_pts out_shp -> in_pts <> [] ->
  interp_axes = out_points (resampler_of in_pts out_shp) ->
  forall (flux : list (string * ndarray)) (acc : od string ndarray),
    Forall (fun la => ndarray_wf (snd la)
                      /\ shape (snd la) = map (@length Qc) in_pts) flux ->
    foldM (fun (no_norm : od string ndarray) kv =>
             match snd kv with
             | Arr raw_flux_arr =>
                 r <- __call___float (resampler_of in_pts out_shp) raw_flux_arr ;;
                 interp_arr <- assert_finite (snd r) ;;
                 _ <- mapM (fun aa => assertM (np_array_equal (fst aa) (snd aa)))
                           (combine (fst r) interp_axes) ;;
                 Ok (od_set string_dec no_norm (fst kv) interp_arr)
             | Sub _ => Raise AttributeError
             end)
          (raw_lines flux) acc
    = Ok (fold_left (fun d la => od_set string_dec d (fst la)
                                        (resample in_pts out_shp (snd la)))
                    flux acc).
Proof.
  intros Hvalid Hne ->. induction flux as [|[line a] flux IH]; intros acc Hflux.
  - reflexivity.
  - inversion Hflux as [|? ? [Hwf Hshape] Hflux']; subst.
    cbn [fst snd] in Hwf, Hshape.
    cbn [raw_lines map foldM fst snd fold_left].
    rewrite call_float_finite, (call_closed in_pts out_shp a Hvalid Hne Hwf Hshape).
    cbn [bind fst snd]. rewrite assert_finite_of_ndarray. cbn [bind].
    rewrite array_equal_checks. cbn [bind].
    apply IH. exact Hflux'.
Qed.

Lemma fold_set_fresh {V W : Type} (g : V -> W) (flux : list (string * V)) :
  forall acc : od string W,
    NoDup (map fst acc ++ map fst flux) ->
    fold_left (fun d la => od_set string_dec d (fst la) (g (snd la))) flux acc
    = acc ++ map (fun la => (fst la, g (snd la))) flux.
Proof.
  induction flux as [|[k v] flux IH]; intros acc Hnd; simpl.
  - rewrite app_nil_r. reflexivity.
  - rewrite od_set_fresh.
    + rewrite IH.
      * rewrite <- app_assoc. reflexivity.
      * rewrite map_app, <- app_assoc. exact Hnd.
    + simpl in Hnd. apply NoDup_remove_2 in Hnd.
      intros Hin. apply Hnd. apply in_or_app. left. exact Hin.
Qed.

(** What [interpolate_flux_arrays] computes on a raw grid, in closed form. *)
Lemma interpolate_closed (names : list string) (arrs : list (list Qc))
    (G : NB_Grid) (flux : list (string * ndarray)) (shp : list Z) :
  raw_description names arrs G -> raw_flux_arrays arrs flux ->
  length shp = length arrs -> Forall (fun n => (2 <= n)%Z) shp ->
  exists Gi,
    NB_Grid_init names (map (fun an => out_axis (fst an) (snd an))
                            (combine arrs shp)) = Ok Gi
    /\ interpolate_flux_arrays (with_grids G (raw_lines flux)) shp
       = match flux with
         | [] => Raise IndexError
         | _ :: _ =>
             Ok (with_grids Gi
                   [("No_norm",
                     Sub (map (fun la => (fst la,
                                          clip_nonneg (resample arrs shp (snd la))))
                              flux))])
         end.
Proof.
  intros [Hnd [HG [Haxes Hne]]] [Hlines Hflux] Hlen Hshp.
  destruct (NB_Grid_init_inv _ _ _ HG) as [Hl [Hnames [Harrs _]]].
  assert (Hshp0 : Forall (fun n => (0 <= n)%Z) shp)
    by (eapply Forall_impl; [|exact Hshp]; simpl; intros; lia).
  assert (Hshp1 : Forall (fun n => (1 <= n)%Z) shp)
    by (eapply Forall_impl; [|exact Hshp]; simpl; intros; lia).
  assert (Hvalid : valid_config arrs shp) by (repeat split; assumption).
  destruct (interp_description names arrs shp Hl Hlen Hshp1)
    as [Gi [HGi [Hn [Hvals [Hgshape Hgrids]]]]].
  exists Gi. split; [exact HGi|].
  unfold interpolate_flux_arrays.
  cbn [with_grids param_names param_values_arrs paramName2paramMinMax grids].
  rewrite Hnames, Harrs.
  rewrite (val_arrs_step names arrs G shp Hnd HG Haxes Hlen Hshp0). cbn [bind].
  rewrite HGi. cbn [bind]. rewrite Hvals, Hgshape, Hgrids.
  rewrite (spacing_checks arrs shp Hshp). cbn [bind].
  rewrite (Z_of_nat_to_nat shp Hshp0).
  rewrite (init_closed arrs shp Hvalid Hne). cbn [bind].
  rewrite (lines_loop_closed arrs shp
             (map (fun an => out_axis (fst an) (snd an)) (combine arrs shp))
             Hvalid Hne eq_refl flux [] Hflux).
  cbn [bind]. rewrite (fold_set_fresh _ flux []) by exact Hlines.
  cbn [app]. destruct flux as [|la flux]; [reflexivity|].
  cbn [map]. rewrite (getitem_nat _ 0%Z (fst la, resample arrs shp (snd la)))
    by (cbn [length]; lia).
  cbn [bind od_set]. unfold with_grids. rewrite Hvals, Hgshape.
  cbn [map fst snd]. rewrite map_map. reflexivity.
Qed.

Lemma resample_wf (in_pts : list (list Qc)) (out_shp : list Z) (field : ndarray) :
  valid_config in_pts out_shp -> ndarray_wf (resample in_pts out_shp field).
Proof.
  intros Hv. unfold ndarray_wf, resample. cbn [shape data].
  rewrite length_map. apply sample_points_length. assumption.
Qed.

Lemma ex_description_ok : raw_description ["p"] [ex_axis] ex_description.
Proof.
  split; [constructor; [intros []|constructor]|].
  split; [vm_compute; reflexivity|].
  split; [|discriminate].
  constructor; [|constructor]. split; [|cbn; lia]. repeat constructor.
Defined.

Lemma ex_flux_ok : raw_flux_arrays [ex_axis] ex_flux.
Proof.
  split; [constructor; [intros []|constructor]|].
  constructor; [|constructor]. split; reflexivity.
Defined.

(** X6 (the interpolated grids).  On a raw grid with at least one emission
    line whose flux arrays hold numbers only (no NaN, no infinity), for a
    requested shape with one length of at least two per parameter,
    [interpolate_flux_arrays] returns: every output passes the assertion on
    [np.isfinite], the result keeps the parameter names, has the requested
    shape, and holds under ["No_norm"] one array of that shape per emission
    line, under the same names in the same order. *)
Theorem interpolate_flux_arrays_returns
    (names : list string) (arrs : list (list Qc)) (G : NB_Grid)
    (flux : list (string * ndarray)) (interpd_shape : list Z) :
  raw_description names arrs G -> raw_flux_arrays arrs flux -> flux <> [] ->
  length interpd_shape = length arrs ->
  Forall (fun n => (2 <= n)%Z) interpd_shape ->
  exists Interpd_grids no_norm,
    interpolate_flux_arrays (with_grids G (raw_lines flux)) interpd_shape
    = Ok Interpd_grids
    /\ param_names Interpd_grids = names
    /\ grid_shape Interpd_grids = map Z.to_nat interpd_shape
    /\ grids Interpd_grids = [("No_norm", Sub no_norm)]
    /\ map fst no_norm = map fst flux
    /\ Forall (fun la => ndarray_wf (snd la)
                         /\ shape (snd la) = map Z.to_nat interpd_shape) no_norm.
Proof.
  intros Hdesc Hflux Hne Hlen Hshp.
  destruct (interpolate_closed names arrs G flux interpd_shape Hdesc Hflux Hlen Hshp)
    as [Gi [HGi Hrun]].
  destruct flux as [|la flux]; [congruence|].
  assert (Hl : length names = length arrs).
  { destruct Hdesc as [_ [HG _]]. apply (NB_Grid_init_inv _ _ _ HG). }
  assert (Hshp1 : Forall (fun n => (1 <= n)%Z) interpd_shape)
    by (eapply Forall_impl; [|exact Hshp]; simpl; intros; lia).
  destruct (interp_description names arrs interpd_shape Hl Hlen Hshp1)
    as [Gi' [HGi' [Hn [_ [Hgshape _]]]]].
  assert (Gi' = Gi) by congruence. subst Gi'.
  eexists. eexists. split; [exact Hrun|]. cbn [with_grids param_names grid_shape grids].
  split; [exact Hn|]. split; [exact Hgshape|]. split; [reflexivity|].
  split; [rewrite map_map; reflexivity|].
  apply Forall_forall. intros lo Hlo. apply in_map_iff in Hlo.
  destruct Hlo as [la' [<- _]]. cbn [fst snd]. split; [|reflexivity].
  unfold ndarray_wf. cbn [clip_nonneg shape data]. rewrite length_map.
  apply resample_wf. destruct Hdesc as [_ [_ [Hax _]]]. repeat split; assumption.
Qed.

Lemma interpolate_flux_arrays_returns_witness :
  exists Interpd_grids no_norm,
    interpolate_flux_arrays (with_grids ex_description (raw_lines ex_flux)) [5%Z]
    = Ok Interpd_grids
    /\ param_names Interpd_grids = ["p"]
    /\ grid_shape Interpd_grids = map Z.to_nat [5%Z]
    /\ grids Interpd_grids = [("No_norm", Sub no_norm)]
    /\ map fst no_norm = map fst ex_flux
    /\ Forall (fun la => ndarray_wf (snd la)
                         /\ shape (snd la) = map Z.to_nat [5%Z]) no_norm.
Proof.
  apply (interpolate_flux_arrays_returns ["p"] [ex_axis] ex_description ex_flux
           [5%Z] ex_description_ok ex_flux_ok);
    [discriminate|reflexivity|constructor; [lia|constructor]].
Defined.

Lemma minmax_of_out_axes (names : list string) :
  forall (arrs : list (list Qc)) (shp : list Z),
    length shp = length arrs -> Forall (fun n => (2 <= n)%Z) shp ->
    map (fun pa => (fst pa, (nth 0 (snd pa) 0%Qc,
                             nth (length (snd pa) - 1) (snd pa) 0%Qc)))
        (combine names (map (fun an => out_axis (fst an) (snd an))
                            (combine arrs shp)))
    = map (fun pa => (fst pa, (nth 0 (snd pa) 0%Qc,
                               nth (length (snd pa) - 1) (snd pa) 0%Qc)))
          (combine names arrs).
Proof.
  induction names as [|p names IH]; intros [|a arrs] [|n shp] Hl Hshp;
    simpl in Hl; try discriminate; try reflexivity.
  inversion Hshp as [|? ? Hn Hshp']; subst.
  cbn [combine map fst snd].
  rewrite out_axis_first, out_axis_last by assumption.
  f_equal. apply IH; [lia|assumption].
Qed.

(** X7 (ranges and spacing).  The interpolated grid spans exactly the
    parameter ranges of the raw grid: its dictionary of minima and maxima is
    that of the raw grid.  Each of its axes has the requested number of
    points, is strictly ascending and evenly spaced: all consecutive
    differences are one positive step. *)
Theorem interpolated_axes_span_raw_ranges
    (names : list string) (arrs : list (list Qc)) (G : NB_Grid)
    (flux : list (string * ndarray)) (interpd_shape : list Z) :
  raw_description names arrs G -> raw_flux_arrays arrs flux -> flux <> [] ->
  length interpd_shape = length arrs ->
  Forall (fun n => (2 <= n)%Z) interpd_shape ->
  exists Interpd_grids,
    interpolate_flux_arrays (with_grids G (raw_lines flux)) interpd_shape
    = Ok Interpd_grids
    /\ paramName2paramMinMax Interpd_grids = paramName2paramMinMax G
    /\ Forall2 (fun a n =>
                  length a = Z.to_nat n /\ Sorted Qclt a
                  /\ exists step, (0 < step)%Qc
                                  /\ Forall (fun d => d = step) (np_diff a))
               (param_values_arrs Interpd_grids) interpd_shape.
Proof.
  intros Hdesc Hflux Hne Hlen Hshp.
  destruct (interpolate_closed names arrs G flux interpd_shape Hdesc Hflux Hlen Hshp)
    as [Gi [HGi Hrun]].
  destruct flux as [|la flux]; [congruence|].
  destruct Hdesc as [Hnd [HG [Hax Hnonempty]]].
  destruct (NB_Grid_init_inv _ _ _ HG) as [Hl _].
  destruct (NB_Grid_init_inv _ _ _ HGi) as [_ [_ [Hvals _]]].
  eexists. split; [exact Hrun|].
  cbn [with_grids paramName2paramMinMax param_values_arrs].
  assert (Hcomb : forall an, In an (combine arrs interpd_shape) ->
                             valid_axis (fst an) /\ (2 <= snd an)%Z).
  { intros [a n] Hin. cbn [fst snd]. split.
    - rewrite Forall_forall in Hax. apply Hax. eapply in_combine_l; exact Hin.
    - rewrite Forall_forall in Hshp. apply Hshp. eapply in_combine_r; exact Hin. }
  split.
  - rewrite (NB_Grid_init_minmax _ _ _ Hnd Hax HG).
    assert (Haxi : Forall valid_axis
                          (map (fun an => out_axis (fst an) (snd an))
                               (combine arrs interpd_shape))).
    { apply Forall_forall. intros o Ho. apply in_map_iff in Ho.
      destruct Ho as [an [<- Han]]. destruct (Hcomb an Han).
      apply out_axis_valid; assumption. }
    rewrite (NB_Grid_init_minmax _ _ _ Hnd Haxi HGi).
    apply minmax_of_out_axes; assumption.
  - rewrite Hvals. rewrite <- (map_snd_combine arrs interpd_shape) at 2 by lia.
    apply Forall2_map_same. intros [a n] Han.
    destruct (Hcomb _ Han) as [Ha Hn]. cbn [fst snd] in *.
    split; [apply out_axis_length|].
    split; [apply out_axis_valid; assumption|].
    unfold out_axis.
    exists ((nth (length a - 1) a 0 - nth 0 a 0) / Qc_of_nat (Z.to_nat n - 1))%Qc.
    split.
    + apply Qcdiv_pos.
      * assert (H : (nth 0 a 0 < nth (length a - 1) a 0)%Qc)
          by (apply sorted_nth_lt; [apply Ha|destruct Ha; lia]).
        qc_to_q. lra.
      * rewrite <- Qc_of_nat_0. apply Qc_of_nat_lt. lia.
    + apply Forall_forall. intros d Hd. apply np_diff_linspace in Hd. exact Hd.
Qed.

Lemma interpolated_axes_span_raw_ranges_witness :
  exists Interpd_grids,
    interpolate_flux_arrays (with_grids ex_description (raw_lines ex_flux)) [5%Z]
    = Ok Interpd_grids
    /\ paramName2paramMinMax Interpd_grids = paramName2paramMinMax ex_description
    /\ Forall2 (fun a n =>
                  length a = Z.to_nat n /\ Sorted Qclt a
                  /\ exists step, (0 < step)%Qc
                                  /\ Forall (fun d => d = step) (np_diff a))
               (param_values_arrs Interpd_grids) [5%Z].
Proof.
  apply (interpolated_axes_span_raw_ranges ["p"] [ex_axis] ex_description ex_flux
           [5%Z] ex_description_ok ex_flux_ok);
    [discriminate|reflexivity|constructor; [lia|constructor]].
Defined.

Lemma nth_nonneg (l : list Qc) (k : nat) :
  Forall (fun x => (0 <= x)%Qc) l -> (0 <= nth k l 0)%Qc.
Proof.
  intros H. revert k. induction H as [|x l Hx _ IH]; intros [|k]; simpl;
    try apply Qcle_refl; [assumption|apply IH].
Qed.

Lemma resample_nonneg (in_pts : list (list Qc)) (out_shp : list Z)
    (field : ndarray) :
  valid_config in_pts out_shp ->
  Forall (fun x => (0 <= x)%Qc) (data field) ->
  Forall (fun x => (0 <= x)%Qc) (data (resample in_pts out_shp field)).
Proof.
  intros Hv Hf. unfold resample. cbn [data]. apply Forall_forall.
  intros x Hx. apply in_map_iff in Hx. destruct Hx as [pt [<- Hpt]].
  rewrite <- (sample_dists_length in_pts out_shp Hv pt Hpt), interp_multilin.
  rewrite <- (multilin_const 0%Qc (dists_of pt)).
  apply multilin_monotone.
  - apply (sample_dists_unit in_pts out_shp Hv pt Hpt).
  - intros e _ _. unfold corner_value, at_index. apply nth_nonneg. exact Hf.
Qed.

Lemma clip_nonneg_id (a : ndarray) :
  Forall (fun x => (0 <= x)%Qc) (data a) -> clip_nonneg a = a.
Proof.
  destruct a as [shp dat]. unfold clip_nonneg. cbn [shape data]. intros H.
  f_equal. rewrite <- (map_id dat) at 2. apply map_ext_in. intros x Hx.
  rewrite Forall_forall in H. specialize (H x Hx).
  unfold Qcmax. apply Qcleb_le in H. rewrite H. reflexivity.
Qed.

(** X8 (no clipping of non-negative grids).  When no raw flux value is
    negative, the clipping at the end of [interpolate_flux_arrays] changes
    nothing: every array stored under ["No_norm"] is exactly the array that
    the resampler returns for the raw flux array of that line. *)
Theorem nonnegative_fluxes_are_not_clipped
    (names : list string) (arrs : list (list Qc)) (G : NB_Grid)
    (flux : list (string * ndarray)) (interpd_shape : list Z) :
  raw_description names arrs G -> raw_flux_arrays arrs flux -> flux <> [] ->
  length interpd_shape = length arrs ->
  Forall (fun n => (2 <= n)%Z) interpd_shape ->
  Forall (fun la => Forall (fun x => (0 <= x)%Qc) (data (snd la))) flux ->
  exists Interpd_grids Interpolator no_norm,
    interpolate_flux_arrays (with_grids G (raw_lines flux)) interpd_shape
    = Ok Interpd_grids
    /\ __init__ arrs interpd_shape = Ok Interpolator
    /\ grids Interpd_grids = [("No_norm", Sub no_norm)]
    /\ Forall2 (fun la lo =>
                  fst lo = fst la
                  /\ __call__ Interpolator (snd la)
                     = Ok (out_points Interpolator, snd lo))
               flux no_norm.
Proof.
  intros Hdesc Hflux Hne Hlen Hshp Hpos.
  destruct (interpolate_closed names arrs G flux interpd_shape Hdesc Hflux Hlen Hshp)
    as [Gi [HGi Hrun]].
  destruct Hdesc as [Hnd [HG [Hax Hnonempty]]].
  assert (Hvalid : valid_config arrs interpd_shape) by (repeat split; assumption).
  destruct Hflux as [_ Hflux].
  remember flux as flux0 eqn:E in Hrun at 1.
  destruct flux0 as [|la0 flux0]; [congruence|]. subst flux.
  eexists. exists (resampler_of arrs interpd_shape). eexists.
  split; [exact Hrun|]. split; [apply init_closed; assumption|].
  cbn [with_grids grids]. split; [reflexivity|].
  rewrite <- (map_id (la0 :: flux0)) at 1. apply Forall2_map_same.
  intros la Hla. cbn [fst snd]. split; [reflexivity|].
  rewrite Forall_forall in Hflux, Hpos.
  destruct (Hflux la Hla) as [Hwf Hshape].
  rewrite (call_closed arrs interpd_shape (snd la) Hvalid Hnonempty Hwf Hshape).
  rewrite clip_nonneg_id; [reflexivity|].
  apply resample_nonneg; [assumption|]. apply Hpos. exact Hla.
Qed.

Lemma nonnegative_fluxes_are_not_clipped_witness :
  exists Interpd_grids Interpolator no_norm,
    interpolate_flux_arrays (with_grids ex_description (raw_lines ex_flux_nonneg))
                            [5%Z]
    = Ok Interpd_grids
    /\ __init__ [ex_axis] [5%Z] = Ok Interpolator
    /\ grids Interpd_grids = [("No_norm", Sub no_norm)]
    /\ Forall2 (fun la lo =>
                  fst lo = fst la
                  /\ __call__ Interpolator (snd la)
                     = Ok (out_points Interpolator, snd lo))
               ex_flux_nonneg no_norm.
Proof.
  apply (nonnegative_fluxes_are_not_clipped ["p"] [ex_axis] ex_description
           ex_flux_nonneg [5%Z] ex_description_ok).
  - split.
    + constructor; [intros [H|[]]; discriminate H|].
      constructor; [intros []|constructor].
    + repeat constructor.
  - discriminate.
  - reflexivity.
  - constructor; [lia|constructor].
  - repeat constructor; vm_compute; discriminate.
Defined.

(** X9 (no emission line).  On a raw grid without any emission line the
    function builds the interpolated description and the resampler, and then
    fails with IndexError at [list(...)[0]]. *)
Theorem interpolate_without_lines
    (names : list string) (arrs : list (list Qc)) (G : NB_Grid)
    (interpd_shape : list Z) :
  raw_description names arrs G ->
  length interpd_shape = length arrs ->
  Forall (fun n => (2 <= n)%Z) interpd_shape ->
  interpolate_flux_arrays (with_grids G []) interpd_shape = Raise IndexError.
Proof.
  intros Hdesc Hlen Hshp.
  assert (Hflux : raw_flux_arrays arrs []) by (split; constructor).
  destruct (interpolate_closed names arrs G [] interpd_shape Hdesc Hflux Hlen Hshp)
    as [Gi [_ Hrun]].
  exact Hrun.
Qed.

Lemma interpolate_without_lines_witness :
  interpolate_flux_arrays (with_grids ex_description []) [5%Z] = Raise IndexError.
Proof.
  apply (interpolate_without_lines ["p"] [ex_axis] ex_description [5%Z]
           ex_description_ok);
    [reflexivity|constructor; [lia|constructor]].
Defined.

Lemma mapM_raises {A B : Type} (f : A -> result B) (e : exn) (l : list A) :
  (forall x, In x l -> succeeds (f x) \/ f x = Raise e) ->
  (exists x, In x l /\ f x = Raise e) ->
  mapM f l = Raise e.
Proof.
  intros Hall [x [Hx Hfx]].
  destruct (mapM_all_or f e l Hall) as [[ys Hys]|H]; [|exact H].
  destruct (mapM_In f l ys Hys x Hx) as [y [Hy _]]. congruence.
Qed.

Lemma combine_In_r {A B : Type} (l1 : list A) (l2 : list B) (y : B) :
  length l2 = length l1 -> In y l2 -> exists x, In (x, y) (combine l1 l2).
Proof.
  revert l2. induction l1 as [|x l1 IH]; intros [|y' l2] Hl Hin; simpl in *;
    try contradiction; try discriminate.
  destruct Hin as [->|Hin].
  - exists x. left. reflexivity.
  - destruct (IH l2) as [x' Hx']; [lia|assumption|]. exists x'. right. exact Hx'.
Qed.

(** X10 (a requested length of one).  When some requested length is 1 (and
    none is smaller), [interpolate_flux_arrays] fails with IndexError at
    [arr_diff[0]], the check of the spacing: the resampler and its own test
    of the output lengths are never reached. *)
Theorem interpolate_single_point_axis
    (names : list string) (arrs : list (list Qc)) (G : NB_Grid)
    (lines : od string grid_entry) (interpd_shape : list Z) :
  raw_description names arrs G ->
  length interpd_shape = length arrs ->
  Forall (fun n => (1 <= n)%Z) interpd_shape ->
  In 1%Z interpd_shape ->
  interpolate_flux_arrays (with_grids G lines) interpd_shape = Raise IndexError.
Proof.
  intros [Hnd [HG [Haxes Hne]]] Hlen Hshp Hone.
  destruct (NB_Grid_init_inv _ _ _ HG) as [Hl [Hnames [Harrs _]]].
  assert (Hshp0 : Forall (fun n => (0 <= n)%Z) interpd_shape)
    by (eapply Forall_impl; [|exact Hshp]; simpl; intros; lia).
  destruct (interp_description names arrs interpd_shape Hl Hlen Hshp)
    as [Gi [HGi [Hn [Hvals [Hgshape Hgrids]]]]].
  unfold interpolate_flux_arrays.
  cbn [with_grids param_names param_values_arrs paramName2paramMinMax grids].
  rewrite Hnames.
  rewrite (val_arrs_step names arrs G interpd_shape Hnd HG Haxes Hlen Hshp0).
  cbn [bind]. rewrite HGi. cbn [bind]. rewrite Hvals.
  rewrite (mapM_raises _ IndexError); [reflexivity| |].
  - intros o Ho. apply in_map_iff in Ho. destruct Ho as [[a n] [<- Hin]].
    cbn [fst snd]. apply in_combine_r in Hin.
    rewrite Forall_forall in Hshp. specialize (Hshp n Hin).
    destruct (Z.eq_dec n 1) as [->|Hn1].
    + right. pose proof (out_axis_length a 1) as Hlo.
      destruct (out_axis a 1) as [|x [|y o]]; try discriminate Hlo.
      reflexivity.
    + left. exists tt. apply (uniform_spacing_check a n). lia.
  - destruct (combine_In_r arrs interpd_shape 1%Z Hlen Hone) as [a Ha].
    exists (out_axis a 1). split.
    + apply in_map_iff. exists (a, 1%Z). split; [reflexivity|exact Ha].
    + pose proof (out_axis_length a 1) as Hlo.
      destruct (out_axis a 1) as [|x [|y o]]; try discriminate Hlo.
      reflexivity.
Qed.

Lemma interpolate_single_point_axis_witness :
  interpolate_flux_arrays (with_grids ex_description (raw_lines ex_flux)) [1%Z]
  = Raise IndexError.
Proof.
  apply (interpolate_single_point_axis ["p"] [ex_axis] ex_description
           (raw_lines ex_flux) [1%Z] ex_description_ok);
    [reflexivity|constructor; [lia|constructor]|left; reflexivity].
Defined.

Lemma In_firstn {A : Type} (n : nat) (l : list A) (x : A) :
  In x (firstn n l) -> In x l.
Proof.
  intros H. rewrite <- (firstn_skipn n l). apply in_or_app. left. exact H.
Qed.

(** X11 (too few requested lengths).  When [interpd_shape] has fewer entries
    than the grid has parameters, [zip] drops the parameters left over, and
    the constructor of the interpolated description fails its assertion. *)
Theorem interpolate_short_shape
    (names : list string) (arrs : list (list Qc)) (G : NB_Grid)
    (lines : od string grid_entry) (interpd_shape : list Z) :
  raw_description names arrs G ->
  length interpd_shape < length arrs ->
  Forall (fun n => (0 <= n)%Z) interpd_shape ->
  interpolate_flux_arrays (with_grids G lines) interpd_shape
  = Raise AssertionError.
Proof.
  intros [Hnd [HG [Haxes Hne]]] Hlen Hshp.
  destruct (NB_Grid_init_inv _ _ _ HG) as [Hl [Hnames [Harrs _]]].
  unfold interpolate_flux_arrays.
  cbn [with_grids param_names param_values_arrs paramName2paramMinMax grids].
  rewrite Hnames.
  set (k := length interpd_shape).
  rewrite (combine_firstn_r names interpd_shape). fold k.
  rewrite (NB_Grid_init_minmax _ _ _ Hnd Haxes HG).
  rewrite (interp_axes_closed _) with (arrs := firstn k arrs).
  - cbn [bind]. unfold NB_Grid_init.
    rewrite length_map, length_combine, length_firstn.
    replace (length names =? Nat.min (Nat.min k (length arrs)) (length interpd_shape))
      with false by (symmetry; apply Nat.eqb_neq; subst k; lia).
    reflexivity.
  - rewrite map_map. cbn [fst]. rewrite map_fst_combine; assumption.
  - rewrite !length_firstn. lia.
  - rewrite length_firstn. subst k. lia.
  - intros p a Hin. rewrite <- combine_firstn in Hin. apply In_firstn in Hin.
    apply (in_map (fun pa => (fst pa, (nth 0 (snd pa) 0%Qc,
                                       nth (length (snd pa) - 1) (snd pa) 0%Qc)))
                  _ _ Hin).
  - exact Hshp.
Qed.

Lemma interpolate_short_shape_witness :
  interpolate_flux_arrays (with_grids ex_description (raw_lines ex_flux)) []
  = Raise AssertionError.
Proof.
  apply (interpolate_short_shape ["p"] [ex_axis] ex_description
           (raw_lines ex_flux) [] ex_description_ok);
    [cbn; lia|constructor].
Defined.

Lemma combine_surplus {A B : Type} (l1 : list A) :
  forall l2 extra : list B,
    length l2 = length l1 -> combine l1 (l2 ++ extra) = combine l1 l2.
Proof.
  induction l1 as [|x l1 IH]; intros [|y l2] extra H; simpl in *;
    try reflexivity; try discriminate.
  f_equal. apply IH. lia.
Qed.

(** X12 (surplus requested lengths).  Entries of [interpd_shape] beyond the
    number of parameters are ignored: the function behaves as on the list
    cut to one entry per parameter. *)
Theorem interpolate_ignores_surplus_lengths
    (Raw_grids : NB_Grid) (interpd_shape surplus : list Z) :
  length interpd_shape = length (param_names Raw_grids) ->
  interpolate_flux_arrays Raw_grids (interpd_shape ++ surplus)
  = interpolate_flux_arrays Raw_grids interpd_shape.
Proof.
  intros Hlen. unfold interpolate_flux_arrays.
  rewrite combine_surplus by exact Hlen. reflexivity.
Qed.

Lemma interpolate_ignores_surplus_lengths_witness :
  interpolate_flux_arrays ex_raw_grids ([5%Z] ++ [7%Z; 0%Z])
  = interpolate_flux_arrays ex_raw_grids [5%Z].
Proof.
  apply (interpolate_ignores_surplus_lengths ex_raw_grids [5%Z] [7%Z; 0%Z]).
  reflexivity.
Defined.

(** ** Raw values that are not finite *)

Lemma fmul_nonfinite (x : float) (w : Qc) : nonfinite x -> nonfinite (fmul x w).
Proof.
  intros H q. destruct x; cbn [fmul].
  - exfalso. apply (H q0). reflexivity.
  - destruct (Qcltb 0 w); [discriminate|]. destruct (Qcltb w 0); discriminate.
  - destruct (Qcltb 0 w); [discriminate|]. destruct (Qcltb w 0); discriminate.
  - discriminate.
Qed.

Lemma fadd_nonfinite_l (x y : float) : nonfinite x -> nonfinite (fadd x y).
Proof.
  intros H q. destruct x; [exfalso; apply (H q0); reflexivity|..];
    destruct y; discriminate.
Qed.

Lemma fadd_nonfinite_r (x y : float) : nonfinite y -> nonfinite (fadd x y).
Proof.
  intros H q. destruct y; [exfalso; apply (H q0); reflexivity|..];
    destruct x; discriminate.
Qed.

(** A sum that has met a value that is not finite stays not finite. *)
Lemma fold_fadd_nonfinite {E : Type} (V : E -> float) (W : E -> Qc) (keys : list E) :
  forall init : float,
    nonfinite init \/ (exists e, In e keys /\ nonfinite (V e)) ->
    nonfinite (fold_left (fun acc e => fadd acc (fmul (V e) (W e))) keys init).
Proof.
  induction keys as [|k keys IH]; intros init H.
  - destruct H as [H|[e [[] _]]]. exact H.
  - cbn [fold_left]. apply IH.
    destruct H as [H|[e [[<-|He] Hn]]].
    + left. apply fadd_nonfinite_l. exact H.
    + left. apply fadd_nonfinite_r. apply fmul_nonfinite. exact Hn.
    + right. exists e. split; assumption.
Qed.

Lemma finite_values_nonfinite (l : list float) (x : float) :
  In x l -> nonfinite x -> finite_values l = None.
Proof.
  intros Hin Hx. destruct (finite_values l) as [qs|] eqn:E; [|reflexivity].
  apply finite_values_Some in E. subst l. apply in_map_iff in Hin.
  destruct Hin as [q [<- _]]. exfalso. apply (Hx q). reflexivity.
Qed.

Lemma foldM_app {A S : Type} (f : S -> A -> result S) (l1 l2 : list A) :
  forall s : S, foldM f (l1 ++ l2) s = (s' <- foldM f l1 s ;; foldM f l2 s').
Proof.
  induction l1 as [|x l1 IH]; intros s; [reflexivity|].
  cbn [app foldM]. destruct (f s x) as [s'|e]; [|reflexivity].
  cbn [bind]. apply IH.
Qed.

Section FloatCallClosed.
Variables (in_pts : list (list Qc)) (out_shp : list Z) (a : farray).
Hypothesis Hvalid : valid_config in_pts out_shp.
Hypothesis Hne : in_pts <> [].
Hypothesis Hwf : length (fdata a) = np_prod (fshape a).
Hypothesis Hshape : fshape a = map (@length Qc) in_pts.

Lemma float_gather (e : list Z) :
  In e (edge_keys (length in_pts)) ->
  ffancy_index a
    (fancy_inds (length in_pts)
                (lower_edge_inds (resampler_of in_pts out_shp)) e)
  = Ok (map (fun pt => fat_index a (corner_index (cell_of pt) e))
            (sample_points in_pts out_shp)).
Proof.
  intros He.
  assert (Hnd : length in_pts = length (fshape a))
    by (rewrite Hshape, length_map; reflexivity).
  assert (Hrows : forall row,
             In row (itertools_product
                       (lower_edge_inds (resampler_of in_pts out_shp))) ->
             corner_in_range (fshape a) (skipn 0 row) e).
  { intros row Hrow. rewrite lower_rows in Hrow.
    apply in_map_iff in Hrow. destruct Hrow as [pt [<- Hpt]].
    rewrite Hshape. apply (sample_corner_in_range in_pts out_shp); assumption. }
  unfold ffancy_index, fancy_inds. rewrite Hnd.
  rewrite (flat_offsets_fancy _ (fshape a) e 0); [| | |exact Hrows].
  - cbn [bind skipn]. rewrite lower_rows, !mapM_map.
    apply mapM_pure. intros pt Hpt. unfold fitem, fat_index.
    destruct (nth_error (fdata a) _) as [x|] eqn:E.
    + f_equal. symmetry. apply nth_error_nth. exact E.
    + apply nth_error_None in E.
      assert (Hr : corner_in_range (fshape a) (cell_of pt) e).
      { rewrite Hshape. apply (sample_corner_in_range in_pts out_shp); assumption. }
      pose proof (ravel_lt _ _ _ Hr) as Hlt. lia.
  - rewrite Hshape. destruct in_pts; [congruence|discriminate].
  - rewrite <- Hnd. apply edge_keys_In in He. apply He.
Qed.

Lemma foldM_float_edges (keys : list (list Z)) :
  forall g : list sample -> float,
    (forall e, In e keys -> In e (edge_keys (length in_pts))) ->
    foldM (fun out_values kv =>
             edge_fancy_inds <-
               dict_get (fancy_inds_all (resampler_of in_pts out_shp)) (fst kv) ;;
             g <- ffancy_index a edge_fancy_inds ;;
             t <- broadcast2 fmul g (snd kv) ;;
             inplace2 fadd out_values t)
          (map (fun e => (e, map (edge_weight e)
                                 (map dists_of (sample_points in_pts out_shp))))
               keys)
          (map g (sample_points in_pts out_shp))
    = Ok (map (fun pt =>
                 fold_left (fun acc e =>
                              fadd acc (fmul (fat_index a (corner_index (cell_of pt) e))
                                             (edge_weight e (dists_of pt))))
                           keys (g pt))
              (sample_points in_pts out_shp)).
Proof.
  induction keys as [|e keys IH]; intros g Hkeys.
  - reflexivity.
  - cbn [map foldM fst snd].
    assert (He : In e (edge_keys (length in_pts))) by (apply Hkeys; left; reflexivity).
    rewrite (edge_lookup in_pts out_shp e He). cbn [bind].
    rewrite (float_gather e He). cbn [bind]. rewrite !map_map.
    rewrite broadcast2_same by (rewrite !length_map; reflexivity).
    cbn [bind]. rewrite combine_map_map, map_map. cbn [fst snd].
    rewrite inplace2_same by (rewrite !length_map; reflexivity).
    cbn [bind]. rewrite combine_map_map, map_map. cbn [fst snd].
    specialize (IH (fun pt => fadd (g pt)
                                   (fmul (fat_index a (corner_index (cell_of pt) e))
                                         (edge_weight e (dists_of pt))))).
    rewrite IH by (intros; apply Hkeys; right; assumption).
    reflexivity.
Qed.

(** The array that the call returns on floats: at every output point the
    sum over the corners of the point's cell, in the arithmetic of
    [float]. *)
Lemma call_float_closed :
  __call___float (resampler_of in_pts out_shp) a
  = Ok (out_points (resampler_of in_pts out_shp),
        {| fshape := map Z.to_nat out_shp;
           fdata :=
             map (fun pt =>
                    fold_left
                      (fun acc e =>
                         fadd acc (fmul (fat_index a (corner_index (cell_of pt) e))
                                        (edge_weight e (dists_of pt))))
                      (edge_keys (length in_pts)) (Finite 0%Qc))
                 (sample_points in_pts out_shp) |}).
Proof.
  unfold __call___float.
  destruct (list_eq_dec Nat.eq_dec (fshape a)
              (in_shape (resampler_of in_pts out_shp))) as [_|Hbad].
  2:{ exfalso. apply Hbad. exact Hshape. }
  assert (Hnn : Forall (fun n => (0 <= n)%Z) out_shp).
  { destruct Hvalid as [_ [Hn _]]. eapply Forall_impl; [|exact Hn].
    intros n Hn2. simpl in Hn2. lia. }
  change (out_shape (resampler_of in_pts out_shp)) with out_shp.
  rewrite (Zprod_nat _ Hnn).
  assert ((Z.of_nat (np_prod (map Z.to_nat out_shp)) <? 0)%Z = false) as ->
    by (apply Z.ltb_ge; lia).
  rewrite Nat2Z.id.
  rewrite <- (sample_points_length in_pts out_shp Hvalid).
  rewrite repeat_map_const.
  change (weights (resampler_of in_pts out_shp))
    with (map (fun e => (e, map (edge_weight e)
                                (itertools_product
                                   (norm_distances (resampler_of in_pts out_shp)))))
              (edge_keys (length in_pts))).
  rewrite dists_rows.
  rewrite foldM_float_edges by (intros; assumption). cbn [bind].
  unfold freshape.
  assert (forallb (fun d => (0 <=? d)%Z) out_shp = true) as ->.
  { apply forallb_forall. rewrite Forall_forall in Hnn. intros n Hn.
    specialize (Hnn n Hn). apply Z.leb_le. assumption. }
  rewrite length_map.
  rewrite (sample_points_length in_pts out_shp Hvalid).
  rewrite (Zprod_nat _ Hnn), Z.eqb_refl. cbn [andb bind].
  reflexivity.
Qed.

(** A cell that is read and holds a value that is not finite makes the
    output fail the test of [np.isfinite]. *)
Lemma call_float_nonfinite (idx : list nat) :
  cell_is_read in_pts out_shp idx -> nonfinite (fat_index a idx) ->
  exists r,
    __call___float (resampler_of in_pts out_shp) a = Ok r
    /\ assert_finite (snd r) = Raise AssertionError.
Proof.
  intros [pt [e [Hpt [He ->]]]] Hx. eexists. split; [apply call_float_closed|].
  unfold assert_finite. cbn [snd fdata].
  rewrite (finite_values_nonfinite _
             (fold_left
                (fun acc e0 =>
                   fadd acc (fmul (fat_index a (corner_index (cell_of pt) e0))
                                  (edge_weight e0 (dists_of pt))))
                (edge_keys (length in_pts)) (Finite 0%Qc))); [reflexivity| |].
  - apply (in_map (fun pt =>
                     fold_left
                       (fun acc e0 =>
                          fadd acc (fmul (fat_index a (corner_index (cell_of pt) e0))
                                         (edge_weight e0 (dists_of pt))))
                       (edge_keys (length in_pts)) (Finite 0%Qc))). exact Hpt.
  - apply (fold_fadd_nonfinite
             (fun e0 => fat_index a (corner_index (cell_of pt) e0))
             (fun e0 => edge_weight e0 (dists_of pt))).
    right. exists e. split; assumption.
Qed.
End FloatCallClosed.

(** X26 (a raw value that is not finite).  When the flux array of some
    emission line holds a value that is not finite (the NaN of a grid point
    that no row of the table has filled, or an infinity) in a cell that the
    interpolation reads, and the arrays of the lines before it hold numbers
    only, [interpolate_flux_arrays] does not return: it fails the assertion
    on [np.isfinite] with AssertionError, whatever the weight of that cell
    and whatever the lines after it hold. *)
Theorem interpolate_nonfinite_raises
    (names : list string) (arrs : list (list Qc)) (G : NB_Grid)
    (flux : list (string * ndarray)) (line : string) (a : farray)
    (rest : od string grid_entry) (interpd_shape : list Z) (idx : list nat) :
  raw_description names arrs G -> raw_flux_arrays arrs flux ->
  length interpd_shape = length arrs ->
  Forall (fun n => (2 <= n)%Z) interpd_shape ->
  fshape a = map (@length Qc) arrs -> length (fdata a) = np_prod (fshape a) ->
  cell_is_read arrs interpd_shape idx -> nonfinite (fat_index a idx) ->
  interpolate_flux_arrays
    (with_grids G (raw_lines flux ++ (line, Arr a) :: rest)) interpd_shape
  = Raise AssertionError.
Proof.
  intros [Hnd [HG [Haxes Hne]]] [Hlines Hflux] Hlen Hshp Hshape Hwf Hread Hx.
  destruct (NB_Grid_init_inv _ _ _ HG) as [Hl [Hnames [Harrs _]]].
  assert (Hshp0 : Forall (fun n => (0 <= n)%Z) interpd_shape)
    by (eapply Forall_impl; [|exact Hshp]; simpl; intros; lia).
  assert (Hshp1 : Forall (fun n => (1 <= n)%Z) interpd_shape)
    by (eapply Forall_impl; [|exact Hshp]; simpl; intros; lia).
  assert (Hvalid : valid_config arrs interpd_shape) by (repeat split; assumption).
  destruct (interp_description names arrs interpd_shape Hl Hlen Hshp1)
    as [Gi [HGi [Hn [Hvals [Hgshape Hgrids]]]]].
  unfold interpolate_flux_arrays.
  cbn [with_grids param_names param_values_arrs paramName2paramMinMax grids].
  rewrite Hnames, Harrs.
  rewrite (val_arrs_step names arrs G interpd_shape Hnd HG Haxes Hlen Hshp0).
  cbn [bind].
  rewrite HGi. cbn [bind]. rewrite Hvals, Hgshape, Hgrids.
  rewrite (spacing_checks arrs interpd_shape Hshp). cbn [bind].
  rewrite (Z_of_nat_to_nat interpd_shape Hshp0).
  rewrite (init_closed arrs interpd_shape Hvalid Hne). cbn [bind].
  rewrite foldM_app.
  rewrite (lines_loop_closed arrs interpd_shape
             (map (fun an => out_axis (fst an) (snd an)) (combine arrs interpd_shape))
             Hvalid Hne eq_refl flux [] Hflux).
  cbn [bind foldM fst snd].
  destruct (call_float_nonfinite arrs interpd_shape a Hvalid Hne Hwf Hshape idx
              Hread Hx) as [r [Hcall Hassert]].
  rewrite Hcall. cbn [bind]. rewrite Hassert. reflexivity.
Qed.

Lemma interpolate_nonfinite_raises_witness :
  interpolate_flux_arrays
    (with_grids ex_description (raw_lines ex_flux ++ [("OIII5007", Arr ex_flux_gap)]))
    [5%Z]
  = Raise AssertionError.
Proof.
  apply (interpolate_nonfinite_raises ["p"] [ex_axis] ex_description ex_flux
           "OIII5007" ex_flux_gap [] [5%Z] [1] ex_description_ok ex_flux_ok).
  - reflexivity.
  - constructor; [lia|constructor].
  - reflexivity.
  - reflexivity.
  - exists (nth 1 (sample_points [ex_axis] [5%Z]) []), [1%Z].
    split; [apply nth_In; vm_compute; lia|].
    split; [right; left; reflexivity|]. vm_compute. reflexivity.
  - intros q E. vm_compute in E. discriminate E.
Defined.

(** ** [Grid_description] *)

Section DictionaryFacts.
Context {K V : Type} (dec : forall x y : K, {x = y} + {x <> y}).

Lemma od_get_set (d : od K V) (k k' : K) (v : V) :
  od_get dec (od_set dec d k' v) k
  = if dec k' k then Ok v else od_get dec d k.
Proof.
  induction d as [|[k0 v0] d IH]; simpl.
  - destruct (dec k' k); reflexivity.
  - destruct (dec k0 k') as [E|Hne]; simpl.
    + subst k0. destruct (dec k' k); reflexivity.
    + destruct (dec k0 k) as [E|Hne'].
      * subst k0. destruct (dec k' k) as [E|_]; [congruence|reflexivity].
      * exact IH.
Qed.

Lemma od_get_notin (d : od K V) (k : K) :
  ~ In k (map fst d) -> od_get dec d k = Raise KeyError.
Proof.
  induction d as [|[k0 v0] d IH]; simpl; intros H; [reflexivity|].
  destruct (dec k0 k) as [E|_]; [exfalso; apply H; left; exact E|].
  apply IH. intros Hin. apply H. right. exact Hin.
Qed.

Lemma od_get_fold (ws : list (K * V)) (k : K) :
  forall d : od K V,
    od_get dec (fold_left (fun d kv => od_set dec d (fst kv) (snd kv)) ws d) k
    = match assoc_last dec ws k with
      | Some x => Ok x
      | None => od_get dec d k
      end.
Proof.
  induction ws as [|[k' v] ws IH]; intros d; simpl; [reflexivity|].
  rewrite IH. destruct (assoc_last dec ws k); [reflexivity|].
  rewrite od_get_set. destruct (dec k' k); reflexivity.
Qed.

Lemma assoc_last_app (ws1 ws2 : list (K * V)) (k : K) :
  assoc_last dec (ws1 ++ ws2) k
  = match assoc_last dec ws2 k with
    | Some x => Some x
    | None => assoc_last dec ws1 k
    end.
Proof.
  induction ws1 as [|[k' v] ws1 IH]; simpl.
  - destruct (assoc_last dec ws2 k); reflexivity.
  - rewrite IH. destruct (assoc_last dec ws2 k); reflexivity.
Qed.

Lemma assoc_last_none (ws : list (K * V)) (k : K) :
  assoc_last dec ws k = None <-> ~ In k (map fst ws).
Proof.
  induction ws as [|[k' v] ws IH]; simpl.
  - split; [intros _ []|reflexivity].
  - destruct (assoc_last dec ws k) as [x|].
    + split; [discriminate|]. intros H. exfalso. apply H. right.
      destruct (in_dec dec k (map fst ws)) as [Hin|Hnin]; [exact Hin|].
      apply IH in Hnin. discriminate.
    + destruct (dec k' k) as [E|Hne].
      * split; [discriminate|]. intros H. exfalso. apply H. left. exact E.
      * split; [|reflexivity]. intros _ [E|Hin]; [congruence|].
        apply (proj1 IH eq_refl). exact Hin.
Qed.

(** The value found is the one of the last assignment to the key. *)
Lemma assoc_last_spec (ws : list (K * V)) (k : K) (x : V) :
  assoc_last dec ws k = Some x
  <-> exists n, nth_error ws n = Some (k, x)
                /\ forall n' y, n < n' -> nth_error ws n' <> Some (k, y).
Proof.
  revert x. induction ws as [|[k' v] ws IH]; intros x; simpl.
  - split; [discriminate|]. intros [n [H _]]. destruct n; discriminate.
  - destruct (assoc_last dec ws k) as [x'|] eqn:E.
    + split.
      * intros H. injection H as <-. destruct (proj1 (IH x') eq_refl) as [n [Hn Hlast]].
        exists (S n). split; [exact Hn|].
        intros [|n'] y Hlt; [lia|]. simpl. apply Hlast. lia.
      * intros [[|n] [Hn Hlast]].
        -- exfalso. destruct (proj1 (IH x') eq_refl) as [m [Hm _]].
           apply (Hlast (S m) x'); [lia|exact Hm].
        -- f_equal. assert (H : Some x' = Some x); [|congruence].
           apply IH. exists n. split; [exact Hn|].
           intros n' y Hlt. apply (Hlast (S n') y). lia.
    + assert (Hnin : ~ In k (map fst ws)) by (apply assoc_last_none; exact E).
      destruct (dec k' k) as [Ek|Hne].
      * subst k'. split.
        -- intros H. injection H as <-. exists 0. split; [reflexivity|].
           intros [|n'] y Hlt Hy; [lia|]. simpl in Hy. apply Hnin.
           apply nth_error_In in Hy. apply in_map_iff. exists (k, y). auto.
        -- intros [[|n] [Hn _]].
           ++ simpl in Hn. congruence.
           ++ simpl in Hn. exfalso. apply Hnin. apply nth_error_In in Hn.
              apply in_map_iff. exists (k, x). auto.
      * split; [discriminate|]. intros [[|n] [Hn _]].
        -- simpl in Hn. congruence.
        -- simpl in Hn. exfalso. apply Hnin. apply nth_error_In in Hn.
           apply in_map_iff. exists (k, x). auto.
Qed.
End DictionaryFacts.

Lemma fold_left_flat_map {A B S : Type} (g : S -> B -> S) (h : A -> list B)
    (l : list A) :
  forall s : S,
    fold_left (fun s x => fold_left g (h x) s) l s = fold_left g (flat_map h l) s.
Proof.
  induction l as [|x l IH]; intros s; simpl; [reflexivity|].
  rewrite fold_left_app. apply IH.
Qed.

Lemma fold_left_map_arg {A B S : Type} (g : S -> B -> S) (h : A -> B)
    (l : list A) :
  forall s : S, fold_left (fun s x => g s (h x)) l s = fold_left g (map h l) s.
Proof.
  induction l as [|x l IH]; intros s; simpl; [reflexivity|]. apply IH.
Qed.

Lemma nth_error_seq (s n i : nat) : i < n -> nth_error (seq s n) i = Some (s + i).
Proof.
  revert s i. induction n as [|n IH]; intros s i H; [lia|].
  destruct i as [|i]; simpl; [f_equal; lia|].
  rewrite IH by lia. f_equal. lia.
Qed.

Lemma nth_error_Some_lt {A : Type} (l : list A) (n : nat) (x : A) :
  nth_error l n = Some x -> n < length l.
Proof. intros H. apply nth_error_Some. congruence. Qed.

Lemma nth_error_enumerate {A : Type} (l : list A) (n : nat) (i : nat) (x : A) :
  nth_error (enumerate l) n = Some (i, x) <-> n = i /\ nth_error l i = Some x.
Proof.
  unfold enumerate. split.
  - intros H.
    assert (Hn : n < length l).
    { apply nth_error_Some_lt in H. rewrite length_combine, length_seq in H. lia. }
    destruct (nth_error l n) as [y|] eqn:Ey;
      [|apply nth_error_None in Ey; lia].
    rewrite (nth_error_combine _ _ n n y (nth_error_seq 0 _ n Hn) Ey) in H.
    injection H as <- <-. auto.
  - intros [-> H].
    assert (Hi : i < length l) by (eapply nth_error_Some_lt; exact H).
    apply nth_error_combine; [apply (nth_error_seq 0 _ i Hi)|exact H].
Qed.

Lemma fold_left_ext {A S : Type} (f g : S -> A -> S) (l : list A) :
  (forall s x, f s x = g s x) ->
  forall s : S, fold_left f l s = fold_left g l s.
Proof.
  intros H. induction l as [|x l IH]; intros s; simpl; [reflexivity|].
  rewrite H. apply IH.
Qed.

Lemma NB_Grid_init_fields (names : list string) (value_arrs : list (list Qc))
    (G : NB_Grid) :
  NoDup names -> NB_Grid_init names value_arrs = Ok G ->
  length names = length value_arrs
  /\ grid_ndim G = length names
  /\ grid_shape G = map (@length Qc) value_arrs
  /\ n_gridpoints G = np_prod (map (@length Qc) value_arrs)
  /\ paramName2ind G = combine names (seq 0 (length names))
  /\ paramName2paramValueArr G = combine names value_arrs
  /\ paramNameAndValue2arrayInd G
     = fold_left (fun d kv => od_set name_value_dec d (fst kv) (snd kv))
                 (flat_map (fun pa => map (fun iv => ((fst pa, snd iv), fst iv))
                                          (enumerate (snd pa)))
                           (combine names value_arrs))
                 []
  /\ mapM (fun pa => lo <- arr_min (snd pa) ;;
                     hi <- arr_max (snd pa) ;;
                     Ok (fst pa, (lo, hi)))
          (combine names value_arrs)
     = Ok (paramName2paramMinMax G).
Proof.
  intros Hnd H. unfold NB_Grid_init in H.
  destruct (length names =? length value_arrs) eqn:E; [|discriminate].
  apply Nat.eqb_eq in E. cbn [negb] in H. cbv zeta in H.
  assert (Hkeys : NoDup (map fst (combine names value_arrs)))
    by (rewrite map_fst_combine; assumption).
  rewrite (od_of_list_NoDup string_dec _ Hkeys) in H.
  apply bind_Ok_inv in H. destruct H as [mm [Hmm H]]. injection H as <-.
  cbn [grid_ndim grid_shape n_gridpoints paramName2ind paramName2paramValueArr
       paramNameAndValue2arrayInd paramName2paramMinMax].
  repeat split; try reflexivity; try assumption.
  - apply od_of_list_NoDup. rewrite map_fst_combine; [assumption|].
    rewrite length_seq. reflexivity.
  - rewrite <- fold_left_flat_map. apply fold_left_ext. intros d pa.
    rewrite <- fold_left_map_arg. reflexivity.
  - rewrite Hmm. apply f_equal. symmetry. apply od_of_list_NoDup.
    apply mapM_Forall2 in Hmm.
    assert (Hfst : map fst mm = map fst (combine names value_arrs)).
    { clear -Hmm. induction Hmm as [|pa y l mm Hy _ IH]; [reflexivity|].
      simpl. f_equal; [|exact IH].
      apply bind_Ok_inv in Hy. destruct Hy as [lo [_ Hy]].
      apply bind_Ok_inv in Hy. destruct Hy as [hi [_ Hy]].
      injection Hy as <-. reflexivity. }
    rewrite Hfst. exact Hkeys.
Qed.

Lemma NB_Grid_init_empty_array (names : list string)
    (value_arrs : list (list Qc)) :
  NoDup names -> length names = length value_arrs ->
  Exists (fun a => a = []) value_arrs ->
  NB_Grid_init names value_arrs
  = Raise (ValueError "zero-size array to reduction operation minimum").
Proof.
  intros Hnd Hl Hex. unfold NB_Grid_init.
  apply Nat.eqb_eq in Hl. rewrite Hl. cbn [negb]. cbv zeta.
  apply Nat.eqb_eq in Hl.
  rewrite (od_of_list_NoDup string_dec)
    by (rewrite map_fst_combine; assumption).
  rewrite (mapM_raises _ (ValueError "zero-size array to reduction operation minimum"));
    [reflexivity| |].
  - intros [p a] _. cbn [fst snd]. destruct a as [|x a]; [right; reflexivity|].
    left. eexists. reflexivity.
  - apply Exists_exists in Hex. destruct Hex as [a [Ha ->]].
    destruct (combine_In_r names value_arrs [] (eq_sym Hl) Ha) as [p Hp].
    exists (p, []). split; [exact Hp|reflexivity].
Qed.

(** X13 (outcomes of the grid description).  For unique parameter names the
    constructor of the description returns exactly when there is one array
    of values per name and no array is empty; it fails its assertion exactly
    when the two lists differ in length, and with the ValueError of
    [min] exactly when the lengths agree and some array is empty. *)
Theorem grid_description_outcomes
    (names : list string) (value_arrs : list (list Qc)) :
  NoDup names ->
  (succeeds (NB_Grid_init names value_arrs)
   <-> length names = length value_arrs
       /\ Forall (fun a => a <> []) value_arrs)
  /\ (NB_Grid_init names value_arrs = Raise AssertionError
      <-> length names <> length value_arrs)
  /\ (is_ValueError (NB_Grid_init names value_arrs)
      <-> length names = length value_arrs
          /\ Exists (fun a => a = []) value_arrs).
Proof.
  intros Hnd.
  destruct (Nat.eq_dec (length names) (length value_arrs)) as [Hl|Hl].
  - assert (Hdec : forall a : list Qc, {a <> []} + {~ a <> []}).
    { intros [|x a]; [right; intros H; apply H; reflexivity|left; discriminate]. }
    destruct (Forall_Exists_dec (fun a : list Qc => a <> []) Hdec value_arrs)
      as [Hall|Hex].
    + destruct (NB_Grid_init_returns names value_arrs Hl Hall) as [G HG].
      rewrite HG. split; [|split].
      * split; [auto|]. intros _. exists G. reflexivity.
      * split; [discriminate|]. intros H. contradiction.
      * split; [intros [msg H]; discriminate|].
        intros [_ Hex]. exfalso. apply Exists_exists in Hex.
        destruct Hex as [a [Ha ->]]. rewrite Forall_forall in Hall.
        exact (Hall [] Ha eq_refl).
    + assert (Hex' : Exists (fun a : list Qc => a = []) value_arrs).
      { eapply Exists_impl; [|exact Hex]. intros a Ha. simpl in Ha.
        destruct a; [reflexivity|]. exfalso. apply Ha. discriminate. }
      pose proof (NB_Grid_init_empty_array names value_arrs Hnd Hl Hex') as Hfail.
      rewrite Hfail. split; [|split].
      * split; [intros [G HG]; discriminate|].
        intros [_ Hall]. exfalso. apply Exists_exists in Hex'.
        destruct Hex' as [a [Ha ->]]. rewrite Forall_forall in Hall.
        exact (Hall [] Ha eq_refl).
      * split; [discriminate|]. intros H. contradiction.
      * split; [auto|]. intros _. eexists. reflexivity.
  - assert (Hfail : NB_Grid_init names value_arrs = Raise AssertionError).
    { unfold NB_Grid_init. apply Nat.eqb_neq in Hl. rewrite Hl. reflexivity. }
    rewrite Hfail. split; [|split].
    + split; [intros [G HG]; discriminate|]. intros [H _]. contradiction.
    + split; auto.
    + split; [intros [msg H]; discriminate|]. intros [H _]. contradiction.
Qed.

Lemma grid_description_outcomes_witness :
  (succeeds (NB_Grid_init ["p"] [ex_axis])
   <-> length ["p"] = length [ex_axis] /\ Forall (fun a => a <> []) [ex_axis])
  /\ (NB_Grid_init ["p"] [ex_axis] = Raise AssertionError
      <-> length ["p"] <> length [ex_axis])
  /\ (is_ValueError (NB_Grid_init ["p"] [ex_axis])
      <-> length ["p"] = length [ex_axis] /\ Exists (fun a => a = []) [ex_axis]).
Proof.
  apply (grid_description_outcomes ["p"] [ex_axis]).
  constructor; [intros []|constructor].
Defined.

Lemma Forall2_nth_error {A B : Type} (P : A -> B -> Prop) (l : list A)
    (l' : list B) :
  Forall2 P l l' ->
  forall i x, nth_error l i = Some x ->
              exists y, nth_error l' i = Some y /\ P x y.
Proof.
  induction 1 as [|a b l l' Hab _ IH]; intros [|i] x Hx; simpl in *;
    try discriminate.
  - injection Hx as <-. exists b. auto.
  - apply IH. exact Hx.
Qed.

Lemma arr_min_inv (a : list Qc) (lo : Qc) :
  arr_min a = Ok lo -> In lo a /\ Forall (fun y => (lo <= y)%Qc) a.
Proof.
  intros H. assert (Hne : a <> []) by (intros ->; discriminate).
  destruct (arr_min_spec a Hne) as [m [Hm Hspec]].
  assert (m = lo) by congruence. subst m. exact Hspec.
Qed.

Lemma arr_max_inv (a : list Qc) (hi : Qc) :
  arr_max a = Ok hi -> In hi a /\ Forall (fun y => (y <= hi)%Qc) a.
Proof.
  intros H. assert (Hne : a <> []) by (intros ->; discriminate).
  destruct (arr_max_spec a Hne) as [m [Hm Hspec]].
  assert (m = hi) by congruence. subst m. exact Hspec.
Qed.

(** X14 (lookups of the grid description).  For unique parameter names, the
    dictionaries of a description give back what the constructor was
    given: under the name of parameter [i] they hold the index [i], its
    array of values, and the minimum and the maximum of that array; entry
    [i] of [shape] is the length of the array; a name that is not a
    parameter raises KeyError. *)
Theorem grid_description_lookups
    (names : list string) (value_arrs : list (list Qc)) (G : NB_Grid) :
  NoDup names -> NB_Grid_init names value_arrs = Ok G ->
  (forall i p a,
      nth_error names i = Some p -> nth_error value_arrs i = Some a ->
      od_get string_dec (paramName2ind G) p = Ok i
      /\ od_get string_dec (paramName2paramValueArr G) p = Ok a
      /\ nth_error (grid_shape G) i = Some (length a)
      /\ exists lo hi,
           od_get string_dec (paramName2paramMinMax G) p = Ok (lo, hi)
           /\ In lo a /\ In hi a
           /\ Forall (fun x => (lo <= x)%Qc /\ (x <= hi)%Qc) a)
  /\ (forall q, ~ In q names ->
                od_get string_dec (paramName2ind G) q = Raise KeyError
                /\ od_get string_dec (paramName2paramValueArr G) q = Raise KeyError
                /\ od_get string_dec (paramName2paramMinMax G) q = Raise KeyError)
  /\ grid_ndim G = length names
  /\ n_gridpoints G = np_prod (grid_shape G).
Proof.
  intros Hnd HG.
  destruct (NB_Grid_init_fields names value_arrs G Hnd HG)
    as [Hl [Hndim [Hshape [Hn [Hind [Harr [_ Hmm]]]]]]].
  assert (Hkmm : map fst (paramName2paramMinMax G) = names).
  { apply mapM_Forall2 in Hmm. rewrite <- (map_fst_combine names value_arrs Hl).
    clear -Hmm. induction Hmm as [|pa y l mm Hy _ IH]; [reflexivity|].
    simpl. f_equal; [|exact IH].
    apply bind_Ok_inv in Hy. destruct Hy as [lo [_ Hy]].
    apply bind_Ok_inv in Hy. destruct Hy as [hi [_ Hy]].
    injection Hy as <-. reflexivity. }
  split; [|split; [|split]].
  - intros i p a Hp Ha.
    assert (Hi : i < length names) by (eapply nth_error_Some_lt; exact Hp).
    split; [|split; [|split]].
    + rewrite Hind. apply od_get_In.
      * rewrite map_fst_combine; [assumption|rewrite length_seq; reflexivity].
      * apply (nth_error_In _ i). apply nth_error_combine; [exact Hp|].
        apply (nth_error_seq 0 _ i Hi).
    + rewrite Harr. apply od_get_In.
      * rewrite map_fst_combine; assumption.
      * apply (nth_error_In _ i). apply nth_error_combine; assumption.
    + rewrite Hshape, nth_error_map, Ha. reflexivity.
    + apply mapM_Forall2 in Hmm.
      destruct (Forall2_nth_error _ _ _ Hmm i (p, a)
                  (nth_error_combine _ _ i p a Hp Ha)) as [y [Hy Hf]].
      cbn [fst snd] in Hf.
      apply bind_Ok_inv in Hf. destruct Hf as [lo [Hlo Hf]].
      apply bind_Ok_inv in Hf. destruct Hf as [hi [Hhi Hf]].
      injection Hf as <-.
      destruct (arr_min_inv a lo Hlo) as [Hlo_in Hlo_le].
      destruct (arr_max_inv a hi Hhi) as [Hhi_in Hhi_le].
      exists lo, hi. split; [|split; [exact Hlo_in|split; [exact Hhi_in|]]].
      * apply od_get_In; [rewrite Hkmm; assumption|].
        apply (nth_error_In _ i). exact Hy.
      * rewrite Forall_forall in *. intros x Hx. split; [apply Hlo_le|apply Hhi_le];
          exact Hx.
  - intros q Hq. split; [|split]; apply od_get_notin.
    + rewrite Hind, map_fst_combine; [assumption|rewrite length_seq; reflexivity].
    + rewrite Harr, map_fst_combine; assumption.
    + rewrite Hkmm. assumption.
  - exact Hndim.
  - rewrite Hn, Hshape. reflexivity.
Qed.

Lemma grid_description_lookups_witness :
  (forall i p a,
      nth_error ["p"] i = Some p -> nth_error [ex_axis] i = Some a ->
      od_get string_dec (paramName2ind ex_description) p = Ok i
      /\ od_get string_dec (paramName2paramValueArr ex_description) p = Ok a
      /\ nth_error (grid_shape ex_description) i = Some (length a)
      /\ exists lo hi,
           od_get string_dec (paramName2paramMinMax ex_description) p = Ok (lo, hi)
           /\ In lo a /\ In hi a
           /\ Forall (fun x => (lo <= x)%Qc /\ (x <= hi)%Qc) a)
  /\ (forall q, ~ In q ["p"] ->
                od_get string_dec (paramName2ind ex_description) q = Raise KeyError
                /\ od_get string_dec (paramName2paramValueArr ex_description) q
                   = Raise KeyError
                /\ od_get string_dec (paramName2paramMinMax ex_description) q
                   = Raise KeyError)
  /\ grid_ndim ex_description = length ["p"]
  /\ n_gridpoints ex_description = np_prod (grid_shape ex_description).
Proof.
  apply (grid_description_lookups ["p"] [ex_axis] ex_description).
  - constructor; [intros []|constructor].
  - vm_compute. reflexivity.
Defined.

Lemma writes_keys (l : list (string * list Qc)) (p : string) (v : Qc) :
  In (p, v) (map fst (flat_map (fun pa => map (fun iv => ((fst pa, snd iv), fst iv))
                                              (enumerate (snd pa))) l)) ->
  In p (map fst l).
Proof.
  intros H. apply in_map_iff in H. destruct H as [[[p' v'] i] [E H]].
  cbn [fst] in E. injection E as -> ->.
  apply in_flat_map in H. destruct H as [pa [Hpa H]].
  apply in_map_iff in H. destruct H as [iv [E _]]. injection E as E _ _.
  apply in_map_iff. exists pa. auto.
Qed.

Lemma value_writes_last (p : string) (a : list Qc) (v : Qc) (i : nat) :
  assoc_last name_value_dec
             (map (fun iv : nat * Qc => ((p, snd iv), fst iv)) (enumerate a))
             (p, v) = Some i
  <-> last_position a v i.
Proof.
  rewrite assoc_last_spec. unfold last_position. split.
  - intros [n [Hn Hlast]].
    rewrite nth_error_map in Hn.
    destruct (nth_error (enumerate a) n) as [[i' v']|] eqn:E; [|discriminate].
    simpl in Hn. injection Hn as -> ->.
    apply nth_error_enumerate in E. destruct E as [-> Hi].
    split; [exact Hi|]. intros i' Hlt Hi'.
    apply (Hlast i' i' Hlt). rewrite nth_error_map.
    rewrite (proj2 (nth_error_enumerate a i' i' v) (conj eq_refl Hi')).
    reflexivity.
  - intros [Hi Hlast]. exists i. split.
    + rewrite nth_error_map.
      rewrite (proj2 (nth_error_enumerate a i i v) (conj eq_refl Hi)). reflexivity.
    + intros n' y Hlt Hn'. rewrite nth_error_map in Hn'.
      destruct (nth_error (enumerate a) n') as [[i' v']|] eqn:E; [|discriminate].
      simpl in Hn'. injection Hn' as -> ->.
      apply nth_error_enumerate in E. destruct E as [-> Hy].
      exact (Hlast y Hlt Hy).
Qed.

Lemma value_writes_keys (p : string) (a : list Qc) (v : Qc) :
  In (p, v) (map fst (map (fun iv : nat * Qc => ((p, snd iv), fst iv))
                          (enumerate a)))
  <-> In v a.
Proof.
  rewrite map_map. cbn [fst]. split.
  - intros H. apply in_map_iff in H. destruct H as [[i v'] [E H]].
    injection E as ->. apply In_nth_error in H. destruct H as [n H].
    apply nth_error_enumerate in H. destruct H as [_ H].
    eapply nth_error_In. exact H.
  - intros H. apply In_nth_error in H. destruct H as [n H].
    apply in_map_iff. exists (n, v). split; [reflexivity|].
    apply (nth_error_In _ n). apply nth_error_enumerate. auto.
Qed.

(** The dictionary from (name, value) to the index of the value, read at
    the name of parameter [j]: what is found is what the assignments for
    that parameter's array wrote last. *)
Lemma value_index_closed (names : list string) (value_arrs : list (list Qc))
    (G : NB_Grid) (j : nat) (p : string) (a : list Qc) (v : Qc) :
  NoDup names -> NB_Grid_init names value_arrs = Ok G ->
  nth_error names j = Some p -> nth_error value_arrs j = Some a ->
  od_get name_value_dec (paramNameAndValue2arrayInd G) (p, v)
  = match assoc_last name_value_dec
                     (map (fun iv : nat * Qc => ((p, snd iv), fst iv))
                          (enumerate a))
                     (p, v) with
    | Some i => Ok i
    | None => Raise KeyError
    end.
Proof.
  intros Hnd HG Hp Ha.
  destruct (NB_Grid_init_fields names value_arrs G Hnd HG)
    as [Hl [_ [_ [_ [_ [_ [Hnv _]]]]]]].
  rewrite Hnv, od_get_fold. cbn [od_get].
  destruct (nth_error_split _ _ (nth_error_combine _ _ j p a Hp Ha))
    as [l1 [l2 [Hsplit _]]].
  assert (Hkeys : NoDup (map fst l1 ++ p :: map fst l2)).
  { rewrite <- (map_fst_combine names value_arrs Hl) in Hnd.
    rewrite Hsplit, map_app in Hnd. exact Hnd. }
  rewrite Hsplit, flat_map_app. cbn [flat_map fst snd].
  rewrite !assoc_last_app.
  assert (H2 : assoc_last name_value_dec
                 (flat_map (fun pa => map (fun iv => ((fst pa, snd iv), fst iv))
                                          (enumerate (snd pa))) l2) (p, v) = None).
  { apply assoc_last_none. intros Hin. apply writes_keys in Hin.
    apply NoDup_remove_2 in Hkeys. apply Hkeys. apply in_or_app. right. exact Hin. }
  assert (H1 : assoc_last name_value_dec
                 (flat_map (fun pa => map (fun iv => ((fst pa, snd iv), fst iv))
                                          (enumerate (snd pa))) l1) (p, v) = None).
  { apply assoc_last_none. intros Hin. apply writes_keys in Hin.
    apply NoDup_remove_2 in Hkeys. apply Hkeys. apply in_or_app. left. exact Hin. }
  rewrite H2, H1.
  destruct (assoc_last name_value_dec
              (map (fun iv : nat * Qc => ((p, snd iv), fst iv)) (enumerate a))
              (p, v)); reflexivity.
Qed.

(** X15 (from a parameter value to its index).  For unique parameter names,
    the dictionary keyed by (name, value) gives, for the name of a
    parameter, the last index at which the value stands in the parameter's
    array, and raises KeyError exactly for a value that is not in the
    array; when the array has no repeated value, the index of every entry
    is found from its value.  A name that is not a parameter raises
    KeyError. *)
Theorem value_index_lookup
    (names : list string) (value_arrs : list (list Qc)) (G : NB_Grid)
    (j : nat) (p : string) (a : list Qc) :
  NoDup names -> NB_Grid_init names value_arrs = Ok G ->
  nth_error names j = Some p -> nth_error value_arrs j = Some a ->
  (forall v i,
      od_get name_value_dec (paramNameAndValue2arrayInd G) (p, v) = Ok i
      <-> last_position a v i)
  /\ (forall v,
        od_get name_value_dec (paramNameAndValue2arrayInd G) (p, v)
        = Raise KeyError
        <-> ~ In v a)
  /\ (NoDup a ->
      forall i v, nth_error a i = Some v ->
                  od_get name_value_dec (paramNameAndValue2arrayInd G) (p, v)
                  = Ok i)
  /\ (forall q v, ~ In q names ->
                  od_get name_value_dec (paramNameAndValue2arrayInd G) (q, v)
                  = Raise KeyError).
Proof.
  intros Hnd HG Hp Ha.
  assert (Hfound : forall v i,
             od_get name_value_dec (paramNameAndValue2arrayInd G) (p, v) = Ok i
             <-> last_position a v i).
  { intros v i. rewrite (value_index_closed names value_arrs G j p a v Hnd HG Hp Ha).
    rewrite <- (value_writes_last p a v i).
    destruct (assoc_last name_value_dec _ (p, v)) as [i'|]; split; congruence. }
  split; [exact Hfound|]. split; [|split].
  - intros v. rewrite (value_index_closed names value_arrs G j p a v Hnd HG Hp Ha).
    rewrite <- (value_writes_keys p a v).
    destruct (assoc_last name_value_dec _ (p, v)) as [i'|] eqn:E.
    + split; [discriminate|]. intros H.
      apply (proj2 (assoc_last_none name_value_dec _ _)) in H. congruence.
    + split; [|reflexivity]. intros _.
      apply (proj1 (assoc_last_none name_value_dec _ _)). exact E.
  - intros Hnda i v Hi. apply Hfound. split; [exact Hi|].
    intros i' Hlt Hi'. rewrite NoDup_nth_error in Hnda.
    assert (i = i'); [|lia].
    apply Hnda; [eapply nth_error_Some_lt; exact Hi|congruence].
  - intros q v Hq.
    destruct (NB_Grid_init_fields names value_arrs G Hnd HG)
      as [Hl [_ [_ [_ [_ [_ [Hnv _]]]]]]].
    rewrite Hnv. apply od_get_notin. intros Hin.
    apply in_map_iff in Hin. destruct Hin as [kv [Ekv Hin]].
    apply (od_of_list_In name_value_dec) in Hin.
    apply (in_map fst) in Hin. rewrite Ekv in Hin. apply writes_keys in Hin.
    rewrite map_fst_combine in Hin; [contradiction|assumption].
Qed.

Lemma value_index_lookup_witness :
  (forall v i,
      od_get name_value_dec (paramNameAndValue2arrayInd ex_description) ("p", v)
      = Ok i
      <-> last_position ex_axis v i)
  /\ (forall v,
        od_get name_value_dec (paramNameAndValue2arrayInd ex_description) ("p", v)
        = Raise KeyError
        <-> ~ In v ex_axis)
  /\ (NoDup ex_axis ->
      forall i v, nth_error ex_axis i = Some v ->
                  od_get name_value_dec (paramNameAndValue2arrayInd ex_description)
                         ("p", v)
                  = Ok i)
  /\ (forall q v, ~ In q ["p"] ->
                  od_get name_value_dec (paramNameAndValue2arrayInd ex_description)
                         (q, v)
                  = Raise KeyError).
Proof.
  apply (value_index_lookup ["p"] [ex_axis] ex_description 0 "p" ex_axis).
  - constructor; [intros []|constructor].
  - vm_compute. reflexivity.
  - reflexivity.
  - reflexivity.
Defined.

(** ** The observed data *)

Lemma finite_all_map (P : Qc -> Prop) (qs : list Qc) :
  finite_all P (map Finite qs) <-> Forall P qs.
Proof.
  unfold finite_all. rewrite Forall_map. split; intros H;
    (eapply Forall_impl; [|exact H]); simpl.
  - intros q [q' [E Hq]]. injection E as ->. exact Hq.
  - intros q Hq. exists q. auto.
Qed.

Lemma finite_all_values (P : Qc -> Prop) (a : list float) :
  finite_all P a -> exists qs, a = map Finite qs /\ Forall P qs.
Proof.
  induction 1 as [|x a [q [-> Hq]] _ [qs [-> Hqs]]].
  - exists []. split; [reflexivity|constructor].
  - exists (q :: qs). split; [reflexivity|constructor; assumption].
Qed.

Lemma nodup_length_le {A : Type} (dec : forall x y : A, {x = y} + {x <> y})
    (l : list A) : length (nodup dec l) <= length l.
Proof.
  induction l as [|x l IH]; simpl; [lia|].
  destruct (in_dec dec x l); simpl; lia.
Qed.

Lemma nodup_length_NoDup {A : Type} (dec : forall x y : A, {x = y} + {x <> y})
    (l : list A) : length (nodup dec l) = length l <-> NoDup l.
Proof.
  split.
  - induction l as [|x l IH]; simpl; intros H; [constructor|].
    destruct (in_dec dec x l) as [Hin|Hnin].
    + pose proof (nodup_length_le dec l). lia.
    + simpl in H. constructor; [exact Hnin|]. apply IH. lia.
  - intros H. rewrite nodup_fixed_point by exact H. reflexivity.
Qed.

Lemma existsb_false_Forall {A : Type} (f : A -> bool) (l : list A) :
  existsb f l = false <-> Forall (fun x => f x = false) l.
Proof.
  induction l as [|x l IH]; simpl.
  - split; [constructor|reflexivity].
  - rewrite orb_false_iff, IH. split.
    + intros [H1 H2]. constructor; assumption.
    + intros H. inversion H; subst. auto.
Qed.

Lemma existsb_string_In (l : list string) (s : string) :
  existsb (fun x => if string_dec x s then true else false) l = true <-> In s l.
Proof.
  rewrite existsb_exists. split.
  - intros [x [Hx H]]. destruct (string_dec x s) as [->|]; [exact Hx|discriminate].
  - intros H. exists s. split; [exact H|].
    destruct (string_dec s s); [reflexivity|congruence].
Qed.

Lemma loc_In {A : Type} (index : list string) (label : string) :
  forall column : list A,
    length column = length index -> In label index ->
    exists x, loc index column label = Ok x /\ In x column.
Proof.
  induction index as [|l index IH]; intros [|x column] Hlen Hin; simpl in *;
    try contradiction; try discriminate.
  destruct (string_dec l label) as [E|Hne].
  - exists x. auto.
  - destruct Hin as [E|Hin]; [contradiction|].
    destruct (IH column) as [y [Hy Hy']]; [lia|assumption|].
    exists y. auto.
Qed.

Lemma loc_Ok_In {A : Type} (index : list string) (label : string) :
  forall (column : list A) (x : A),
    loc index column label = Ok x -> In label index /\ In x column.
Proof.
  induction index as [|l index IH]; intros [|y column] x H; simpl in H;
    try discriminate.
  destruct (string_dec l label) as [E|Hne].
  - injection H as <-. split; left; [exact E|reflexivity].
  - destruct (IH column x H). split; right; assumption.
Qed.

Lemma loc_map {A B : Type} (f : A -> B) (index : list string) (label : string) :
  forall column : list A,
    loc index (map f column) label
    = match loc index column label with
      | Ok x => Ok (f x)
      | Raise e => Raise e
      end.
Proof.
  induction index as [|l index IH]; intros [|x column]; simpl; try reflexivity.
  destruct (string_dec l label); [reflexivity|apply IH].
Qed.

Lemma Qcdiv_self (x : Qc) : x <> 0%Qc -> (x / x)%Qc = 1%Qc.
Proof. intros H. field. exact H. Qed.

Lemma np_isclose_refl_1 : np_isclose 1%Qc 1%Qc = true.
Proof. vm_compute. reflexivity. Qed.

Lemma positive_not_leb (w : list Qc) :
  existsb (fun x => Qcleb x 0%Qc) w = false <-> Forall (fun q => (0 < q)%Qc) w.
Proof.
  rewrite existsb_false_Forall. split; intros H;
    (eapply Forall_impl; [|exact H]); simpl; intros q Hq.
  - apply Qcleb_gt. exact Hq.
  - apply Qcleb_gt. exact Hq.
Qed.

Lemma nonneg_not_ltb (w : list Qc) :
  existsb (fun x => Qcltb x 0%Qc) w = false <-> Forall (fun q => (0 <= q)%Qc) w.
Proof.
  rewrite existsb_false_Forall. split; intros H;
    (eapply Forall_impl; [|exact H]); simpl; intros q Hq.
  - apply Qcltb_ge. exact Hq.
  - apply Qcltb_ge. exact Hq.
Qed.

Lemma wavelengths_cases (n : nat) (obs_wavelengths : option (list float)) :
  is_ValueError (match obs_wavelengths with
                 | Some w => w' <- check_wavelengths n w ;; Ok (Some w')
                 | None => Ok None
                 end)
  \/ exists wq,
       match obs_wavelengths with
       | Some w => w' <- check_wavelengths n w ;; Ok (Some w')
       | None => Ok None
       end = Ok wq
       /\ obs_wavelengths = option_map (map Finite) wq
       /\ forall w, wq = Some w -> length w = n /\ Forall (fun q => (0 < q)%Qc) w.
Proof.
  destruct obs_wavelengths as [w|].
  - unfold check_wavelengths.
    destruct (length w =? n) eqn:E1; cbn [negb];
      [|left; cbn [bind]; eexists; reflexivity].
    destruct (finite_values w) as [w'|] eqn:E2;
      [|left; cbn [bind]; eexists; reflexivity].
    destruct (existsb (fun x => Qcleb x 0%Qc) w') eqn:E3;
      [left; cbn [bind]; eexists; reflexivity|].
    right. exists (Some w'). cbn [bind option_map].
    apply finite_values_Some in E2. subst w. split; [reflexivity|].
    split; [reflexivity|]. intros w Ew. injection Ew as <-.
    apply Nat.eqb_eq in E1. rewrite length_map in E1.
    split; [exact E1|]. apply positive_not_leb. exact E3.
  - right. exists None. split; [reflexivity|]. split; [reflexivity|].
    intros w Ew. discriminate.
Qed.

Lemma Qc_eq_bool_false (x y : Qc) : Qc_eq_bool x y = false <-> x <> y.
Proof.
  unfold Qc_eq_bool. destruct (Qc_eq_dec x y); split; congruence.
Qed.

(** What [_process_observed_data] returns on numbers that pass its checks. *)
Lemma process_closed (qs es : list Qc) (lines : list string)
    (wq : option (list Qc)) (nl : string) (n0 : Qc) :
  length qs = length lines -> length es = length lines ->
  NoDup lines -> 2 <= length lines ->
  (forall w, wq = Some w ->
             length w = length lines /\ Forall (fun q => (0 < q)%Qc) w) ->
  Forall (fun q => (0 <= q)%Qc) qs -> Forall (fun q => (0 < q)%Qc) es ->
  loc lines qs nl = Ok n0 -> n0 <> 0%Qc ->
  _process_observed_data (map Finite qs) (map Finite es) lines
                         (option_map (map Finite) wq) nl
  = Ok {| Line := lines; Wavelength := wq;
          Flux := map (fun x => (x / n0)%Qc) qs;
          Flux_err := map (fun x => (x / n0)%Qc) es;
          norm_line := nl |}.
Proof.
  intros Hq He Hnd Hn Hw Hqs Hes Hloc Hn0.
  unfold _process_observed_data. cbv zeta.
  rewrite !length_map, Hq, He, Nat.eqb_refl. cbn [negb orb].
  rewrite (proj2 (nodup_length_NoDup string_dec lines) Hnd), Nat.eqb_refl.
  cbn [negb].
  destruct (length lines <? 2) eqn:E; [apply Nat.ltb_lt in E; lia|].
  assert (Hwl : match option_map (map Finite) wq with
                | Some w => w' <- check_wavelengths (length lines) w ;; Ok (Some w')
                | None => Ok None
                end = Ok wq).
  { destruct wq as [w|]; [|reflexivity]. cbn [option_map].
    destruct (Hw w eq_refl) as [Hlw Hpw]. unfold check_wavelengths.
    rewrite length_map, Hlw, Nat.eqb_refl. cbn [negb].
    rewrite finite_values_map, (proj2 (positive_not_leb w) Hpw). reflexivity. }
  rewrite Hwl. cbn [bind].
  rewrite !finite_values_map.
  rewrite (proj2 (nonneg_not_ltb qs) Hqs), (proj2 (positive_not_leb es) Hes).
  cbn [bind].
  destruct (loc_Ok_In lines nl qs n0 Hloc) as [Hin _].
  rewrite (proj2 (existsb_string_In lines nl) Hin). cbn [negb].
  rewrite Hloc. cbn [bind].
  rewrite (proj2 (Qc_eq_bool_false n0 0%Qc) Hn0).
  rewrite loc_map, Hloc. cbn [bind].
  rewrite (Qcdiv_self n0 Hn0), np_isclose_refl_1. reflexivity.
Qed.

(** Every run of [_process_observed_data] either raises ValueError at one
    of its checks, or is a run on numbers that pass them all. *)
Lemma process_cases (obs_fluxes obs_flux_errors : list float)
    (lines : list string) (obs_wavelengths : option (list float)) (nl : string) :
  is_ValueError (_process_observed_data obs_fluxes obs_flux_errors lines
                                        obs_wavelengths nl)
  \/ exists qs es wq n0,
       obs_fluxes = map Finite qs /\ obs_flux_errors = map Finite es
       /\ obs_wavelengths = option_map (map Finite) wq
       /\ length qs = length lines /\ length es = length lines
       /\ NoDup lines /\ 2 <= length lines
       /\ (forall w, wq = Some w ->
                     length w = length lines /\ Forall (fun q => (0 < q)%Qc) w)
       /\ Forall (fun q => (0 <= q)%Qc) qs /\ Forall (fun q => (0 < q)%Qc) es
       /\ loc lines qs nl = Ok n0 /\ n0 <> 0%Qc.
Proof.
  unfold _process_observed_data. cbv zeta.
  destruct (length obs_fluxes =? length lines) eqn:E1; cbn [negb orb];
    [|left; eexists; reflexivity].
  destruct (length obs_flux_errors =? length lines) eqn:E2; cbn [negb];
    [|left; eexists; reflexivity].
  destruct (length (nodup string_dec lines) =? length lines) eqn:E3; cbn [negb];
    [|left; eexists; reflexivity].
  destruct (length lines <? 2) eqn:E4; [left; eexists; reflexivity|].
  destruct (wavelengths_cases (length lines) obs_wavelengths)
    as [[msg Hw]|[wq [Hw [Ewl Hwq]]]]; rewrite Hw;
    [left; cbn [bind]; eexists; reflexivity|].
  cbn [bind].
  destruct (finite_values obs_fluxes) as [qs|] eqn:E5;
    [|left; cbn [bind]; eexists; reflexivity].
  destruct (existsb (fun x => Qcltb x 0%Qc) qs) eqn:E6;
    [left; cbn [bind]; eexists; reflexivity|].
  cbn [bind].
  destruct (finite_values obs_flux_errors) as [es|] eqn:E7;
    [|left; cbn [bind]; eexists; reflexivity].
  destruct (existsb (fun x => Qcleb x 0%Qc) es) eqn:E8;
    [left; cbn [bind]; eexists; reflexivity|].
  cbn [bind].
  destruct (existsb (fun l => if string_dec l nl then true else false) lines) eqn:E9;
    cbn [negb]; [|left; eexists; reflexivity].
  apply finite_values_Some in E5, E7. subst obs_fluxes obs_flux_errors.
  rewrite length_map in E1, E2.
  apply Nat.eqb_eq in E1, E2, E3. apply Nat.ltb_ge in E4.
  apply existsb_string_In in E9.
  destruct (loc_In lines nl qs E1 E9) as [n0 [Hloc _]].
  rewrite Hloc. cbn [bind].
  destruct (Qc_eq_bool n0 0%Qc) eqn:E10; [left; eexists; reflexivity|].
  right. exists qs, es, wq, n0.
  repeat split; try assumption; try reflexivity.
  - apply nodup_length_NoDup in E3. exact E3.
  - apply (Hwq w H).
  - apply (Hwq w H).
  - apply nonneg_not_ltb. exact E6.
  - apply positive_not_leb. exact E8.
  - apply Qc_eq_bool_false in E10. exact E10.
Qed.

Lemma valid_observed_numbers (obs_fluxes obs_flux_errors : list float)
    (lines : list string) (obs_wavelengths : option (list float)) (nl : string) :
  valid_observed obs_fluxes obs_flux_errors lines obs_wavelengths nl ->
  exists qs es wq n0,
    obs_fluxes = map Finite qs /\ obs_flux_errors = map Finite es
    /\ obs_wavelengths = option_map (map Finite) wq
    /\ length qs = length lines /\ length es = length lines
    /\ NoDup lines /\ 2 <= length lines
    /\ (forall w, wq = Some w ->
                  length w = length lines /\ Forall (fun q => (0 < q)%Qc) w)
    /\ Forall (fun q => (0 <= q)%Qc) qs /\ Forall (fun q => (0 < q)%Qc) es
    /\ loc lines qs nl = Ok n0 /\ n0 <> 0%Qc.
Proof.
  intros [Hlf [Hle [Hnd [Hn [Hw [Hf [He [q [Hloc Hq]]]]]]]]].
  destruct (finite_all_values _ _ Hf) as [qs [-> Hqs]].
  destruct (finite_all_values _ _ He) as [es [-> Hes]].
  rewrite length_map in Hlf, Hle.
  assert (Hwq : exists wq,
             obs_wavelengths = option_map (map Finite) wq
             /\ forall w, wq = Some w ->
                          length w = length lines /\ Forall (fun q => (0 < q)%Qc) w).
  { destruct obs_wavelengths as [w|].
    - destruct (Hw w eq_refl) as [Hlw Hfw].
      destruct (finite_all_values _ _ Hfw) as [w' [-> Hw']].
      rewrite length_map in Hlw. exists (Some w'). split; [reflexivity|].
      intros w Ew. injection Ew as <-. auto.
    - exists None. split; [reflexivity|]. intros w Ew. discriminate. }
  destruct Hwq as [wq [-> Hwq]].
  rewrite loc_map in Hloc.
  destruct (loc lines qs nl) as [n0|e] eqn:E; [|discriminate].
  injection Hloc as ->.
  exists qs, es, wq, q. repeat split; try assumption; try reflexivity;
    apply (Hwq w H).
Qed.

(** X16 (outcomes of the input checks).  [_process_observed_data] returns
    exactly on the observations described by [valid_observed], and on every
    other input it raises ValueError: neither the lookups of the
    normalising line nor the final assertion can fail. *)
Theorem observed_data_outcomes
    (obs_fluxes obs_flux_errors : list float) (obs_emission_lines : list string)
    (obs_wavelengths : option (list float)) (norm_line : string) :
  (succeeds (_process_observed_data obs_fluxes obs_flux_errors obs_emission_lines
                                    obs_wavelengths norm_line)
   <-> valid_observed obs_fluxes obs_flux_errors obs_emission_lines
                      obs_wavelengths norm_line)
  /\ (~ valid_observed obs_fluxes obs_flux_errors obs_emission_lines
                       obs_wavelengths norm_line ->
      is_ValueError (_process_observed_data obs_fluxes obs_flux_errors
                                            obs_emission_lines obs_wavelengths
                                            norm_line)).
Proof.
  assert (Hret : valid_observed obs_fluxes obs_flux_errors obs_emission_lines
                                obs_wavelengths norm_line ->
                 succeeds (_process_observed_data obs_fluxes obs_flux_errors
                             obs_emission_lines obs_wavelengths norm_line)).
  { intros Hv. apply valid_observed_numbers in Hv.
    destruct Hv as [qs [es [wq [n0 [-> [-> [-> [H1 [H2 [H3 [H4 [H5 [H6 [H7 [H8 H9]]]]]]]]]]]]]]].
    eexists. apply (process_closed qs es obs_emission_lines wq norm_line n0);
      assumption. }
  destruct (process_cases obs_fluxes obs_flux_errors obs_emission_lines
              obs_wavelengths norm_line)
    as [[msg Hfail]|[qs [es [wq [n0 [Ef [Ee [Ew [H1 [H2 [H3 [H4 [H5 [H6 [H7 [H8 H9]]]]]]]]]]]]]]]].
  - split.
    + split; [intros [DF HDF]; congruence|].
      intros Hv. destruct (Hret Hv) as [DF HDF]. congruence.
    + intros _. exists msg. exact Hfail.
  - assert (Hv : valid_observed obs_fluxes obs_flux_errors obs_emission_lines
                                obs_wavelengths norm_line).
    { subst. unfold valid_observed. rewrite !length_map.
      repeat split; try assumption.
      - destruct wq as [w'|]; [|discriminate]. cbn [option_map] in H.
        injection H as <-. rewrite length_map. apply (H5 w' eq_refl).
      - destruct wq as [w'|]; [|discriminate]. cbn [option_map] in H.
        injection H as <-. apply finite_all_map. apply (H5 w' eq_refl).
      - apply finite_all_map. assumption.
      - apply finite_all_map. assumption.
      - exists n0. rewrite loc_map, H8. auto. }
    split; [split; [intros _; exact Hv|exact Hret]|].
    intros Hnv. contradiction.
Qed.

Lemma Qcdiv_nonneg (a b : Qc) : (0 <= a)%Qc -> (0 < b)%Qc -> (0 <= a / b)%Qc.
Proof.
  unfold Qcle, Qclt. rewrite this_div. change (this 0%Qc) with 0%Q. intros Ha Hb.
  apply Qle_shift_div_l; [assumption|]. lra.
Qed.

Lemma In_nonneg_pos (qs : list Qc) (n0 : Qc) :
  Forall (fun q => (0 <= q)%Qc) qs -> In n0 qs -> n0 <> 0%Qc -> (0 < n0)%Qc.
Proof.
  intros H Hin Hne. rewrite Forall_forall in H. specialize (H n0 Hin).
  apply Qcle_lt_or_eq in H. destruct H as [H|H]; [exact H|congruence].
Qed.

(** X17 (the normalised table).  A table that [_process_observed_data]
    returns is indexed by the line names; its flux for the normalising line
    is exactly 1; its fluxes are not negative and its errors are positive;
    and it is the input divided by the flux [n0] measured for the
    normalising line, which is positive: multiplying the table by [n0] gives
    the observations back. *)
Theorem observed_data_normalised
    (obs_fluxes obs_flux_errors : list float) (obs_emission_lines : list string)
    (obs_wavelengths : option (list float)) (nl : string) (DF : DataFrame_obs) :
  _process_observed_data obs_fluxes obs_flux_errors obs_emission_lines
                         obs_wavelengths nl = Ok DF ->
  Line DF = obs_emission_lines /\ norm_line DF = nl
  /\ option_map (map Finite) (Wavelength DF) = obs_wavelengths
  /\ loc (Line DF) (Flux DF) nl = Ok 1%Qc
  /\ Forall (fun x => (0 <= x)%Qc) (Flux DF)
  /\ Forall (fun x => (0 < x)%Qc) (Flux_err DF)
  /\ exists n0,
       (0 < n0)%Qc
       /\ loc obs_emission_lines obs_fluxes nl = Ok (Finite n0)
       /\ map (fun x => Finite (x * n0)) (Flux DF) = obs_fluxes
       /\ map (fun x => Finite (x * n0)) (Flux_err DF) = obs_flux_errors.
Proof.
  intros HDF.
  destruct (process_cases obs_fluxes obs_flux_errors obs_emission_lines
              obs_wavelengths nl)
    as [[msg Hfail]|[qs [es [wq [n0 [Ef [Ee [Ew [H1 [H2 [H3 [H4 [H5 [H6 [H7 [H8 H9]]]]]]]]]]]]]]]];
    [congruence|].
  subst obs_fluxes obs_flux_errors obs_wavelengths.
  rewrite (process_closed qs es obs_emission_lines wq nl n0) in HDF by assumption.
  injection HDF as <-. cbn [Line norm_line Wavelength Flux Flux_err].
  assert (Hpos : (0 < n0)%Qc).
  { apply (In_nonneg_pos qs); [assumption| |assumption].
    apply (loc_Ok_In obs_emission_lines nl qs n0 H8). }
  split; [reflexivity|]. split; [reflexivity|]. split; [reflexivity|].
  split; [rewrite loc_map, H8, (Qcdiv_self n0 H9); reflexivity|].
  split; [|split].
  - apply Forall_map. eapply Forall_impl; [|exact H6]. simpl. intros q Hq.
    apply Qcdiv_nonneg; assumption.
  - apply Forall_map. eapply Forall_impl; [|exact H7]. simpl. intros q Hq.
    apply Qcdiv_pos; assumption.
  - exists n0. split; [exact Hpos|]. split; [rewrite loc_map, H8; reflexivity|].
    split; rewrite map_map; apply map_ext; intros x; f_equal; field; exact H9.
Qed.

Lemma observed_data_normalised_witness :
  _process_observed_data (map Finite ex_obs_fluxes) (map Finite ex_obs_errors)
                         ex_obs_lines None "Hbeta" = Ok ex_obs_table
  /\ Flux ex_obs_table = [1%Qc; Qc_of_Z 3; Q2Qc (5 # 2)]
  /\ loc (Line ex_obs_table) (Flux ex_obs_table) "Hbeta" = Ok 1%Qc.
Proof.
  assert (H : _process_observed_data (map Finite ex_obs_fluxes)
                (map Finite ex_obs_errors) ex_obs_lines None "Hbeta"
              = Ok ex_obs_table) by (vm_compute; reflexivity).
  split; [exact H|]. split.
  - vm_compute.
    repeat (apply (f_equal2 (@cons Qc)); [apply Qc_is_canon; reflexivity|]).
    reflexivity.
  - apply (observed_data_normalised _ _ _ _ _ _ H).
Defined.

Lemma existsb_map_ext {A B : Type} (f : B -> bool) (g : A -> B) (h : A -> bool)
    (l : list A) :
  (forall x, f (g x) = h x) -> existsb f (map g l) = existsb h l.
Proof.
  intros H. induction l as [|x l IH]; simpl; [reflexivity|].
  rewrite H, IH. reflexivity.
Qed.

Lemma Qcltb_scale (c x : Qc) : (0 < c)%Qc -> Qcltb (c * x) 0 = Qcltb x 0.
Proof.
  intros Hc. destruct (Qcltb x 0) eqn:E.
  - apply Qcltb_lt in E. apply Qcltb_lt. qc_to_q. nra.
  - apply Qcltb_ge in E. apply Qcltb_ge. qc_to_q. nra.
Qed.

Lemma Qcleb_scale (c x : Qc) : (0 < c)%Qc -> Qcleb (c * x) 0 = Qcleb x 0.
Proof.
  intros Hc. destruct (Qcleb x 0) eqn:E.
  - apply Qcleb_le in E. apply Qcleb_le. qc_to_q. nra.
  - apply Qcleb_gt in E. apply Qcleb_gt. qc_to_q. nra.
Qed.

Lemma Qc_eq_bool_scale (c x : Qc) :
  (0 < c)%Qc -> Qc_eq_bool (c * x) 0 = Qc_eq_bool x 0.
Proof.
  intros Hc. unfold Qc_eq_bool.
  destruct (Qc_eq_dec x 0) as [Hx|Hx]; destruct (Qc_eq_dec (c * x) 0) as [E|E];
    try reflexivity.
  - exfalso. apply E. rewrite Hx. ring.
  - exfalso. apply Qcmult_integral in E. destruct E as [E|E]; [|contradiction].
    subst c. apply (Qclt_not_eq _ _ Hc). reflexivity.
Qed.

(** Multiplying all fluxes and errors by one positive factor changes
    nothing in what [_process_observed_data] does. *)
Lemma process_scale (c : Qc) (qs es : list Qc) (lines : list string)
    (wl : option (list float)) (nl : string) :
  (0 < c)%Qc ->
  _process_observed_data (map Finite (map (Qcmult c) qs))
                         (map Finite (map (Qcmult c) es)) lines wl nl
  = _process_observed_data (map Finite qs) (map Finite es) lines wl nl.
Proof.
  intros Hc. unfold _process_observed_data. cbv zeta. rewrite !length_map.
  repeat match goal with
         | |- (if ?b then _ else _) = (if ?b then _ else _) =>
             destruct b; [reflexivity|]
         end.
  destruct (match wl with
            | Some w => w' <- check_wavelengths (length lines) w ;; Ok (Some w')
            | None => Ok None
            end) as [wq|e]; cbn [bind]; [|reflexivity].
  rewrite !finite_values_map.
  rewrite (existsb_map_ext _ (Qcmult c) (fun x => Qcltb x 0%Qc) qs)
    by (intros x; apply Qcltb_scale; exact Hc).
  rewrite (existsb_map_ext _ (Qcmult c) (fun x => Qcleb x 0%Qc) es)
    by (intros x; apply Qcleb_scale; exact Hc).
  destruct (existsb (fun x => Qcltb x 0%Qc) qs); cbn [bind]; [reflexivity|].
  destruct (existsb (fun x => Qcleb x 0%Qc) es); cbn [bind]; [reflexivity|].
  destruct (existsb (fun l => if string_dec l nl then true else false) lines);
    cbn [negb]; [|reflexivity].
  rewrite (loc_map (Qcmult c) lines nl qs).
  destruct (loc lines qs nl) as [n0|e]; cbn [bind]; [|reflexivity].
  rewrite (Qc_eq_bool_scale c n0 Hc).
  destruct (Qc_eq_bool n0 0%Qc) eqn:E; [reflexivity|].
  apply Qc_eq_bool_false in E.
  assert (Hcne : c <> 0%Qc) by (intros ->; apply (Qclt_not_eq _ _ Hc); reflexivity).
  rewrite !map_map.
  assert (Hext : forall l : list Qc,
             map (fun x => (c * x / (c * n0))%Qc) l = map (fun x => (x / n0)%Qc) l)
    by (intros l; apply map_ext; intros x; field; split; assumption).
  rewrite !Hext. reflexivity.
Qed.

(** X18 (scale invariance).  The table depends on the observed fluxes and
    errors only up to a common positive factor: the same observations in
    other units give the same table, and fail the same check when they
    fail. *)
Theorem observed_data_scale_invariant
    (c : Qc) (fluxes errors : list Qc) (obs_emission_lines : list string)
    (obs_wavelengths : option (list float)) (norm_line : string) :
  (0 < c)%Qc ->
  _process_observed_data (map Finite (map (Qcmult c) fluxes))
                         (map Finite (map (Qcmult c) errors))
                         obs_emission_lines obs_wavelengths norm_line
  = _process_observed_data (map Finite fluxes) (map Finite errors)
                           obs_emission_lines obs_wavelengths norm_line.
Proof. intros Hc. apply process_scale. exact Hc. Qed.

Lemma observed_data_scale_invariant_witness :
  _process_observed_data (map Finite (map (Qcmult (Qc_of_Z 7)) ex_obs_fluxes))
                         (map Finite (map (Qcmult (Qc_of_Z 7)) ex_obs_errors))
                         ex_obs_lines None "OIII5007"
  = _process_observed_data (map Finite ex_obs_fluxes) (map Finite ex_obs_errors)
                           ex_obs_lines None "OIII5007".
Proof.
  apply (observed_data_scale_invariant (Qc_of_Z 7)). reflexivity.
Defined.

(** X19 (normalising again).  Processing a returned table once more, for any
    normalising line, gives what processing the observations themselves for
    that line gives; with the same line the table comes back unchanged. *)
Theorem observed_data_renormalise
    (obs_fluxes obs_flux_errors : list float) (obs_emission_lines : list string)
    (obs_wavelengths : option (list float)) (norm_line norm_line' : string)
    (DF : DataFrame_obs) :
  _process_observed_data obs_fluxes obs_flux_errors obs_emission_lines
                         obs_wavelengths norm_line = Ok DF ->
  _process_observed_data (map Finite (Flux DF)) (map Finite (Flux_err DF))
                         obs_emission_lines obs_wavelengths norm_line'
  = _process_observed_data obs_fluxes obs_flux_errors obs_emission_lines
                           obs_wavelengths norm_line'
  /\ _process_observed_data (map Finite (Flux DF)) (map Finite (Flux_err DF))
                            obs_emission_lines obs_wavelengths norm_line
     = Ok DF.
Proof.
  intros HDF.
  destruct (process_cases obs_fluxes obs_flux_errors obs_emission_lines
              obs_wavelengths norm_line)
    as [[msg Hfail]|[qs [es [wq [n0 [Ef [Ee [Ew [H1 [H2 [H3 [H4 [H5 [H6 [H7 [H8 H9]]]]]]]]]]]]]]]];
    [congruence|].
  subst obs_fluxes obs_flux_errors obs_wavelengths.
  assert (Hpos : (0 < n0)%Qc).
  { apply (In_nonneg_pos qs); [assumption| |assumption].
    apply (loc_Ok_In obs_emission_lines norm_line qs n0 H8). }
  assert (Hinv : (0 < / n0)%Qc).
  { replace (/ n0)%Qc with (1 / n0)%Qc by (field; exact H9).
    apply Qcdiv_pos; [reflexivity|exact Hpos]. }
  assert (Hscale : forall nl',
             _process_observed_data (map Finite (Flux DF)) (map Finite (Flux_err DF))
                                    obs_emission_lines (option_map (map Finite) wq) nl'
             = _process_observed_data (map Finite qs) (map Finite es)
                                      obs_emission_lines (option_map (map Finite) wq) nl').
  { intros nl'.
    rewrite (process_closed qs es obs_emission_lines wq norm_line n0) in HDF
      by assumption.
    injection HDF as <-. cbn [Flux Flux_err].
    assert (Hext : forall l : list Qc,
               map (fun x => (x / n0)%Qc) l = map (Qcmult (/ n0)) l)
      by (intros l; apply map_ext; intros x; field; exact H9).
    rewrite !Hext. apply process_scale. exact Hinv. }
  split; [apply Hscale|]. rewrite Hscale. exact HDF.
Qed.

Lemma observed_data_renormalise_witness :
  _process_observed_data (map Finite (Flux ex_obs_table))
                         (map Finite (Flux_err ex_obs_table))
                         ex_obs_lines None "Halpha"
  = _process_observed_data (map Finite ex_obs_fluxes) (map Finite ex_obs_errors)
                           ex_obs_lines None "Halpha"
  /\ _process_observed_data (map Finite (Flux ex_obs_table))
                            (map Finite (Flux_err ex_obs_table))
                            ex_obs_lines None "Hbeta"
     = Ok ex_obs_table.
Proof.
  apply (observed_data_renormalise (map Finite ex_obs_fluxes)
           (map Finite ex_obs_errors) ex_obs_lines None "Hbeta" "Halpha").
  vm_compute. reflexivity.
Defined.

(** ** The raw grids *)

Lemma col_index_In (cols : list string) (c : string) :
  In c cols ->
  exists j, col_index cols c = Ok j /\ nth_error cols j = Some c
            /\ j < length cols.
Proof.
  induction cols as [|c' cols IH]; intros H; [contradiction|]. simpl.
  destruct (string_dec c' c) as [->|Hne].
  - exists 0. repeat split; simpl; lia.
  - destruct H as [E|H]; [contradiction|].
    destruct (IH H) as [j [Hj [Hn Hlt]]]. exists (S j). rewrite Hj.
    repeat split; simpl; [assumption|lia].
Qed.

Lemma col_index_notin (cols : list string) (c : string) :
  ~ In c cols -> col_index cols c = Raise KeyError.
Proof.
  induction cols as [|c' cols IH]; intros H; [reflexivity|]. simpl.
  destruct (string_dec c' c) as [E|Hne]; [exfalso; apply H; left; exact E|].
  rewrite IH; [reflexivity|]. intros Hin. apply H. right. exact Hin.
Qed.

Lemma cell_value (cols : list string) (row : list Qc) (c : string) (j : nat) :
  length row = length cols -> col_index cols c = Ok j -> j < length cols ->
  cell row j = Ok (row_value cols row c).
Proof.
  intros Hl Hj Hlt. unfold cell, row_value. rewrite Hj.
  rewrite (nth_error_nth' row 0%Qc) by lia. reflexivity.
Qed.

Section TableFacts.
Variable DF : DataFrame.
Hypothesis Hwf : df_wf DF.

Lemma df_column_closed (c : string) :
  In c (df_columns DF) -> df_column DF c = Ok (column_values DF c).
Proof.
  intros Hin. destruct (col_index_In _ _ Hin) as [j [Hj [_ Hlt]]].
  unfold df_column, column_values. rewrite Hj. cbn [bind].
  apply mapM_pure. intros row Hrow. destruct Hwf as [_ Hrect].
  rewrite Forall_forall in Hrect.
  apply (cell_value (df_columns DF) row c j); [apply Hrect; exact Hrow|assumption..].
Qed.

Lemma df_column_missing (c : string) :
  ~ In c (df_columns DF) -> df_column DF c = Raise KeyError.
Proof.
  intros H. unfold df_column. rewrite (col_index_notin _ _ H). reflexivity.
Qed.

Lemma df_select_closed (cs : list string) :
  incl cs (df_columns DF) ->
  df_select DF cs
  = Ok {| df_columns := cs;
          df_rows := map (fun row => map (row_value (df_columns DF) row) cs)
                         (df_rows DF) |}.
Proof.
  intros Hincl. unfold df_select.
  assert (Hjs : exists js,
             mapM (col_index (df_columns DF)) cs = Ok js
             /\ Forall2 (fun c j => col_index (df_columns DF) c = Ok j
                                    /\ j < length (df_columns DF)) cs js).
  { induction cs as [|c cs IH].
    - exists []. split; [reflexivity|constructor].
    - destruct IH as [js [Hjs HF]]; [intros x Hx; apply Hincl; right; exact Hx|].
      destruct (col_index_In (df_columns DF) c) as [j [Hj [_ Hlt]]];
        [apply Hincl; left; reflexivity|].
      exists (j :: js). cbn [mapM]. rewrite Hj. cbn [bind]. rewrite Hjs.
      split; [reflexivity|]. constructor; auto. }
  destruct Hjs as [js [Hjs HF]]. rewrite Hjs. cbn [bind].
  rewrite (mapM_pure _ (fun row => map (row_value (df_columns DF) row) cs));
    [reflexivity|].
  intros row Hrow. destruct Hwf as [_ Hrect]. rewrite Forall_forall in Hrect.
  specialize (Hrect row Hrow). clear Hjs.
  induction HF as [|c j cs js [Hj Hlt] _ IH]; [reflexivity|].
  cbn [mapM map]. rewrite (cell_value (df_columns DF) row c j Hrect Hj Hlt).
  cbn [bind]. rewrite IH; [reflexivity|].
  intros x Hx. apply Hincl. right. exact Hx.
Qed.

Lemma df_select_missing (cs : list string) :
  ~ incl cs (df_columns DF) -> df_select DF cs = Raise KeyError.
Proof.
  intros H. unfold df_select.
  rewrite (mapM_raises _ KeyError); [reflexivity| |].
  - intros c _. destruct (in_dec string_dec c (df_columns DF)) as [Hin|Hnin].
    + left. destruct (col_index_In _ _ Hin) as [j [Hj _]]. exists j. exact Hj.
    + right. apply col_index_notin. exact Hnin.
  - assert (Hex : Exists (fun c => ~ In c (df_columns DF)) cs).
    { apply neg_Forall_Exists_neg.
      - intros c. apply (in_dec string_dec).
      - intros HF. apply H. intros c Hc. rewrite Forall_forall in HF. auto. }
    apply Exists_exists in Hex. destruct Hex as [c [Hc Hnin]].
    exists c. split; [exact Hc|]. apply col_index_notin. exact Hnin.
Qed.
End TableFacts.

(** [np.unique] and [np.sort]. *)

Lemma insert_unique_In (x y : Qc) (l : list Qc) :
  In y (insert_unique x l) <-> y = x \/ In y l.
Proof.
  induction l as [|z l IH]; simpl.
  - split; [intros [H|[]]; auto|intros [H|[]]; auto].
  - destruct (Qcltb x z) eqn:E1; [simpl; intuition congruence|].
    destruct (Qc_eq_bool x z) eqn:E2.
    + apply Qc_eq_bool_correct in E2. subst z. simpl. intuition congruence.
    + simpl. rewrite IH. intuition congruence.
Qed.

Lemma insert_unique_sorted (x : Qc) (l : list Qc) :
  Sorted Qclt l -> Sorted Qclt (insert_unique x l).
Proof.
  induction l as [|z l IH]; intros Hs; simpl.
  - repeat constructor.
  - destruct (Qcltb x z) eqn:E1.
    + apply Qcltb_lt in E1. constructor; [exact Hs|constructor; exact E1].
    + destruct (Qc_eq_bool x z) eqn:E2; [exact Hs|].
      apply Qcltb_ge in E1. apply Qc_eq_bool_false in E2.
      assert (Hlt : (z < x)%Qc).
      { apply Qcle_lt_or_eq in E1. destruct E1 as [H|H]; [exact H|congruence]. }
      inversion Hs as [|? ? Hs' Hhd]; subst.
      constructor; [apply IH; exact Hs'|].
      destruct l as [|w l]; simpl; [constructor; exact Hlt|].
      inversion Hhd as [|? ? Hzw]; subst.
      destruct (Qcltb x w); [constructor; exact Hlt|].
      destruct (Qc_eq_bool x w); constructor; exact Hzw.
Qed.

Lemma np_unique_sorted (l : list Qc) : Sorted Qclt (np_unique l).
Proof.
  induction l as [|x l IH]; simpl; [constructor|].
  apply insert_unique_sorted. exact IH.
Qed.

Lemma np_unique_In (l : list Qc) (y : Qc) : In y (np_unique l) <-> In y l.
Proof.
  induction l as [|x l IH]; simpl; [reflexivity|].
  rewrite insert_unique_In, IH. intuition congruence.
Qed.

Lemma np_sort_sorted (l : list Qc) : Sorted Qclt l -> np_sort l = l.
Proof.
  induction l as [|x l IH]; intros Hs; [reflexivity|].
  inversion Hs as [|? ? Hs' Hhd]; subst. simpl.
  change (fold_right insert_sorted [] l) with (np_sort l). rewrite IH by exact Hs'.
  destruct l as [|y l]; [reflexivity|]. simpl.
  inversion Hhd as [|? ? Hxy]; subst.
  apply Qclt_le_weak in Hxy. apply Qcleb_le in Hxy. rewrite Hxy. reflexivity.
Qed.

Lemma Sorted_Qclt_NoDup (l : list Qc) : Sorted Qclt l -> NoDup l.
Proof.
  intros Hs. apply NoDup_nth_error. intros i j Hi E.
  destruct (Nat.lt_trichotomy i j) as [Hlt|[Heq|Hgt]]; [|exact Heq|].
  - exfalso.
    assert (Hj : j < length l).
    { apply nth_error_Some. rewrite <- E. apply nth_error_Some. exact Hi. }
    pose proof (sorted_nth_lt l Hs i j (conj Hlt Hj)) as H.
    rewrite (nth_error_nth' l 0%Qc Hi), (nth_error_nth' l 0%Qc Hj) in E.
    injection E as E. rewrite E in H. apply (Qclt_not_eq _ _ H). reflexivity.
  - exfalso.
    assert (Hj : j < length l) by lia.
    pose proof (sorted_nth_lt l Hs j i (conj Hgt Hi)) as H.
    rewrite (nth_error_nth' l 0%Qc Hi), (nth_error_nth' l 0%Qc Hj) in E.
    injection E as E. rewrite E in H. apply (Qclt_not_eq _ _ H). reflexivity.
Qed.

Lemma index_of_spec (v : Qc) (a : list Qc) :
  In v a -> nth_error a (index_of v a) = Some v /\ index_of v a < length a.
Proof.
  induction a as [|x a IH]; intros H; [contradiction|]. simpl.
  unfold Qc_eq_bool. destruct (Qc_eq_dec x v) as [->|Hne].
  - split; [reflexivity|lia].
  - destruct H as [E|H]; [contradiction|]. destruct (IH H). split; [assumption|lia].
Qed.

Lemma index_of_nth (a : list Qc) (i : nat) (v : Qc) :
  NoDup a -> nth_error a i = Some v -> index_of v a = i.
Proof.
  intros Hnd Hi.
  assert (Hin : In v a) by (eapply nth_error_In; exact Hi).
  destruct (index_of_spec v a Hin) as [H Hlt].
  rewrite NoDup_nth_error in Hnd. apply Hnd; [exact Hlt|congruence].
Qed.

Lemma assoc_last_tabulate {V : Type} (f : string -> V) (cs : list string)
    (c : string) :
  In c cs -> assoc_last string_dec (map (fun c => (c, f c)) cs) c = Some (f c).
Proof.
  induction cs as [|c' cs IH]; intros H; [contradiction|]. simpl.
  destruct (in_dec string_dec c cs) as [Hin|Hnin].
  - rewrite (IH Hin). reflexivity.
  - assert (E : assoc_last string_dec (map (fun c => (c, f c)) cs) c = None).
    { apply assoc_last_none. rewrite map_map. cbn [fst]. rewrite map_id. exact Hnin. }
    rewrite E. destruct H as [->|H]; [|contradiction].
    destruct (string_dec c c); [reflexivity|congruence].
Qed.

Lemma combine_tabulate {A B : Type} (f : A -> B) (l : list A) :
  combine l (map f l) = map (fun x => (x, f x)) l.
Proof. induction l as [|x l IH]; simpl; [reflexivity|]. f_equal. exact IH. Qed.

(** [dict(zip(columns, row_tuple))[c]]. *)
Lemma row_vals_get (f : string -> Qc) (cs : list string) (c : string) :
  In c cs ->
  od_get string_dec (od_of_list string_dec (combine cs (map f cs))) c = Ok (f c).
Proof.
  intros H. unfold od_of_list. rewrite od_get_fold, combine_tabulate.
  rewrite (assoc_last_tabulate f cs c H). reflexivity.
Qed.

Lemma setitem_closed (a : farray) (inds : list nat) (v : float) :
  Forall2 (fun i d => i < d) inds (fshape a) ->
  setitem a inds v
  = Ok {| fshape := fshape a;
          fdata := list_update (fdata a) (ravel (fshape a) inds) v |}.
Proof.
  intros H. unfold setitem.
  rewrite (Forall2_length H), Nat.eqb_refl. cbn [andb].
  replace (forallb (fun id => fst id <? snd id) (combine inds (fshape a)))
    with true; [reflexivity|].
  symmetry. induction H as [|i d inds shp Hid _ IH]; [reflexivity|].
  cbn [combine forallb fst snd]. rewrite IH.
  apply Nat.ltb_lt in Hid. rewrite Hid. reflexivity.
Qed.

Lemma foldM_map {A B S : Type} (f : S -> B -> result S) (h : A -> B)
    (l : list A) :
  forall s : S, foldM f (map h l) s = foldM (fun s x => f s (h x)) l s.
Proof.
  induction l as [|x l IH]; intros s; [reflexivity|]. cbn [map foldM].
  destruct (f s (h x)); cbn [bind]; [apply IH|reflexivity].
Qed.

Lemma fold_set_const {V : Type} (c : V) (ls : list string) :
  forall acc : od string V,
    NoDup (map fst acc ++ ls) ->
    fold_left (fun g l => od_set string_dec g l c) ls acc
    = acc ++ map (fun l => (l, c)) ls.
Proof.
  induction ls as [|l ls IH]; intros acc Hnd; simpl.
  - rewrite app_nil_r. reflexivity.
  - rewrite od_set_fresh.
    + rewrite IH.
      * rewrite <- app_assoc. reflexivity.
      * rewrite map_app, <- app_assoc. exact Hnd.
    + apply NoDup_remove_2 in Hnd. intros Hin. apply Hnd. apply in_or_app.
      left. exact Hin.
Qed.

(** The dictionary of flux arrays while it is being filled: one array of
    the shape of the grid per line, with data [D line]. *)

Lemma tab_get (shp : list nat) (lines : list string) (D : string -> list float)
    (l : string) :
  NoDup lines -> In l lines ->
  od_get string_dec
         (map (fun line => (line, {| fshape := shp; fdata := D line |})) lines) l
  = Ok {| fshape := shp; fdata := D l |}.
Proof.
  intros Hnd H. apply od_get_In.
  - rewrite map_map. cbn [fst]. rewrite map_id. exact Hnd.
  - apply in_map_iff. exists l. auto.
Qed.

Lemma tab_set (shp : list nat) (lines : list string) (D : string -> list float)
    (l : string) (d : list float) :
  NoDup lines -> In l lines ->
  od_set string_dec
         (map (fun line => (line, {| fshape := shp; fdata := D line |})) lines)
         l {| fshape := shp; fdata := d |}
  = map (fun line => (line, {| fshape := shp;
                               fdata := if string_dec line l then d
                                        else D line |})) lines.
Proof.
  induction lines as [|x ls IH]; intros Hnd Hin; [contradiction|].
  inversion Hnd as [|? ? Hx Hnd']; subst.
  cbn [map od_set]. destruct (string_dec x l) as [->|Hne].
  - f_equal. apply map_ext_in. intros y Hy.
    destruct (string_dec y l) as [->|_]; [contradiction|reflexivity].
  - f_equal. destruct Hin as [E|Hin]; [contradiction|]. apply IH; assumption.
Qed.

Lemma last_position_unique (a : list Qc) (v : Qc) :
  NoDup a -> In v a -> last_position a v (index_of v a).
Proof.
  intros Hnd Hin. destruct (index_of_spec v a Hin) as [H Hlt]. split; [exact H|].
  intros i' Hi' E. rewrite NoDup_nth_error in Hnd.
  assert (index_of v a = i'); [|lia]. apply Hnd; [exact Hlt|congruence].
Qed.

Lemma raw_axes_step (DF : DataFrame) (Hwf : df_wf DF) (grid_params : list string) :
  incl grid_params (df_columns DF) ->
  mapM (fun p => col <- df_column DF p ;; Ok (np_sort (np_unique col)))
       grid_params
  = Ok (raw_axes DF grid_params).
Proof.
  intros Hpin. apply mapM_pure. intros p Hp.
  rewrite (df_column_closed DF Hwf p (Hpin p Hp)). cbn [bind].
  rewrite np_sort_sorted by apply np_unique_sorted. reflexivity.
Qed.

Section RawClosed.
Variables (DF : DataFrame) (grid_params lines_list : list string) (G : NB_Grid).
Hypothesis Hwf : df_wf DF.
Hypothesis Hparams : NoDup grid_params.
Hypothesis Hlines : NoDup lines_list.
Hypothesis Hpin : incl grid_params (df_columns DF).
Hypothesis Hlin : incl lines_list (df_columns DF).
Hypothesis HG : NB_Grid_init grid_params (raw_axes DF grid_params) = Ok G.

Lemma value_lookup (row : list Qc) (p : string) :
  In row (df_rows DF) -> In p grid_params ->
  od_get name_value_dec (paramNameAndValue2arrayInd G)
         (p, row_value (df_columns DF) row p)
  = Ok (index_of (row_value (df_columns DF) row p)
                 (np_unique (column_values DF p))).
Proof.
  intros Hrow Hp. apply In_nth_error in Hp. destruct Hp as [j Hj].
  assert (Ha : nth_error (raw_axes DF grid_params) j
               = Some (np_unique (column_values DF p)))
    by (unfold raw_axes; rewrite nth_error_map, Hj; reflexivity).
  rewrite (value_index_closed grid_params (raw_axes DF grid_params) G j p _ _
             Hparams HG Hj Ha).
  rewrite (proj2 (value_writes_last p (np_unique (column_values DF p))
                    (row_value (df_columns DF) row p)
                    (index_of (row_value (df_columns DF) row p)
                              (np_unique (column_values DF p)))));
    [reflexivity|].
  apply last_position_unique.
  - apply Sorted_Qclt_NoDup. apply np_unique_sorted.
  - apply np_unique_In. unfold column_values.
    apply (in_map (fun row => row_value (df_columns DF) row p)). exact Hrow.
Qed.

Lemma row_indices (row : list Qc) :
  In row (df_rows DF) ->
  mapM (fun p =>
          v <- od_get string_dec
                      (od_of_list string_dec
                         (combine (grid_params ++ lines_list)
                                  (map (row_value (df_columns DF) row)
                                       (grid_params ++ lines_list)))) p ;;
          od_get name_value_dec (paramNameAndValue2arrayInd G) (p, v))
       grid_params
  = Ok (row_index DF grid_params row).
Proof.
  intros Hrow. apply mapM_pure. intros p Hp.
  rewrite row_vals_get by (apply in_or_app; left; exact Hp). cbn [bind].
  apply value_lookup; assumption.
Qed.

Lemma row_index_bounds (row : list Qc) :
  In row (df_rows DF) ->
  Forall2 (fun i d => i < d) (row_index DF grid_params row)
          (raw_shape DF grid_params).
Proof.
  intros Hrow. unfold row_index, raw_shape, raw_axes. rewrite map_map.
  apply Forall2_map_same. intros p Hp. apply index_of_spec.
  apply np_unique_In. unfold column_values.
  apply (in_map (fun row => row_value (df_columns DF) row p)). exact Hrow.
Qed.

Lemma fill_row (row : list Qc) (inds : list nat) :
  Forall2 (fun i d => i < d) inds (raw_shape DF grid_params) ->
  forall (ls : list string) (D : string -> list float),
    NoDup ls -> incl ls lines_list ->
    foldM (fun g line =>
             v <- od_get string_dec
                         (od_of_list string_dec
                            (combine (grid_params ++ lines_list)
                                     (map (row_value (df_columns DF) row)
                                          (grid_params ++ lines_list)))) line ;;
             a <- od_get string_dec g line ;;
             a' <- setitem a inds (Finite v) ;;
             Ok (od_set string_dec g line a'))
          ls
          (map (fun line => (line, {| fshape := raw_shape DF grid_params;
                                      fdata := D line |})) lines_list)
    = Ok (map (fun line =>
                 (line,
                  {| fshape := raw_shape DF grid_params;
                     fdata := if in_dec string_dec line ls
                              then list_update (D line)
                                     (ravel (raw_shape DF grid_params) inds)
                                     (Finite (row_value (df_columns DF) row line))
                              else D line |}))
              lines_list).
Proof.
  intros Hinds. induction ls as [|l ls IH]; intros D Hnd Hincl.
  - reflexivity.
  - inversion Hnd as [|? ? Hl Hnd']; subst.
    assert (Hin : In l lines_list) by (apply Hincl; left; reflexivity).
    cbn [foldM].
    rewrite row_vals_get by (apply in_or_app; right; exact Hin). cbn [bind].
    rewrite (tab_get _ lines_list D l Hlines Hin). cbn [bind].
    rewrite setitem_closed by exact Hinds. cbn [bind fshape fdata].
    rewrite (tab_set _ lines_list D l _ Hlines Hin).
    rewrite IH; [|exact Hnd'|intros x Hx; apply Hincl; right; exact Hx].
    f_equal. apply map_ext. intros x. f_equal. f_equal.
    destruct (in_dec string_dec x ls) as [Hx|Hx];
      destruct (in_dec string_dec x (l :: ls)) as [Hx'|Hx'];
      destruct (string_dec x l) as [->|Hne]; try reflexivity.
    + contradiction.
    + exfalso. apply Hx'. right. exact Hx.
    + exfalso. apply Hx'. right. exact Hx.
    + destruct Hx' as [E|Hx']; [congruence|contradiction].
    + exfalso. apply Hx'. left. reflexivity.
Qed.

Lemma fill_rows (rs : list (list Qc)) :
  incl rs (df_rows DF) ->
  forall D : string -> list float,
    foldM (fun g row_tuple =>
             row_p_inds <-
               mapM (fun p =>
                       v <- od_get string_dec
                                   (od_of_list string_dec
                                      (combine (grid_params ++ lines_list)
                                               row_tuple)) p ;;
                       od_get name_value_dec
                              (paramNameAndValue2arrayInd G) (p, v))
                    grid_params ;;
             foldM (fun g line =>
                      v <- od_get string_dec
                                  (od_of_list string_dec
                                     (combine (grid_params ++ lines_list)
                                              row_tuple)) line ;;
                      a <- od_get string_dec g line ;;
                      a' <- setitem a row_p_inds (Finite v) ;;
                      Ok (od_set string_dec g line a'))
                   lines_list g)
          (map (fun row => map (row_value (df_columns DF) row)
                               (grid_params ++ lines_list)) rs)
          (map (fun line => (line, {| fshape := raw_shape DF grid_params;
                                      fdata := D line |})) lines_list)
    = Ok (map (fun line =>
                 (line,
                  {| fshape := raw_shape DF grid_params;
                     fdata :=
                       fold_left
                         (fun d row =>
                            list_update d
                              (ravel (raw_shape DF grid_params)
                                     (row_index DF grid_params row))
                              (Finite (row_value (df_columns DF) row line)))
                         rs (D line) |}))
              lines_list).
Proof.
  induction rs as [|row rs IH]; intros Hincl D; [reflexivity|].
  assert (Hrow : In row (df_rows DF)) by (apply Hincl; left; reflexivity).
  cbn [map foldM fold_left].
  rewrite (row_indices row Hrow). cbn [bind].
  rewrite (fill_row row _ (row_index_bounds row Hrow) lines_list D Hlines)
    by (intros x Hx; exact Hx).
  cbn [bind]. rewrite IH by (intros x Hx; apply Hincl; right; exact Hx).
  f_equal. apply map_ext_in. intros l Hl.
  destruct (in_dec string_dec l lines_list) as [_|Hn]; [reflexivity|contradiction].
Qed.

(** What [construct_raw_grids] does on a table with the columns it needs,
    once the description of the grid is built and the table has one row per
    grid point. *)
Lemma construct_closed :
  np_prod (raw_shape DF grid_params) = length (df_rows DF) ->
  construct_raw_grids DF grid_params lines_list
  = match lines_list with
    | [] => Raise IndexError
    | _ :: _ =>
        Ok (G, map (fun line => (line, raw_array DF grid_params line)) lines_list)
    end.
Proof.
  intros Hcount. unfold construct_raw_grids.
  rewrite (raw_axes_step DF Hwf grid_params Hpin).
  cbn [bind]. rewrite HG. cbn [bind].
  destruct (NB_Grid_init_fields _ _ _ Hparams HG)
    as [_ [_ [Hshape [Hn _]]]].
  fold (raw_shape DF grid_params) in Hshape, Hn.
  rewrite Hn, Hcount, Nat.eqb_refl. cbn [negb]. cbv zeta.
  rewrite (df_select_closed DF Hwf (grid_params ++ lines_list))
    by (apply incl_app; assumption).
  cbn [bind df_rows]. rewrite Hshape.
  rewrite (fold_set_const (nan_array (raw_shape DF grid_params)) lines_list [])
    by exact Hlines.
  cbn [app]. unfold nan_array.
  rewrite (fill_rows (df_rows DF) (fun x Hx => Hx)
             (fun _ => repeat NaN (np_prod (raw_shape DF grid_params)))).
  cbn [bind].
  destruct lines_list as [|l0 ls]; [reflexivity|].
  rewrite (getitem_nat _ 0%Z l0) by (cbn [length]; lia). cbn [bind].
  change (nth (Z.to_nat 0) (l0 :: ls) l0) with l0.
  rewrite (tab_get _ (l0 :: ls) _ l0 Hlines) by (left; reflexivity).
  reflexivity.
Qed.
End RawClosed.

Lemma np_unique_nil (l : list Qc) : np_unique l = [] <-> l = [].
Proof.
  split; [|intros ->; reflexivity]. intros H.
  destruct l as [|x l]; [reflexivity|]. exfalso.
  assert (Hin : In x (np_unique (x :: l))) by (apply np_unique_In; left; reflexivity).
  rewrite H in Hin. exact Hin.
Qed.

Lemma raw_axes_nonempty (DF : DataFrame) (grid_params : list string) :
  grid_params = [] \/ df_rows DF <> [] ->
  Forall (fun a => a <> []) (raw_axes DF grid_params).
Proof.
  intros [->|H]; [constructor|]. unfold raw_axes. apply Forall_map.
  apply Forall_forall. intros p _ E. apply (proj1 (np_unique_nil _)) in E.
  unfold column_values in E. apply map_eq_nil in E. contradiction.
Qed.

Lemma raw_axes_empty (DF : DataFrame) (grid_params : list string) :
  grid_params <> [] -> df_rows DF = [] ->
  Exists (fun a => a = []) (raw_axes DF grid_params).
Proof.
  intros Hp Hr. destruct grid_params as [|p ps]; [congruence|].
  left. unfold column_values. rewrite Hr. reflexivity.
Qed.

Section RawOutcomes.
Variables (DF : DataFrame) (grid_params lines_list : list string).
Hypothesis Hwf : df_wf DF.
Hypothesis Hparams : NoDup grid_params.
Hypothesis Hlines : NoDup lines_list.

Lemma construct_missing_param :
  ~ incl grid_params (df_columns DF) ->
  construct_raw_grids DF grid_params lines_list = Raise KeyError.
Proof.
  intros H. unfold construct_raw_grids.
  rewrite (mapM_raises _ KeyError); [reflexivity| |].
  - intros p _. destruct (in_dec string_dec p (df_columns DF)) as [Hin|Hnin].
    + left. rewrite (df_column_closed DF Hwf p Hin). eexists. reflexivity.
    + right. rewrite (df_column_missing DF p Hnin). reflexivity.
  - assert (Hex : Exists (fun c => ~ In c (df_columns DF)) grid_params).
    { apply neg_Forall_Exists_neg.
      - intros c. apply (in_dec string_dec).
      - intros HF. apply H. intros c Hc. rewrite Forall_forall in HF. auto. }
    apply Exists_exists in Hex. destruct Hex as [c [Hc Hnin]].
    exists c. split; [exact Hc|]. rewrite (df_column_missing DF c Hnin). reflexivity.
Qed.

Lemma construct_no_rows :
  incl grid_params (df_columns DF) ->
  grid_params <> [] -> df_rows DF = [] ->
  is_ValueError (construct_raw_grids DF grid_params lines_list).
Proof.
  intros Hpin Hp Hr. unfold construct_raw_grids.
  rewrite (raw_axes_step DF Hwf grid_params Hpin). cbn [bind].
  rewrite (NB_Grid_init_empty_array grid_params (raw_axes DF grid_params) Hparams).
  - eexists. reflexivity.
  - unfold raw_axes. rewrite length_map. reflexivity.
  - apply raw_axes_empty; assumption.
Qed.

Lemma raw_description_built :
  grid_params = [] \/ df_rows DF <> [] ->
  exists G, NB_Grid_init grid_params (raw_axes DF grid_params) = Ok G.
Proof.
  intros H. apply NB_Grid_init_returns.
  - unfold raw_axes. rewrite length_map. reflexivity.
  - apply raw_axes_nonempty. exact H.
Qed.

Lemma construct_wrong_count :
  incl grid_params (df_columns DF) ->
  grid_params = [] \/ df_rows DF <> [] ->
  np_prod (raw_shape DF grid_params) <> length (df_rows DF) ->
  is_ValueError (construct_raw_grids DF grid_params lines_list).
Proof.
  intros Hpin Hr Hcount. destruct (raw_description_built Hr) as [G HG].
  unfold construct_raw_grids.
  rewrite (raw_axes_step DF Hwf grid_params Hpin). cbn [bind].
  rewrite HG. cbn [bind].
  destruct (NB_Grid_init_fields _ _ _ Hparams HG) as [_ [_ [_ [Hn _]]]].
  fold (raw_shape DF grid_params) in Hn. rewrite Hn.
  apply Nat.eqb_neq in Hcount. rewrite Hcount. eexists. reflexivity.
Qed.

Lemma construct_missing_line :
  incl grid_params (df_columns DF) ->
  grid_params = [] \/ df_rows DF <> [] ->
  np_prod (raw_shape DF grid_params) = length (df_rows DF) ->
  ~ incl lines_list (df_columns DF) ->
  construct_raw_grids DF grid_params lines_list = Raise KeyError.
Proof.
  intros Hpin Hr Hcount Hl. destruct (raw_description_built Hr) as [G HG].
  unfold construct_raw_grids.
  rewrite (raw_axes_step DF Hwf grid_params Hpin). cbn [bind].
  rewrite HG. cbn [bind].
  destruct (NB_Grid_init_fields _ _ _ Hparams HG) as [_ [_ [_ [Hn _]]]].
  fold (raw_shape DF grid_params) in Hn.
  rewrite Hn, Hcount, Nat.eqb_refl. cbn [negb]. cbv zeta.
  rewrite (df_select_missing DF (grid_params ++ lines_list)); [reflexivity|].
  intros H. apply Hl. intros c Hc. apply H. apply in_or_app. right. exact Hc.
Qed.

Lemma incl_string_dec (l1 l2 : list string) : {incl l1 l2} + {~ incl l1 l2}.
Proof.
  destruct (Forall_Exists_dec (fun c => In c l2)
              (fun c => in_dec string_dec c l2) l1) as [H|H].
  - left. intros c Hc. rewrite Forall_forall in H. auto.
  - right. intros Hincl. apply Exists_exists in H. destruct H as [c [Hc Hn]].
    apply Hn. apply Hincl. exact Hc.
Qed.

End RawOutcomes.

(** A returned raw grid is the closed form, and the table met every
    condition on the way. *)
Lemma construct_inv (DF : DataFrame) (grid_params lines_list : list string)
    (G : NB_Grid) (grids : od string farray) :
  df_wf DF -> NoDup grid_params -> NoDup lines_list ->
  construct_raw_grids DF grid_params lines_list = Ok (G, grids) ->
  incl grid_params (df_columns DF) /\ incl lines_list (df_columns DF)
  /\ lines_list <> [] /\ (grid_params = [] \/ df_rows DF <> [])
  /\ NB_Grid_init grid_params (raw_axes DF grid_params) = Ok G
  /\ np_prod (raw_shape DF grid_params) = length (df_rows DF)
  /\ grids = map (fun line => (line, raw_array DF grid_params line)) lines_list.
Proof.
  intros Hwf Hparams Hlines H.
  destruct (incl_string_dec grid_params (df_columns DF)) as [Hpin|Hpin];
    [|rewrite (construct_missing_param DF grid_params lines_list Hwf Hpin) in H;
      discriminate].
  assert (Hr : grid_params = [] \/ df_rows DF <> []).
  { destruct (list_eq_dec string_dec grid_params []) as [Ep|Ep]; [left; exact Ep|].
    right. intros Er.
    destruct (construct_no_rows DF grid_params lines_list Hwf Hparams Hpin Ep Er)
      as [msg Hm]. congruence. }
  destruct (Nat.eq_dec (np_prod (raw_shape DF grid_params)) (length (df_rows DF)))
    as [Hcount|Hcount];
    [|destruct (construct_wrong_count DF grid_params lines_list Hwf Hparams
                  Hpin Hr Hcount) as [msg Hm]; congruence].
  destruct (incl_string_dec lines_list (df_columns DF)) as [Hlin|Hlin];
    [|rewrite (construct_missing_line DF grid_params lines_list Hwf Hparams
                 Hpin Hr Hcount Hlin) in H; discriminate].
  destruct (raw_description_built DF grid_params Hr) as [G' HG'].
  rewrite (construct_closed DF grid_params lines_list G' Hwf Hparams Hlines
             Hpin Hlin HG' Hcount) in H.
  destruct lines_list as [|l0 ls]; [discriminate|].
  injection H as <- <-. repeat split; try assumption. discriminate.
Qed.

(** Assignments into a flat array. *)

Lemma list_update_length {A : Type} (l : list A) (k : nat) (v : A) :
  length (list_update l k v) = length l.
Proof.
  revert k. induction l as [|x l IH]; intros [|k]; simpl; try reflexivity.
  rewrite IH. reflexivity.
Qed.

Lemma nth_list_update_eq {A : Type} (l : list A) (k : nat) (v d : A) :
  k < length l -> nth k (list_update l k v) d = v.
Proof.
  revert k. induction l as [|x l IH]; intros [|k] H; simpl in *; try lia.
  - reflexivity.
  - apply IH. lia.
Qed.

Lemma nth_list_update_neq {A : Type} (l : list A) (k o : nat) (v d : A) :
  o <> k -> nth o (list_update l k v) d = nth o l d.
Proof.
  revert k o. induction l as [|x l IH]; intros [|k] [|o] H; simpl;
    try reflexivity; try lia.
  apply IH. lia.
Qed.

Lemma list_update_comm {A : Type} (l : list A) (j k : nat) (u v : A) :
  j <> k ->
  list_update (list_update l j u) k v = list_update (list_update l k v) j u.
Proof.
  revert j k. induction l as [|x l IH]; intros [|j] [|k] H; simpl;
    try reflexivity; try lia.
  f_equal. apply IH. lia.
Qed.

Section Fill.
Context {R : Type} (off : R -> nat) (val : R -> float).

Lemma fill_length (rs : list R) :
  forall init : list float,
    length (fold_left (fun d r => list_update d (off r) (val r)) rs init)
    = length init.
Proof.
  induction rs as [|r rs IH]; intros init; simpl; [reflexivity|].
  rewrite IH. apply list_update_length.
Qed.

Lemma fill_untouched (rs : list R) (o : nat) :
  (forall r, In r rs -> off r <> o) ->
  forall init : list float,
    nth o (fold_left (fun d r => list_update d (off r) (val r)) rs init) NaN
    = nth o init NaN.
Proof.
  induction rs as [|r rs IH]; intros H init; simpl; [reflexivity|].
  rewrite IH by (intros r' Hr'; apply H; right; exact Hr').
  apply nth_list_update_neq. intros E. apply (H r); [left; reflexivity|].
  symmetry. exact E.
Qed.

Lemma fill_last (r1 r2 : list R) (r : R) (init : list float) :
  off r < length init ->
  (forall r', In r' r2 -> off r' <> off r) ->
  nth (off r)
      (fold_left (fun d r => list_update d (off r) (val r)) (r1 ++ r :: r2) init)
      NaN
  = val r.
Proof.
  intros Hlt H2. rewrite fold_left_app. cbn [fold_left].
  rewrite fill_untouched by exact H2.
  apply nth_list_update_eq. rewrite fill_length. exact Hlt.
Qed.

Lemma fill_permutation (rs rs' : list R) :
  Permutation rs rs' -> NoDup (map off rs) ->
  forall init : list float,
    fold_left (fun d r => list_update d (off r) (val r)) rs' init
    = fold_left (fun d r => list_update d (off r) (val r)) rs init.
Proof.
  induction 1 as [|x l l' Hp IH|x y l|l l' l'' Hp1 IH1 Hp2 IH2];
    intros Hnd init.
  - reflexivity.
  - simpl. apply IH. inversion Hnd; assumption.
  - simpl. f_equal. apply list_update_comm.
    inversion Hnd as [|? ? Hy _]; subst. intros E. apply Hy. left. exact E.
  - rewrite IH2, IH1; [reflexivity|exact Hnd|].
    eapply Permutation_NoDup; [|exact Hnd]. apply Permutation_map. exact Hp1.
Qed.
End Fill.

(** Offsets in C order. *)

Lemma ravel_bound (shp : list nat) :
  forall idx, Forall2 (fun i d => i < d) idx shp -> ravel shp idx < np_prod shp.
Proof.
  induction shp as [|d shp IH]; intros idx H; inversion H as [|i ? idx' ? Hi H']; subst.
  - simpl. lia.
  - cbn [ravel np_prod fold_right]. specialize (IH idx' H').
    change (fold_right Nat.mul 1 shp) with (np_prod shp). nia.
Qed.

Lemma ravel_inj (shp : list nat) :
  forall idx idx',
    Forall2 (fun i d => i < d) idx shp -> Forall2 (fun i d => i < d) idx' shp ->
    ravel shp idx = ravel shp idx' -> idx = idx'.
Proof.
  induction shp as [|d shp IH]; intros idx idx' H H' E;
    inversion H as [|i ? idx1 ? Hi H1]; inversion H' as [|i' ? idx1' ? Hi' H1'];
    subst; [reflexivity|].
  cbn [ravel] in E.
  pose proof (ravel_bound shp idx1 H1) as B.
  pose proof (ravel_bound shp idx1' H1') as B'.
  assert (Ei : i = i') by nia. subst i'.
  f_equal. apply IH; [assumption..|]. lia.
Qed.

Lemma grid_coords_inj (axes : list (list Qc)) :
  Forall (@NoDup Qc) axes ->
  forall idx idx',
    Forall2 (fun i d => i < d) idx (map (@length Qc) axes) ->
    Forall2 (fun i d => i < d) idx' (map (@length Qc) axes) ->
    grid_coords axes idx = grid_coords axes idx' -> idx = idx'.
Proof.
  induction 1 as [|a axes Ha _ IH]; intros idx idx' H H' E;
    inversion H as [|i ? idx1 ? Hi H1]; inversion H' as [|i' ? idx1' ? Hi' H1'];
    subst; [reflexivity|].
  cbn [grid_coords combine map fst snd] in E. injection E as Ev E.
  f_equal.
  - rewrite NoDup_nth in Ha. apply (Ha i i' Hi Hi' Ev).
  - apply IH; assumption.
Qed.

Section RawCells.
Variables (DF : DataFrame) (grid_params : list string).

Lemma raw_axes_sorted : Forall (Sorted Qclt) (raw_axes DF grid_params).
Proof.
  unfold raw_axes. apply Forall_map. apply Forall_forall. intros p _.
  apply np_unique_sorted.
Qed.

Lemma raw_axes_NoDup : Forall (@NoDup Qc) (raw_axes DF grid_params).
Proof.
  eapply Forall_impl; [|exact raw_axes_sorted]. apply Sorted_Qclt_NoDup.
Qed.

Lemma row_value_in_axis (row : list Qc) (p : string) :
  In row (df_rows DF) ->
  In (row_value (df_columns DF) row p) (np_unique (column_values DF p)).
Proof.
  intros Hrow. apply np_unique_In. unfold column_values.
  apply (in_map (fun row => row_value (df_columns DF) row p)). exact Hrow.
Qed.

Lemma row_point_coords (row : list Qc) :
  In row (df_rows DF) ->
  grid_coords (raw_axes DF grid_params) (row_index DF grid_params row)
  = row_point DF grid_params row.
Proof.
  intros Hrow. unfold grid_coords, raw_axes, row_index, row_point.
  rewrite combine_map_map, map_map. apply map_ext. intros p. cbn [fst snd].
  destruct (index_of_spec _ _ (row_value_in_axis row p Hrow)) as [H _].
  apply nth_error_nth. exact H.
Qed.

Lemma row_index_of_point (row : list Qc) (idx : list nat) :
  In row (df_rows DF) ->
  Forall2 (fun i d => i < d) idx (raw_shape DF grid_params) ->
  row_point DF grid_params row = grid_coords (raw_axes DF grid_params) idx ->
  row_index DF grid_params row = idx.
Proof.
  intros Hrow Hidx E. apply (grid_coords_inj (raw_axes DF grid_params)).
  - apply raw_axes_NoDup.
  - apply row_index_bounds. exact Hrow.
  - exact Hidx.
  - rewrite row_point_coords by exact Hrow. exact E.
Qed.

Lemma row_index_same_point (row row' : list Qc) :
  In row (df_rows DF) -> In row' (df_rows DF) ->
  row_index DF grid_params row' = row_index DF grid_params row ->
  row_point DF grid_params row' = row_point DF grid_params row.
Proof.
  intros Hrow Hrow' E.
  rewrite <- (row_point_coords row Hrow), <- (row_point_coords row' Hrow'), E.
  reflexivity.
Qed.

Lemma raw_offsets_differ (row row' : list Qc) :
  In row (df_rows DF) -> In row' (df_rows DF) ->
  row_point DF grid_params row' <> row_point DF grid_params row ->
  ravel (raw_shape DF grid_params) (row_index DF grid_params row')
  <> ravel (raw_shape DF grid_params) (row_index DF grid_params row).
Proof.
  intros Hrow Hrow' Hne E. apply Hne. apply row_index_same_point; try assumption.
  apply (ravel_inj (raw_shape DF grid_params)); try assumption;
    apply row_index_bounds; assumption.
Qed.

Lemma raw_array_length (line : string) :
  length (fdata (raw_array DF grid_params line))
  = np_prod (raw_shape DF grid_params).
Proof.
  unfold raw_array. cbn [fdata]. rewrite fill_length. apply repeat_length.
Qed.
End RawCells.

Lemma ex_table_wf : df_wf ex_table.
Proof.
  split.
  - repeat (constructor; [cbn; intuition discriminate|]). constructor.
  - repeat constructor.
Defined.

Lemma NoDup_two (a b : string) : a <> b -> NoDup [a; b].
Proof.
  intros H. constructor; [intros [E|[]]; apply H; symmetry; exact E|].
  constructor; [intros []|constructor].
Defined.

Lemma NoDup_one (a : string) : NoDup [a].
Proof. constructor; [intros []|constructor]. Defined.

(** X20 ([construct_raw_grids], outcomes).  For a table with distinct column
    labels and parameter and line names without repetition,
    [construct_raw_grids] returns exactly when every parameter and every line
    is a column, there is at least one line, the table has a row (or no
    parameter is asked for), and the number of rows is the product of the
    numbers of distinct values in the parameter columns.  Otherwise, in this
    order: a parameter that is no column is a KeyError; a table without rows
    is a ValueError; a wrong number of rows is a ValueError; a line that is no
    column is a KeyError; an empty list of lines is an IndexError. *)
Theorem raw_grid_outcomes (DF : DataFrame) (grid_params lines_list : list string) :
  df_wf DF -> NoDup grid_params -> NoDup lines_list ->
  (succeeds (construct_raw_grids DF grid_params lines_list)
   <-> incl grid_params (df_columns DF) /\ incl lines_list (df_columns DF)
       /\ lines_list <> [] /\ (grid_params = [] \/ df_rows DF <> [])
       /\ np_prod (raw_shape DF grid_params) = length (df_rows DF))
  /\ (~ incl grid_params (df_columns DF) ->
      construct_raw_grids DF grid_params lines_list = Raise KeyError)
  /\ (incl grid_params (df_columns DF) ->
      grid_params <> [] -> df_rows DF = [] ->
      is_ValueError (construct_raw_grids DF grid_params lines_list))
  /\ (incl grid_params (df_columns DF) ->
      grid_params = [] \/ df_rows DF <> [] ->
      np_prod (raw_shape DF grid_params) <> length (df_rows DF) ->
      is_ValueError (construct_raw_grids DF grid_params lines_list))
  /\ (incl grid_params (df_columns DF) ->
      grid_params = [] \/ df_rows DF <> [] ->
      np_prod (raw_shape DF grid_params) = length (df_rows DF) ->
      ~ incl lines_list (df_columns DF) ->
      construct_raw_grids DF grid_params lines_list = Raise KeyError)
  /\ (incl grid_params (df_columns DF) ->
      grid_params = [] \/ df_rows DF <> [] ->
      np_prod (raw_shape DF grid_params) = length (df_rows DF) ->
      lines_list = [] ->
      construct_raw_grids DF grid_params lines_list = Raise IndexError).
Proof.
  intros Hwf Hparams Hlines.
  split; [split|].
  - intros [[G grids] H].
    destruct (construct_inv DF grid_params lines_list G grids Hwf Hparams Hlines H)
      as [Hpin [Hlin [Hne [Hr [_ [Hcount _]]]]]].
    repeat split; assumption.
  - intros [Hpin [Hlin [Hne [Hr Hcount]]]].
    destruct (raw_description_built DF grid_params Hr) as [G HG].
    rewrite (construct_closed DF grid_params lines_list G Hwf Hparams Hlines
               Hpin Hlin HG Hcount).
    destruct lines_list as [|l0 ls]; [congruence|]. eexists. reflexivity.
  - split; [apply construct_missing_param; assumption|].
    split; [apply construct_no_rows; assumption|].
    split; [apply construct_wrong_count; assumption|].
    split; [apply construct_missing_line; assumption|].
    intros Hpin Hr Hcount El.
    destruct (raw_description_built DF grid_params Hr) as [G HG].
    rewrite (construct_closed DF grid_params lines_list G Hwf Hparams Hlines
               Hpin); [rewrite El; reflexivity| |exact HG|exact Hcount].
    rewrite El. intros c [].
Qed.

Lemma raw_grid_outcomes_witness :
  succeeds (construct_raw_grids ex_table ["p"; "q"] ["Hbeta"]).
Proof.
  apply (proj1 (raw_grid_outcomes ex_table ["p"; "q"] ["Hbeta"] ex_table_wf
                  (NoDup_two "p" "q" ltac:(discriminate)) (NoDup_one "Hbeta"))).
  split; [intros c [<-|[<-|[]]]; cbn; tauto|].
  split; [intros c [<-|[]]; cbn; tauto|].
  split; [discriminate|].
  split; [right; discriminate|].
  vm_compute. reflexivity.
Defined.

(** X21 (the axes of the raw grid).  When [construct_raw_grids] returns, the
    grid description carries the parameter names as given, and the axis of
    each parameter is strictly ascending and holds exactly the values of that
    parameter's column.  The number of grid points is the number of rows of
    the table.  The dictionary of flux arrays has the lines as its keys, in
    order, and every array has the shape of the grid, with one cell per
    row. *)
Theorem raw_grid_axes (DF : DataFrame) (grid_params lines_list : list string)
    (G : NB_Grid) (grids : od string farray) :
  df_wf DF -> NoDup grid_params -> NoDup lines_list ->
  construct_raw_grids DF grid_params lines_list = Ok (G, grids) ->
  param_names G = grid_params
  /\ Forall2 (fun p a =>
                Sorted Qclt a
                /\ forall v, In v a
                             <-> exists row, In row (df_rows DF)
                                   /\ row_value (df_columns DF) row p = v)
             grid_params (param_values_arrs G)
  /\ grid_shape G = map (@length Qc) (param_values_arrs G)
  /\ n_gridpoints G = length (df_rows DF)
  /\ map fst grids = lines_list
  /\ Forall (fun la => fshape (snd la) = grid_shape G
                       /\ length (fdata (snd la)) = length (df_rows DF)) grids.
Proof.
  intros Hwf Hparams Hlines H.
  destruct (construct_inv DF grid_params lines_list G grids Hwf Hparams Hlines H)
    as [Hpin [Hlin [Hne [Hr [HG [Hcount Hgrids]]]]]].
  destruct (NB_Grid_init_inv _ _ _ HG) as [_ [Hnames [Harrs [Hshape _]]]].
  destruct (NB_Grid_init_fields _ _ _ Hparams HG) as [_ [_ [_ [Hn _]]]].
  split; [exact Hnames|].
  split.
  { rewrite Harrs. unfold raw_axes.
    rewrite <- (map_id grid_params) at 1. apply Forall2_map_same.
    intros p _. split; [apply np_unique_sorted|].
    intros v. rewrite np_unique_In. unfold column_values. rewrite in_map_iff.
    split; intros [row [H1 H2]]; exists row; tauto. }
  split; [rewrite Hshape, Harrs; reflexivity|].
  split; [rewrite Hn; exact Hcount|].
  subst grids. split.
  - rewrite map_map. cbn [fst]. apply map_id.
  - apply Forall_map. apply Forall_forall. intros line _. cbn [snd].
    split; [rewrite Hshape; reflexivity|].
    rewrite raw_array_length. exact Hcount.
Qed.

Lemma raw_grid_axes_witness :
  exists G grids,
    construct_raw_grids ex_table ["p"; "q"] ["Hbeta"] = Ok (G, grids)
    /\ param_names G = ["p"; "q"]
    /\ n_gridpoints G = 4.
Proof.
  destruct (construct_raw_grids ex_table ["p"; "q"] ["Hbeta"])
    as [[G grids]|e] eqn:E; [|vm_compute in E; discriminate E].
  exists G, grids. split; [reflexivity|].
  destruct (raw_grid_axes ex_table ["p"; "q"] ["Hbeta"] G grids ex_table_wf
              (NoDup_two "p" "q" ltac:(discriminate)) (NoDup_one "Hbeta") E)
    as [Hn [_ [_ [Hc _]]]].
  split; [exact Hn|exact Hc].
Defined.

Lemma In_raw_grids (DF : DataFrame) (grid_params lines_list : list string)
    (line : string) (a : farray) :
  In (line, a) (map (fun line => (line, raw_array DF grid_params line)) lines_list) ->
  a = raw_array DF grid_params line.
Proof.
  intros Hin. apply in_map_iff in Hin. destruct Hin as [l [E _]].
  injection E as <- <-. reflexivity.
Qed.

(** X22 (the cells of the raw flux arrays).  When [construct_raw_grids]
    returns, every row of the table lies on the grid: its index is within the
    shape, and the axes hold the row's parameter values there.  The cell at
    the index of a row holds the flux of the last row of the table lying on
    that grid point; a cell whose grid point is on no row is NaN. *)
Theorem raw_grid_cells (DF : DataFrame) (grid_params lines_list : list string)
    (G : NB_Grid) (grids : od string farray) (line : string) (a : farray) :
  df_wf DF -> NoDup grid_params -> NoDup lines_list ->
  construct_raw_grids DF grid_params lines_list = Ok (G, grids) ->
  In (line, a) grids ->
  (forall row, In row (df_rows DF) ->
     Forall2 (fun i d => i < d) (row_index DF grid_params row) (fshape a)
     /\ grid_coords (param_values_arrs G) (row_index DF grid_params row)
        = row_point DF grid_params row)
  /\ (forall r1 row r2, df_rows DF = r1 ++ row :: r2 ->
        (forall row', In row' r2 ->
           row_point DF grid_params row' <> row_point DF grid_params row) ->
        fat_index a (row_index DF grid_params row)
        = Finite (row_value (df_columns DF) row line))
  /\ (forall idx, Forall2 (fun i d => i < d) idx (fshape a) ->
        (forall row, In row (df_rows DF) ->
           row_point DF grid_params row
           <> grid_coords (param_values_arrs G) idx) ->
        fat_index a idx = NaN).
Proof.
  intros Hwf Hparams Hlines H Hin.
  destruct (construct_inv DF grid_params lines_list G grids Hwf Hparams Hlines H)
    as [Hpin [Hlin [Hne [Hr [HG [Hcount Hgrids]]]]]].
  destruct (NB_Grid_init_inv _ _ _ HG) as [_ [_ [Harrs _]]].
  subst grids. apply In_raw_grids in Hin. subst a. rewrite Harrs.
  cbn [raw_array fshape].
  split; [|split].
  - intros row Hrow. split; [apply row_index_bounds; exact Hrow|].
    apply row_point_coords. exact Hrow.
  - intros r1 row r2 Hrows Hlast. unfold fat_index. cbn [raw_array fshape fdata].
    rewrite Hrows.
    apply (fill_last
             (fun row => ravel (raw_shape DF grid_params)
                               (row_index DF grid_params row))
             (fun row => Finite (row_value (df_columns DF) row line))).
    + rewrite repeat_length. apply ravel_bound. apply row_index_bounds.
      rewrite Hrows. apply in_or_app. right. left. reflexivity.
    + intros row' Hrow'. apply raw_offsets_differ.
      * rewrite Hrows. apply in_or_app. right. left. reflexivity.
      * rewrite Hrows. apply in_or_app. right. right. exact Hrow'.
      * apply Hlast. exact Hrow'.
  - intros idx Hidx Hnone. unfold fat_index. cbn [raw_array fshape fdata].
    rewrite (fill_untouched
               (fun row => ravel (raw_shape DF grid_params)
                                 (row_index DF grid_params row))
               (fun row => Finite (row_value (df_columns DF) row line))).
    + apply nth_repeat.
    + intros row Hrow E. apply (Hnone row Hrow).
      rewrite <- (row_point_coords DF grid_params row Hrow). f_equal.
      apply (ravel_inj (raw_shape DF grid_params)); [|exact Hidx|exact E].
      apply row_index_bounds. exact Hrow.
Qed.

Lemma raw_grid_cells_witness :
  exists G grids a,
    construct_raw_grids ex_table ["p"; "q"] ["Hbeta"] = Ok (G, grids)
    /\ In ("Hbeta", a) grids
    /\ fat_index a (row_index ex_table ["p"; "q"] [Qc_of_Z 7; Qc_of_Z 40; Qc_of_Z 1])
       = Finite (Qc_of_Z 40).
Proof.
  destruct (construct_raw_grids ex_table ["p"; "q"] ["Hbeta"])
    as [[G grids]|e] eqn:E; [|vm_compute in E; discriminate E].
  assert (Hg : exists a, In ("Hbeta", a) grids).
  { vm_compute in E. injection E as _ <-. eexists. left. reflexivity. }
  destruct Hg as [a Ha]. exists G, grids, a.
  split; [reflexivity|]. split; [exact Ha|].
  destruct (raw_grid_cells ex_table ["p"; "q"] ["Hbeta"] G grids "Hbeta" a
              ex_table_wf (NoDup_two "p" "q" ltac:(discriminate))
              (NoDup_one "Hbeta") E Ha) as [_ [Hcell _]].
  apply (Hcell [] [Qc_of_Z 7; Qc_of_Z 40; Qc_of_Z 1]
               [[Qc_of_Z 5; Qc_of_Z 10; Qc_of_Z 0];
                [Qc_of_Z 5; Qc_of_Z 30; Qc_of_Z 1];
                [Qc_of_Z 7; Qc_of_Z 20; Qc_of_Z 0]]).
  - reflexivity.
  - intros row' [<-|[<-|[<-|[]]]]; vm_compute; intros E'; discriminate E'.
Defined.

(** Injectivity carried along a list. *)
Lemma NoDup_map_equiv {A B C : Type} (f : A -> B) (g : A -> C) (l : list A) :
  (forall x y, In x l -> In y l -> g x = g y -> f x = f y) ->
  NoDup (map f l) -> NoDup (map g l).
Proof.
  induction l as [|x l IH]; intros H Hnd; [constructor|].
  cbn [map] in *. inversion Hnd as [|? ? Hx Hnd']; subst. constructor.
  - intros Hin. apply Hx. apply in_map_iff in Hin. destruct Hin as [y [E Hy]].
    apply in_map_iff. exists y. split; [|exact Hy].
    apply H; [right; exact Hy|left; reflexivity|exact E].
  - apply IH; [|exact Hnd']. intros y z Hy Hz. apply H; right; assumption.
Qed.

Section RawComplete.
Variables (DF : DataFrame) (grid_params : list string).
Hypothesis Hcount : np_prod (raw_shape DF grid_params) = length (df_rows DF).

Let off (row : list Qc) : nat :=
  ravel (raw_shape DF grid_params) (row_index DF grid_params row).

Lemma raw_offsets_bound (row : list Qc) :
  In row (df_rows DF) -> off row < np_prod (raw_shape DF grid_params).
Proof. intros Hrow. apply ravel_bound. apply row_index_bounds. exact Hrow. Qed.

Lemma raw_offsets_NoDup :
  NoDup (map (row_point DF grid_params) (df_rows DF))
  <-> NoDup (map off (df_rows DF)).
Proof.
  split; apply NoDup_map_equiv; intros x y Hx Hy E.
  - apply row_index_same_point; try assumption.
    apply (ravel_inj (raw_shape DF grid_params)); try assumption;
      apply row_index_bounds; assumption.
  - unfold off. f_equal.
    apply (grid_coords_inj (raw_axes DF grid_params)).
    + apply raw_axes_NoDup.
    + apply row_index_bounds; assumption.
    + apply row_index_bounds; assumption.
    + rewrite !row_point_coords by assumption. exact E.
Qed.

Lemma raw_offsets_incl :
  incl (map off (df_rows DF)) (seq 0 (np_prod (raw_shape DF grid_params))).
Proof.
  intros o Ho. apply in_map_iff in Ho. destruct Ho as [row [<- Hrow]].
  apply in_seq. split; [lia|]. cbn. apply raw_offsets_bound. exact Hrow.
Qed.

(** One row per grid point: every offset is the offset of a row. *)
Lemma raw_offsets_cover (o : nat) :
  NoDup (map off (df_rows DF)) ->
  o < np_prod (raw_shape DF grid_params) ->
  exists row, In row (df_rows DF) /\ off row = o.
Proof.
  intros Hnd Ho.
  assert (Hin : In o (map off (df_rows DF))).
  { apply (NoDup_length_incl Hnd (l' := seq 0 (np_prod (raw_shape DF grid_params)))).
    - rewrite length_seq, length_map. lia.
    - exact raw_offsets_incl.
    - apply in_seq. lia. }
  apply in_map_iff in Hin. destruct Hin as [row [E Hrow]]. exists row. tauto.
Qed.

(** Two rows on one grid point: some offset is the offset of no row. *)
Lemma raw_offsets_gap :
  ~ NoDup (map off (df_rows DF)) ->
  exists o, o < np_prod (raw_shape DF grid_params)
            /\ ~ In o (map off (df_rows DF)).
Proof.
  intros Hnd.
  destruct (Forall_Exists_dec (fun o => In o (map off (df_rows DF)))
              (fun o => in_dec Nat.eq_dec o (map off (df_rows DF)))
              (seq 0 (np_prod (raw_shape DF grid_params)))) as [H|H].
  - exfalso. apply Hnd.
    apply (NoDup_incl_NoDup (l := seq 0 (np_prod (raw_shape DF grid_params)))).
    + apply seq_NoDup.
    + rewrite length_seq, length_map. lia.
    + intros o Ho. rewrite Forall_forall in H. apply H. exact Ho.
  - apply Exists_exists in H. destruct H as [o [Ho Hn]]. exists o.
    apply in_seq in Ho. split; [lia|exact Hn].
Qed.

Lemma raw_cell_of_row (line : string) (row : list Qc) :
  NoDup (map off (df_rows DF)) -> In row (df_rows DF) ->
  nth (off row) (fdata (raw_array DF grid_params line)) NaN
  = Finite (row_value (df_columns DF) row line).
Proof.
  intros Hnd Hrow. apply in_split in Hrow. destruct Hrow as [r1 [r2 Hrows]].
  unfold raw_array. cbn [fdata]. rewrite Hrows.
  apply (fill_last off (fun row => Finite (row_value (df_columns DF) row line))).
  - rewrite repeat_length. apply raw_offsets_bound.
    rewrite Hrows. apply in_or_app. right. left. reflexivity.
  - intros row' Hrow' E. rewrite Hrows, map_app in Hnd. cbn [map] in Hnd.
    apply NoDup_remove_2 in Hnd. apply Hnd. apply in_or_app. right.
    rewrite <- E. apply in_map. exact Hrow'.
Qed.

Lemma raw_array_finite (line : string) :
  NoDup (map off (df_rows DF)) ->
  ~ In NaN (fdata (raw_array DF grid_params line)).
Proof.
  intros Hnd Hin. apply (In_nth _ _ NaN) in Hin. destruct Hin as [o [Ho E]].
  rewrite raw_array_length in Ho.
  destruct (raw_offsets_cover o Hnd Ho) as [row [Hrow Eo]].
  rewrite <- Eo, (raw_cell_of_row line row Hnd Hrow) in E. discriminate E.
Qed.

Lemma raw_array_gap (line : string) :
  ~ NoDup (map off (df_rows DF)) ->
  In NaN (fdata (raw_array DF grid_params line)).
Proof.
  intros Hnd. destruct (raw_offsets_gap Hnd) as [o [Ho Hn]].
  assert (E : nth o (fdata (raw_array DF grid_params line)) NaN = NaN).
  { unfold raw_array. cbn [fdata].
    rewrite (fill_untouched off
               (fun row => Finite (row_value (df_columns DF) row line))).
    - apply nth_repeat.
    - intros row Hrow Eo. apply Hn. rewrite <- Eo. apply in_map. exact Hrow. }
  rewrite <- E. apply nth_In. rewrite raw_array_length. exact Ho.
Qed.
End RawComplete.

Lemma NoDup_points_dec (DF : DataFrame) (grid_params : list string) :
  {NoDup (map (row_point DF grid_params) (df_rows DF))}
  + {~ NoDup (map (row_point DF grid_params) (df_rows DF))}.
Proof.
  apply ListDec.NoDup_dec. apply list_eq_dec. apply Qc_eq_dec.
Qed.

(** X23 (complete tables).  When [construct_raw_grids] returns, a flux array
    is free of NaN exactly when no two rows of the table lie on the same grid
    point.  In that case every cell of the grid is the cell of one row, and
    holds the flux of that row. *)
Theorem raw_grid_complete (DF : DataFrame) (grid_params lines_list : list string)
    (G : NB_Grid) (grids : od string farray) (line : string) (a : farray) :
  df_wf DF -> NoDup grid_params -> NoDup lines_list ->
  construct_raw_grids DF grid_params lines_list = Ok (G, grids) ->
  In (line, a) grids ->
  (NoDup (map (row_point DF grid_params) (df_rows DF)) <-> ~ In NaN (fdata a))
  /\ (NoDup (map (row_point DF grid_params) (df_rows DF)) ->
      (forall row, In row (df_rows DF) ->
         fat_index a (row_index DF grid_params row)
         = Finite (row_value (df_columns DF) row line))
      /\ (forall idx, Forall2 (fun i d => i < d) idx (fshape a) ->
            exists row, In row (df_rows DF)
                        /\ row_index DF grid_params row = idx)).
Proof.
  intros Hwf Hparams Hlines H Hin.
  destruct (construct_inv DF grid_params lines_list G grids Hwf Hparams Hlines H)
    as [Hpin [Hlin [Hne [Hr [HG [Hcount Hgrids]]]]]].
  subst grids. apply In_raw_grids in Hin. subst a.
  split; [split|].
  - intros Hnd. apply raw_array_finite; [exact Hcount|].
    apply raw_offsets_NoDup. exact Hnd.
  - intros Hfin. destruct (NoDup_points_dec DF grid_params) as [Hnd|Hnd];
      [exact Hnd|]. exfalso. apply Hfin. apply raw_array_gap; [exact Hcount|].
    intros Hoff. apply Hnd. apply raw_offsets_NoDup. exact Hoff.
  - intros Hnd. apply raw_offsets_NoDup in Hnd. split.
    + intros row Hrow. unfold fat_index. cbn [raw_array fshape].
      apply (raw_cell_of_row DF grid_params line row Hnd Hrow).
    + intros idx Hidx. cbn [raw_array fshape] in Hidx.
      destruct (raw_offsets_cover DF grid_params Hcount
                  (ravel (raw_shape DF grid_params) idx) Hnd
                  (ravel_bound _ _ Hidx)) as [row [Hrow E]].
      exists row. split; [exact Hrow|].
      apply (ravel_inj (raw_shape DF grid_params)); [|exact Hidx|exact E].
      apply row_index_bounds. exact Hrow.
Qed.

Lemma raw_grid_complete_witness :
  exists G grids a,
    construct_raw_grids ex_table ["p"; "q"] ["Hbeta"] = Ok (G, grids)
    /\ In ("Hbeta", a) grids
    /\ ~ In NaN (fdata a).
Proof.
  destruct (construct_raw_grids ex_table ["p"; "q"] ["Hbeta"])
    as [[G grids]|e] eqn:E; [|vm_compute in E; discriminate E].
  assert (Hg : exists a, In ("Hbeta", a) grids).
  { vm_compute in E. injection E as _ <-. eexists. left. reflexivity. }
  destruct Hg as [a Ha]. exists G, grids, a.
  split; [reflexivity|]. split; [exact Ha|].
  apply (proj1 (raw_grid_complete ex_table ["p"; "q"] ["Hbeta"] G grids "Hbeta" a
                  ex_table_wf (NoDup_two "p" "q" ltac:(discriminate))
                  (NoDup_one "Hbeta") E Ha)).
  vm_compute.
  repeat (constructor;
          [cbn; intros Hc;
           repeat (destruct Hc as [Hc|Hc]; [discriminate Hc|]); exact Hc|]).
  constructor.
Defined.

Lemma Qclt_strict (x : Qc) : ~ (x < x)%Qc.
Proof. intros H. apply (Qclt_not_eq _ _ H). reflexivity. Qed.

(** Two strictly ascending lists with the same members are the same list. *)
Lemma Sorted_Qclt_ext (l1 : list Qc) :
  forall l2, Sorted Qclt l1 -> Sorted Qclt l2 ->
             (forall v, In v l1 <-> In v l2) -> l1 = l2.
Proof.
  induction l1 as [|x l1 IH]; intros [|y l2] H1 H2 H.
  - reflexivity.
  - exfalso. apply (proj2 (H y)). left. reflexivity.
  - exfalso. apply (proj1 (H x)). left. reflexivity.
  - apply Sorted_StronglySorted in H1; [|intros a b c; apply Qclt_trans].
    apply Sorted_StronglySorted in H2; [|intros a b c; apply Qclt_trans].
    inversion H1 as [|? ? S1 F1]; inversion H2 as [|? ? S2 F2]; subst.
    rewrite Forall_forall in F1, F2.
    assert (E : x = y).
    { destruct (proj1 (H x) (or_introl eq_refl)) as [E|Hx]; [symmetry; exact E|].
      destruct (proj2 (H y) (or_introl eq_refl)) as [E|Hy]; [exact E|].
      exfalso. apply (Qclt_strict x).
      apply (Qclt_trans _ y); [apply F1|apply F2]; assumption. }
    subst y. f_equal. apply IH.
    + apply StronglySorted_Sorted. exact S1.
    + apply StronglySorted_Sorted. exact S2.
    + intros v. split; intros Hv.
      * destruct (proj1 (H v) (or_intror Hv)) as [E|Hv']; [|exact Hv'].
        subst v. exfalso. apply (Qclt_strict x). apply F1. exact Hv.
      * destruct (proj2 (H v) (or_intror Hv)) as [E|Hv']; [|exact Hv'].
        subst v. exfalso. apply (Qclt_strict x). apply F2. exact Hv.
Qed.

Section RowOrder.
Variables (DF DF' : DataFrame) (grid_params : list string).
Hypothesis Hcols : df_columns DF' = df_columns DF.
Hypothesis Hperm : Permutation (df_rows DF) (df_rows DF').

Lemma axis_row_order (p : string) :
  np_unique (column_values DF' p) = np_unique (column_values DF p).
Proof.
  apply Sorted_Qclt_ext; try apply np_unique_sorted.
  intros v. rewrite !np_unique_In. unfold column_values. rewrite Hcols.
  split; apply Permutation_in; apply Permutation_map;
    [apply Permutation_sym|]; exact Hperm.
Qed.

Lemma raw_axes_row_order : raw_axes DF' grid_params = raw_axes DF grid_params.
Proof. unfold raw_axes. apply map_ext. intros p. apply axis_row_order. Qed.

Lemma raw_shape_row_order : raw_shape DF' grid_params = raw_shape DF grid_params.
Proof. unfold raw_shape. rewrite raw_axes_row_order. reflexivity. Qed.

Lemma row_index_row_order (row : list Qc) :
  row_index DF' grid_params row = row_index DF grid_params row.
Proof.
  unfold row_index. apply map_ext. intros p.
  rewrite Hcols, axis_row_order. reflexivity.
Qed.

Lemma raw_array_row_order (line : string) :
  NoDup (map (row_point DF grid_params) (df_rows DF)) ->
  np_prod (raw_shape DF grid_params) = length (df_rows DF) ->
  raw_array DF' grid_params line = raw_array DF grid_params line.
Proof.
  intros Hnd Hcount. unfold raw_array. rewrite raw_shape_row_order, Hcols.
  f_equal.
  rewrite (fold_left_ext
             (fun d row =>
                list_update d
                  (ravel (raw_shape DF grid_params) (row_index DF' grid_params row))
                  (Finite (row_value (df_columns DF) row line)))
             (fun d row =>
                list_update d
                  (ravel (raw_shape DF grid_params) (row_index DF grid_params row))
                  (Finite (row_value (df_columns DF) row line))))
    by (intros d row; rewrite row_index_row_order; reflexivity).
  apply (fill_permutation
           (fun row => ravel (raw_shape DF grid_params)
                             (row_index DF grid_params row))
           (fun row => Finite (row_value (df_columns DF) row line))).
  - exact Hperm.
  - apply (raw_offsets_NoDup DF grid_params). exact Hnd.
Qed.
End RowOrder.

(** X24 (the order of the rows).  When [construct_raw_grids] returns on a
    table in which no two rows lie on the same grid point, it returns the same
    grid description and the same flux arrays on every table with the same
    columns and the same rows in another order. *)
Theorem raw_grid_row_order (DF DF' : DataFrame) (grid_params lines_list : list string)
    (G : NB_Grid) (grids : od string farray) :
  df_wf DF -> NoDup grid_params -> NoDup lines_list ->
  df_columns DF' = df_columns DF ->
  Permutation (df_rows DF) (df_rows DF') ->
  NoDup (map (row_point DF grid_params) (df_rows DF)) ->
  construct_raw_grids DF grid_params lines_list = Ok (G, grids) ->
  construct_raw_grids DF' grid_params lines_list = Ok (G, grids).
Proof.
  intros Hwf Hparams Hlines Hcols Hperm Hnd H.
  destruct (construct_inv DF grid_params lines_list G grids Hwf Hparams Hlines H)
    as [Hpin [Hlin [Hne [Hr [HG [Hcount Hgrids]]]]]].
  assert (Hwf' : df_wf DF').
  { destruct Hwf as [Hc Hrows]. split; [rewrite Hcols; exact Hc|].
    rewrite Hcols. eapply Permutation_Forall; [exact Hperm|exact Hrows]. }
  rewrite (construct_closed DF' grid_params lines_list G Hwf' Hparams Hlines).
  - destruct lines_list as [|l0 ls]; [congruence|].
    subst grids. apply f_equal. apply f_equal. apply map_ext. intros line.
    rewrite (raw_array_row_order DF DF' grid_params Hcols Hperm line Hnd Hcount).
    reflexivity.
  - rewrite Hcols. exact Hpin.
  - rewrite Hcols. exact Hlin.
  - rewrite (raw_axes_row_order DF DF' grid_params Hcols Hperm). exact HG.
  - rewrite (raw_shape_row_order DF DF' grid_params Hcols Hperm), Hcount.
    apply Permutation_length. exact Hperm.
Qed.

Lemma raw_grid_row_order_witness :
  exists G grids,
    construct_raw_grids ex_table ["p"; "q"] ["Hbeta"] = Ok (G, grids)
    /\ construct_raw_grids
         {| df_columns := df_columns ex_table;
            df_rows := rev (df_rows ex_table) |} ["p"; "q"] ["Hbeta"]
       = Ok (G, grids).
Proof.
  destruct (construct_raw_grids ex_table ["p"; "q"] ["Hbeta"])
    as [[G grids]|e] eqn:E; [|vm_compute in E; discriminate E].
  exists G, grids. split; [reflexivity|].
  apply (raw_grid_row_order ex_table
           {| df_columns := df_columns ex_table;
              df_rows := rev (df_rows ex_table) |}
           ["p"; "q"] ["Hbeta"] G grids ex_table_wf
           (NoDup_two "p" "q" ltac:(discriminate)) (NoDup_one "Hbeta")
           eq_refl (Permutation_rev (df_rows ex_table))).
  - vm_compute.
    repeat (constructor;
            [cbn; intros Hc;
             repeat (destruct Hc as [Hc|Hc]; [discriminate Hc|]); exact Hc|]).
    constructor.
  - exact E.
Defined.

Lemma finite_cells (l : list float) :
  Forall (fun x => exists q, x = Finite q) l ->
  l = map Finite
          (map (fun x => match x with Finite q => q | _ => 0%Qc end) l).
Proof.
  induction 1 as [|x l [q ->] _ IH]; [reflexivity|].
  cbn [map]. f_equal. exact IH.
Qed.

Lemma raw_array_all_finite (DF : DataFrame) (grid_params : list string)
    (line : string) :
  np_prod (raw_shape DF grid_params) = length (df_rows DF) ->
  NoDup (map (row_point DF grid_params) (df_rows DF)) ->
  Forall (fun x => exists q, x = Finite q)
         (fdata (raw_array DF grid_params line)).
Proof.
  intros Hcount Hnd. apply (proj1 (raw_offsets_NoDup DF grid_params)) in Hnd.
  apply Forall_nth. intros o d Ho. rewrite raw_array_length in Ho.
  destruct (raw_offsets_cover DF grid_params Hcount o Hnd Ho) as [row [Hrow Eo]].
  rewrite (nth_indep _ d NaN) by (rewrite raw_array_length; exact Ho).
  rewrite <- Eo, (raw_cell_of_row DF grid_params line row Hnd Hrow).
  eexists. reflexivity.
Qed.

(** X25 (from the table to the interpolated grids).  Take a table in which
    no two rows lie on the same grid point, with at least one parameter, and
    in which every parameter column holds at least two distinct values.
    When [construct_raw_grids] returns on it, its flux arrays hold numbers
    only, so the raw grid is its description together with these arrays, and
    [interpolate_flux_arrays] on that raw grid, for a requested shape with
    one length of at least two per parameter, returns: a grid with the same
    parameter names, of the requested shape, holding under ["No_norm"] one
    array per line, in the order of the lines. *)
Theorem raw_grids_interpolate (DF : DataFrame) (grid_params lines_list : list string)
    (G : NB_Grid) (raw : od string farray) (interpd_shape : list Z) :
  df_wf DF -> NoDup grid_params -> NoDup lines_list ->
  construct_raw_grids DF grid_params lines_list = Ok (G, raw) ->
  NoDup (map (row_point DF grid_params) (df_rows DF)) ->
  grid_params <> [] ->
  Forall (fun d => 2 <= d) (raw_shape DF grid_params) ->
  length interpd_shape = length grid_params ->
  Forall (fun n => (2 <= n)%Z) interpd_shape ->
  Forall (fun la => fdata (snd la) = map Finite (data (finite_part (snd la)))) raw
  /\ raw_lines (map (fun la => (fst la, finite_part (snd la))) raw)
     = map (fun la => (fst la, Arr (snd la))) raw
  /\ exists Interpd_grids no_norm,
       interpolate_flux_arrays
         (with_grids G (raw_lines (map (fun la => (fst la, finite_part (snd la)))
                                       raw)))
         interpd_shape
       = Ok Interpd_grids
       /\ param_names Interpd_grids = grid_params
       /\ grid_shape Interpd_grids = map Z.to_nat interpd_shape
       /\ grids Interpd_grids = [("No_norm", Sub no_norm)]
       /\ map fst no_norm = lines_list.
Proof.
  intros Hwf Hparams Hlines H Hnd Hpne Hshape2 Hlen Hshp.
  destruct (construct_inv DF grid_params lines_list G raw Hwf Hparams Hlines H)
    as [Hpin [Hlin [Hne [Hr [HG [Hcount Hraw]]]]]].
  subst raw.
  assert (Hfin : forall line,
             fdata (raw_array DF grid_params line)
             = map Finite (data (finite_part (raw_array DF grid_params line)))).
  { intros line. cbn [finite_part data].
    apply finite_cells. apply raw_array_all_finite; assumption. }
  split.
  { apply Forall_map. apply Forall_forall. intros line _. apply Hfin. }
  split.
  { unfold raw_lines. rewrite !map_map. apply map_ext. intros line.
    cbn [fst snd]. do 2 f_equal. unfold of_ndarray.
    rewrite <- Hfin. reflexivity. }
  rewrite map_map. cbn [fst snd].
  assert (Hl : length grid_params = length (raw_axes DF grid_params))
    by (unfold raw_axes; rewrite length_map; reflexivity).
  assert (Hdesc : raw_description grid_params (raw_axes DF grid_params) G).
  { split; [exact Hparams|]. split; [exact HG|]. split.
    - apply Forall_forall. intros a Ha. split.
      + pose proof (raw_axes_sorted DF grid_params) as Hs.
        rewrite Forall_forall in Hs. apply Hs. exact Ha.
      + unfold raw_shape in Hshape2. rewrite Forall_map, Forall_forall in Hshape2.
        apply Hshape2. exact Ha.
    - unfold raw_axes. destruct grid_params; [congruence|discriminate]. }
  assert (Hflux : raw_flux_arrays (raw_axes DF grid_params)
                    (map (fun line => (line, finite_part (raw_array DF grid_params line)))
                         lines_list)).
  { split.
    - rewrite map_map. cbn [fst]. rewrite map_id. exact Hlines.
    - apply Forall_map. apply Forall_forall. intros line _. cbn [snd]. split.
      + unfold ndarray_wf. cbn [finite_part data shape raw_array fshape].
        rewrite length_map.
        apply (raw_array_length DF grid_params line).
      + reflexivity. }
  assert (Hlen' : length interpd_shape = length (raw_axes DF grid_params))
    by (rewrite <- Hl; exact Hlen).
  destruct (interpolate_closed grid_params (raw_axes DF grid_params) G _
              interpd_shape Hdesc Hflux Hlen' Hshp) as [Gi [HGi Hrun]].
  assert (Hshp1 : Forall (fun n => (1 <= n)%Z) interpd_shape)
    by (eapply Forall_impl; [|exact Hshp]; simpl; intros; lia).
  destruct (interp_description grid_params (raw_axes DF grid_params)
              interpd_shape Hl Hlen' Hshp1)
    as [Gi' [HGi' [Hn [_ [Hgshape _]]]]].
  assert (Gi' = Gi) by congruence. subst Gi'.
  destruct lines_list as [|l0 ls]; [congruence|].
  eexists. eexists. split; [exact Hrun|].
  cbn [with_grids param_names grid_shape grids].
  split; [exact Hn|]. split; [exact Hgshape|]. split; [reflexivity|].
  rewrite !map_map. cbn [fst]. apply map_id.
Qed.

Lemma raw_grids_interpolate_witness :
  exists G raw Interpd_grids,
    construct_raw_grids ex_table ["p"; "q"] ["Hbeta"] = Ok (G, raw)
    /\ interpolate_flux_arrays
         (with_grids G (raw_lines (map (fun la => (fst la, finite_part (snd la)))
                                       raw)))
         [3%Z; 3%Z]
       = Ok Interpd_grids
    /\ grid_shape Interpd_grids = [3; 3].
Proof.
  destruct (construct_raw_grids ex_table ["p"; "q"] ["Hbeta"])
    as [[G raw]|e] eqn:E; [|vm_compute in E; discriminate E].
  destruct (raw_grids_interpolate ex_table ["p"; "q"] ["Hbeta"] G raw [3%Z; 3%Z]
              ex_table_wf (NoDup_two "p" "q" ltac:(discriminate))
              (NoDup_one "Hbeta") E) as [_ [_ [Interpd [no_norm [Hrun [_ [Hs _]]]]]]].
  - vm_compute.
    repeat (constructor;
            [cbn; intros Hc;
             repeat (destruct Hc as [Hc|Hc]; [discriminate Hc|]); exact Hc|]).
    constructor.
  - discriminate.
  - vm_compute. repeat constructor.
  - reflexivity.
  - repeat constructor; lia.
  - exists G, raw, Interpd. split; [reflexivity|]. split; [exact Hrun|exact Hs].
Defined.
